(** * obsidian-graph-memory: the graph engine of [src/graph.ts]

    A shallow embedding of the vault graph (nodes, forward and reverse
    wikilink edges), of the ingestion pipeline [buildGraph] and of the
    queries [queryRelated], [findPath], [getHubs], [getOrphans],
    [getClusters] and [getStats], together with the [graph_find_path] tool
    of [src/tools/find-path.ts], the [graph_query_related] tool of
    [src/tools/query-related.ts], the listing of the vault of
    [src/obsidian-api.ts] ([listDir], [listAllNotes]) and, of
    [src/index.ts], [parseInterval] and the builds whose errors [main]
    catches.

    Modelling conventions.
    - A JavaScript string is a [string]; each [ascii] stands for one UTF-16
      code unit below 256 (so [" "], tab, line feed ... and the no-break
      space 160 are the white space characters).
    - A JavaScript [Map] or [Set] iterates in insertion order, and that order
      is observable here (order of the BFS, of [getHubs], of [getClusters]).
      Maps are therefore association lists kept in insertion order
      ([JsMap]) and sets are duplicate-free lists in insertion order
      ([JsSet]).
    - A JavaScript number is a finite value, an infinity or NaN
      ([Js.number]); a finite value is kept as a rational, which every
      finite double is.  The distances of the traversals are whole numbers
      of hops; the depth of [queryRelated] and the count of [getHubs] are
      any number.
    - Regular expressions are kept as syntax trees and run by a small
      backtracking matcher ([Regex]) that lists the possible ends of a match
      in the priority order of the ECMAScript matcher.
    - [buildGraph] is asynchronous and may throw: it is a function of the
      vault (the listing and the per-note read results), of the clock and of
      the current graph, into a result and the new current graph. *)

From Stdlib Require Import List String Ascii Bool Arith ZArith Lia.
From Stdlib Require Import Permutation Sorted.
From Stdlib Require Import QArith Qround.
Import ListNotations.
Close Scope Q_scope.

Set Implicit Arguments.
Unset Strict Implicit.

(* ================================================================== *)
(** * JavaScript strings *)
(* ================================================================== *)

Module Js.

Definition chars (s : string) : list ascii := list_ascii_of_string s.
Definition str (l : list ascii) : string := string_of_list_ascii l.

(** WhiteSpace and LineTerminator code units below 256: what [\s] matches
    and what [trim] removes. *)
Definition isLineTerminator (c : ascii) : bool :=
  let n := nat_of_ascii c in (n =? 10) || (n =? 13).

Definition isWhiteSpace (c : ascii) : bool :=
  let n := nat_of_ascii c in
  ((9 <=? n) && (n <=? 13)) || (n =? 32) || (n =? 160).

Fixpoint trimStart (l : list ascii) : list ascii :=
  match l with
  | c :: l' => if isWhiteSpace c then trimStart l' else l
  | [] => []
  end.

Definition trimEnd (l : list ascii) : list ascii := rev (trimStart (rev l)).

(** [s.trim()] *)
Definition trim (s : string) : string := str (trimEnd (trimStart (chars s))).

(** [s.split(sep)] for a one-character separator; never the empty list. *)
Fixpoint splitChars (sep : ascii) (l : list ascii) : list (list ascii) :=
  match l with
  | [] => [[]]
  | c :: l' =>
      if Ascii.eqb c sep then [] :: splitChars sep l'
      else match splitChars sep l' with
           | seg :: segs => (c :: seg) :: segs
           | [] => [[c]]
           end
  end.

Definition split (sep : ascii) (s : string) : list string :=
  map str (splitChars sep (chars s)).

(** [parts.join(sep)] *)
Definition join (sep : string) (parts : list string) : string :=
  String.concat sep parts.

(** [s.toLowerCase()] on code units below 256: A-Z and the Latin-1 capitals
    192-222 (except the multiplication sign 215) move up by 32. *)
Definition lowerChar (c : ascii) : ascii :=
  let n := nat_of_ascii c in
  if ((65 <=? n) && (n <=? 90)) || ((192 <=? n) && (n <=? 222) && negb (n =? 215))
  then ascii_of_nat (n + 32) else c.

Definition toLowerCase (s : string) : string := str (map lowerChar (chars s)).

(** Truthiness of a string: only the empty string is falsy. *)
Definition truthy (s : string) : bool := negb (String.eqb s EmptyString).

(** [a || b] on strings. *)
Definition orElse (a b : string) : string := if truthy a then a else b.

(** [s.startsWith(prefix)] and [s.endsWith(suffix)] *)
Fixpoint hasPrefix (prefix l : list ascii) : bool :=
  match prefix, l with
  | [], _ => true
  | c :: prefix', d :: l' => Ascii.eqb c d && hasPrefix prefix' l'
  | _ :: _, [] => false
  end.

Definition startsWith (s prefix : string) : bool :=
  hasPrefix (chars prefix) (chars s).

Definition endsWith (s suffix : string) : bool :=
  hasPrefix (rev (chars suffix)) (rev (chars s)).

(** [s.slice(0, -1)] *)
Definition dropLast (s : string) : string := str (removelast (chars s)).

(** [s.includes(c)] for one code unit. *)
Definition includes (s : string) (c : ascii) : bool :=
  existsb (Ascii.eqb c) (chars s).

(** ** Numbers

    A JavaScript number is a double: a finite value, an infinity or NaN.
    Every finite double is a rational, and the code below only compares
    numbers and takes their integer part, which is exact on doubles; a
    finite number is therefore kept as a rational. *)
Inductive number : Type :=
| Finite (q : Q)
| PlusInfinity
| MinusInfinity
| NaN.

Definition ofZ (z : Z) : number := Finite (inject_Z z).
Definition ofNat (n : nat) : number := ofZ (Z.of_nat n).

(** [x < y] *)
Definition ltb (x y : number) : bool :=
  match x, y with
  | NaN, _ => false
  | _, NaN => false
  | Finite p, Finite q => negb (Qle_bool q p)
  | Finite _, PlusInfinity => true
  | Finite _, MinusInfinity => false
  | MinusInfinity, MinusInfinity => false
  | MinusInfinity, _ => true
  | PlusInfinity, _ => false
  end.

(** [x <= y] *)
Definition leb (x y : number) : bool :=
  match x, y with
  | NaN, _ => false
  | _, NaN => false
  | Finite p, Finite q => Qle_bool p q
  | Finite _, PlusInfinity => true
  | Finite _, MinusInfinity => false
  | MinusInfinity, _ => true
  | PlusInfinity, PlusInfinity => true
  | PlusInfinity, _ => false
  end.

(** [ToIntegerOrInfinity]: NaN counts as 0 and a finite number loses its
    fraction, towards zero. *)
Inductive IntegerOrInfinity : Type :=
| Integer (z : Z)
| PlusInf
| MinusInf.

Definition toIntegerOrInfinity (x : number) : IntegerOrInfinity :=
  match x with
  | Finite q => Integer (Z.quot (Qnum q) (Zpos (Qden q)))
  | PlusInfinity => PlusInf
  | MinusInfinity => MinusInf
  | NaN => Integer 0
  end.

(** [l.slice(0, end)]: a negative [end] counts from the end of the array. *)
Definition sliceTo (A : Type) (l : list A) (end_ : number) : list A :=
  let len := Z.of_nat (List.length l) in
  let final :=
    match toIntegerOrInfinity end_ with
    | MinusInf => 0%Z
    | Integer relativeEnd =>
        if (relativeEnd <? 0)%Z then Z.max (len + relativeEnd) 0
        else Z.min relativeEnd len
    | PlusInf => len
    end in
  firstn (Z.to_nat final) l.

End Js.

(* ================================================================== *)
(** * A backtracking matcher for the regular expressions of the program *)
(* ================================================================== *)

Module Regex.

(** The constructs the program's regular expressions use.  [Bol m] and
    [Eol m] are [^] and [$], [m] being the multiline flag; [Star g r] is
    [r*] when [g] is true and the lazy [r*?] otherwise; [Grp r] is the
    capture group: no expression of the program has more than one. *)
Inductive t : Type :=
| Eps
| Chr (c : ascii)
| Cls (p : ascii -> bool)
| Bol (m : bool)
| Eol (m : bool)
| Seq (r1 r2 : t)
| Alt (r1 r2 : t)
| Star (greedy : bool) (r : t)
| Grp (r : t).

(** A position in the input: the code units before it (nearest first), the
    code units after it, and the text of the capture group, if set. *)
Record pos : Type := Pos {
  before : list ascii;
  after : list ascii;
  captured : option (list ascii)
}.

Definition remaining (x : pos) : nat := List.length (after x).

(** The text between two positions of the same input, [x] before [y]. *)
Definition between (x y : pos) : list ascii :=
  firstn (remaining x - remaining y) (after x).

Definition step1 (p : ascii -> bool) (x : pos) : list pos :=
  match after x with
  | a :: rest => if p a then [Pos (a :: before x) rest (captured x)] else []
  | [] => []
  end.

Definition atLineStart (m : bool) (x : pos) : bool :=
  match before x with
  | [] => true
  | c :: _ => m && Js.isLineTerminator c
  end.

Definition atLineEnd (m : bool) (x : pos) : bool :=
  match after x with
  | [] => true
  | c :: _ => m && Js.isLineTerminator c
  end.

(** The iterations of a star whose body matches as [body] says: a greedy
    star tries one more iteration before it tries to stop, a lazy one tries
    to stop first.  An iteration that consumes nothing is rejected, as in
    ECMAScript's RepeatMatcher; the counter is the number of code units
    left, which bounds the iterations. *)
Fixpoint starLoop (greedy : bool) (body : pos -> list pos) (n : nat) (x : pos)
  : list pos :=
  match n with
  | 0 => [x]
  | S n' =>
      let more :=
        flat_map (starLoop greedy body n')
          (filter (fun y => remaining y <? remaining x) (body x)) in
      if greedy then more ++ [x] else x :: more
  end.

Definition setCaptured (x y : pos) : pos :=
  Pos (before y) (after y) (Some (between x y)).

(** [run r x] lists the positions at which a match of [r] started at [x] can
    end, in the order the backtracking matcher tries them: the head is the
    match JavaScript reports. *)
Fixpoint run (r : t) (x : pos) : list pos :=
  match r with
  | Eps => [x]
  | Chr c => step1 (Ascii.eqb c) x
  | Cls p => step1 p x
  | Bol m => if atLineStart m x then [x] else []
  | Eol m => if atLineEnd m x then [x] else []
  | Seq r1 r2 => flat_map (run r2) (run r1 x)
  | Alt r1 r2 => run r1 x ++ run r2 x
  | Star g r1 => starLoop g (run r1) (remaining x) x
  | Grp r1 => map (setCaptured x) (run r1 x)
  end.

Definition plus (r : t) : t := Seq r (Star true r).
Definition opt (r : t) : t := Alt r Eps.

Fixpoint seqs (rs : list t) : t :=
  match rs with
  | [] => Eps
  | [r] => r
  | r :: rs' => Seq r (seqs rs')
  end.

Definition lit (s : string) : t := seqs (map Chr (Js.chars s)).

(** A match: where it starts and where it ends. *)
Definition found : Type := (pos * pos)%type.

Definition matched (m : found) : list ascii := between (fst m) (snd m).

Definition group1 (m : found) : list ascii :=
  match captured (snd m) with Some g => g | None => [] end.

(** The leftmost match at or after a position ([exec] without the [g]
    flag, from the start of the input). *)
Fixpoint search (r : t) (bef aft : list ascii) : option found :=
  match run r (Pos bef aft None) with
  | y :: _ => Some (Pos bef aft None, y)
  | [] =>
      match aft with
      | [] => None
      | c :: aft' => search r (c :: bef) aft'
      end
  end.

(** All matches from left to right, each search resuming where the last
    match ended ([exec] with the [g] flag in a loop, [match] and [replace]
    with the [g] flag); after an empty match the search moves on by one
    code unit. *)
Fixpoint matchesFrom (r : t) (fuel : nat) (bef aft : list ascii) : list found :=
  match fuel with
  | 0 => []
  | S fuel' =>
      match search r bef aft with
      | None => []
      | Some (x, y) =>
          (x, y) ::
          (if remaining y <? remaining x
           then matchesFrom r fuel' (before y) (after y)
           else match after y with
                | [] => []
                | c :: rest => matchesFrom r fuel' (c :: before y) rest
                end)
      end
  end.

Definition matchAll (r : t) (s : string) : list found :=
  let l := Js.chars s in matchesFrom r (S (List.length l)) [] l.

(** [s.match(r)] for [r] without the [g] flag. *)
Definition exec (r : t) (s : string) : option found := search r [] (Js.chars s).

(** The input with the given matches cut out (a replacement by the empty string). *)
Fixpoint cut (ms : list found) (aft : list ascii) : list ascii :=
  match ms with
  | [] => aft
  | (x, y) :: ms' =>
      firstn (List.length aft - remaining x) aft ++ cut ms' (after y)
  end.

Definition removeFirst (r : t) (s : string) : string :=
  match exec r s with
  | Some m => Js.str (cut [m] (Js.chars s))
  | None => s
  end.

Definition removeAll (r : t) (s : string) : string :=
  Js.str (cut (matchAll r s) (Js.chars s)).

End Regex.

(* ================================================================== *)
(** * JavaScript [Set] and [Map] with string keys, in insertion order *)
(* ================================================================== *)

Module JsSet.

Definition t : Type := list string.

Definition empty : t := [].

Definition has (x : string) (s : t) : bool := existsb (String.eqb x) s.

(** [s.add(x)]: a new element goes last, a present one keeps its place. *)
Definition add (x : string) (s : t) : t := if has x s then s else s ++ [x].

(** [new Set(l)] *)
Definition ofList (l : list string) : t := fold_left (fun s x => add x s) l empty.

Definition size (s : t) : nat := List.length s.

End JsSet.

Module JsMap.

Section WithValues.
Variable V : Type.

Definition t : Type := list (string * V).

Definition empty : t := [].

Fixpoint get (k : string) (m : t) : option V :=
  match m with
  | [] => None
  | (k', v) :: m' => if String.eqb k k' then Some v else get k m'
  end.

Definition has (k : string) (m : t) : bool :=
  match get k m with Some _ => true | None => false end.

(** [m.set(k, v)]: a present key keeps its place and takes the new value,
    a new key goes last. *)
Fixpoint set (k : string) (v : V) (m : t) : t :=
  match m with
  | [] => [(k, v)]
  | (k', v') :: m' =>
      if String.eqb k k' then (k, v) :: m' else (k', v') :: set k v m'
  end.

Definition keys (m : t) : list string := map fst m.

Definition size (m : t) : nat := List.length m.

End WithValues.

Arguments empty {V}.

End JsMap.

(* ================================================================== *)
(** * The graph and its parsers ([src/graph.ts]) *)
(* ================================================================== *)

Record GraphNode : Type := mkNode {
  path : string;
  name : string;
  folder : string;
  tags : list string;
  hasContent : bool
}.

(** [lastRefresh] is the [Date] as milliseconds since the epoch. *)
Record Graph : Type := mkGraph {
  nodes : JsMap.t GraphNode;
  edges : JsMap.t JsSet.t;
  reverseEdges : JsMap.t JsSet.t;
  lastRefresh : Z
}.

(** The initial value of the module variable [graph]. *)
Definition emptyGraph : Graph :=
  mkGraph JsMap.empty JsMap.empty JsMap.empty 0.

(** [/\.md$/] *)
Definition mdSuffix : Regex.t :=
  Regex.Seq (Regex.lit ".md") (Regex.Eol false).

(** [path.split("/").pop() || path], then [.replace] of [/\.md$/] by the empty string *)
Definition nameFromPath (path : string) : string :=
  let basename := Js.orElse (last (Js.split "/" path) EmptyString) path in
  Regex.removeFirst mdSuffix basename.

Definition folderFromPath (path : string) : string :=
  let parts := Js.split "/" path in
  if 1 <? List.length parts then Js.join "/" (removelast parts) else EmptyString.

Definition notTargetDelim (c : ascii) : bool :=
  negb (Ascii.eqb c "]" || Ascii.eqb c "|" || Ascii.eqb c "#").

Definition isPipeOrHash (c : ascii) : bool :=
  Ascii.eqb c "|" || Ascii.eqb c "#".

Definition notCloseBracket (c : ascii) : bool := negb (Ascii.eqb c "]").

(** [/\[\[([^\]|#]+)(?:[|#][^\]]+)?\]\]/g] *)
Definition wikilinkRegex : Regex.t :=
  Regex.seqs
    [ Regex.lit "[[";
      Regex.Grp (Regex.plus (Regex.Cls notTargetDelim));
      Regex.opt (Regex.Seq (Regex.Cls isPipeOrHash)
                           (Regex.plus (Regex.Cls notCloseBracket)));
      Regex.lit "]]" ].

(** The [exec] loop pushes [match[1].trim()] for every match. *)
Definition parseWikilinks (content : string) : list string :=
  map (fun m => Js.trim (Js.str (Regex.group1 m)))
      (Regex.matchAll wikilinkRegex content).

Definition anyChar (c : ascii) : bool := true.
Definition dot (c : ascii) : bool := negb (Js.isLineTerminator c).
Definition isQuote (c : ascii) : bool :=
  Ascii.eqb c "034" || Ascii.eqb c "'".

Definition isLetter (c : ascii) : bool :=
  let n := nat_of_ascii c in
  ((97 <=? n) && (n <=? 122)) || ((65 <=? n) && (n <=? 90)).

Definition isTagChar (c : ascii) : bool :=
  let n := nat_of_ascii c in
  isLetter c || ((48 <=? n) && (n <=? 57))
  || Ascii.eqb c "_" || Ascii.eqb c "/" || Ascii.eqb c "-".

(** [/^---\n([\s\S]*?)\n---/] *)
Definition frontmatterRegex : Regex.t :=
  Regex.seqs
    [ Regex.Bol false; Regex.lit "---"; Regex.Chr "010";
      Regex.Grp (Regex.Star false (Regex.Cls anyChar));
      Regex.Chr "010"; Regex.lit "---" ].

(** The expression of [tagsLineMatch], with the flag [m]: [^tags:], white
    space, an opening bracket, the group (any run without a closing
    bracket) and a closing bracket. *)
Definition tagsLineRegex : Regex.t :=
  Regex.seqs
    [ Regex.Bol true; Regex.lit "tags:";
      Regex.Star true (Regex.Cls Js.isWhiteSpace);
      Regex.Chr "[";
      Regex.Grp (Regex.Star true (Regex.Cls notCloseBracket));
      Regex.Chr "]" ].

(** The expression of [yamlListMatch], with the flag [m]: [^tags:], white
    space, a line feed, then the group: any number of items, each one white
    space, a dash, white space, the rest of the line and an optional line
    feed. *)
Definition yamlListRegex : Regex.t :=
  Regex.seqs
    [ Regex.Bol true; Regex.lit "tags:";
      Regex.Star true (Regex.Cls Js.isWhiteSpace);
      Regex.Chr "010";
      Regex.Grp
        (Regex.Star true
           (Regex.seqs
              [ Regex.plus (Regex.Cls Js.isWhiteSpace);
                Regex.Chr "-";
                Regex.plus (Regex.Cls Js.isWhiteSpace);
                Regex.plus (Regex.Cls dot);
                Regex.opt (Regex.Chr "010") ])) ].

(** [/-\s+(.+)/g] *)
Definition yamlItemRegex : Regex.t :=
  Regex.seqs
    [ Regex.Chr "-"; Regex.plus (Regex.Cls Js.isWhiteSpace);
      Regex.Grp (Regex.plus (Regex.Cls dot)) ].

(** [/^-\s+/] *)
Definition itemDashRegex : Regex.t :=
  Regex.seqs
    [ Regex.Bol false; Regex.Chr "-"; Regex.plus (Regex.Cls Js.isWhiteSpace) ].

(** [/^["']|["']$/g] *)
Definition quoteEndsRegex : Regex.t :=
  Regex.Alt (Regex.Seq (Regex.Bol false) (Regex.Cls isQuote))
            (Regex.Seq (Regex.Cls isQuote) (Regex.Eol false)).

(** [/^#/] *)
Definition leadingHashRegex : Regex.t :=
  Regex.Seq (Regex.Bol false) (Regex.Chr "#").

(** [inlineTagRegex]: the start of the text or a white space, a hash, then
    the group: a letter followed by letters, digits, [_], [/] and [-]. *)
Definition inlineTagRegex : Regex.t :=
  Regex.seqs
    [ Regex.Alt (Regex.Bol false) (Regex.Cls Js.isWhiteSpace);
      Regex.Chr "#";
      Regex.Grp (Regex.Seq (Regex.Cls isLetter)
                           (Regex.Star true (Regex.Cls isTagChar))) ].

(** [tags.add(cleaned)] when [cleaned] is not empty. *)
Definition addCleaned (tags : JsSet.t) (cleaned : string) : JsSet.t :=
  if Js.truthy cleaned then JsSet.add cleaned tags else tags.

Definition unquote (s : string) : string :=
  Regex.removeFirst leadingHashRegex (Regex.removeAll quoteEndsRegex s).

Definition parseTags (content : string) : list string :=
  let fmMatch := Regex.exec frontmatterRegex content in
  let tags1 :=
    match fmMatch with
    | None => JsSet.empty
    | Some m =>
        let fm := Js.str (Regex.group1 m) in
        let inlineList :=
          match Regex.exec tagsLineRegex fm with
          | Some tagsLineMatch =>
              fold_left
                (fun tags t => addCleaned tags (unquote (Js.trim t)))
                (Js.split "," (Js.str (Regex.group1 tagsLineMatch)))
                JsSet.empty
          | None => JsSet.empty
          end in
        match Regex.exec yamlListRegex fm with
        | Some yamlListMatch =>
            fold_left
              (fun tags line =>
                 addCleaned tags
                   (unquote (Js.trim (Regex.removeFirst itemDashRegex line))))
              (map (fun i => Js.str (Regex.matched i))
                   (Regex.matchAll yamlItemRegex
                      (Js.str (Regex.group1 yamlListMatch))))
              inlineList
        | None => inlineList
        end
    end in
  let bodyContent :=
    match fmMatch with
    | Some m => Js.str (skipn (List.length (Regex.matched m)) (Js.chars content))
    | None => content
    end in
  fold_left (fun tags m => JsSet.add (Js.str (Regex.group1 m)) tags)
            (Regex.matchAll inlineTagRegex bodyContent) tags1.

(* ================================================================== *)
(** * The vault ([src/obsidian-api.ts]) and exceptions *)
(* ================================================================== *)

(** What a call can throw: the [Error] of a failed listing or read, and the
    [TypeError] of a method call on [undefined]. *)
Inductive Exn : Type :=
| RequestFailed (message : string)
| TypeError (message : string).

Inductive Result (A : Type) : Type :=
| Ok (a : A)
| Throw (e : Exn).

Arguments Ok {A} a.
Arguments Throw {A} e.

Definition bind {A B : Type} (c : Result A) (k : A -> Result B) : Result B :=
  match c with
  | Ok a => k a
  | Throw e => Throw e
  end.

Notation "x <- c ;; k" := (bind c (fun x => k))
  (at level 61, c at next level, right associativity).

(** A loop whose body may throw. *)
Fixpoint foldM {A B : Type} (f : B -> A -> Result B) (l : list A) (b : B)
  : Result B :=
  match l with
  | [] => Ok b
  | a :: l' => b' <- f b a ;; foldM f l' b'
  end.

(** The vault as [buildGraph] sees it: the outcome of [listAllNotes()] and,
    for every path, the outcome of [readNote(path)]. *)
Record Vault : Type := mkVault {
  listAllNotes : Result (list string);
  readNote : string -> Result string
}.

(* ================================================================== *)
(** * [buildGraph] *)
(* ================================================================== *)

Definition BATCH_SIZE : nat := 20.

(** [Promise.allSettled] of a batch, then the loop that stores the fulfilled
    results. *)
Definition storeResults (v : Vault) (noteContents : JsMap.t string)
    (batch : list string) : JsMap.t string :=
  fold_left
    (fun nc p =>
       match readNote v p with
       | Ok content => JsMap.set p content nc
       | Throw _ => nc
       end)
    batch noteContents.

(** [for (let i = 0; i < paths.length; i += BATCH_SIZE)]; the loop runs at most
    [paths.length] times, which is the counter. *)
Fixpoint readBatches (v : Vault) (fuel i : nat) (paths : list string)
    (noteContents : JsMap.t string) : JsMap.t string :=
  match fuel with
  | 0 => noteContents
  | S fuel' =>
      if i <? List.length paths then
        let batch := firstn BATCH_SIZE (skipn i paths) in
        readBatches v fuel' (i + BATCH_SIZE) paths
          (storeResults v noteContents batch)
      else noteContents
  end.

Definition readAll (v : Vault) (paths : list string) : JsMap.t string :=
  readBatches v (List.length paths) 0 paths JsMap.empty.

(** The three maps under construction. *)
Record Building : Type := mkBuilding {
  newNodes : JsMap.t GraphNode;
  newEdges : JsMap.t JsSet.t;
  newReverseEdges : JsMap.t JsSet.t
}.

Definition emptyBuilding : Building :=
  mkBuilding JsMap.empty JsMap.empty JsMap.empty.

(** [noteContents.get(path) || ""] *)
Definition contentOf (noteContents : JsMap.t string) (path : string) : string :=
  match JsMap.get path noteContents with
  | Some c => Js.orElse c EmptyString
  | None => EmptyString
  end.

Definition nodeOf (noteContents : JsMap.t string) (path : string) : GraphNode :=
  let content := contentOf noteContents path in
  mkNode path (nameFromPath path) (folderFromPath path) (parseTags content)
         (0 <? String.length (Js.trim content)).

(** The body of the loop "Build nodes". *)
Definition addNode (noteContents : JsMap.t string) (b : Building)
    (path : string) : Building :=
  let name := nameFromPath path in
  mkBuilding (JsMap.set name (nodeOf noteContents path) (newNodes b))
             (JsMap.set name JsSet.empty (newEdges b))
             (JsMap.set name JsSet.empty (newReverseEdges b)).

Definition buildNodes (noteContents : JsMap.t string) (paths : list string)
  : Building :=
  fold_left (addNode noteContents) paths emptyBuilding.

(** [m.get(k)!.add(x)]: the set stored under [k] grows in place; on a missing
    key the call is made on [undefined] and throws. *)
Definition addTo (k x : string) (m : JsMap.t JsSet.t) : Result (JsMap.t JsSet.t) :=
  match JsMap.get k m with
  | Some s => Ok (JsMap.set k (JsSet.add x s) m)
  | None => Throw (TypeError "Cannot read properties of undefined (reading 'add')")
  end.

(** The body of the inner loop of "Build edges from wikilinks". *)
Definition addEdge (sourceName : string) (b : Building) (target : string)
  : Result Building :=
  if JsMap.has target (newNodes b) then
    out <- addTo sourceName target (newEdges b) ;;
    let rev :=
      if negb (JsMap.has target (newReverseEdges b))
      then JsMap.set target JsSet.empty (newReverseEdges b)
      else newReverseEdges b in
    inc <- addTo target sourceName rev ;;
    Ok (mkBuilding (newNodes b) out inc)
  else Ok b.

Definition addNoteEdges (b : Building) (entry : string * string)
  : Result Building :=
  let sourceName := nameFromPath (fst entry) in
  let links := parseWikilinks (snd entry) in
  foldM (addEdge sourceName) links b.

Definition buildEdges (noteContents : JsMap.t string) (b : Building)
  : Result Building :=
  foldM addNoteEdges noteContents b.

(** The snapshot [buildGraph] assembles at time [now]. *)
Definition snapshot (v : Vault) (now : Z) : Result Graph :=
  paths <- listAllNotes v ;;
  let noteContents := readAll v paths in
  b <- buildEdges noteContents (buildNodes noteContents paths) ;;
  Ok (mkGraph (newNodes b) (newEdges b) (newReverseEdges b) now).

(** [buildGraph()]: the module variable [graph] is passed in and out; it is
    assigned only when the snapshot is complete. *)
Definition buildGraph (v : Vault) (now : Z) (graph : Graph)
  : Result Graph * Graph :=
  match snapshot v now with
  | Ok g => (Ok g, g)
  | Throw e => (Throw e, graph)
  end.

Definition getGraph (graph : Graph) : Graph := graph.

(* ================================================================== *)
(** * Queries *)
(* ================================================================== *)

(** [m.get(k) || new Set()] *)
Definition adjacent (m : JsMap.t JsSet.t) (k : string) : JsSet.t :=
  match JsMap.get k m with
  | Some s => s
  | None => JsSet.empty
  end.

(** [new Set([...outgoing, ...incoming])] *)
Definition neighbors (graph : Graph) (cur : string) : JsSet.t :=
  let outgoing := adjacent (edges graph) cur in
  let incoming := adjacent (reverseEdges graph) cur in
  JsSet.ofList (outgoing ++ incoming).

(** A bound on the number of names a traversal can put in its queue after
    the start name: every one of them sits in some adjacency set.  The
    [while (queue.length > 0)] loops below count down from it. *)
Definition adjacencyNames (graph : Graph) : list string :=
  List.concat (map snd (edges graph)) ++ List.concat (map snd (reverseEdges graph)).

Definition traversalFuel (graph : Graph) : nat :=
  S (List.length (adjacencyNames graph)).

(** ** [queryRelated] *)

Record Related : Type := mkRelated {
  rel_name : string;
  rel_path : string;
  rel_distance : nat
}.

(** The [for] loop over the neighbours of the dequeued name. *)
Fixpoint enqueueNeighbors (ns : list string) (dist : nat)
    (visited : JsSet.t) (queue : list (string * nat))
  : JsSet.t * list (string * nat) :=
  match ns with
  | [] => (visited, queue)
  | neighbor :: ns' =>
      if negb (JsSet.has neighbor visited)
      then enqueueNeighbors ns' dist (JsSet.add neighbor visited)
             (queue ++ [(neighbor, dist + 1)])
      else enqueueNeighbors ns' dist visited queue
  end.

(** The [while] loop; [None] when the counter runs out before the queue is
    empty. *)
Fixpoint queryRelatedLoop (graph : Graph) (depth : Js.number) (fuel : nat)
    (visited : JsSet.t) (queue : list (string * nat)) (results : list Related)
  : option (list Related) :=
  match queue with
  | [] => Some results
  | (cur, dist) :: queue' =>
      match fuel with
      | 0 => None
      | S fuel' =>
          let results' :=
            if 0 <? dist then
              match JsMap.get cur (nodes graph) with
              | Some node => results ++ [mkRelated cur (path node) dist]
              | None => results
              end
            else results in
          if Js.ltb (Js.ofNat dist) depth then
            let (visited', queue'') :=
              enqueueNeighbors (neighbors graph cur) dist visited queue' in
            queryRelatedLoop graph depth fuel' visited' queue'' results'
          else queryRelatedLoop graph depth fuel' visited queue' results'
      end
  end.

(** [depth] is any number; the distances are counted in whole hops. *)
Definition queryRelated (graph : Graph) (startName : string) (depth : Js.number)
  : list Related :=
  match queryRelatedLoop graph depth (traversalFuel graph)
          (JsSet.add startName JsSet.empty) [(startName, 0)] [] with
  | Some results => results
  | None => []
  end.

(** ** [findPath] *)

(** [while (parent.has(node)) { node = parent.get(node)!; path.unshift(node) }];
    [None] when the counter runs out. *)
Fixpoint reconstruct (fuel : nat) (parent : JsMap.t string) (node : string)
    (path : list string) : option (list string) :=
  match JsMap.get node parent with
  | None => Some path
  | Some node' =>
      match fuel with
      | 0 => None
      | S fuel' => reconstruct fuel' parent node' (node' :: path)
      end
  end.

(** How the [for] loop over the neighbours ends: with the [return] of a
    path, or at the end of the neighbours. *)
Inductive Scan : Type :=
| PathFound (path : option (list string))
| Scanned (visited : JsSet.t) (parent : JsMap.t string) (queue : list string).

Fixpoint scanNeighbors (ns : list string) (current toName : string)
    (visited : JsSet.t) (parent : JsMap.t string) (queue : list string) : Scan :=
  match ns with
  | [] => Scanned visited parent queue
  | neighbor :: ns' =>
      if negb (JsSet.has neighbor visited) then
        let visited' := JsSet.add neighbor visited in
        let parent' := JsMap.set neighbor current parent in
        if String.eqb neighbor toName
        then PathFound (reconstruct (JsMap.size parent') parent' toName [toName])
        else scanNeighbors ns' current toName visited' parent' (queue ++ [neighbor])
      else scanNeighbors ns' current toName visited parent queue
  end.

(** The [while] loop: [Some (Some path)] for a returned path, [Some None]
    for [null], [None] when a counter runs out. *)
Fixpoint findPathLoop (graph : Graph) (toName : string) (fuel : nat)
    (visited : JsSet.t) (parent : JsMap.t string) (queue : list string)
  : option (option (list string)) :=
  match queue with
  | [] => Some None
  | current :: queue' =>
      match fuel with
      | 0 => None
      | S fuel' =>
          match scanNeighbors (neighbors graph current) current toName
                  visited parent queue' with
          | PathFound (Some path) => Some (Some path)
          | PathFound None => None
          | Scanned visited' parent' queue'' =>
              findPathLoop graph toName fuel' visited' parent' queue''
          end
      end
  end.

(** [None] is JavaScript's [null]. *)
Definition findPath (graph : Graph) (fromName toName : string)
  : option (list string) :=
  if String.eqb fromName toName then Some [fromName]
  else if negb (JsMap.has fromName (nodes graph))
          || negb (JsMap.has toName (nodes graph)) then None
  else
    match findPathLoop graph toName (traversalFuel graph)
            (JsSet.add fromName JsSet.empty) JsMap.empty [fromName] with
    | Some r => r
    | None => None
    end.

(** ** [getHubs], [getOrphans], [getClusters] *)

(** [Array.prototype.sort] is stable; [before a b] says that the comparison
    function is negative on [(a, b)]. *)
Fixpoint insertBy {A : Type} (before : A -> A -> bool) (x : A) (l : list A)
  : list A :=
  match l with
  | [] => [x]
  | y :: l' => if before y x then y :: insertBy before x l' else x :: l
  end.

Definition sortBy {A : Type} (before : A -> A -> bool) (l : list A) : list A :=
  fold_right (insertBy before) [] l.

(** [m.get(k)?.size || 0] *)
Definition degree (m : JsMap.t JsSet.t) (k : string) : nat :=
  match JsMap.get k m with
  | Some s => JsSet.size s
  | None => 0
  end.

Record Hub : Type := mkHub {
  hub_name : string;
  hub_path : string;
  outgoing : nat;
  incoming : nat;
  total : nat
}.

Definition hubOf (graph : Graph) (entry : string * GraphNode) : Hub :=
  let out := degree (edges graph) (fst entry) in
  let inc := degree (reverseEdges graph) (fst entry) in
  mkHub (fst entry) (path (snd entry)) out inc (out + inc).

Definition getHubs (graph : Graph) (topN : Js.number) : list Hub :=
  Js.sliceTo
    (sortBy (fun a b => total b <? total a) (map (hubOf graph) (nodes graph)))
    topN.

Record Note : Type := mkNote {
  note_name : string;
  note_path : string
}.

Definition noteOf (entry : string * GraphNode) : Note :=
  mkNote (fst entry) (path (snd entry)).

Definition isOrphan (graph : Graph) (entry : string * GraphNode) : bool :=
  (degree (edges graph) (fst entry) =? 0)
  && (degree (reverseEdges graph) (fst entry) =? 0).

Definition getOrphans (graph : Graph) : list Note :=
  map noteOf (filter (isOrphan graph) (nodes graph)).

Inductive ClusterBy : Type := ByFolder | ByTag.

(** [if (!groups.has(key)) groups.set(key, []); groups.get(key)!.push(note)] *)
Definition pushTo (key : string) (note : Note) (groups : JsMap.t (list Note))
  : JsMap.t (list Note) :=
  match JsMap.get key groups with
  | Some notes => JsMap.set key (notes ++ [note]) groups
  | None => JsMap.set key [note] groups
  end.

Definition rootLabel : string := "(root)".
Definition untaggedLabel : string := "(untagged)".

Definition addToClusters (by_ : ClusterBy) (groups : JsMap.t (list Note))
    (entry : string * GraphNode) : JsMap.t (list Note) :=
  match by_ with
  | ByFolder => pushTo (Js.orElse (folder (snd entry)) rootLabel) (noteOf entry) groups
  | ByTag =>
      match tags (snd entry) with
      | [] => pushTo untaggedLabel (noteOf entry) groups
      | ts => fold_left (fun gs tag => pushTo tag (noteOf entry) gs) ts groups
      end
  end.

Definition getClusters (graph : Graph) (by_ : ClusterBy)
  : list (string * list Note) :=
  sortBy (fun a b => List.length (snd b) <? List.length (snd a))
         (fold_left (addToClusters by_) (nodes graph) JsMap.empty).

(** ** [getStats] *)

Section Stats.

(** Two operations of the runtime stay abstract: the floating-point
    [Math.round((totalLinks / totalNotes) * 100) / 100], with the constant
    [0] of the other branch, and [Date.prototype.toISOString]. *)
Variable number : Type.
Variable roundedRatio : nat -> nat -> number.
Variable zero : number.
Variable toISOString : Z -> string.

Record Stats : Type := mkStats {
  totalNotes : nat;
  totalLinks : nat;
  totalTags : nat;
  orphanCount : nat;
  avgLinksPerNote : number;
  stats_lastRefresh : string;
  folders : nat
}.

(** The state of the loop of [getStats]. *)
Record Tally : Type := mkTally {
  links : nat;
  allTags : JsSet.t;
  folderSet : JsSet.t
}.

Definition tally (graph : Graph) (acc : Tally) (entry : string * GraphNode)
  : Tally :=
  mkTally (links acc + degree (edges graph) (fst entry))
          (fold_left (fun s tag => JsSet.add tag s) (tags (snd entry)) (allTags acc))
          (if Js.truthy (folder (snd entry))
           then JsSet.add (folder (snd entry)) (folderSet acc)
           else folderSet acc).

Definition getStats (graph : Graph) : Stats :=
  let acc := fold_left (tally graph) (nodes graph)
               (mkTally 0 JsSet.empty JsSet.empty) in
  let n := JsMap.size (nodes graph) in
  mkStats n (links acc) (JsSet.size (allTags acc))
          (List.length (getOrphans graph))
          (if 0 <? n then roundedRatio (links acc) n else zero)
          (toISOString (lastRefresh graph))
          (JsSet.size (folderSet acc)).

End Stats.

(* ================================================================== *)
(** * The tool [graph_find_path] ([src/tools/find-path.ts]) *)
(* ================================================================== *)

Module Tools.

(** Case-insensitive name resolution; [None] is [null].  A match that is the
    empty string is falsy, so [match || null] is [null]. *)
Definition resolve (graph : Graph) (given : string) : option string :=
  if JsMap.has given (nodes graph) then Some given
  else
    match find (fun k => String.eqb (Js.toLowerCase k) (Js.toLowerCase given))
               (JsMap.keys (nodes graph)) with
    | Some k => if Js.truthy k then Some k else None
    | None => None
    end.

(** [!resolved] for [resolved : string | null] *)
Definition isFalsy (resolved : option string) : bool :=
  match resolved with
  | Some s => negb (Js.truthy s)
  | None => true
  end.

(** The three replies of the handler. *)
Inductive Reply : Type :=
| NoteNotFound (given : string)
| NoPathFound (resolvedFrom resolvedTo : string)
| ShortestPath (path : list string).

(** The string of a resolved name, once [null] is excluded. *)
Definition nonNull (resolved : option string) : string :=
  match resolved with
  | Some s => s
  | None => EmptyString
  end.

(** The handler: both names are resolved, then tested, then [findPath] is
    called on the resolved names. *)
Definition find_path (graph : Graph) (from to : string) : Reply :=
  let resolvedFrom := resolve graph from in
  let resolvedTo := resolve graph to in
  if isFalsy resolvedFrom then NoteNotFound from
  else if isFalsy resolvedTo then NoteNotFound to
  else
    match findPath graph (nonNull resolvedFrom) (nonNull resolvedTo) with
    | None => NoPathFound (nonNull resolvedFrom) (nonNull resolvedTo)
    | Some p => ShortestPath p
    end.

Definition quoted (s : string) : string :=
  (String "034" s ++ String "034" EmptyString)%string.

(** The text of the two failure replies (the text of a found path is not
    modelled). *)
Definition failureText (r : Reply) : option string :=
  match r with
  | NoteNotFound given =>
      Some ("Note " ++ quoted given ++ " not found in graph.")%string
  | NoPathFound a b =>
      Some ("No path found between " ++ quoted a ++ " and " ++ quoted b
            ++ ". They are in disconnected parts of the graph.")%string
  | ShortestPath _ => None
  end.

(** ** The tool [graph_query_related] ([src/tools/query-related.ts]) *)

(** The three replies of the handler: the note is not found (with the first
    names of the graph, and whether an ellipsis follows them), nothing is
    related, or the related notes grouped by distance. *)
Inductive RelatedReply : Type :=
| RelatedNotFound (note : string) (available : list string) (ellipsis : bool)
| NoRelated (depth : Js.number) (note : string)
| RelatedNotes (note : string) (depth : Js.number)
    (groups : list (nat * list Related)).

(** [if (!grouped.has(d)) grouped.set(d, []); grouped.get(d)!.push(r)] on a
    [Map] keyed by numbers, in insertion order. *)
Fixpoint pushGroup (d : nat) (r : Related) (grouped : list (nat * list Related))
  : list (nat * list Related) :=
  match grouped with
  | [] => [(d, [r])]
  | (d', rs) :: grouped' =>
      if d =? d' then (d', rs ++ [r]) :: grouped'
      else (d', rs) :: pushGroup d r grouped'
  end.

Definition groupByDistance (related : list Related) : list (nat * list Related) :=
  fold_left (fun grouped r => pushGroup (rel_distance r) r grouped) related [].

(** The handler: the name is looked up, then without regard to case; the
    related notes are grouped and the groups sorted by distance. *)
Definition query_related (graph : Graph) (note : string) (depth : Js.number)
  : RelatedReply :=
  let resolved :=
    if negb (JsMap.has note (nodes graph)) then
      match find (fun k => String.eqb (Js.toLowerCase k) (Js.toLowerCase note))
                 (JsMap.keys (nodes graph)) with
      | Some m => if negb (Js.truthy m) then None else Some m
      | None => None
      end
    else Some note in
  match resolved with
  | None =>
      RelatedNotFound note (firstn 20 (JsMap.keys (nodes graph)))
                      (20 <? JsMap.size (nodes graph))
  | Some note' =>
      let related := queryRelated graph note' depth in
      if List.length related =? 0 then NoRelated depth note'
      else RelatedNotes note' depth
             (sortBy (fun a b => fst a <? fst b) (groupByDistance related))
  end.

End Tools.

(* ================================================================== *)
(** * The listing of the vault ([src/obsidian-api.ts]) *)
(* ================================================================== *)

Module Api.

Record VaultFile : Type := mkVaultFile {
  path : string;
  isDirectory : bool
}.

(** [dirPath ? (dirPath.endsWith("/") ? dirPath : dirPath + "/") : ""] *)
Definition prefixOf (dirPath : string) : string :=
  if Js.truthy dirPath
  then (if Js.endsWith dirPath "/" then dirPath else dirPath ++ "/")%string
  else EmptyString.

(** The entry of a listed name [f]: a name that ends with a slash is a
    directory and loses the slash. *)
Definition entryOf (prefix f : string) : VaultFile :=
  mkVaultFile
    (if Js.endsWith f "/" then prefix ++ Js.dropLast f else prefix ++ f)%string
    (Js.endsWith f "/").

Section Server.

(** What the REST server answers to the request for a directory: the [files]
    of the body, or the error thrown when the response is not ok or has no
    such body.  The URL of the request is a function of [dirPath]. *)
Variable files : string -> Result (list string).

Definition listDir (dirPath : string) : Result (list VaultFile) :=
  fs <- files dirPath ;;
  Ok (map (entryOf (prefixOf dirPath)) fs).

(** The body of the loop over the entries of a directory, on the notes and
    the queue. *)
Definition visit (st : list string * list string) (entry : VaultFile)
  : list string * list string :=
  if isDirectory entry then (fst st, snd st ++ [path entry])
  else if Js.endsWith (path entry) ".md" then (fst st ++ [path entry], snd st)
  else st.

(** The [while (queue.length > 0)] loop.  Nothing bounds the number of
    directories a server can list, so the counter is a parameter: [None]
    when it runs out with directories still in the queue. *)
Fixpoint listAllNotesLoop (fuel : nat) (queue notes : list string)
  : option (Result (list string)) :=
  match queue with
  | [] => Some (Ok notes)
  | dir :: queue' =>
      match fuel with
      | 0 => None
      | S fuel' =>
          match listDir dir with
          | Throw e => Some (Throw e)
          | Ok entries =>
              let st := fold_left visit entries (notes, queue') in
              listAllNotesLoop fuel' (snd st) (fst st)
          end
      end
  end.

Definition listAllNotes (fuel : nat) : option (Result (list string)) :=
  listAllNotesLoop fuel [EmptyString] [].

End Server.

End Api.

(* ================================================================== *)
(** * The server ([src/index.ts]) *)
(* ================================================================== *)

Module Main.

Definition isDigit (c : ascii) : bool :=
  let n := nat_of_ascii c in (48 <=? n) && (n <=? 57).

(** The expression of [parseInterval]: the start of the text, a group of
    digits, a group that is one of [ms], [s], [m] and [h], the end of the
    text. *)
Definition intervalRegex : Regex.t :=
  Regex.seqs
    [ Regex.Bol false;
      Regex.Grp (Regex.plus (Regex.Cls isDigit));
      Regex.Grp (Regex.Alt (Regex.lit "ms")
                   (Regex.Alt (Regex.lit "s")
                      (Regex.Alt (Regex.lit "m") (Regex.lit "h"))));
      Regex.Eol false ].

Section Interval.

(** The numbers of the runtime stay abstract: the constants, the value
    [parseInt(digits, 10)] of a text and the floating-point product. *)
Variable number : Type.
Variable constant : nat -> number.
Variable parseInt10 : string -> number.
Variable times : number -> number -> number.

(** [5 * 60 * 1000] *)
Definition fiveMinutes : number :=
  times (times (constant 5) (constant 60)) (constant 1000).

(** The matcher keeps the text of the group set last, which is the unit
    [match[2]]; the two groups make up the whole match, so that the digits
    [match[1]] are the match without the unit. *)
Definition parseInterval (value : option string) : number :=
  match value with
  | None => fiveMinutes
  | Some v =>
      if negb (Js.truthy v) then fiveMinutes
      else
        match Regex.exec intervalRegex v with
        | None => fiveMinutes
        | Some m =>
            let unit_ := Regex.group1 m in
            let digits :=
              firstn (List.length (Regex.matched m) - List.length unit_)
                     (Regex.matched m) in
            let num := parseInt10 (Js.str digits) in
            if String.eqb (Js.str unit_) "ms" then num
            else if String.eqb (Js.str unit_) "s" then times num (constant 1000)
            else if String.eqb (Js.str unit_) "m"
                 then times (times num (constant 60)) (constant 1000)
            else if String.eqb (Js.str unit_) "h"
                 then times (times (times num (constant 60)) (constant 60))
                            (constant 1000)
            else fiveMinutes
        end
  end.

End Interval.

(** [try { await buildGraph() } catch (err) { ... }]: the error is logged
    and dropped, the module variable [graph] is what [buildGraph] left. *)
Definition tryBuild (graph : Graph) (attempt : Vault * Z) : Graph :=
  snd (buildGraph (fst attempt) (snd attempt) graph).

(** The graph the tools read after the initial build and the refreshes of
    the timer, given as the vault and the clock each of them met, in the
    order in which they ended. *)
Definition published (attempts : list (Vault * Z)) : Graph :=
  fold_left tryBuild attempts emptyGraph.

End Main.

(* ================================================================== *)
(** * Vocabulary of the statements about traversals *)
(* ================================================================== *)

(** The undirected view of the graph: [y] is linked to [x] when it is in the
    forward or in the reverse adjacency set of [x]. *)
Definition linked (graph : Graph) (x y : string) : Prop :=
  In y (adjacent (edges graph) x) \/ In y (adjacent (reverseEdges graph) x).

(** A chain is a non-empty sequence of names, each linked to the next. *)
Fixpoint chain (graph : Graph) (p : list string) : Prop :=
  match p with
  | [] => False
  | x :: p' =>
      match p' with
      | [] => True
      | y :: _ => linked graph x y /\ chain graph p'
      end
  end.

(** [p] is a chain from [a] to [b]. *)
Definition connects (graph : Graph) (a b : string) (p : list string) : Prop :=
  chain graph p /\ hd_error p = Some a /\ last p a = b.

(** The number of hops of a sequence of names. *)
Definition hops (p : list string) : nat := List.length p - 1.

(** [d] is the shortest distance from [a] to [b] in the undirected view. *)
Definition shortestDistance (graph : Graph) (a b : string) (d : nat) : Prop :=
  (exists p, connects graph a b p /\ hops p = d)
  /\ forall q, connects graph a b q -> d <= hops q.

(** The shape of a graph the program holds: the adjacency maps have the
    keys of the node map. *)
Definition sameKeys (graph : Graph) : Prop :=
  JsMap.keys (edges graph) = JsMap.keys (nodes graph)
  /\ JsMap.keys (reverseEdges graph) = JsMap.keys (nodes graph).

(** ** Breadth-first traversals, abstractly *)

Section Traversal.

(** The neighbours of a name, the start name, and whether a name dequeued
    at a given distance is expanded. *)
Variable N : string -> list string.
Variable start : string.
Variable expandable : nat -> bool.

(** [walk x d]: [x] is reached from [start] in [d] steps. *)
Inductive walk : string -> nat -> Prop :=
| walk_start : walk start 0
| walk_step (u w : string) (d : nat) : walk u d -> In w (N u) -> walk w (S d).

Definition names (L : list (string * nat)) : list string := map fst L.

(** The neighbours not seen yet. *)
Definition fresh (seen : list string) (ns : list string) : list string :=
  filter (fun w => negb (JsSet.has w seen)) ns.

Definition labelAt (d : nat) (ws : list string) : list (string * nat) :=
  map (fun w => (w, d)) ws.

(** A queue behind a head at distance [d]: names at distance [d], then
    names at distance [S d]. *)
Definition levels (d : nat) (Q : list (string * nat)) : Prop :=
  exists Qa Qb,
    Q = Qa ++ Qb
    /\ (forall y dy, In (y, dy) Qa -> dy = d)
    /\ (forall y dy, In (y, dy) Qb -> dy = S d).

(** The invariant of a traversal: [P] holds the names dequeued so far and
    [Q] the queue, both with the distance at which each name was found. *)
Record bfsInv (P Q : list (string * nat)) : Prop := mkBfsInv {
  bi_nodup : NoDup (names (P ++ Q));
  bi_start : exists rest, P ++ Q = (start, 0) :: rest;
  bi_zero : forall x, In (x, 0) (P ++ Q) -> x = start;
  bi_walk : forall x d, In (x, d) (P ++ Q) -> walk x d;
  bi_min : forall x d m, In (x, d) (P ++ Q) -> walk x m -> d <= m;
  bi_pred : forall x d, In (x, S d) (P ++ Q) -> expandable d = true;
  bi_small : forall x d, In (x, d) (P ++ Q) -> d < List.length (P ++ Q);
  bi_done : forall x dx y dy, In (x, dx) P -> In (y, dy) Q -> dx <= dy;
  bi_queue : forall u d Q', Q = (u, d) :: Q' -> levels d Q';
  bi_closed : forall x d w,
    In (x, d) P -> expandable d = true -> In w (N x) ->
    exists dw, In (w, dw) (P ++ Q) /\ dw <= S d
}.

(** The [parent] map of [findPath] over the names seen [L]: the start has
    no parent, every other name has as parent a neighbour found one step
    earlier, and there is one entry for each name but the start. *)
Record parentTree (parent : JsMap.t string) (L : list (string * nat)) : Prop :=
  mkParentTree {
  pt_start : JsMap.get start parent = None;
  pt_parent : forall x d, In (x, S d) L ->
    exists u, JsMap.get x parent = Some u /\ In (u, d) L /\ In x (N u);
  pt_keys : forall k, JsMap.has k parent = true -> In k (names L);
  pt_size : S (JsMap.size parent) = List.length L
}.

(** A bound on the names not seen yet, among a list [U] of candidates. *)
Definition unseen (U : list string) (seen : list string) : nat :=
  List.length (fresh seen U).

End Traversal.

(** [parent.set(w, current)] for several [w]. *)
Definition setParents (current : string) (ws : list string)
    (parent : JsMap.t string) : JsMap.t string :=
  fold_left (fun m w => JsMap.set w current m) ws parent.

(** The part of a list up to and including the first [t]. *)
Fixpoint upTo (t : string) (l : list string) : option (list string) :=
  match l with
  | [] => None
  | x :: l' =>
      if String.eqb x t then Some [x]
      else match upTo t l' with
           | Some pre => Some (x :: pre)
           | None => None
           end
  end.

(** [dist < depth]: whether [queryRelated] expands a name dequeued at
    distance [dist]. *)
Definition withinDepth (depth : Js.number) (dist : nat) : bool :=
  Js.ltb (Js.ofNat dist) depth.

(** What [queryRelated] reports for a name dequeued at distance [d]. *)
Definition report (graph : Graph) (entry : string * nat) : list Related :=
  if 0 <? snd entry then
    match JsMap.get (fst entry) (nodes graph) with
    | Some node => [mkRelated (fst entry) (path node) (snd entry)]
    | None => []
    end
  else [].

Definition resultsOf (graph : Graph) (P : list (string * nat)) : list Related :=
  flat_map (report graph) P.

(* ================================================================== *)
(** * Vocabulary of the statements about [buildGraph] *)
(* ================================================================== *)

(** The shape of the three maps while a snapshot is built: the same keys in
    the same order, and duplicate-free lists as sets. *)
Record wellKeyed (b : Building) : Prop := mkWellKeyed {
  wk_nodes : NoDup (JsMap.keys (newNodes b));
  wk_edges : JsMap.keys (newEdges b) = JsMap.keys (newNodes b);
  wk_reverse : JsMap.keys (newReverseEdges b) = JsMap.keys (newNodes b);
  wk_edges_sets : forall k s, JsMap.get k (newEdges b) = Some s -> NoDup s;
  wk_reverse_sets : forall k s, JsMap.get k (newReverseEdges b) = Some s -> NoDup s
}.

(** The links the loop goes through, as pairs of a source name and a
    target, in the order of the loop. *)
Definition linkPairs (noteContents : JsMap.t string) : list (string * string) :=
  flat_map
    (fun e => map (fun t => (nameFromPath (fst e), t)) (parseWikilinks (snd e)))
    noteContents.

(** The body of the inner loop on one such pair. *)
Definition addPair (b : Building) (st : string * string) : Result Building :=
  addEdge (fst st) b (snd st).

(** What a snapshot built from the listing [paths] of the vault [v] is. *)
Record builtFrom (v : Vault) (paths : list string) (g : Graph) : Prop := mkBuiltFrom {
  bf_nodes : nodes g = newNodes (buildNodes (readAll v paths) paths);
  bf_nodes_keys : NoDup (JsMap.keys (nodes g));
  bf_edges_keys : JsMap.keys (edges g) = JsMap.keys (nodes g);
  bf_reverse_keys : JsMap.keys (reverseEdges g) = JsMap.keys (nodes g);
  bf_edges_sets : forall k s, JsMap.get k (edges g) = Some s -> NoDup s;
  bf_reverse_sets : forall k s, JsMap.get k (reverseEdges g) = Some s -> NoDup s;
  bf_forward : forall s t,
    In t (adjacent (edges g) s) <->
    (exists p c, In p paths /\ readNote v p = Ok c /\ nameFromPath p = s
                 /\ In t (parseWikilinks c))
    /\ JsMap.has t (nodes g) = true;
  bf_reverse : forall s t,
    In s (adjacent (reverseEdges g) t) <-> In t (adjacent (edges g) s)
}.

(** The same graph with another [lastRefresh]. *)
Definition withRefresh (now : Z) (g : Graph) : Graph :=
  mkGraph (nodes g) (edges g) (reverseEdges g) now.

(** Two graphs with the same nodes and edges. *)
Definition sameGraph (g1 g2 : Graph) : Prop :=
  nodes g1 = nodes g2 /\ edges g1 = edges g2 /\ reverseEdges g1 = reverseEdges g2.

(* ================================================================== *)
(** * Example vaults *)
(* ================================================================== *)

(** A vault given by its files: the listing succeeds with the paths in
    order; reading a file with a body succeeds, reading one without fails. *)
Definition vaultOf (files : list (string * option string)) : Vault :=
  mkVault (Ok (map fst files))
    (fun p =>
       match find (fun e => String.eqb (fst e) p) files with
       | Some (_, Some body) => Ok body
       | _ => Throw (RequestFailed p)
       end).

(** The scenario of the specification: [A] links to [B] and [C], [B] links
    back to [A], [C] is empty. *)
Definition scenarioVault : Vault :=
  vaultOf [ ("A.md", Some "[[B]] [[C]] #x")%string;
            ("B.md", Some "[[A]]")%string;
            ("C.md"%string, Some EmptyString) ].

(** Two notes named [X] in two folders, and a note [Y] that cannot be read. *)
Definition collisionVault : Vault :=
  vaultOf [ ("a/X.md", Some "[[Y]]")%string;
            ("b/X.md", Some "second")%string;
            ("Y.md"%string, None) ].

(** A note [X] that cannot be read, listed before a note of the same name
    in another folder that can. *)
Definition shadowedVault : Vault :=
  vaultOf [ ("a/X.md"%string, None);
            ("b/X.md", Some "[[Y]] #t")%string;
            ("Y.md"%string, Some EmptyString) ].

(** The snapshots of these vaults. *)
Definition scenarioGraph : Graph :=
  match snapshot scenarioVault 0 with
  | Ok g => g
  | Throw _ => emptyGraph
  end.

(** Two notes without links. *)
Definition islandVault : Vault :=
  vaultOf [ ("A.md", Some "alpha")%string; ("B.md", Some "beta")%string ].

(** Its snapshot. *)
Definition islandGraph : Graph :=
  match snapshot islandVault 0 with
  | Ok g => g
  | Throw _ => emptyGraph
  end.

(** A note whose file name is only the extension, so that its name is the
    empty string, and another note. *)
Definition namelessVault : Vault :=
  vaultOf [ (".md", Some "nameless")%string; ("B.md", Some "beta")%string ].

Definition namelessGraph : Graph :=
  match snapshot namelessVault 0 with
  | Ok g => g
  | Throw _ => emptyGraph
  end.

(* ================================================================== *)
(** * Vocabulary of the statements about folders *)
(* ================================================================== *)

(** The folder labels that count: those of the nodes, the empty one left
    out, each taken once. *)
Definition countedFolders (g : Graph) : list string :=
  nodup string_dec (filter Js.truthy (map (fun e => folder (snd e)) (nodes g))).

(** [if (node.folder) folders.add(node.folder)] *)
Definition addFolder (s : JsSet.t) (e : string * GraphNode) : JsSet.t :=
  if Js.truthy (folder (snd e)) then JsSet.add (folder (snd e)) s else s.

(** [node.folder || "(root)"] *)
Definition folderLabel (e : string * GraphNode) : string :=
  Js.orElse (folder (snd e)) rootLabel.

(* ================================================================== *)
(** * Vocabulary of the statements about [parseWikilinks] *)
(* ================================================================== *)

(** The two classes of the expression as runs of a text. *)
Definition isTarget (target : list ascii) : Prop :=
  target <> [] /\ Forall (fun c => notTargetDelim c = true) target.

Definition isLabel (label : list ascii) : Prop :=
  label <> [] /\ Forall (fun c => notCloseBracket c = true) label.

(** [linkAt text target rest]: [text] begins with a wikilink whose target is
    [target] and which is followed by [rest].  The target is a non-empty run
    without closing bracket, pipe and hash; a display text or section anchor
    is a non-empty run without closing bracket. *)
Inductive linkAt : list ascii -> list ascii -> list ascii -> Prop :=
| link_plain (target rest : list ascii) :
    isTarget target ->
    linkAt (Js.chars "[[" ++ target ++ Js.chars "]]" ++ rest) target rest
| link_labelled (target label rest : list ascii) (sep : ascii) :
    isTarget target -> sep = "|"%char \/ sep = "#"%char -> isLabel label ->
    linkAt (Js.chars "[[" ++ target ++ sep :: label ++ Js.chars "]]" ++ rest)
           target rest.

(** [scans text targets]: going through [text] from left to right, taking
    every wikilink met and resuming after it, gives the trimmed targets
    [targets]. *)
Inductive scans : list ascii -> list string -> Prop :=
| scans_end : scans [] []
| scans_link (text target rest : list ascii) (targets : list string) :
    linkAt text target rest -> scans rest targets ->
    scans text (Js.trim (Js.str target) :: targets)
| scans_skip (c : ascii) (text : list ascii) (targets : list string) :
    (forall target rest, ~ linkAt (c :: text) target rest) ->
    scans text targets -> scans (c :: text) targets.

(** The length of the longest prefix in a class. *)
Fixpoint span (p : ascii -> bool) (l : list ascii) : nat :=
  match l with
  | c :: l' => if p c then S (span p l') else 0
  | [] => 0
  end.

(** The position [k] code units further. *)
Definition advance (k : nat) (x : Regex.pos) : Regex.pos :=
  Regex.Pos (rev (firstn k (Regex.after x)) ++ Regex.before x)
            (skipn k (Regex.after x)) (Regex.captured x).

(** [n, n-1, ..., 0] and [n, n-1, ..., 1]: the lengths a greedy repetition
    tries, longest first. *)
Fixpoint countdown (n : nat) : list nat :=
  match n with
  | 0 => [0]
  | S n' => n :: countdown n'
  end.

Definition countdown1 (n : nat) : list nat :=
  match n with
  | 0 => []
  | S n' => map S (countdown n')
  end.

(** The group of the expression, and what follows the group. *)
Definition targetGroup : Regex.t :=
  Regex.Grp (Regex.plus (Regex.Cls notTargetDelim)).

Definition closingPart : Regex.t :=
  Regex.Seq
    (Regex.opt (Regex.Seq (Regex.Cls isPipeOrHash)
                          (Regex.plus (Regex.Cls notCloseBracket))))
    (Regex.lit "]]").

(** What is left after the two code units [cc], if the text begins with
    them. *)
Definition after2 (c : ascii) (l : list ascii) : option (list ascii) :=
  match l with
  | c1 :: c2 :: rest => if Ascii.eqb c c1 && Ascii.eqb c c2 then Some rest else None
  | _ => None
  end.

(** What is left after an optional label and the closing brackets. *)
Definition closing (l : list ascii) : option (list ascii) :=
  match l with
  | c :: more =>
      if isPipeOrHash c then
        match span notCloseBracket more with
        | 0 => None
        | S m => after2 "]" (skipn (S m) more)
        end
      else after2 "]" l
  | [] => None
  end.

(** The wikilink a text begins with, if any: its target and what follows
    it. *)
Definition linkPrefix (l : list ascii) : option (list ascii * list ascii) :=
  match after2 "[" l with
  | Some body =>
      match span notTargetDelim body with
      | 0 => None
      | S n =>
          match closing (skipn (S n) body) with
          | Some rest => Some (firstn (S n) body, rest)
          | None => None
          end
      end
  | None => None
  end.

(** [l] is empty or a single position with the given rest and capture. *)
Definition yields (l : list Regex.pos) (rest : option (list ascii))
    (cap : option (list ascii)) : Prop :=
  match rest with
  | Some r => exists z, l = [z] /\ Regex.after z = r /\ Regex.captured z = cap
  | None => l = []
  end.

(** [match[1].trim()] *)
Definition targetOf (m : Regex.found) : string :=
  Js.trim (Js.str (Regex.group1 m)).

(* ================================================================== *)
(** * Vocabulary of the statements about [parseTags] *)
(* ================================================================== *)

(** The text of an inline tag: a letter, then letters, digits, [_], [/]
    and [-]. *)
Definition isTagName (t : list ascii) : Prop :=
  exists c rest,
    t = c :: rest /\ isLetter c = true /\ Forall (fun a => isTagChar a = true) rest.

(** [inlineTagIn text t]: somewhere in [text] a hash, at the start of the
    text or after a white space, is followed by the tag name [t], and [t]
    is not followed by one more tag character. *)
Definition inlineTagIn (text t : list ascii) : Prop :=
  isTagName t
  /\ exists pre post,
       text = pre ++ "#"%char :: t ++ post
       /\ (pre = [] \/ exists pre' w, pre = pre' ++ [w] /\ Js.isWhiteSpace w = true)
       /\ match post with [] => True | a :: _ => isTagChar a = false end.

(** The tag name after a hash at the head of a text, and what follows it. *)
Definition tagAfterHash (l : list ascii) : option (list ascii * list ascii) :=
  match l with
  | h :: c :: more =>
      if Ascii.eqb "#" h && isLetter c
      then Some (c :: firstn (span isTagChar more) more,
                 skipn (span isTagChar more) more)
      else None
  | _ => None
  end.

(** The inline tag a text begins with, if any; [atStart] says that the text
    is the whole input. *)
Definition tagPrefix (atStart : bool) (l : list ascii)
  : option (list ascii * list ascii) :=
  match (if atStart then tagAfterHash l else None) with
  | Some r => Some r
  | None =>
      match l with
      | w :: l' => if Js.isWhiteSpace w then tagAfterHash l' else None
      | [] => None
      end
  end.

Definition isNil (A : Type) (l : list A) : bool :=
  match l with [] => true | _ :: _ => false end.

(** The line that opens a front matter, with its line feed. *)
Definition frontMatterOpening : string :=
  String "-" (String "-" (String "-" (String "010" EmptyString))).

(** Tags as [parseTags] returns them: distinct and not empty. *)
Definition properTags (tags : JsSet.t) : Prop :=
  NoDup tags /\ ~ In EmptyString tags.

(** [extends x y]: the position [y] is in the text of [x], further on. *)
Definition extends (x y : Regex.pos) : Prop :=
  exists w, Regex.after x = w ++ Regex.after y
            /\ Regex.before y = rev w ++ Regex.before x.

(** The part of the expression after its first alternative: a hash and the
    group. *)
Definition hashTag : Regex.t :=
  Regex.Seq (Regex.Chr "#")
    (Regex.Grp (Regex.Seq (Regex.Cls isLetter)
                          (Regex.Star true (Regex.Cls isTagChar)))).

(* ================================================================== *)
(** * Vocabulary of the statements about clusters *)
(* ================================================================== *)

(** The labels under which [getClusters] files a node. *)
Definition clusterLabels (by_ : ClusterBy) (e : string * GraphNode) : list string :=
  match by_ with
  | ByFolder => [folderLabel e]
  | ByTag =>
      match tags (snd e) with
      | [] => [untaggedLabel]
      | ts => ts
      end
  end.

(** The nodes as the loop files them: one pair of a label and a note for
    each label of each node, in the order of the loop. *)
Definition labelled (by_ : ClusterBy) (l : list (string * GraphNode))
  : list (string * Note) :=
  flat_map (fun e => map (fun c => (c, noteOf e)) (clusterLabels by_ e)) l.

(** The notes of the pairs with a given label. *)
Definition withLabel (c : string) (pairs : list (string * Note)) : list Note :=
  map snd (filter (fun p => String.eqb c (fst p)) pairs).

(** The body of the loop on one such pair. *)
Definition pushPair (groups : JsMap.t (list Note)) (p : string * Note)
  : JsMap.t (list Note) :=
  pushTo (fst p) (snd p) groups.

(** The distances in the queue of a breadth-first traversal: in order, and
    within one of the first. *)
Definition window (ds : list nat) : Prop :=
  StronglySorted le ds
  /\ forall d rest, ds = d :: rest -> forall e, In e rest -> e <= S d.

(* ================================================================== *)
(** * Vocabulary of the statements about counts *)
(* ================================================================== *)

(** The links of a graph as pairs of a source and a target: those of the
    forward sets, and those of the reverse sets. *)
Definition forwardLinks (g : Graph) : list (string * string) :=
  flat_map (fun s => map (fun t => (s, t)) (adjacent (edges g) s))
           (JsMap.keys (nodes g)).

Definition reverseLinks (g : Graph) : list (string * string) :=
  flat_map (fun t => map (fun s => (s, t)) (adjacent (reverseEdges g) t))
           (JsMap.keys (nodes g)).

(* ================================================================== *)
(** * Vocabulary of the statements about the listing *)
(* ================================================================== *)

Section Levels.

Variable files : string -> Result (list string).

(** The entries of a directory whose listing succeeds. *)
Definition entriesOf (dirPath : string) : list Api.VaultFile :=
  match Api.listDir files dirPath with
  | Ok entries => entries
  | Throw _ => []
  end.

(** Its sub-directories and its notes, in the order of the listing. *)
Definition subdirs (dirPath : string) : list string :=
  map Api.path (filter Api.isDirectory (entriesOf dirPath)).

Definition notesIn (dirPath : string) : list string :=
  map Api.path
      (filter (fun e => negb (Api.isDirectory e) && Js.endsWith (Api.path e) ".md")
              (entriesOf dirPath)).

(** The directories [n] levels below those of [dirs]. *)
Fixpoint level (n : nat) (dirs : list string) : list string :=
  match n with
  | 0 => dirs
  | S n' => level n' (flat_map subdirs dirs)
  end.

(** The directories of the first [n] levels, level after level. *)
Fixpoint levelOrder (n : nat) (dirs : list string) : list string :=
  match n with
  | 0 => []
  | S n' => dirs ++ levelOrder n' (flat_map subdirs dirs)
  end.

End Levels.

(** A server with three directories: a note, a folder and a picture at the
    root; a note and a folder in [Projects]; a note in [Projects/Archive]. *)
Definition exampleServer (dirPath : string) : Result (list string) :=
  if String.eqb dirPath EmptyString
  then Ok ["Inbox.md"; "Projects/"; "logo.png"]%string
  else if String.eqb dirPath "Projects" then Ok ["Plan.md"; "Archive/"]%string
  else if String.eqb dirPath "Projects/Archive" then Ok ["Old.md"%string]
  else Throw (RequestFailed dirPath).

(* ================================================================== *)
(** * Vocabulary of the statements about the refresh interval *)
(* ================================================================== *)

(** A non-empty run of digits. *)
Definition isDigits (ds : list ascii) : Prop :=
  ds <> [] /\ Forall (fun c => Main.isDigit c = true) ds.

(** The units of the expression. *)
Definition intervalUnits : list string := ["ms"; "s"; "m"; "h"]%string.

(** The unit a text is, if it is one. *)
Definition unitOf (l : list ascii) : option (list ascii) :=
  match l with
  | [a1] =>
      if Ascii.eqb "s" a1 || Ascii.eqb "m" a1 || Ascii.eqb "h" a1
      then Some l else None
  | [a1; a2] => if Ascii.eqb "m" a1 && Ascii.eqb "s" a2 then Some l else None
  | _ => None
  end.

(** The second group of the expression. *)
Definition unitGroup : Regex.t :=
  Regex.Grp (Regex.Alt (Regex.lit "ms")
               (Regex.Alt (Regex.lit "s")
                  (Regex.Alt (Regex.lit "m") (Regex.lit "h")))).

(* ================================================================== *)
(** * Vocabulary of the statements about link targets *)
(* ================================================================== *)

(** A name a wikilink can give: without closing bracket, pipe and hash, and
    without white space at its ends. *)
Definition linkable (t : string) : Prop :=
  Forall (fun c => notTargetDelim c = true) (Js.chars t) /\ Js.trim t = t.

(** Whether the read of a path succeeds. *)
Definition readable (v : Vault) (p : string) : bool :=
  match readNote v p with
  | Ok _ => true
  | Throw _ => false
  end.

(** A note whose name has a hash, and a note with links to it. *)
Definition sharpVault : Vault :=
  vaultOf [ ("C#.md", Some "sharp")%string;
            ("A.md", Some "[[C#]] [[C#|see]]")%string ].

Definition sharpGraph : Graph :=
  match snapshot sharpVault 0 with
  | Ok g => g
  | Throw _ => emptyGraph
  end.

(* ================================================================== *)
(** * Vocabulary of the statements about name resolution *)
(* ================================================================== *)

(** [given] matches no node name, even without regard to case. *)
Definition unmatched (graph : Graph) (given : string) : Prop :=
  forall k, JsMap.has k (nodes graph) = true ->
            Js.toLowerCase k <> Js.toLowerCase given.

(** [given] matches the node name [k] without regard to case. *)
Definition matches (graph : Graph) (given k : string) : Prop :=
  JsMap.has k (nodes graph) = true /\ Js.toLowerCase k = Js.toLowerCase given.

(* ================================================================== *)
(** * Vocabulary of the statements about [getHubs] *)
(* ================================================================== *)

(** The number of elements [l.slice(0, end)] keeps of [n]: for an [end]
    above -1 its integer part, at most [n] (none for an [end] below 1);
    for an [end] of -1 or less all but the last [floor (- end)]. *)
Definition sliceCount (end_ : Js.number) (n : nat) : nat :=
  match end_ with
  | Js.Finite q =>
      if Qle_bool q (-1 # 1) then n - Z.to_nat (Qfloor (- q))
      else Nat.min (Z.to_nat (Qfloor q)) n
  | Js.PlusInfinity => n
  | Js.MinusInfinity => 0
  | Js.NaN => 0
  end.

(* ================================================================== *)
(** * Facts about numbers *)
(* ================================================================== *)

Lemma ltb_ofNat_Finite (n : nat) (q : Q) :
  Js.ltb (Js.ofNat n) (Js.Finite q)
  = (Z.of_nat n * Zpos (Qden q) <? Qnum q)%Z.
Proof.
  unfold Js.ltb, Js.ofNat, Js.ofZ, Qle_bool, inject_Z. cbn [Qnum Qden].
  rewrite Z.mul_1_r. symmetry. apply Z.ltb_antisym.
Qed.

Lemma leb_ofNat_Finite (n : nat) (q : Q) :
  Js.leb (Js.ofNat n) (Js.Finite q)
  = (Z.of_nat n * Zpos (Qden q) <=? Qnum q)%Z.
Proof.
  unfold Js.leb, Js.ofNat, Js.ofZ, Qle_bool, inject_Z. cbn [Qnum Qden].
  now rewrite Z.mul_1_r.
Qed.

Lemma ltb_ofNat_ofZ (n : nat) (z : Z) :
  Js.ltb (Js.ofNat n) (Js.ofZ z) = (Z.of_nat n <? z)%Z.
Proof.
  unfold Js.ofZ. rewrite ltb_ofNat_Finite. cbn [inject_Z Qnum Qden].
  now rewrite Z.mul_1_r.
Qed.

Lemma leb_ofNat_ofZ (n : nat) (z : Z) :
  Js.leb (Js.ofNat n) (Js.ofZ z) = (Z.of_nat n <=? z)%Z.
Proof.
  unfold Js.ofZ. rewrite leb_ofNat_Finite. cbn [inject_Z Qnum Qden].
  now rewrite Z.mul_1_r.
Qed.

(** The numbers below a depth are closed downwards. *)
Lemma ltb_ofNat_down (d : nat) (x : Js.number) :
  Js.ltb (Js.ofNat (S d)) x = true -> Js.ltb (Js.ofNat d) x = true.
Proof.
  destruct x as [q | | |]; try (cbn; congruence).
  rewrite !ltb_ofNat_Finite, !Z.ltb_lt. nia.
Qed.

Lemma quot_floor (q : Q) :
  (0 <= q)%Q -> Z.quot (Qnum q) (Zpos (Qden q)) = Qfloor q.
Proof.
  destruct q as [a b]. unfold Qle. cbn [Qnum Qden Qfloor]. intro H.
  apply Z.quot_div_nonneg; lia.
Qed.

Lemma quot_floor_opp (q : Q) :
  (q <= 0)%Q -> Z.quot (Qnum q) (Zpos (Qden q)) = (- Qfloor (- q))%Z.
Proof.
  destruct q as [a b]. unfold Qle. cbn [Qnum Qden Qfloor Qopp]. intro H.
  rewrite <- (Z.opp_involutive a) at 1. rewrite Z.quot_opp_l by lia.
  f_equal. apply Z.quot_div_nonneg; lia.
Qed.

Lemma sliceTo_firstn (A : Type) (l : list A) (end_ : Js.number) :
  Js.sliceTo l end_ = firstn (sliceCount end_ (List.length l)) l.
Proof.
  unfold Js.sliceTo, sliceCount.
  destruct end_ as [q | | |]; cbn [Js.toIntegerOrInfinity].
  - destruct (Qle_bool q (-1 # 1)) eqn:E.
    + apply Qle_bool_iff in E.
      assert (H0 : (q <= 0)%Q) by (apply (Qle_trans _ _ _ E); discriminate).
      rewrite (quot_floor_opp H0).
      assert (H1 : (1 <= Qfloor (- q))%Z).
      { change 1%Z with (Qfloor (inject_Z 1)). apply Qfloor_resp_le.
        apply Qopp_le_compat in E. exact E. }
      replace (- Qfloor (- q) <? 0)%Z with true by (symmetry; apply Z.ltb_lt; lia).
      f_equal. lia.
    + assert (E' : ~ (q <= -1 # 1)%Q) by (rewrite <- Qle_bool_iff; congruence).
      apply Qnot_le_lt in E'.
      destruct (Qlt_le_dec q 0) as [Hneg | Hpos].
      * assert (H0 : (q <= 0)%Q) by now apply Qlt_le_weak.
        rewrite (quot_floor_opp H0).
        assert (H1 : Qfloor (- q) = 0%Z).
        { destruct q as [a b]. unfold Qlt in *. cbn [Qnum Qden Qfloor Qopp] in *.
          apply Z.div_small. lia. }
        assert (H2 : (Qfloor q < 0)%Z).
        { destruct q as [a b]. unfold Qlt in *. cbn [Qnum Qden Qfloor Qopp] in *.
          apply Z.div_lt_upper_bound; lia. }
        rewrite H1. change (- 0 <? 0)%Z with false. cbv iota.
        replace (Z.to_nat (Z.min (- 0) (Z.of_nat (List.length l)))) with 0 by lia.
        now replace (Z.to_nat (Qfloor q)) with 0 by lia.
      * rewrite (quot_floor Hpos).
        assert (H1 : (0 <= Qfloor q)%Z).
        { change 0%Z with (Qfloor (inject_Z 0)). now apply Qfloor_resp_le. }
        replace (Qfloor q <? 0)%Z with false by (symmetry; apply Z.ltb_ge; lia).
        f_equal. lia.
  - now rewrite Nat2Z.id.
  - reflexivity.
  - change (0 <? 0)%Z with false. cbv iota.
    now replace (Z.to_nat (Z.min 0 (Z.of_nat (List.length l)))) with 0 by lia.
Qed.

Lemma sliceTo_ofNat (A : Type) (l : list A) (k : nat) :
  Js.sliceTo l (Js.ofNat k) = firstn k l.
Proof.
  unfold Js.sliceTo, Js.ofNat, Js.ofZ. cbn [Js.toIntegerOrInfinity inject_Z Qnum Qden].
  rewrite Z.quot_1_r.
  replace (Z.of_nat k <? 0)%Z with false by (symmetry; apply Z.ltb_ge; lia).
  cbv iota. rewrite Z2Nat.inj_min, !Nat2Z.id.
  now rewrite <- firstn_firstn, firstn_all.
Qed.

Lemma ltb_ofNat_le (d' d : nat) (x : Js.number) :
  d' <= d -> Js.ltb (Js.ofNat d) x = true -> Js.ltb (Js.ofNat d') x = true.
Proof.
  induction 1 as [| d Hle IH]; [trivial |].
  intro H. apply IH. now apply ltb_ofNat_down.
Qed.

(** A whole number of hops that is at most the depth comes after a number
    of hops below the depth. *)
Lemma leb_ofNat_ltb (d : nat) (x : Js.number) :
  Js.leb (Js.ofNat (S d)) x = true -> Js.ltb (Js.ofNat d) x = true.
Proof.
  destruct x as [q | | |]; try (cbn; congruence).
  rewrite leb_ofNat_Finite, ltb_ofNat_Finite, Z.leb_le, Z.ltb_lt. nia.
Qed.

(* ================================================================== *)
(** * Facts about sets and maps in insertion order *)
(* ================================================================== *)

Lemma streq_refl (x : string) : String.eqb x x = true.
Proof. apply String.eqb_refl. Qed.

Lemma streq_neq (x y : string) : x <> y -> String.eqb x y = false.
Proof. intro H. destruct (String.eqb_spec x y); congruence. Qed.

Lemma set_has_In (x : string) (s : JsSet.t) : JsSet.has x s = true <-> In x s.
Proof.
  unfold JsSet.has. rewrite existsb_exists. split.
  - intros [y [Hy E]]. apply String.eqb_eq in E. now subst.
  - intro H. exists x. split; [assumption | apply streq_refl].
Qed.

Lemma set_has_false (x : string) (s : JsSet.t) : JsSet.has x s = false <-> ~ In x s.
Proof.
  rewrite <- set_has_In. destruct (JsSet.has x s); split; congruence.
Qed.

Lemma set_add_In (x y : string) (s : JsSet.t) :
  In y (JsSet.add x s) <-> y = x \/ In y s.
Proof.
  unfold JsSet.add. destruct (JsSet.has x s) eqn:E.
  - apply set_has_In in E. split; [tauto | intros [-> | H]; assumption].
  - rewrite in_app_iff. simpl. intuition congruence.
Qed.

Lemma set_add_NoDup (x : string) (s : JsSet.t) : NoDup s -> NoDup (JsSet.add x s).
Proof.
  intro H. unfold JsSet.add. destruct (JsSet.has x s) eqn:E; [assumption |].
  apply set_has_false in E.
  apply NoDup_rev in H. rewrite <- (rev_involutive (s ++ [x])).
  apply NoDup_rev. rewrite rev_app_distr. simpl. constructor; [| assumption].
  now rewrite <- in_rev.
Qed.

Lemma set_add_absent (x : string) (s : JsSet.t) :
  ~ In x s -> JsSet.add x s = s ++ [x].
Proof. intro H. unfold JsSet.add. apply set_has_false in H. now rewrite H. Qed.

Lemma set_add_present (x : string) (s : JsSet.t) : In x s -> JsSet.add x s = s.
Proof. intro H. unfold JsSet.add. apply set_has_In in H. now rewrite H. Qed.

Lemma set_fold_add_In (l : list string) (s : JsSet.t) (y : string) :
  In y (fold_left (fun s x => JsSet.add x s) l s) <-> In y l \/ In y s.
Proof.
  revert s. induction l as [| x l IH]; intro s; simpl.
  - tauto.
  - rewrite IH, set_add_In. intuition congruence.
Qed.

Lemma set_fold_add_NoDup (l : list string) (s : JsSet.t) :
  NoDup s -> NoDup (fold_left (fun s x => JsSet.add x s) l s).
Proof.
  revert s. induction l as [| x l IH]; intros s H; simpl; [assumption |].
  apply IH. now apply set_add_NoDup.
Qed.

Lemma set_ofList_In (l : list string) (y : string) : In y (JsSet.ofList l) <-> In y l.
Proof. unfold JsSet.ofList. rewrite set_fold_add_In. simpl. tauto. Qed.

Lemma set_ofList_NoDup (l : list string) : NoDup (JsSet.ofList l).
Proof. apply set_fold_add_NoDup. constructor. Qed.

Section MapFacts.
Variable V : Type.
Implicit Types (m : JsMap.t V) (k : string) (v : V).

Lemma map_has_get k m : JsMap.has k m = true <-> exists v, JsMap.get k m = Some v.
Proof.
  unfold JsMap.has. destruct (JsMap.get k m) as [v |].
  - split; [intros _; now exists v | reflexivity].
  - split; [discriminate | intros [v H]; discriminate].
Qed.

Lemma map_has_false k m : JsMap.has k m = false <-> JsMap.get k m = None.
Proof.
  unfold JsMap.has. destruct (JsMap.get k m); split; congruence.
Qed.

Lemma map_has_keys k m : JsMap.has k m = true <-> In k (JsMap.keys m).
Proof.
  unfold JsMap.has. induction m as [| [k' v'] m IH]; simpl.
  - split; [discriminate | tauto].
  - destruct (String.eqb_spec k k') as [-> | N].
    + split; [intros _; now left | reflexivity].
    + rewrite IH. split; [tauto | intros [E | H]; [congruence | assumption]].
Qed.

Lemma map_get_In k v m : JsMap.get k m = Some v -> In (k, v) m.
Proof.
  induction m as [| [k' v'] m IH]; simpl; [discriminate |].
  destruct (String.eqb_spec k k') as [-> | N].
  - intro H. injection H as ->. now left.
  - intro H. right. now apply IH.
Qed.

Lemma map_In_get k v m : NoDup (JsMap.keys m) -> In (k, v) m -> JsMap.get k m = Some v.
Proof.
  induction m as [| [k' v'] m IH]; simpl; [tauto |].
  intros ND [E | H].
  - injection E as -> ->. now rewrite streq_refl.
  - inversion ND as [| ? ? Hn ND']; subst.
    destruct (String.eqb_spec k k') as [-> | N].
    + exfalso. apply Hn. change (In (fst (k', v)) (map fst m)). now apply in_map.
    + now apply IH.
Qed.

Lemma map_get_set_eq k v m : JsMap.get k (JsMap.set k v m) = Some v.
Proof.
  induction m as [| [k' v'] m IH]; simpl.
  - now rewrite streq_refl.
  - destruct (String.eqb_spec k k') as [-> | N]; simpl.
    + now rewrite streq_refl.
    + rewrite streq_neq by assumption. exact IH.
Qed.

Lemma map_get_set_neq k k' v m :
  k <> k' -> JsMap.get k' (JsMap.set k v m) = JsMap.get k' m.
Proof.
  intro N. induction m as [| [k0 v0] m IH]; simpl.
  - rewrite streq_neq by congruence. reflexivity.
  - destruct (String.eqb_spec k k0) as [-> | N0]; simpl.
    + rewrite (streq_neq (x:=k') (y:=k0)) by congruence. reflexivity.
    + destruct (String.eqb k' k0); [reflexivity | exact IH].
Qed.

Lemma map_has_set k k' v m :
  JsMap.has k' (JsMap.set k v m) = String.eqb k' k || JsMap.has k' m.
Proof.
  unfold JsMap.has. destruct (String.eqb_spec k' k) as [-> | N].
  - now rewrite map_get_set_eq.
  - rewrite map_get_set_neq by congruence. reflexivity.
Qed.

Lemma map_keys_set_present k v m :
  JsMap.has k m = true -> JsMap.keys (JsMap.set k v m) = JsMap.keys m.
Proof.
  unfold JsMap.has. induction m as [| [k' v'] m IH]; simpl; [discriminate |].
  destruct (String.eqb_spec k k') as [-> | N]; simpl; [reflexivity |].
  intro H. f_equal. now apply IH.
Qed.

Lemma map_keys_set_absent k v m :
  JsMap.has k m = false -> JsMap.keys (JsMap.set k v m) = JsMap.keys m ++ [k].
Proof.
  unfold JsMap.has. induction m as [| [k' v'] m IH]; simpl; [reflexivity |].
  destruct (String.eqb_spec k k') as [-> | N]; simpl; [discriminate |].
  intro H. f_equal. now apply IH.
Qed.

Lemma map_keys_set_NoDup k v m :
  NoDup (JsMap.keys m) -> NoDup (JsMap.keys (JsMap.set k v m)).
Proof.
  intro H. destruct (JsMap.has k m) eqn:E.
  - now rewrite map_keys_set_present.
  - rewrite map_keys_set_absent by assumption.
    assert (Hn : ~ In k (JsMap.keys m)).
    { rewrite <- map_has_keys. congruence. }
    apply NoDup_rev in H. rewrite <- (rev_involutive (JsMap.keys m ++ [k])).
    apply NoDup_rev. rewrite rev_app_distr. simpl. constructor; [| assumption].
    now rewrite <- in_rev.
Qed.

Lemma map_size_set_present k v m :
  JsMap.has k m = true -> JsMap.size (JsMap.set k v m) = JsMap.size m.
Proof.
  intro H. unfold JsMap.size.
  rewrite <- (length_map fst (JsMap.set k v m)), <- (length_map fst m).
  change (List.length (JsMap.keys (JsMap.set k v m)) = List.length (JsMap.keys m)).
  now rewrite map_keys_set_present.
Qed.

Lemma map_size_set_absent k v m :
  JsMap.has k m = false -> JsMap.size (JsMap.set k v m) = S (JsMap.size m).
Proof.
  intro H. unfold JsMap.size.
  rewrite <- (length_map fst (JsMap.set k v m)), <- (length_map fst m).
  change (List.length (JsMap.keys (JsMap.set k v m)) = S (List.length (JsMap.keys m))).
  rewrite map_keys_set_absent by assumption. rewrite length_app. simpl. lia.
Qed.

End MapFacts.

Lemma map_has_of_keys (V W : Type) (m1 : JsMap.t V) (m2 : JsMap.t W) (k : string) :
  JsMap.keys m1 = JsMap.keys m2 -> JsMap.has k m1 = JsMap.has k m2.
Proof.
  intro E. destruct (JsMap.has k m2) eqn:H2.
  - apply map_has_keys. rewrite E. now apply map_has_keys.
  - destruct (JsMap.has k m1) eqn:H1; [| reflexivity].
    apply map_has_keys in H1. rewrite E in H1. apply map_has_keys in H1. congruence.
Qed.

Lemma map_keys_set_congr (V W : Type) (m1 : JsMap.t V) (m2 : JsMap.t W)
    (k : string) (v : V) (w : W) :
  JsMap.keys m1 = JsMap.keys m2 ->
  JsMap.keys (JsMap.set k v m1) = JsMap.keys (JsMap.set k w m2).
Proof.
  intro E. pose proof (map_has_of_keys k E) as H.
  destruct (JsMap.has k m1) eqn:H1.
  - rewrite map_keys_set_present by assumption.
    rewrite map_keys_set_present by congruence. assumption.
  - rewrite map_keys_set_absent by assumption.
    rewrite map_keys_set_absent by congruence. now rewrite E.
Qed.

Lemma adjacent_set (m : JsMap.t JsSet.t) (k k' : string) (s : JsSet.t) :
  adjacent (JsMap.set k s m) k' = if String.eqb k' k then s else adjacent m k'.
Proof.
  unfold adjacent. destruct (String.eqb_spec k' k) as [-> | N].
  - now rewrite map_get_set_eq.
  - rewrite map_get_set_neq by congruence. reflexivity.
Qed.

(* ================================================================== *)
(** * The counters of the matcher *)
(* ================================================================== *)

(** A match never lengthens what is left of the input. *)
Lemma starLoop_shrinks (g : bool) (body : Regex.pos -> list Regex.pos) :
  (forall x y, In y (body x) -> Regex.remaining y <= Regex.remaining x) ->
  forall n x y,
    In y (Regex.starLoop g body n x) -> Regex.remaining y <= Regex.remaining x.
Proof.
  intros Hb. induction n as [| n IH]; intros x y H.
  - destruct H as [<- | []]. lia.
  - cbn [Regex.starLoop] in H.
    assert (Hmore : In y (flat_map (Regex.starLoop g body n)
                            (filter (fun z => Regex.remaining z <? Regex.remaining x)
                                    (body x))) ->
                    Regex.remaining y <= Regex.remaining x).
    { intro Hin. apply in_flat_map in Hin. destruct Hin as [z [Hz Hy]].
      apply filter_In in Hz. destruct Hz as [Hz _].
      apply Hb in Hz. apply IH in Hy. lia. }
    destruct g.
    + apply in_app_iff in H. destruct H as [H | [<- | []]]; [auto | lia].
    + destruct H as [<- | H]; [lia | auto].
Qed.

Lemma run_shrinks (r : Regex.t) (x y : Regex.pos) :
  In y (Regex.run r x) -> Regex.remaining y <= Regex.remaining x.
Proof.
  revert x y. induction r as [| c | p | m | m | r1 IH1 r2 IH2 | r1 IH1 r2 IH2
                              | g r IH | r IH]; intros x y H; cbn [Regex.run] in H.
  - destruct H as [<- | []]. lia.
  - unfold Regex.step1 in H. destruct x as [bef [| a rest] cap]; [destruct H |].
    cbn [Regex.after] in H. destruct (Ascii.eqb c a); [| destruct H].
    destruct H as [<- | []]. unfold Regex.remaining. simpl. lia.
  - unfold Regex.step1 in H. destruct x as [bef [| a rest] cap]; [destruct H |].
    cbn [Regex.after] in H. destruct (p a); [| destruct H].
    destruct H as [<- | []]. unfold Regex.remaining. simpl. lia.
  - destruct (Regex.atLineStart m x); [| destruct H]. destruct H as [<- | []]. lia.
  - destruct (Regex.atLineEnd m x); [| destruct H]. destruct H as [<- | []]. lia.
  - apply in_flat_map in H. destruct H as [z [Hz Hy]].
    apply IH1 in Hz. apply IH2 in Hy. lia.
  - apply in_app_iff in H. destruct H as [H | H]; auto.
  - apply (starLoop_shrinks IH H).
  - apply in_map_iff in H. destruct H as [z [<- Hz]]. apply IH in Hz.
    unfold Regex.setCaptured, Regex.remaining in *. simpl. lia.
Qed.

(** The counter of a star does not change its result once it is at least
    the number of code units left. *)
Lemma starLoop_counter (g : bool) (body : Regex.pos -> list Regex.pos) (n m : nat)
    (x : Regex.pos) :
  Regex.remaining x <= n -> Regex.remaining x <= m ->
  Regex.starLoop g body n x = Regex.starLoop g body m x.
Proof.
  revert m x. induction n as [| n IH]; intros m x Hn Hm.
  - destruct m as [| m]; [reflexivity |]. cbn [Regex.starLoop].
    assert (E : filter (fun y => Regex.remaining y <? Regex.remaining x) (body x) = []).
    { induction (body x) as [| z l IHl]; [reflexivity |]. simpl.
      destruct (Nat.ltb_spec (Regex.remaining z) (Regex.remaining x)); [lia | exact IHl]. }
    rewrite E. destruct g; reflexivity.
  - destruct m as [| m].
    + cbn [Regex.starLoop].
      assert (E : filter (fun y => Regex.remaining y <? Regex.remaining x) (body x) = []).
      { induction (body x) as [| z l IHl]; [reflexivity |]. simpl.
        destruct (Nat.ltb_spec (Regex.remaining z) (Regex.remaining x)); [lia | exact IHl]. }
      rewrite E. destruct g; reflexivity.
    + cbn [Regex.starLoop].
      assert (E : flat_map (Regex.starLoop g body n)
                    (filter (fun y => Regex.remaining y <? Regex.remaining x) (body x))
                  = flat_map (Regex.starLoop g body m)
                      (filter (fun y => Regex.remaining y <? Regex.remaining x) (body x))).
      { rewrite !flat_map_concat_map. f_equal. apply map_ext_in.
        intros z Hz. apply filter_In in Hz. destruct Hz as [_ Hz].
        apply Nat.ltb_lt in Hz. apply IH; lia. }
      now rewrite E.
Qed.

Lemma search_bounds (r : Regex.t) (aft bef : list ascii) (x y : Regex.pos) :
  Regex.search r bef aft = Some (x, y) ->
  Regex.remaining y <= Regex.remaining x /\ Regex.remaining x <= List.length aft.
Proof.
  revert bef. induction aft as [| c aft IH]; intros bef H; cbn [Regex.search] in H.
  - destruct (Regex.run r (Regex.Pos bef [] None)) as [| z l] eqn:E; [discriminate |].
    injection H as <- <-. split; [| unfold Regex.remaining; simpl; lia].
    apply (@run_shrinks r). rewrite E. now left.
  - destruct (Regex.run r (Regex.Pos bef (c :: aft) None)) as [| z l] eqn:E.
    + apply IH in H. simpl. lia.
    + injection H as <- <-. split; [| unfold Regex.remaining; simpl; lia].
      apply (@run_shrinks r). rewrite E. now left.
Qed.

(** The counter of the loop over the matches does not change its result
    once it is above the number of code units left. *)
Lemma matchesFrom_counter (r : Regex.t) (n m : nat) (bef aft : list ascii) :
  List.length aft < n -> List.length aft < m ->
  Regex.matchesFrom r n bef aft = Regex.matchesFrom r m bef aft.
Proof.
  revert m bef aft. induction n as [| n IH]; intros m bef aft Hn Hm; [lia |].
  destruct m as [| m]; [lia |]. cbn [Regex.matchesFrom].
  destruct (Regex.search r bef aft) as [[x y] |] eqn:E; [| reflexivity].
  destruct (search_bounds E) as [H1 H2]. f_equal.
  destruct (Nat.ltb_spec (Regex.remaining y) (Regex.remaining x)) as [Hlt | Hge].
  - apply IH; unfold Regex.remaining in *; lia.
  - unfold Regex.remaining in *. destruct (Regex.after y) as [| c rest]; [reflexivity |].
    apply IH; simpl in *; lia.
Qed.

(* ================================================================== *)
(** * The error monad *)
(* ================================================================== *)

Lemma foldM_app (A B : Type) (f : B -> A -> Result B) (l1 l2 : list A) (b : B) :
  foldM f (l1 ++ l2) b = (b' <- foldM f l1 b ;; foldM f l2 b').
Proof.
  revert b. induction l1 as [| a l1 IH]; intro b; simpl; [reflexivity |].
  destruct (f b a); simpl; [apply IH | reflexivity].
Qed.

Lemma foldM_map (A B C : Type) (f : B -> A -> Result B) (g : C -> A)
    (l : list C) (b : B) :
  foldM f (map g l) b = foldM (fun b c => f b (g c)) l b.
Proof.
  revert b. induction l as [| c l IH]; intro b; simpl; [reflexivity |].
  destruct (f b (g c)); simpl; [apply IH | reflexivity].
Qed.

(* ================================================================== *)
(** * What [buildGraph] builds *)
(* ================================================================== *)

Section Build.
Variable v : Vault.

(** ** Reading the notes *)

Lemma storeResults_app (nc : JsMap.t string) (l1 l2 : list string) :
  storeResults v nc (l1 ++ l2) = storeResults v (storeResults v nc l1) l2.
Proof. unfold storeResults. apply fold_left_app. Qed.

Lemma readBatches_all (paths : list string) (fuel i : nat) (nc : JsMap.t string) :
  List.length paths - i <= fuel ->
  readBatches v fuel i paths nc = storeResults v nc (skipn i paths).
Proof.
  revert i nc. induction fuel as [| fuel IH]; intros i nc H; simpl.
  - rewrite skipn_all2 by lia. reflexivity.
  - destruct (Nat.ltb_spec i (List.length paths)) as [Hlt | Hge].
    + rewrite IH by (unfold BATCH_SIZE; lia).
      rewrite <- storeResults_app. f_equal.
      rewrite <- (firstn_skipn BATCH_SIZE (skipn i paths)) at 2.
      f_equal. rewrite skipn_skipn. f_equal. lia.
    + rewrite skipn_all2 by lia. reflexivity.
Qed.

(** The batches read every listed path once, in the order of the listing. *)
Lemma readAll_storeResults (paths : list string) :
  readAll v paths = storeResults v JsMap.empty paths.
Proof. unfold readAll. rewrite readBatches_all by lia. reflexivity. Qed.

Lemma storeResults_get_read (l : list string) (nc : JsMap.t string) (p c : string) :
  In p l -> readNote v p = Ok c -> JsMap.get p (storeResults v nc l) = Some c.
Proof.
  intros Hin Hr. induction l as [| q l IH] using rev_ind; [destruct Hin |].
  rewrite storeResults_app. simpl.
  destruct (String.eqb_spec q p) as [-> | N].
  - rewrite Hr. apply map_get_set_eq.
  - apply in_app_iff in Hin. destruct Hin as [Hin | [E | []]]; [| congruence].
    destruct (readNote v q); [| now apply IH].
    rewrite map_get_set_neq by assumption. now apply IH.
Qed.

Lemma storeResults_get_inv (l : list string) (nc : JsMap.t string) (p c : string) :
  JsMap.get p (storeResults v nc l) = Some c ->
  JsMap.get p nc = Some c \/ (In p l /\ readNote v p = Ok c).
Proof.
  induction l as [| q l IH] using rev_ind; [now left |].
  rewrite storeResults_app. simpl. intro H.
  destruct (readNote v q) as [c' |] eqn:Hr.
  - destruct (String.eqb_spec q p) as [-> | N].
    + rewrite map_get_set_eq in H. injection H as ->.
      right. split; [apply in_app_iff; right; now left | assumption].
    + rewrite map_get_set_neq in H by assumption.
      destruct (IH H) as [? | [? ?]]; [now left | right].
      split; [apply in_app_iff; now left | assumption].
  - destruct (IH H) as [? | [? ?]]; [now left | right].
    split; [apply in_app_iff; now left | assumption].
Qed.

Lemma storeResults_NoDup (l : list string) (nc : JsMap.t string) :
  NoDup (JsMap.keys nc) -> NoDup (JsMap.keys (storeResults v nc l)).
Proof.
  intro H. induction l as [| q l IH] using rev_ind; [assumption |].
  rewrite storeResults_app. simpl.
  destruct (readNote v q); [now apply map_keys_set_NoDup | assumption].
Qed.

(** [noteContents] holds exactly the listed paths whose read succeeded. *)
Lemma readAll_entries (paths : list string) (p c : string) :
  In (p, c) (readAll v paths) <-> In p paths /\ readNote v p = Ok c.
Proof.
  rewrite readAll_storeResults. split.
  - intro H. apply map_In_get in H.
    + destruct (storeResults_get_inv H) as [H0 | H0]; [discriminate | assumption].
    + apply storeResults_NoDup. constructor.
  - intros [H1 H2]. apply map_get_In. now apply storeResults_get_read.
Qed.

Lemma readAll_get (paths : list string) (p c : string) :
  JsMap.get p (readAll v paths) = Some c <-> In p paths /\ readNote v p = Ok c.
Proof.
  rewrite <- readAll_entries. split.
  - apply map_get_In.
  - apply map_In_get. rewrite readAll_storeResults.
    apply storeResults_NoDup. constructor.
Qed.

End Build.

(** ** The loop "Build nodes" *)

Section BuildNodes.
Variable noteContents : JsMap.t string.

Lemma buildNodes_snoc (paths : list string) (p : string) :
  buildNodes noteContents (paths ++ [p]) =
  addNode noteContents (buildNodes noteContents paths) p.
Proof. unfold buildNodes. now rewrite fold_left_app. Qed.

Lemma addNode_wellKeyed (b : Building) (p : string) :
  wellKeyed b -> wellKeyed (addNode noteContents b p).
Proof.
  intros [H1 H2 H3 H4 H5]. constructor; simpl.
  - now apply map_keys_set_NoDup.
  - now apply map_keys_set_congr.
  - now apply map_keys_set_congr.
  - intros k s. destruct (String.eqb_spec (nameFromPath p) k) as [<- | N].
    + rewrite map_get_set_eq. intro E. injection E as <-. constructor.
    + rewrite map_get_set_neq by assumption. apply H4.
  - intros k s. destruct (String.eqb_spec (nameFromPath p) k) as [<- | N].
    + rewrite map_get_set_eq. intro E. injection E as <-. constructor.
    + rewrite map_get_set_neq by assumption. apply H5.
Qed.

Lemma buildNodes_wellKeyed (paths : list string) :
  wellKeyed (buildNodes noteContents paths).
Proof.
  induction paths as [| p paths IH] using rev_ind.
  - constructor; simpl; try constructor; discriminate.
  - rewrite buildNodes_snoc. now apply addNode_wellKeyed.
Qed.

(** The names of the nodes are the names derived from the listed paths. *)
Lemma buildNodes_has (paths : list string) (n : string) :
  JsMap.has n (newNodes (buildNodes noteContents paths)) = true <->
  exists p, In p paths /\ nameFromPath p = n.
Proof.
  induction paths as [| q paths IH] using rev_ind.
  - simpl. split; [discriminate | intros [p [[] _]]].
  - rewrite buildNodes_snoc. simpl. rewrite map_has_set, orb_true_iff, IH.
    split.
    + intros [E | [p [Hp E]]].
      * apply String.eqb_eq in E. exists q. split; [| congruence].
        apply in_app_iff. right. now left.
      * exists p. split; [apply in_app_iff; now left | assumption].
    + intros [p [Hp E]]. apply in_app_iff in Hp. destruct Hp as [Hp | [-> | []]].
      * right. now exists p.
      * left. rewrite E. apply streq_refl.
Qed.

(** No edge exists when the loop ends. *)
Lemma buildNodes_no_edges (paths : list string) (k : string) :
  adjacent (newEdges (buildNodes noteContents paths)) k = []
  /\ adjacent (newReverseEdges (buildNodes noteContents paths)) k = [].
Proof.
  induction paths as [| q paths IH] using rev_ind.
  - now split.
  - rewrite buildNodes_snoc. simpl. rewrite !adjacent_set.
    destruct (String.eqb k (nameFromPath q)); [now split | exact IH].
Qed.

(** The node under a name is the one of the last listed path with that
    name. *)
Lemma buildNodes_last_writer (l1 l2 : list string) (q : string) :
  (forall p, In p l2 -> nameFromPath p <> nameFromPath q) ->
  JsMap.get (nameFromPath q) (newNodes (buildNodes noteContents (l1 ++ q :: l2)))
  = Some (nodeOf noteContents q).
Proof.
  induction l2 as [| p l2 IH] using rev_ind; intro H.
  - rewrite buildNodes_snoc. simpl. apply map_get_set_eq.
  - change (l1 ++ q :: l2 ++ [p]) with (l1 ++ (q :: l2) ++ [p]).
    rewrite app_assoc, buildNodes_snoc. simpl.
    rewrite map_get_set_neq.
    + apply IH. intros p' Hp'. apply H. apply in_app_iff. now left.
    + apply H. apply in_app_iff. right. now left.
Qed.

End BuildNodes.

(** ** The loop "Build edges from wikilinks" *)

Lemma buildEdges_linkPairs (noteContents : JsMap.t string) (b : Building) :
  buildEdges noteContents b = foldM addPair (linkPairs noteContents) b.
Proof.
  unfold buildEdges. revert b.
  induction noteContents as [| e nc IH]; intro b; simpl; [reflexivity |].
  rewrite foldM_app. unfold addNoteEdges at 1. rewrite foldM_map.
  unfold addPair at 1. simpl.
  destruct (foldM (fun b0 c => addEdge (nameFromPath (fst e)) b0 c)
              (parseWikilinks (snd e)) b); simpl; [apply IH | reflexivity].
Qed.

Lemma linkPairs_In (noteContents : JsMap.t string) (s t : string) :
  In (s, t) (linkPairs noteContents) <->
  exists p c, In (p, c) noteContents /\ nameFromPath p = s
              /\ In t (parseWikilinks c).
Proof.
  unfold linkPairs. rewrite in_flat_map. split.
  - intros [[p c] [H1 H2]]. apply in_map_iff in H2.
    destruct H2 as [t' [E H2]]. simpl in *. injection E as <- <-.
    now exists p, c.
  - intros [p [c [H1 [H2 H3]]]]. exists (p, c). split; [assumption |].
    apply in_map_iff. exists t. simpl. split; [now rewrite H2 | assumption].
Qed.

(** One link: it never throws, keeps the nodes and the keys, and adds the
    edge and its reverse when the target is a node. *)
Lemma addEdge_spec (b : Building) (s t : string) :
  wellKeyed b -> JsMap.has s (newNodes b) = true ->
  exists b',
    addEdge s b t = Ok b' /\ wellKeyed b' /\ newNodes b' = newNodes b
    /\ (forall s' t', In t' (adjacent (newEdges b') s') <->
          In t' (adjacent (newEdges b) s')
          \/ (s' = s /\ t' = t /\ JsMap.has t (newNodes b) = true))
    /\ (forall s' t', In s' (adjacent (newReverseEdges b') t') <->
          In s' (adjacent (newReverseEdges b) t')
          \/ (s' = s /\ t' = t /\ JsMap.has t (newNodes b) = true)).
Proof.
  intros W Hs. unfold addEdge. destruct (JsMap.has t (newNodes b)) eqn:Ht.
  - pose proof (map_has_of_keys s (wk_edges W)) as Es. rewrite Hs in Es.
    pose proof (map_has_of_keys t (wk_reverse W)) as Et. rewrite Ht in Et.
    apply map_has_get in Es. destruct Es as [out Eout].
    rewrite Et. simpl.
    pose proof Et as Et'. apply map_has_get in Et'. destruct Et' as [inc Einc].
    unfold addTo. rewrite Eout, Einc. simpl.
    eexists. split; [reflexivity |]. split; [| split; [reflexivity |]]; simpl.
    + destruct W as [H1 H2 H3 H4 H5]. constructor; simpl.
      * assumption.
      * rewrite map_keys_set_present; [assumption |].
        apply map_has_get. now exists out.
      * rewrite map_keys_set_present; assumption.
      * intros k s0. destruct (String.eqb_spec s k) as [<- | N].
        -- rewrite map_get_set_eq. intro E. injection E as <-.
           apply set_add_NoDup. now apply (H4 s).
        -- rewrite map_get_set_neq by assumption. apply H4.
      * intros k s0. destruct (String.eqb_spec t k) as [<- | N].
        -- rewrite map_get_set_eq. intro E. injection E as <-.
           apply set_add_NoDup. now apply (H5 t).
        -- rewrite map_get_set_neq by assumption. apply H5.
    + split; intros s' t'; rewrite adjacent_set.
      * destruct (String.eqb_spec s' s) as [-> | N].
        -- rewrite set_add_In. unfold adjacent. rewrite Eout. intuition congruence.
        -- intuition congruence.
      * destruct (String.eqb_spec t' t) as [-> | N].
        -- rewrite set_add_In. unfold adjacent. rewrite Einc. intuition congruence.
        -- intuition congruence.
  - exists b. split; [reflexivity |]. split; [assumption |].
    split; [reflexivity |]. split; intros s' t'; intuition congruence.
Qed.

Lemma addPairs_spec (pairs : list (string * string)) (b : Building) :
  wellKeyed b ->
  (forall s t, In (s, t) pairs -> JsMap.has s (newNodes b) = true) ->
  exists b',
    foldM addPair pairs b = Ok b' /\ wellKeyed b' /\ newNodes b' = newNodes b
    /\ (forall s t, In t (adjacent (newEdges b') s) <->
          In t (adjacent (newEdges b) s)
          \/ (In (s, t) pairs /\ JsMap.has t (newNodes b) = true))
    /\ (forall s t, In s (adjacent (newReverseEdges b') t) <->
          In s (adjacent (newReverseEdges b) t)
          \/ (In (s, t) pairs /\ JsMap.has t (newNodes b) = true)).
Proof.
  revert b. induction pairs as [| [s0 t0] pairs IH]; intros b W Hsrc.
  - exists b. simpl. split; [reflexivity |]. split; [assumption |].
    split; [reflexivity |]. split; intros s t; tauto.
  - destruct (@addEdge_spec b s0 t0 W (Hsrc s0 t0 (or_introl eq_refl)))
      as [b1 [E1 [W1 [N1 [F1 R1]]]]].
    destruct (IH b1 W1) as [b2 [E2 [W2 [N2 [F2 R2]]]]].
    { intros s t H. rewrite N1. apply (Hsrc s t). now right. }
    exists b2. simpl. unfold addPair at 1. simpl. rewrite E1. simpl.
    split; [assumption |]. split; [assumption |].
    split; [congruence |]. rewrite N1 in F2, R2.
    split; intros s t.
    + rewrite F2, F1. simpl. intuition (try congruence).
    + rewrite R2, R1. simpl. intuition (try congruence).
Qed.

(** ** The snapshot *)

Lemma snapshot_throw (v : Vault) (now : Z) (e : Exn) :
  listAllNotes v = Throw e -> snapshot v now = Throw e.
Proof. intro H. unfold snapshot. now rewrite H. Qed.

Lemma snapshot_ok (v : Vault) (now : Z) (paths : list string) :
  listAllNotes v = Ok paths ->
  exists g, snapshot v now = Ok g /\ lastRefresh g = now /\ builtFrom v paths g.
Proof.
  intro H. unfold snapshot. rewrite H. simpl.
  set (nc := readAll v paths). set (b0 := buildNodes nc paths).
  rewrite buildEdges_linkPairs.
  destruct (@addPairs_spec (linkPairs nc) b0 (buildNodes_wellKeyed nc paths))
    as [b [E [W [N [F R]]]]].
  { intros s t Hst. apply buildNodes_has. apply linkPairs_In in Hst.
    destruct Hst as [p [c [Hpc [Hs _]]]]. apply readAll_entries in Hpc.
    exists p. tauto. }
  rewrite E. simpl. eexists. split; [reflexivity |]. split; [reflexivity |].
  assert (F' : forall s t, In t (adjacent (newEdges b) s) <->
            In (s, t) (linkPairs nc) /\ JsMap.has t (newNodes b) = true).
  { intros s t. rewrite F, N.
    destruct (buildNodes_no_edges nc paths s) as [E0 _]. fold b0 in E0.
    rewrite E0. simpl. tauto. }
  assert (R' : forall s t, In s (adjacent (newReverseEdges b) t) <->
            In (s, t) (linkPairs nc) /\ JsMap.has t (newNodes b) = true).
  { intros s t. rewrite R, N.
    destruct (buildNodes_no_edges nc paths t) as [_ E0]. fold b0 in E0.
    rewrite E0. simpl. tauto. }
  destruct W as [W1 W2 W3 W4 W5]. constructor; simpl; try assumption.
  - intros s t. rewrite F', linkPairs_In. split.
    + intros [[p [c [H1 [H2 H3]]]] H4]. apply readAll_entries in H1.
      split; [exists p, c; tauto | assumption].
    + intros [[p [c [H1 [H2 [H3 H4]]]]] H5]. split; [| assumption].
      exists p, c. split; [apply readAll_entries; tauto | tauto].
  - intros s t. rewrite R', F'. tauto.
Qed.

Lemma buildGraph_ok (v : Vault) (now : Z) (graph : Graph) (paths : list string) :
  listAllNotes v = Ok paths ->
  exists g, buildGraph v now graph = (Ok g, g) /\ lastRefresh g = now
            /\ builtFrom v paths g.
Proof.
  intro H. destruct (snapshot_ok now H) as [g [E [L B]]].
  exists g. unfold buildGraph. rewrite E. tauto.
Qed.

Lemma buildGraph_throw (v : Vault) (now : Z) (graph : Graph) (e : Exn) :
  listAllNotes v = Throw e -> buildGraph v now graph = (Throw e, graph).
Proof. intro H. unfold buildGraph. now rewrite (snapshot_throw now H). Qed.

(** A snapshot comes from a listing that succeeded. *)
Lemma buildGraph_inv (v : Vault) (now : Z) (graph g : Graph) :
  fst (buildGraph v now graph) = Ok g ->
  exists paths, listAllNotes v = Ok paths /\ builtFrom v paths g
                /\ buildGraph v now graph = (Ok g, g).
Proof.
  intro H. destruct (listAllNotes v) as [paths | e] eqn:L.
  - destruct (buildGraph_ok now graph L) as [g' [E [_ B]]].
    rewrite E in H. simpl in H. injection H as <-. now exists paths.
  - rewrite (buildGraph_throw now graph L) in H. discriminate.
Qed.

(** In a snapshot the maps have the entries of their keys, and every name
    in an adjacency set is a node. *)
Lemma builtFrom_entries (v : Vault) (paths : list string) (g : Graph) (k : string) :
  builtFrom v paths g -> JsMap.has k (nodes g) = true ->
  exists out inc, JsMap.get k (edges g) = Some out
                  /\ JsMap.get k (reverseEdges g) = Some inc.
Proof.
  intros B H.
  pose proof (map_has_of_keys k (bf_edges_keys B)) as E1.
  pose proof (map_has_of_keys k (bf_reverse_keys B)) as E2.
  rewrite H in E1, E2. apply map_has_get in E1, E2.
  destruct E1 as [out E1], E2 as [inc E2]. now exists out, inc.
Qed.

Lemma builtFrom_source_known (v : Vault) (paths : list string) (g : Graph)
    (s t : string) :
  builtFrom v paths g -> In t (adjacent (edges g) s) ->
  JsMap.has s (nodes g) = true /\ JsMap.has t (nodes g) = true.
Proof.
  intros B H. apply (bf_forward B) in H.
  destruct H as [[p [c [H1 [_ [H2 _]]]]] H3]. split; [| assumption].
  rewrite (bf_nodes B). apply buildNodes_has. now exists p.
Qed.

Lemma builtFrom_closed (v : Vault) (paths : list string) (g : Graph)
    (k x : string) (s : JsSet.t) :
  builtFrom v paths g ->
  In (k, s) (edges g) \/ In (k, s) (reverseEdges g) -> In x s ->
  JsMap.has x (nodes g) = true.
Proof.
  intros B [H | H] Hx.
  - apply map_In_get in H; [| rewrite (bf_edges_keys B); apply (bf_nodes_keys B)].
    assert (Hadj : In x (adjacent (edges g) k)) by (unfold adjacent; now rewrite H).
    apply (builtFrom_source_known B Hadj).
  - apply map_In_get in H; [| rewrite (bf_reverse_keys B); apply (bf_nodes_keys B)].
    assert (Hadj : In x (adjacent (reverseEdges g) k))
      by (unfold adjacent; now rewrite H).
    apply (bf_reverse B) in Hadj. apply (builtFrom_source_known B Hadj).
Qed.

(** ** Queries do not look at [lastRefresh] *)

Lemma sameGraph_withRefresh (g1 g2 : Graph) :
  sameGraph g1 g2 -> g2 = withRefresh (lastRefresh g2) g1.
Proof.
  destruct g1, g2. unfold sameGraph, withRefresh. simpl.
  intros [-> [-> ->]]. reflexivity.
Qed.

Lemma queryRelatedLoop_withRefresh (now : Z) (g : Graph) (depth : Js.number) (fuel : nat)
    (visited : JsSet.t) (queue : list (string * nat)) (results : list Related) :
  queryRelatedLoop (withRefresh now g) depth fuel visited queue results
  = queryRelatedLoop g depth fuel visited queue results.
Proof.
  revert visited queue results.
  induction fuel as [| fuel IH]; intros visited queue results;
    destruct queue as [| [cur dist] queue]; try reflexivity.
  cbn [queryRelatedLoop].
  change (neighbors (withRefresh now g) cur) with (neighbors g cur).
  change (nodes (withRefresh now g)) with (nodes g).
  destruct (Js.ltb (Js.ofNat dist) depth).
  - destruct (enqueueNeighbors (neighbors g cur) dist visited queue). apply IH.
  - apply IH.
Qed.

Lemma queryRelated_withRefresh (now : Z) (g : Graph) (start : string) (depth : Js.number) :
  queryRelated (withRefresh now g) start depth = queryRelated g start depth.
Proof.
  unfold queryRelated.
  change (traversalFuel (withRefresh now g)) with (traversalFuel g).
  now rewrite queryRelatedLoop_withRefresh.
Qed.

Lemma findPathLoop_withRefresh (now : Z) (g : Graph) (toName : string) (fuel : nat)
    (visited : JsSet.t) (parent : JsMap.t string) (queue : list string) :
  findPathLoop (withRefresh now g) toName fuel visited parent queue
  = findPathLoop g toName fuel visited parent queue.
Proof.
  revert visited parent queue.
  induction fuel as [| fuel IH]; intros visited parent queue;
    destruct queue as [| current queue]; try reflexivity.
  cbn [findPathLoop].
  change (neighbors (withRefresh now g) current) with (neighbors g current).
  destruct (scanNeighbors (neighbors g current) current toName visited parent queue)
    as [[p |] | visited' parent' queue']; try reflexivity.
  apply IH.
Qed.

Lemma findPath_withRefresh (now : Z) (g : Graph) (a b : string) :
  findPath (withRefresh now g) a b = findPath g a b.
Proof.
  unfold findPath.
  change (traversalFuel (withRefresh now g)) with (traversalFuel g).
  change (nodes (withRefresh now g)) with (nodes g).
  now rewrite findPathLoop_withRefresh.
Qed.

(* ================================================================== *)
(** * The claims about [buildGraph] *)
(* ================================================================== *)

(** C1.  After [buildGraph], for a listed document [D] whose read succeeded
    and whose name no other listed path derives, the forward set under the
    name of [D] holds exactly the parsed wikilink targets of its content
    that are nodes of the snapshot; the name of [D] is in the reverse set of
    each of them; and no set, forward or reverse, holds a name that is not a
    node. *)
Theorem buildGraph_edges_of_document
    (v : Vault) (now : Z) (graph : Graph) (paths : list string)
    (D content : string) :
  listAllNotes v = Ok paths ->
  In D paths ->
  readNote v D = Ok content ->
  (forall D', In D' paths -> nameFromPath D' = nameFromPath D -> D' = D) ->
  exists g,
    buildGraph v now graph = (Ok g, g)
    /\ (exists out,
          JsMap.get (nameFromPath D) (edges g) = Some out /\ NoDup out
          /\ forall t, In t out <->
               In t (parseWikilinks content) /\ JsMap.has t (nodes g) = true)
    /\ (forall t, In t (parseWikilinks content) -> JsMap.has t (nodes g) = true ->
          exists inc, JsMap.get t (reverseEdges g) = Some inc
                      /\ In (nameFromPath D) inc)
    /\ (forall k s x,
          In (k, s) (edges g) \/ In (k, s) (reverseEdges g) -> In x s ->
          JsMap.has x (nodes g) = true).
Proof.
  intros HL HD HR Huniq.
  destruct (buildGraph_ok now graph HL) as [g [E [_ B]]].
  exists g. split; [assumption |].
  assert (Hn : JsMap.has (nameFromPath D) (nodes g) = true).
  { rewrite (bf_nodes B). apply buildNodes_has. now exists D. }
  assert (Hfwd : forall t, In t (adjacent (edges g) (nameFromPath D)) <->
            In t (parseWikilinks content) /\ JsMap.has t (nodes g) = true).
  { intro t. rewrite (bf_forward B). split.
    - intros [[p [c [H1 [H2 [H3 H4]]]]] H5]. split; [| assumption].
      assert (p = D) by now apply Huniq. subst p. congruence.
    - intros [H1 H2]. split; [| assumption]. now exists D, content. }
  split; [| split].
  - destruct (builtFrom_entries B Hn) as [out [inc [Eo Ei]]].
    exists out. split; [assumption |]. split; [apply (bf_edges_sets B Eo) |].
    intro t. rewrite <- Hfwd. unfold adjacent. rewrite Eo. tauto.
  - intros t Ht Hk.
    destruct (builtFrom_entries B Hk) as [out [inc [Eo Ei]]].
    exists inc. split; [assumption |].
    assert (H : In (nameFromPath D) (adjacent (reverseEdges g) t)).
    { apply (bf_reverse B). apply Hfwd. tauto. }
    unfold adjacent in H. now rewrite Ei in H.
  - intros k s x. apply (builtFrom_closed B).
Qed.

Lemma buildGraph_edges_of_document_witness :
  exists g,
    buildGraph scenarioVault 0 emptyGraph = (Ok g, g)
    /\ (exists out,
          JsMap.get "A"%string (edges g) = Some out /\ NoDup out
          /\ forall t, In t out <->
               In t ["B"; "C"]%string /\ JsMap.has t (nodes g) = true)
    /\ (forall t, In t ["B"; "C"]%string -> JsMap.has t (nodes g) = true ->
          exists inc, JsMap.get t (reverseEdges g) = Some inc /\ In "A"%string inc)
    /\ (forall k s x,
          In (k, s) (edges g) \/ In (k, s) (reverseEdges g) -> In x s ->
          JsMap.has x (nodes g) = true).
Proof.
  apply (@buildGraph_edges_of_document scenarioVault 0 emptyGraph
           ["A.md"; "B.md"; "C.md"]%string "A.md"%string "[[B]] [[C]] #x"%string).
  - reflexivity.
  - simpl. tauto.
  - reflexivity.
  - intros D' [<- | [<- | [<- | []]]] H; vm_compute in H;
      solve [reflexivity | discriminate H].
Defined.

(** C2, as the specification states it, fails: of two listed paths with the
    name [X], the node stored under [X] is the one of the second path. *)
Lemma first_writer_overwritten :
  nameFromPath "a/X.md" = "X"%string /\ nameFromPath "b/X.md" = "X"%string
  /\ listAllNotes collisionVault = Ok ["a/X.md"; "b/X.md"; "Y.md"]%string
  /\ exists g n,
       buildGraph collisionVault 0 emptyGraph = (Ok g, g)
       /\ JsMap.get "X"%string (nodes g) = Some n
       /\ path n = "b/X.md"%string
       /\ n <> nodeOf (readAll collisionVault ["a/X.md"; "b/X.md"; "Y.md"]%string)
                      "a/X.md".
Proof.
  split; [reflexivity |]. split; [reflexivity |]. split; [reflexivity |].
  eexists. eexists. split; [vm_compute; reflexivity |].
  split; [vm_compute; reflexivity |]. split; [reflexivity |].
  vm_compute. discriminate.
Qed.

(** C2, amended.  When several listed paths derive the same name, the node
    stored under that name is the one built from the last of them in the
    listing: every [set] overwrites the value. *)
Theorem buildGraph_last_writer_wins
    (v : Vault) (now : Z) (graph : Graph) (l1 l2 : list string) (q : string) :
  listAllNotes v = Ok (l1 ++ q :: l2) ->
  (forall p, In p l2 -> nameFromPath p <> nameFromPath q) ->
  exists g n,
    buildGraph v now graph = (Ok g, g)
    /\ JsMap.get (nameFromPath q) (nodes g) = Some n
    /\ n = nodeOf (readAll v (l1 ++ q :: l2)) q
    /\ path n = q.
Proof.
  intros HL Hlast. destruct (buildGraph_ok now graph HL) as [g [E [_ B]]].
  exists g, (nodeOf (readAll v (l1 ++ q :: l2)) q).
  split; [assumption |]. split; [| split; reflexivity].
  rewrite (bf_nodes B). now apply buildNodes_last_writer.
Qed.

Lemma buildGraph_last_writer_wins_witness :
  exists g n,
    buildGraph collisionVault 0 emptyGraph = (Ok g, g)
    /\ JsMap.get (nameFromPath "b/X.md") (nodes g) = Some n
    /\ n = nodeOf (readAll collisionVault
                       (["a/X.md"%string] ++ "b/X.md"%string :: ["Y.md"%string]))
                  "b/X.md"
    /\ path n = "b/X.md"%string.
Proof.
  apply (@buildGraph_last_writer_wins collisionVault 0 emptyGraph
           ["a/X.md"%string] ["Y.md"%string] "b/X.md"%string).
  - reflexivity.
  - intros p [<- | []] H. vm_compute in H. discriminate H.
Defined.

(** The content of a listed path whose read failed is the empty string, and
    its node has no tag and no content. *)
Lemma nodeOf_unread (v : Vault) (paths : list string) (D : string) (e : Exn) :
  readNote v D = Throw e ->
  nodeOf (readAll v paths) D
  = mkNode D (nameFromPath D) (folderFromPath D) [] false.
Proof.
  intro H. unfold nodeOf, contentOf.
  destruct (JsMap.get D (readAll v paths)) as [c |] eqn:G.
  - apply readAll_get in G. destruct G as [_ G]. congruence.
  - reflexivity.
Qed.

(** C5, as stated, fails for a document whose name another listed document
    shares: the read of [a/X.md] fails and [buildGraph] succeeds, but the
    snapshot holds no node of [a/X.md]; the node under its name [X] is the one
    of [b/X.md], with content, a tag and the forward set of [b/X.md]. *)
Lemma unread_document_overwritten :
  listAllNotes shadowedVault = Ok ["a/X.md"; "b/X.md"; "Y.md"]%string
  /\ readNote shadowedVault "a/X.md" = Throw (RequestFailed "a/X.md")
  /\ exists g,
       buildGraph shadowedVault 0 emptyGraph = (Ok g, g)
       /\ map (fun e => path (snd e)) (nodes g) = ["b/X.md"; "Y.md"]%string
       /\ JsMap.get "X"%string (nodes g)
          = Some (mkNode "b/X.md" "X" "b" ["t"%string] true)
       /\ JsMap.get "X"%string (edges g) = Some ["Y"%string].
Proof.
  split; [reflexivity |]. split; [reflexivity |].
  eexists. split; [vm_compute; reflexivity |].
  repeat split; reflexivity.
Qed.

(** C5, amended.  [buildGraph] throws exactly when the listing fails, and
    then the current graph stays as it was; when the listing succeeds a
    snapshot is returned and published whatever the reads do.  For a listed
    document whose read failed, the loop over the paths sets under its name
    a node without content ([hasContent] false, no tag), and no edge is
    derived from it: every target of a forward set comes from a document
    that was read, of the name of the set.  That node is the one the
    snapshot holds under the name unless a later listed path derives the
    same name, and the forward set under the name is empty unless a document
    that was read derives the same name. *)
Theorem buildGraph_fails_only_on_listing (v : Vault) (now : Z) (graph : Graph) :
  (forall e, fst (buildGraph v now graph) = Throw e <-> listAllNotes v = Throw e)
  /\ (forall e, listAllNotes v = Throw e -> snd (buildGraph v now graph) = graph)
  /\ (forall paths, listAllNotes v = Ok paths ->
        exists g,
          buildGraph v now graph = (Ok g, g)
          /\ (forall s t, In t (adjacent (edges g) s) ->
                exists p c, In p paths /\ readNote v p = Ok c
                            /\ nameFromPath p = s /\ In t (parseWikilinks c))
          /\ forall l1 D l2 e,
               paths = l1 ++ D :: l2 -> readNote v D = Throw e ->
               JsMap.get (nameFromPath D)
                 (newNodes (buildNodes (readAll v paths) (l1 ++ [D])))
               = Some (mkNode D (nameFromPath D) (folderFromPath D) [] false)
               /\ JsMap.has (nameFromPath D) (nodes g) = true
               /\ ((forall D', In D' l2 -> nameFromPath D' <> nameFromPath D) ->
                   JsMap.get (nameFromPath D) (nodes g)
                   = Some (mkNode D (nameFromPath D) (folderFromPath D) [] false))
               /\ ((forall D' c, In D' paths -> readNote v D' = Ok c ->
                                 nameFromPath D' <> nameFromPath D) ->
                   JsMap.get (nameFromPath D) (edges g) = Some [])).
Proof.
  split; [| split].
  - intro e. split.
    + intro H. destruct (listAllNotes v) as [paths | e'] eqn:L.
      * destruct (buildGraph_ok now graph L) as [g [E _]].
        rewrite E in H. discriminate.
      * rewrite (buildGraph_throw now graph L) in H. simpl in H. congruence.
    + intro H. now rewrite (buildGraph_throw now graph H).
  - intros e H. now rewrite (buildGraph_throw now graph H).
  - intros paths HL. destruct (buildGraph_ok now graph HL) as [g [E [_ B]]].
    exists g. split; [assumption |]. split.
    { intros s t Ht. apply (bf_forward B) in Ht. now destruct Ht as [Ht _]. }
    intros l1 D l2 e Hpaths HR.
    assert (HD : In D paths) by (rewrite Hpaths; apply in_app_iff; right; now left).
    assert (Hn : JsMap.has (nameFromPath D) (nodes g) = true).
    { rewrite (bf_nodes B). apply buildNodes_has. now exists D. }
    split; [| split; [assumption | split]].
    + rewrite buildNodes_snoc. cbn [addNode newNodes].
      rewrite map_get_set_eq. now rewrite (nodeOf_unread paths HR).
    + intro Hlast. rewrite <- (nodeOf_unread paths HR), (bf_nodes B).
      rewrite Hpaths. now apply buildNodes_last_writer.
    + intro Hread. destruct (builtFrom_entries B Hn) as [out [inc [Eo _]]].
      rewrite Eo. f_equal. destruct out as [| t out]; [reflexivity |].
      assert (Ht : In t (adjacent (edges g) (nameFromPath D))).
      { unfold adjacent. rewrite Eo. now left. }
      apply (bf_forward B) in Ht. destruct Ht as [[p [c [H1 [H2 [H3 _]]]]] _].
      now destruct (Hread p c H1 H2).
Qed.

Lemma buildGraph_fails_only_on_listing_witness :
  exists g,
    buildGraph shadowedVault 0 emptyGraph = (Ok g, g)
    /\ JsMap.get "X"%string
         (newNodes (buildNodes
                      (readAll shadowedVault ["a/X.md"; "b/X.md"; "Y.md"]%string)
                      ["a/X.md"%string]))
       = Some (mkNode "a/X.md" "X" "a" [] false)
    /\ exists g',
         buildGraph collisionVault 0 emptyGraph = (Ok g', g')
         /\ JsMap.get "Y"%string (nodes g')
            = Some (mkNode "Y.md" "Y" EmptyString [] false)
         /\ JsMap.get "Y"%string (edges g') = Some [].
Proof.
  destruct (buildGraph_fails_only_on_listing shadowedVault 0 emptyGraph)
    as [_ [_ H]].
  destruct (H ["a/X.md"; "b/X.md"; "Y.md"]%string eq_refl) as [g [E [_ HD]]].
  exists g. split; [exact E |]. split.
  { destruct (HD [] "a/X.md"%string ["b/X.md"; "Y.md"]%string
                (RequestFailed "a/X.md") eq_refl eq_refl) as [HX _].
    exact HX. }
  destruct (buildGraph_fails_only_on_listing collisionVault 0 emptyGraph)
    as [_ [_ H']].
  destruct (H' ["a/X.md"; "b/X.md"; "Y.md"]%string eq_refl) as [g' [E' [_ HD']]].
  exists g'. split; [exact E' |].
  destruct (HD' ["a/X.md"; "b/X.md"]%string "Y.md"%string []
              (RequestFailed "Y.md") eq_refl eq_refl) as [_ [_ [HY1 HY2]]].
  split.
  - apply HY1. intros D' [].
  - apply HY2. intros D' c [<- | [<- | [<- | []]]] HR HN;
      vm_compute in HN, HR; solve [discriminate HN | discriminate HR].
Defined.

(** Every node is stored under its own name. *)
Lemma buildNodes_names (noteContents : JsMap.t string) (paths : list string)
    (k : string) (n : GraphNode) :
  JsMap.get k (newNodes (buildNodes noteContents paths)) = Some n -> name n = k.
Proof.
  induction paths as [| q paths IH] using rev_ind; [discriminate |].
  rewrite buildNodes_snoc. simpl.
  destruct (String.eqb_spec (nameFromPath q) k) as [<- | N].
  - rewrite map_get_set_eq. intro E. injection E as <-. reflexivity.
  - rewrite map_get_set_neq by assumption. exact IH.
Qed.

(** C7.  In every snapshot [buildGraph] produces, every node of the nodes
    map sits under its own name and has a forward and a reverse adjacency
    entry under that name, and every name in a forward or reverse adjacency
    set is the name of a node of the snapshot. *)
Theorem buildGraph_snapshot_invariants
    (v : Vault) (now : Z) (graph g : Graph) :
  fst (buildGraph v now graph) = Ok g ->
  (forall k n, In (k, n) (nodes g) ->
     name n = k
     /\ exists out inc,
          JsMap.get (name n) (edges g) = Some out
          /\ JsMap.get (name n) (reverseEdges g) = Some inc)
  /\ (forall k s x,
        In (k, s) (edges g) \/ In (k, s) (reverseEdges g) -> In x s ->
        JsMap.has x (nodes g) = true).
Proof.
  intro H. destruct (buildGraph_inv H) as [paths [HL [B _]]]. split.
  - intros k n Hin. apply map_In_get in Hin; [| apply (bf_nodes_keys B)].
    assert (Hname : name n = k).
    { rewrite (bf_nodes B) in Hin. apply (buildNodes_names Hin). }
    split; [assumption |]. rewrite Hname.
    apply (builtFrom_entries B). apply map_has_get. now exists n.
  - intros k s x. apply (builtFrom_closed B).
Qed.

Lemma buildGraph_snapshot_invariants_witness :
  (forall k n, In (k, n) (nodes scenarioGraph) ->
     name n = k
     /\ exists out inc,
          JsMap.get (name n) (edges scenarioGraph) = Some out
          /\ JsMap.get (name n) (reverseEdges scenarioGraph) = Some inc)
  /\ (forall k s x,
        In (k, s) (edges scenarioGraph) \/ In (k, s) (reverseEdges scenarioGraph) ->
        In x s -> JsMap.has x (nodes scenarioGraph) = true).
Proof.
  apply (@buildGraph_snapshot_invariants scenarioVault 0 emptyGraph scenarioGraph).
  reflexivity.
Defined.

(** C8.  With the vault unchanged, a second [buildGraph] produces a snapshot
    with the same node map and the same forward and reverse edge maps as the
    first (only [lastRefresh] may differ), and every query answers the same
    on both; for [getStats], every field but [lastRefresh]. *)
Theorem buildGraph_idempotent
    (v : Vault) (t1 t2 : Z) (graph0 graph1 g1 : Graph) :
  buildGraph v t1 graph0 = (Ok g1, graph1) ->
  exists g2,
    buildGraph v t2 graph1 = (Ok g2, g2)
    /\ sameGraph g1 g2
    /\ (forall start depth, queryRelated g1 start depth = queryRelated g2 start depth)
    /\ (forall a b, findPath g1 a b = findPath g2 a b)
    /\ (forall topN, getHubs g1 topN = getHubs g2 topN)
    /\ getOrphans g1 = getOrphans g2
    /\ (forall by_, getClusters g1 by_ = getClusters g2 by_)
    /\ (forall (number : Type) (roundedRatio : nat -> nat -> number)
               (zero : number) (toISOString : Z -> string),
          let s1 := getStats roundedRatio zero toISOString g1 in
          let s2 := getStats roundedRatio zero toISOString g2 in
          totalNotes s1 = totalNotes s2 /\ totalLinks s1 = totalLinks s2
          /\ totalTags s1 = totalTags s2 /\ orphanCount s1 = orphanCount s2
          /\ avgLinksPerNote s1 = avgLinksPerNote s2 /\ folders s1 = folders s2).
Proof.
  intro H1.
  assert (H1' : fst (buildGraph v t1 graph0) = Ok g1) by now rewrite H1.
  destruct (buildGraph_inv H1') as [paths [HL [B1 _]]].
  destruct (buildGraph_ok t2 graph1 HL) as [g2 [E2 [_ B2]]].
  exists g2. split; [assumption |].
  assert (S : sameGraph g1 g2).
  { unfold buildGraph in H1, E2. unfold snapshot in H1, E2. rewrite HL in H1, E2.
    simpl in H1, E2.
    destruct (buildEdges (readAll v paths) (buildNodes (readAll v paths) paths));
      simpl in H1, E2; [| discriminate].
    injection H1 as <- _. injection E2 as <-. repeat split. }
  split; [assumption |].
  rewrite (sameGraph_withRefresh S).
  split; [intros; now rewrite queryRelated_withRefresh |].
  split; [intros; now rewrite findPath_withRefresh |].
  repeat split.
Qed.

Lemma buildGraph_idempotent_witness :
  exists g2,
    buildGraph scenarioVault 7 scenarioGraph = (Ok g2, g2)
    /\ sameGraph scenarioGraph g2
    /\ (forall start depth,
          queryRelated scenarioGraph start depth = queryRelated g2 start depth)
    /\ (forall a b, findPath scenarioGraph a b = findPath g2 a b)
    /\ (forall topN, getHubs scenarioGraph topN = getHubs g2 topN)
    /\ getOrphans scenarioGraph = getOrphans g2
    /\ (forall by_, getClusters scenarioGraph by_ = getClusters g2 by_)
    /\ (forall (number : Type) (roundedRatio : nat -> nat -> number)
               (zero : number) (toISOString : Z -> string),
          let s1 := getStats roundedRatio zero toISOString scenarioGraph in
          let s2 := getStats roundedRatio zero toISOString g2 in
          totalNotes s1 = totalNotes s2 /\ totalLinks s1 = totalLinks s2
          /\ totalTags s1 = totalTags s2 /\ orphanCount s1 = orphanCount s2
          /\ avgLinksPerNote s1 = avgLinksPerNote s2 /\ folders s1 = folders s2).
Proof.
  apply (@buildGraph_idempotent scenarioVault 0 7 emptyGraph scenarioGraph
           scenarioGraph).
  reflexivity.
Defined.

(* ================================================================== *)
(** * Breadth-first traversals *)
(* ================================================================== *)

Section TraversalFacts.

Variable N : string -> list string.
Variable start : string.
Variable expandable : nat -> bool.
Hypothesis N_NoDup : forall u, NoDup (N u).
Hypothesis expandable_down : forall d, expandable (S d) = true -> expandable d = true.

Local Abbreviation walk := (walk N start).
Local Abbreviation bfsInv := (bfsInv N start expandable).

Lemma expandable_le (d d' : nat) : d' <= d -> expandable d = true -> expandable d' = true.
Proof.
  induction 1 as [| d Hle IH]; [tauto |].
  intro H. apply IH. now apply expandable_down.
Qed.

Lemma names_app (L1 L2 : list (string * nat)) : names (L1 ++ L2) = names L1 ++ names L2.
Proof. apply map_app. Qed.

Lemma names_labelAt (d : nat) (ws : list string) : names (labelAt d ws) = ws.
Proof.
  unfold names, labelAt. rewrite map_map. simpl. apply map_id.
Qed.

Lemma names_In (L : list (string * nat)) (x : string) :
  In x (names L) <-> exists d, In (x, d) L.
Proof.
  unfold names. rewrite in_map_iff. split.
  - intros [[y d] [E H]]. simpl in E. subst. now exists d.
  - intros [d H]. now exists (x, d).
Qed.

Lemma labelAt_In (d : nat) (ws : list string) (x : string) (dx : nat) :
  In (x, dx) (labelAt d ws) <-> dx = d /\ In x ws.
Proof.
  unfold labelAt. rewrite in_map_iff. split.
  - intros [w [E H]]. injection E as <- <-. tauto.
  - intros [-> H]. now exists x.
Qed.

Lemma fresh_In (seen ns : list string) (w : string) :
  In w (fresh seen ns) <-> In w ns /\ ~ In w seen.
Proof.
  unfold fresh. rewrite filter_In, negb_true_iff, set_has_false. tauto.
Qed.

Lemma levels_bounds (d : nat) (Q : list (string * nat)) (y : string) (dy : nat) :
  levels d Q -> In (y, dy) Q -> d <= dy <= S d.
Proof.
  intros [Qa [Qb [-> [Ha Hb]]]] H. apply in_app_iff in H. destruct H as [H | H].
  - apply Ha in H. lia.
  - apply Hb in H. lia.
Qed.

Lemma levels_app (d : nat) (Q : list (string * nat)) (ws : list string) :
  levels d Q -> levels d (Q ++ labelAt (S d) ws).
Proof.
  intros [Qa [Qb [-> [Ha Hb]]]]. exists Qa, (Qb ++ labelAt (S d) ws).
  split; [now rewrite app_assoc |]. split; [assumption |].
  intros y dy H. apply in_app_iff in H. destruct H as [H | H].
  - now apply (Hb y).
  - now apply labelAt_In in H.
Qed.

Lemma levels_tail (d d2 : nat) (u2 : string) (Q : list (string * nat)) :
  levels d ((u2, d2) :: Q) -> levels d2 Q.
Proof.
  intros [Qa [Qb [E [Ha Hb]]]]. destruct Qa as [| a Qa]; simpl in E.
  - subst Qb. assert (d2 = S d) by (apply (Hb u2); now left). subst d2.
    exists Q, []. split; [now rewrite app_nil_r |].
    split; [| intros y dy []]. intros y dy H. apply (Hb y). now right.
  - injection E as <- ->. assert (d2 = d) by (apply (Ha u2); now left). subst d2.
    exists Qa, Qb. split; [reflexivity |]. split; [| assumption].
    intros y dy H. apply (Ha y). now right.
Qed.

Lemma bfsInv_init : bfsInv [] [(start, 0)].
Proof.
  constructor; simpl.
  - constructor; [tauto | constructor].
  - now exists [].
  - intros x [E | []]. congruence.
  - intros x d [E | []]. injection E as <- <-. constructor.
  - intros x d m [E | []] _. injection E as <- <-. lia.
  - intros x d [E | []]. discriminate.
  - intros x d [E | []]. injection E as <- <-. lia.
  - tauto.
  - intros u d Q' E. injection E as <- <- <-. exists [], []. now split.
  - tauto.
Qed.

(** What lies beyond the names seen is behind a queued name or behind a
    name that was not expanded. *)
Lemma frontier (P Q : list (string * nat)) (x : string) (m : nat) :
  bfsInv P Q -> walk x m ->
  (exists d, In (x, d) (P ++ Q) /\ d <= m)
  \/ (exists y dy, In (y, dy) Q /\ dy < m)
  \/ (exists d', d' < m /\ expandable d' = false).
Proof.
  intros I W. induction W as [| u w d W IH Hw].
  - left. exists 0. split; [| lia]. destruct (bi_start I) as [rest ->]. now left.
  - destruct IH as [[du [Hu Hle]] | [[y [dy [Hy Hlt]]] | [d' [Hlt He]]]].
    + apply in_app_iff in Hu. destruct Hu as [Hu | Hu].
      * destruct (expandable du) eqn:He.
        -- destruct (bi_closed I Hu He Hw) as [dw [H1 H2]].
           left. exists dw. split; [assumption | lia].
        -- right. right. exists du. split; [lia | assumption].
      * right. left. exists u, du. split; [assumption | lia].
    + right. left. exists y, dy. split; [assumption | lia].
    + right. right. exists d'. split; [lia | assumption].
Qed.

(** Expanding the head of the queue keeps the invariant. *)
Lemma bfsInv_expand (P Q : list (string * nat)) (u : string) (d : nat) :
  bfsInv P ((u, d) :: Q) -> expandable d = true ->
  bfsInv (P ++ [(u, d)])
         (Q ++ labelAt (S d) (fresh (names (P ++ (u, d) :: Q)) (N u))).
Proof.
  intros I He.
  set (L := P ++ (u, d) :: Q) in *.
  set (new := fresh (names L) (N u)).
  assert (EL : (P ++ [(u, d)]) ++ Q ++ labelAt (S d) new = L ++ labelAt (S d) new).
  { unfold L. rewrite <- !app_assoc. reflexivity. }
  assert (Hu : In (u, d) L) by (unfold L; apply in_app_iff; right; now left).
  assert (Hlev : levels d Q) by (apply (bi_queue I (u:=u)); reflexivity).
  assert (Hold : forall x dx, In (x, dx) L -> dx <= S d).
  { intros x dx H. unfold L in H. apply in_app_iff in H. destruct H as [H | [E | H]].
    - pose proof (bi_done I H (or_introl eq_refl)). lia.
    - injection E as <- <-. lia.
    - apply (levels_bounds Hlev) in H. lia. }
  constructor; rewrite ?EL.
  - rewrite names_app, names_labelAt. apply NoDup_app.
    + apply (bi_nodup I).
    + apply NoDup_filter, N_NoDup.
    + intros a Ha Hn. apply fresh_In in Hn. tauto.
  - destruct (bi_start I) as [rest E]. fold L in E. rewrite E. now eexists.
  - intros x H. apply in_app_iff in H. destruct H as [H | H].
    + now apply (bi_zero I).
    + apply labelAt_In in H. destruct H; discriminate.
  - intros x dx H. apply in_app_iff in H. destruct H as [H | H].
    + now apply (bi_walk I).
    + apply labelAt_In in H. destruct H as [-> H]. apply fresh_In in H.
      apply walk_step with u; [now apply (bi_walk I) | tauto].
  - intros x dx m H W. apply in_app_iff in H. destruct H as [H | H].
    + now apply (bi_min I H).
    + apply labelAt_In in H. destruct H as [-> H]. apply fresh_In in H.
      destruct H as [_ Hn].
      destruct (frontier I W) as [[dx [H1 _]] | [[y [dy [Hy Hlt]]] | [d' [Hlt Hf]]]].
      * exfalso. apply Hn. apply names_In. now exists dx.
      * destruct Hy as [E | Hy].
        -- injection E as <- <-. lia.
        -- apply (levels_bounds Hlev) in Hy. lia.
      * destruct (le_lt_dec d' d) as [Hle | Hgt]; [| lia].
        rewrite (expandable_le Hle He) in Hf. discriminate.
  - intros x dx H. apply in_app_iff in H. destruct H as [H | H].
    + now apply (bi_pred I H).
    + apply labelAt_In in H. destruct H as [E _]. injection E as ->. assumption.
  - intros x dx H. rewrite length_app. apply in_app_iff in H. destruct H as [H | H].
    + pose proof (bi_small I H). fold L in H0. lia.
    + apply labelAt_In in H. destruct H as [-> H].
      pose proof (bi_small I Hu) as Hs. fold L in Hs.
      unfold labelAt. rewrite length_map. destruct new; [destruct H | simpl; lia].
  - intros x dx y dy Hx Hy. apply in_app_iff in Hx. apply in_app_iff in Hy.
    destruct Hx as [Hx | [E | []]], Hy as [Hy | Hy].
    + apply (bi_done I Hx (or_intror Hy)).
    + apply labelAt_In in Hy. destruct Hy as [-> _].
      pose proof (bi_done I Hx (or_introl eq_refl)). lia.
    + injection E as <- <-. apply (levels_bounds Hlev) in Hy. lia.
    + injection E as <- <-. apply labelAt_In in Hy. lia.
  - intros u2 d2 Q' E. apply (@levels_tail d d2 u2 Q'). rewrite <- E.
    now apply levels_app.
  - intros x dx w Hx Hex Hw. apply in_app_iff in Hx. destruct Hx as [Hx | [E | []]].
    + destruct (bi_closed I Hx Hex Hw) as [dw [H1 H2]]. fold L in H1.
      exists dw. split; [apply in_app_iff; now left | assumption].
    + injection E as <- <-.
      destruct (in_dec string_dec w (names L)) as [Hin | Hout].
      * apply names_In in Hin. destruct Hin as [dw Hin].
        exists dw. split; [apply in_app_iff; now left | now apply (Hold w)].
      * exists (S d). split; [| lia]. apply in_app_iff. right.
        apply labelAt_In. split; [reflexivity |]. apply fresh_In. tauto.
Qed.

(** Dequeuing a name without expanding it keeps the invariant. *)
Lemma bfsInv_skip (P Q : list (string * nat)) (u : string) (d : nat) :
  bfsInv P ((u, d) :: Q) -> expandable d = false -> bfsInv (P ++ [(u, d)]) Q.
Proof.
  intros I He.
  assert (EL : (P ++ [(u, d)]) ++ Q = P ++ (u, d) :: Q).
  { rewrite <- app_assoc. reflexivity. }
  assert (Hlev : levels d Q) by (apply (bi_queue I (u:=u)); reflexivity).
  constructor; rewrite ?EL; try apply I.
  - intros x dx y dy Hx Hy. apply in_app_iff in Hx. destruct Hx as [Hx | [E | []]].
    + apply (bi_done I Hx (or_intror Hy)).
    + injection E as <- <-. apply (levels_bounds Hlev) in Hy. lia.
  - intros u2 d2 Q' E. apply (@levels_tail d d2 u2 Q'). now rewrite <- E.
  - intros x dx w Hx Hex Hw. apply in_app_iff in Hx. destruct Hx as [Hx | [E | []]].
    + apply (bi_closed I Hx Hex Hw).
    + injection E as <- <-. congruence.
Qed.

End TraversalFacts.

(** ** The counter of the loops *)

Lemma unseen_mono (U seen extra : list string) :
  unseen U (seen ++ extra) <= unseen U seen.
Proof.
  unfold unseen, fresh. induction U as [| a U IH]; simpl; [lia |].
  destruct (JsSet.has a (seen ++ extra)) eqn:E1, (JsSet.has a seen) eqn:E2;
    simpl; try lia.
  apply set_has_false in E1. apply set_has_In in E2.
  exfalso. apply E1. apply in_app_iff. now left.
Qed.

Lemma unseen_cons (a : string) (U seen : list string) :
  unseen (a :: U) seen = (if JsSet.has a seen then 0 else 1) + unseen U seen.
Proof. unfold unseen, fresh. simpl. now destruct (JsSet.has a seen). Qed.

Lemma unseen_snoc (U seen : list string) (w : string) :
  In w U -> ~ In w seen -> unseen U (seen ++ [w]) < unseen U seen.
Proof.
  induction U as [| a U IH]; [intros [] |].
  intros Hin Hout. rewrite !unseen_cons.
  destruct (String.eqb_spec a w) as [-> | Hne].
  - assert (E1 : JsSet.has w (seen ++ [w]) = true).
    { apply set_has_In. apply in_app_iff. right. now left. }
    assert (E2 : JsSet.has w seen = false) by now apply set_has_false.
    rewrite E1, E2. pose proof (unseen_mono U seen [w]). lia.
  - destruct Hin as [E | Hin]; [congruence |].
    assert (E : JsSet.has a (seen ++ [w]) = JsSet.has a seen).
    { destruct (JsSet.has a seen) eqn:E2.
      - apply set_has_In. apply set_has_In in E2. apply in_app_iff. now left.
      - apply set_has_false. apply set_has_false in E2. intro H.
        apply in_app_iff in H. destruct H as [H | [H | []]]; [tauto | congruence]. }
    rewrite E. specialize (IH Hin Hout). lia.
Qed.

Lemma unseen_fresh (U seen ws : list string) :
  (forall w, In w ws -> In w U) -> NoDup ws ->
  (forall w, In w ws -> ~ In w seen) ->
  unseen U (seen ++ ws) + List.length ws <= unseen U seen.
Proof.
  revert seen. induction ws as [| w ws IH]; intros seen HU ND Hout.
  - rewrite app_nil_r. simpl. lia.
  - inversion ND as [| ? ? Hw ND']; subst.
    change (seen ++ w :: ws) with (seen ++ [w] ++ ws). rewrite app_assoc.
    assert (H1 : unseen U ((seen ++ [w]) ++ ws) + List.length ws
                 <= unseen U (seen ++ [w])).
    { apply IH; [intros; apply HU; now right | assumption |].
      intros x Hx Hin. apply in_app_iff in Hin. destruct Hin as [Hin | [E | []]].
      - apply (Hout x); [now right | assumption].
      - congruence. }
    assert (H2 : unseen U (seen ++ [w]) < unseen U seen).
    { apply unseen_snoc; [apply HU; now left | apply Hout; now left]. }
    simpl. lia.
Qed.

Lemma unseen_le (U seen : list string) : unseen U seen <= List.length U.
Proof. unfold unseen, fresh. apply filter_length_le. Qed.

(** ** The neighbours of a name *)

Lemma neighbors_NoDup (g : Graph) (u : string) : NoDup (neighbors g u).
Proof. apply set_ofList_NoDup. Qed.

Lemma neighbors_linked (g : Graph) (u w : string) :
  In w (neighbors g u) <-> linked g u w.
Proof. unfold neighbors, linked. now rewrite set_ofList_In, in_app_iff. Qed.

Lemma adjacent_in_values (m : JsMap.t JsSet.t) (u w : string) :
  In w (adjacent m u) -> In w (List.concat (map snd m)).
Proof.
  unfold adjacent. destruct (JsMap.get u m) as [s |] eqn:E; [| intros []].
  intro H. apply in_concat. exists s. split; [| assumption].
  apply map_get_In in E. change s with (snd (u, s)). now apply in_map.
Qed.

Lemma neighbors_in_adjacencyNames (g : Graph) (u w : string) :
  In w (neighbors g u) -> In w (adjacencyNames g).
Proof.
  intro H. apply neighbors_linked in H. unfold adjacencyNames.
  apply in_app_iff. destruct H as [H | H]; [left | right];
    now apply (adjacent_in_values H).
Qed.

(** ** Chains and walks *)

Lemma last_default (A : Type) (l : list A) (d d' : A) :
  l <> [] -> last l d = last l d'.
Proof.
  induction l as [| x l IH]; [congruence |]. intros _.
  destruct l as [| y l]; [reflexivity |].
  change (last (y :: l) d = last (y :: l) d'). apply IH. discriminate.
Qed.

Lemma chain_snoc (g : Graph) (p : list string) (w : string) :
  p <> [] ->
  chain g (p ++ [w]) <-> chain g p /\ linked g (last p w) w.
Proof.
  induction p as [| x p IH]; [congruence |]. intros _.
  destruct p as [| y p].
  - simpl. tauto.
  - change (chain g ((x :: y :: p) ++ [w]))
      with (linked g x y /\ chain g ((y :: p) ++ [w])).
    change (chain g (x :: y :: p)) with (linked g x y /\ chain g (y :: p)).
    change (last (x :: y :: p) w) with (last (y :: p) w).
    rewrite IH by discriminate. tauto.
Qed.

Lemma walk_connects (g : Graph) (a x : string) (d : nat) :
  walk (neighbors g) a x d <-> exists p, connects g a x p /\ hops p = d.
Proof.
  split.
  - induction 1 as [| u w d W [p [[C [Hh Hl]] Hd]] Hw].
    + exists [a]. unfold connects, hops. simpl. tauto.
    + assert (Hp : p <> []) by (destruct p; [destruct C | discriminate]).
      exists (p ++ [w]). unfold connects, hops in *. repeat split.
      * apply chain_snoc; [assumption |]. split; [assumption |].
        apply neighbors_linked.
        rewrite (@last_default _ p w a Hp). now rewrite Hl.
      * destruct p; [congruence | assumption].
      * apply last_last.
      * rewrite length_app. simpl. destruct p; [congruence | simpl in *; lia].
  - intros [p [[C [Hh Hl]] Hd]]. revert x d C Hh Hl Hd.
    induction p as [| y p IH] using rev_ind; intros x d C Hh Hl Hd; [destruct C |].
    rewrite last_last in Hl. subst y.
    destruct p as [| z p].
    + simpl in Hh. injection Hh as ->. unfold hops in Hd. simpl in Hd. subst d.
      constructor.
    + apply chain_snoc in C; [| discriminate]. destruct C as [C L].
      unfold hops in Hd. rewrite length_app in Hd. simpl in Hd.
      assert (Ed : d = S (hops (z :: p))) by (unfold hops; simpl; lia).
      rewrite Ed. apply walk_step with (last (z :: p) a).
      * apply IH; [assumption | assumption | reflexivity | reflexivity].
      * apply neighbors_linked.
        rewrite (@last_default _ (z :: p) a x) by discriminate. assumption.
Qed.

Lemma walk_shortest (g : Graph) (a x : string) (d : nat) :
  walk (neighbors g) a x d ->
  (forall m, walk (neighbors g) a x m -> d <= m) ->
  shortestDistance g a x d.
Proof.
  intros W Hmin. split; [now apply walk_connects |].
  intros q Hq. apply Hmin. apply walk_connects. now exists q.
Qed.

(* ================================================================== *)
(** * [queryRelated] *)
(* ================================================================== *)

Lemma fresh_snoc_seen (seen ns : list string) (n : string) :
  ~ In n ns -> fresh (seen ++ [n]) ns = fresh seen ns.
Proof.
  intro H. unfold fresh. apply filter_ext_in. intros w Hw. f_equal.
  destruct (JsSet.has w seen) eqn:E.
  - apply set_has_In. apply set_has_In in E. apply in_app_iff. now left.
  - apply set_has_false. apply set_has_false in E. intro Hin.
    apply in_app_iff in Hin. destruct Hin as [Hin | [<- | []]]; tauto.
Qed.

(** The [for] loop appends the neighbours not visited yet, in order, to the
    visited set and, one hop further, to the queue. *)
Lemma enqueueNeighbors_shape (ns : list string) (dist : nat)
    (visited : JsSet.t) (queue : list (string * nat)) :
  NoDup ns ->
  enqueueNeighbors ns dist visited queue
  = (visited ++ fresh visited ns, queue ++ labelAt (S dist) (fresh visited ns)).
Proof.
  revert visited queue. induction ns as [| n ns IH]; intros visited queue ND.
  - simpl. now rewrite !app_nil_r.
  - inversion ND as [| ? ? Hn ND']; subst. simpl.
    destruct (JsSet.has n visited) eqn:E; simpl.
    + now apply IH.
    + apply set_has_false in E. rewrite (set_add_absent E), IH by assumption.
      rewrite (fresh_snoc_seen visited Hn), <- !app_assoc, Nat.add_1_r.
      reflexivity.
Qed.

Section QueryRelated.
Variable g : Graph.
Variable start : string.
Variable depth : Js.number.

Local Abbreviation expandable := (withinDepth depth).
Local Abbreviation inv := (bfsInv (neighbors g) start expandable).

Lemma withinDepth_down (d : nat) : expandable (S d) = true -> expandable d = true.
Proof. apply ltb_ofNat_down. Qed.

Lemma resultsOf_snoc (P : list (string * nat)) (e : string * nat) :
  resultsOf g (P ++ [e]) = resultsOf g P ++ report g e.
Proof. unfold resultsOf. rewrite flat_map_app. simpl. now rewrite app_nil_r. Qed.

(** With a counter above the number of names still to dequeue, the loop
    returns, and what it returns is what the names dequeued report. *)
Lemma queryRelatedLoop_returns (fuel : nat) (P Q : list (string * nat)) :
  inv P Q ->
  List.length Q + unseen (adjacencyNames g) (names (P ++ Q)) <= fuel ->
  exists Pf,
    queryRelatedLoop g depth fuel (names (P ++ Q)) Q (resultsOf g P)
    = Some (resultsOf g Pf)
    /\ inv Pf [].
Proof.
  revert P Q. induction fuel as [| fuel IH]; intros P Q I Hfuel.
  - destruct Q as [| [u d] Q]; [| simpl in Hfuel; lia].
    exists P. now split.
  - destruct Q as [| [u d] Q]; [exists P; now split |].
    cbn [queryRelatedLoop].
    assert (Er : (if 0 <? d
                  then match JsMap.get u (nodes g) with
                       | Some node => resultsOf g P ++ [mkRelated u (path node) d]
                       | None => resultsOf g P
                       end
                  else resultsOf g P) = resultsOf g (P ++ [(u, d)])).
    { rewrite resultsOf_snoc. unfold report. simpl.
      destruct (0 <? d); [| now rewrite app_nil_r].
      destruct (JsMap.get u (nodes g)); [reflexivity | now rewrite app_nil_r]. }
    rewrite Er. change (Js.ltb (Js.ofNat d) depth) with (expandable d).
    destruct (expandable d) eqn:He.
    + rewrite enqueueNeighbors_shape by apply neighbors_NoDup.
      set (new := fresh (names (P ++ (u, d) :: Q)) (neighbors g u)).
      assert (En : names (P ++ (u, d) :: Q) ++ new
                   = names ((P ++ [(u, d)]) ++ Q ++ labelAt (S d) new)).
      { rewrite !names_app, names_labelAt, <- !app_assoc. reflexivity. }
      rewrite En. apply IH.
      * apply bfsInv_expand; [apply neighbors_NoDup | apply withinDepth_down
                              | assumption | assumption].
      * rewrite <- En. rewrite length_app. unfold labelAt. rewrite length_map.
        assert (Hf : unseen (adjacencyNames g) (names (P ++ (u, d) :: Q) ++ new)
                     + List.length new
                     <= unseen (adjacencyNames g) (names (P ++ (u, d) :: Q))).
        { apply unseen_fresh.
          - intros w Hw. apply fresh_In in Hw.
            apply (@neighbors_in_adjacencyNames g u w). tauto.
          - apply NoDup_filter, neighbors_NoDup.
          - intros w Hw. apply fresh_In in Hw. tauto. }
        simpl in Hfuel. lia.
    + assert (En : names (P ++ (u, d) :: Q) = names ((P ++ [(u, d)]) ++ Q)).
      { now rewrite <- app_assoc. }
      rewrite En. apply IH.
      * now apply bfsInv_skip.
      * rewrite <- En. simpl in Hfuel. lia.
Qed.

Lemma queryRelated_traversal :
  exists Pf,
    queryRelatedLoop g depth (traversalFuel g)
      (JsSet.add start JsSet.empty) [(start, 0)] []
    = Some (resultsOf g Pf)
    /\ queryRelated g start depth = resultsOf g Pf
    /\ inv Pf [].
Proof.
  destruct (@queryRelatedLoop_returns (traversalFuel g) [] [(start, 0)])
    as [Pf [E I]].
  - apply bfsInv_init.
  - unfold traversalFuel. simpl.
    pose proof (unseen_le (adjacencyNames g) [start]). lia.
  - assert (E' : queryRelatedLoop g depth (traversalFuel g)
                   (JsSet.add start JsSet.empty) [(start, 0)] []
                 = Some (resultsOf g Pf)) by exact E.
    exists Pf. unfold queryRelated. rewrite E'.
    split; [reflexivity |]. split; [reflexivity | exact I].
Qed.

Lemma resultsOf_In (P : list (string * nat)) (r : Related) :
  In r (resultsOf g P) <->
  exists node,
    In (rel_name r, rel_distance r) P /\ 0 < rel_distance r
    /\ JsMap.get (rel_name r) (nodes g) = Some node /\ rel_path r = path node.
Proof.
  unfold resultsOf. rewrite in_flat_map. split.
  - intros [[x d] [H1 H2]]. unfold report in H2. simpl in H2.
    destruct (Nat.ltb_spec 0 d) as [Hd | Hd]; [| destruct H2].
    destruct (JsMap.get x (nodes g)) as [node |] eqn:E; [| destruct H2].
    destruct H2 as [<- | []]. simpl. now exists node.
  - intros [node [H1 [H2 [H3 H4]]]]. exists (rel_name r, rel_distance r).
    split; [assumption |]. unfold report. simpl.
    apply Nat.ltb_lt in H2. rewrite H2, H3. left.
    destruct r. simpl in *. now subst.
Qed.

Lemma resultsOf_names_NoDup (P : list (string * nat)) :
  NoDup (names P) -> NoDup (map rel_name (resultsOf g P)).
Proof.
  induction P as [| [x d] P IH]; intro ND; [constructor |].
  inversion ND as [| ? ? Hx ND']; subst. specialize (IH ND').
  unfold resultsOf. simpl. rewrite map_app. fold (resultsOf g P).
  unfold report. simpl.
  destruct (0 <? d); [| exact IH].
  destruct (JsMap.get x (nodes g)); [| exact IH].
  simpl. constructor; [| exact IH].
  intro H. apply in_map_iff in H. destruct H as [r [E H]].
  apply resultsOf_In in H. destruct H as [node [H _]].
  apply Hx. apply names_In. exists (rel_distance r). now rewrite <- E.
Qed.

End QueryRelated.

Lemma names_functional (L : list (string * nat)) (x : string) (d d' : nat) :
  NoDup (names L) -> In (x, d) L -> In (x, d') L -> d = d'.
Proof.
  induction L as [| [y dy] L IH]; simpl; [tauto |].
  intros ND H H'. inversion ND as [| ? ? Hy ND']; subst.
  assert (Hn : forall e, In (y, e) L -> False).
  { intros e He. apply Hy. apply names_In. now exists e. }
  destruct H as [E | H], H' as [E' | H'].
  - congruence.
  - injection E as <- <-. now destruct (Hn d').
  - injection E' as <- <-. now destruct (Hn d).
  - now apply IH.
Qed.

Lemma unknown_has_no_neighbors (g : Graph) (x : string) :
  sameKeys g -> JsMap.has x (nodes g) = false -> neighbors g x = [].
Proof.
  intros [K1 K2] H. unfold neighbors, adjacent.
  pose proof (map_has_of_keys x K1) as H1.
  pose proof (map_has_of_keys x K2) as H2.
  rewrite H in H1, H2. apply map_has_false in H1, H2.
  now rewrite H1, H2.
Qed.

(** A result of [queryRelated] beyond the depth: at the depth 1.5 the note
    [A], one hop from [B], is still expanded (1 < 1.5), so that [C] is
    returned at the distance 2, which is more than the depth. *)
Lemma queryRelated_beyond_fractional_depth :
  Js.leb (Js.ofNat 1) (Js.Finite (3 # 2)) = true
  /\ queryRelated scenarioGraph "B" (Js.Finite (3 # 2))
     = [mkRelated "A" "A.md" 1; mkRelated "C" "C.md" 2]
  /\ Js.ltb (Js.Finite (3 # 2)) (Js.ofNat 2) = true.
Proof. repeat split; reflexivity. Qed.

(** C4, amended.  For every start name and every depth, a number that need
    not be an integer, [queryRelated] returns (its loop ends before its
    counter); the result
    never contains the start name, contains a name at most once, gives
    every name with its shortest distance from the start in the undirected
    view, a distance [d] of at least 1 and with [d - 1 < depth], which is at
    most [depth] when [depth] is an integer, and holds every node at such a
    distance; and a start name that is not a node, in a graph whose
    adjacency maps have the keys of its nodes, yields the empty result. *)
Theorem queryRelated_spec (g : Graph) (start : string) (depth : Js.number) :
  (exists results,
     queryRelatedLoop g depth (traversalFuel g)
       (JsSet.add start JsSet.empty) [(start, 0)] [] = Some results
     /\ queryRelated g start depth = results)
  /\ ~ In start (map rel_name (queryRelated g start depth))
  /\ NoDup (map rel_name (queryRelated g start depth))
  /\ (forall r, In r (queryRelated g start depth) ->
        shortestDistance g start (rel_name r) (rel_distance r)
        /\ 1 <= rel_distance r
        /\ Js.ltb (Js.ofNat (rel_distance r - 1)) depth = true
        /\ (forall z, depth = Js.ofZ z -> (Z.of_nat (rel_distance r) <= z)%Z)
        /\ exists node, JsMap.get (rel_name r) (nodes g) = Some node
                        /\ rel_path r = path node)
  /\ (forall x node d,
        JsMap.get x (nodes g) = Some node -> shortestDistance g start x d ->
        1 <= d -> Js.ltb (Js.ofNat (d - 1)) depth = true ->
        In (mkRelated x (path node) d) (queryRelated g start depth))
  /\ (forall x node d z,
        JsMap.get x (nodes g) = Some node -> shortestDistance g start x d ->
        1 <= d -> depth = Js.ofZ z -> (Z.of_nat d <= z)%Z ->
        In (mkRelated x (path node) d) (queryRelated g start depth))
  /\ (sameKeys g -> JsMap.has start (nodes g) = false ->
      queryRelated g start depth = []).
Proof.
  destruct (queryRelated_traversal g start depth) as [Pf [E [-> I]]].
  pose proof (bi_nodup I) as ND. rewrite app_nil_r in ND.
  assert (Hstart : In (start, 0) Pf).
  { destruct (bi_start I) as [rest Hr]. rewrite app_nil_r in Hr. rewrite Hr. now left. }
  assert (Hall : forall x node d,
            JsMap.get x (nodes g) = Some node -> shortestDistance g start x d ->
            1 <= d -> Js.ltb (Js.ofNat (d - 1)) depth = true ->
            In (mkRelated x (path node) d) (resultsOf g Pf)).
  { intros x node d Hx [[p Hp] Hmin] Hd Hdepth.
    assert (W : walk (neighbors g) start x d) by (apply walk_connects; now exists p).
    apply resultsOf_In. exists node. simpl.
    split; [| split; [lia | split; [assumption | reflexivity]]].
    destruct (frontier I W) as [[dx [H1 H2]] | [[y [dy [[] _]]] | [d' [H1 H2]]]].
    - pose proof (bi_walk I H1) as Wx. apply walk_connects in Wx.
      destruct Wx as [q [Hq Ehops]]. apply Hmin in Hq.
      assert (Ed : dx = d) by lia. rewrite Ed, app_nil_r in H1. exact H1.
    - unfold withinDepth in H2.
      rewrite (@ltb_ofNat_le d' (d - 1) depth) in H2; [discriminate | lia | exact Hdepth]. }
  split; [exists (resultsOf g Pf); split; [exact E | reflexivity] |].
  split; [| split; [| split; [| split; [| split]]]].
  - intro H. apply in_map_iff in H. destruct H as [r [Er H]].
    apply resultsOf_In in H. destruct H as [node [H1 [H2 _]]].
    rewrite Er in H1. pose proof (names_functional ND H1 Hstart). lia.
  - now apply resultsOf_names_NoDup.
  - intros r H. apply resultsOf_In in H. destruct H as [node [H1 [H2 [H3 H4]]]].
    assert (H1' : In (rel_name r, rel_distance r) (Pf ++ [])) by now rewrite app_nil_r.
    assert (Hp : Js.ltb (Js.ofNat (rel_distance r - 1)) depth = true).
    { destruct (rel_distance r) as [| d'] eqn:Ed; [lia |].
      pose proof (bi_pred I H1') as Hp. unfold withinDepth in Hp.
      now replace (S d' - 1) with d' by lia. }
    split; [| split; [lia | split; [exact Hp | split; [| now exists node]]]].
    + apply walk_shortest; [apply (bi_walk I H1') |].
      intros m W. apply (bi_min I H1' W).
    + intros z Ez. rewrite Ez, ltb_ofNat_ofZ in Hp. apply Z.ltb_lt in Hp. lia.
  - exact Hall.
  - intros x node d z Hx Hs Hd Ez Hz. apply (Hall x node d Hx Hs Hd).
    rewrite Ez, ltb_ofNat_ofZ. apply Z.ltb_lt. lia.
  - intros K H.
    enough (E0 : queryRelatedLoop g depth (traversalFuel g)
                   (JsSet.add start JsSet.empty) [(start, 0)] [] = Some [])
      by (rewrite E0 in E; now injection E).
    unfold traversalFuel. cbn [queryRelatedLoop].
    rewrite (unknown_has_no_neighbors K H).
    destruct (Js.ltb (Js.ofNat 0) depth); simpl;
      destruct (List.length (adjacencyNames g)); reflexivity.
Qed.

Lemma queryRelated_spec_witness :
  queryRelated scenarioGraph "Z" (Js.ofNat 2) = []
  /\ Js.leb (Js.ofNat 1) (Js.Finite (5 # 2)) = true
  /\ exists r, In r (queryRelated scenarioGraph "B" (Js.Finite (5 # 2)))
               /\ rel_name r = "C"%string /\ rel_distance r = 2
               /\ shortestDistance scenarioGraph "B" "C" 2.
Proof.
  split; [| split; [reflexivity |]].
  - destruct (queryRelated_spec scenarioGraph "Z" (Js.ofNat 2))
      as [_ [_ [_ [_ [_ [_ H]]]]]].
    apply H; [split; reflexivity | reflexivity].
  - destruct (queryRelated_spec scenarioGraph "B" (Js.Finite (5 # 2)))
      as [_ [_ [_ [H _]]]].
    exists (mkRelated "C" "C.md" 2). split; [vm_compute; tauto |].
    split; [reflexivity |]. split; [reflexivity |].
    apply (H (mkRelated "C" "C.md" 2)). vm_compute. tauto.
Defined.

(** In a snapshot the adjacency maps have the keys of the nodes and the
    undirected view is symmetric. *)
Lemma builtFrom_sameKeys (v : Vault) (paths : list string) (g : Graph) :
  builtFrom v paths g -> sameKeys g.
Proof. intro B. split; [apply (bf_edges_keys B) | apply (bf_reverse_keys B)]. Qed.

Lemma builtFrom_linked_sym (v : Vault) (paths : list string) (g : Graph)
    (x y : string) :
  builtFrom v paths g -> linked g x y -> linked g y x.
Proof.
  intros B [H | H].
  - right. now apply (bf_reverse B).
  - left. now apply (bf_reverse B).
Qed.

(* ================================================================== *)
(** * [findPath] *)
(* ================================================================== *)

Lemma upTo_Some (t : string) (l pre : list string) :
  upTo t l = Some pre ->
  exists pre0 post, pre = pre0 ++ [t] /\ l = pre0 ++ t :: post.
Proof.
  revert pre. induction l as [| x l IH]; intros pre H; simpl in H; [discriminate |].
  destruct (String.eqb_spec x t) as [-> | N].
  - injection H as <-. now exists [], l.
  - destruct (upTo t l) as [pre' |]; [| discriminate]. injection H as <-.
    destruct (IH pre' eq_refl) as [pre0 [post [-> ->]]].
    now exists (x :: pre0), post.
Qed.

Lemma upTo_None (t : string) (l : list string) : upTo t l = None -> ~ In t l.
Proof.
  induction l as [| x l IH]; simpl; [tauto |].
  destruct (String.eqb_spec x t) as [-> | N]; [discriminate |].
  destruct (upTo t l); [discriminate |]. intros _ [E | H]; [congruence | tauto].
Qed.

Lemma setParents_get_in (cur : string) (ws : list string) (parent : JsMap.t string)
    (x : string) :
  In x ws -> JsMap.get x (setParents cur ws parent) = Some cur.
Proof.
  unfold setParents. induction ws as [| w ws IH] using rev_ind; [intros [] |].
  intro H. rewrite fold_left_app. simpl.
  destruct (String.eqb_spec w x) as [-> | N].
  - apply map_get_set_eq.
  - rewrite map_get_set_neq by assumption. apply IH.
    apply in_app_iff in H. destruct H as [H | [E | []]]; [assumption | congruence].
Qed.

Lemma setParents_get_out (cur : string) (ws : list string) (parent : JsMap.t string)
    (x : string) :
  ~ In x ws -> JsMap.get x (setParents cur ws parent) = JsMap.get x parent.
Proof.
  unfold setParents. induction ws as [| w ws IH] using rev_ind; [reflexivity |].
  intro H. rewrite fold_left_app. simpl.
  rewrite map_get_set_neq.
  - apply IH. intro Hin. apply H. apply in_app_iff. now left.
  - intros ->. apply H. apply in_app_iff. right. now left.
Qed.

Lemma setParents_has (cur : string) (ws : list string) (parent : JsMap.t string)
    (x : string) :
  JsMap.has x (setParents cur ws parent) = true -> In x ws \/ JsMap.has x parent = true.
Proof.
  intro H. destruct (in_dec string_dec x ws) as [Hin | Hout]; [now left | right].
  unfold JsMap.has in *. now rewrite (setParents_get_out cur parent Hout) in H.
Qed.

Lemma setParents_size (cur : string) (ws : list string) (parent : JsMap.t string) :
  NoDup ws -> (forall w, In w ws -> JsMap.has w parent = false) ->
  JsMap.size (setParents cur ws parent) = JsMap.size parent + List.length ws.
Proof.
  unfold setParents. induction ws as [| w ws IH] using rev_ind; intros ND Hout.
  - simpl. lia.
  - rewrite fold_left_app, length_app. simpl.
    apply NoDup_remove in ND. rewrite app_nil_r in ND. destruct ND as [ND Hw].
    rewrite map_size_set_absent.
    + rewrite IH; [lia | assumption |].
      intros x Hx. apply Hout. apply in_app_iff. now left.
    + unfold JsMap.has. fold (setParents cur ws parent).
      rewrite (setParents_get_out cur parent Hw).
      apply map_has_false. apply map_has_false.
      apply Hout. apply in_app_iff. right. now left.
Qed.

(** The [for] loop of [findPath]: it stops at the target if the target is
    among the neighbours not visited yet, and appends them all otherwise. *)
Lemma scanNeighbors_shape (ns : list string) (current t : string)
    (visited : JsSet.t) (parent : JsMap.t string) (queue : list string) :
  NoDup ns ->
  scanNeighbors ns current t visited parent queue =
  match upTo t (fresh visited ns) with
  | Some pre =>
      PathFound (reconstruct (JsMap.size (setParents current pre parent))
                   (setParents current pre parent) t [t])
  | None =>
      Scanned (visited ++ fresh visited ns)
              (setParents current (fresh visited ns) parent)
              (queue ++ fresh visited ns)
  end.
Proof.
  revert visited parent queue.
  induction ns as [| n ns IH]; intros visited parent queue ND.
  - simpl. now rewrite !app_nil_r.
  - inversion ND as [| ? ? Hn ND']; subst. simpl.
    destruct (JsSet.has n visited) eqn:E; simpl.
    + now apply IH.
    + apply set_has_false in E. rewrite (set_add_absent E).
      destruct (String.eqb_spec n t) as [-> | N]; [reflexivity |].
      rewrite IH by assumption. rewrite (fresh_snoc_seen visited Hn).
      destruct (upTo t (fresh visited ns)); [reflexivity |].
      now rewrite <- !app_assoc.
Qed.

Section FindPath.
Variable g : Graph.
Variable start : string.

Local Abbreviation inv := (bfsInv (neighbors g) start (fun _ => true)).
Local Abbreviation tree := (parentTree (neighbors g) start).

(** Giving the parent [cur] to new names keeps the tree. *)
Lemma parentTree_extend (parent : JsMap.t string) (L : list (string * nat))
    (cur : string) (d : nat) (ws : list string) :
  tree parent L -> In start (names L) -> In (cur, d) L ->
  (forall w, In w ws -> In w (neighbors g cur)) -> NoDup ws ->
  (forall w, In w ws -> ~ In w (names L)) ->
  tree (setParents cur ws parent) (L ++ labelAt (S d) ws).
Proof.
  intros T Hs Hc Hn ND Hout. constructor.
  - rewrite setParents_get_out; [apply (pt_start T) |].
    intro H. now apply (Hout start).
  - intros x dx H. apply in_app_iff in H. destruct H as [H | H].
    + destruct (pt_parent T H) as [u [H1 [H2 H3]]].
      exists u. split; [| split; [apply in_app_iff; now left | assumption]].
      rewrite setParents_get_out; [assumption |].
      intro Hin. apply (Hout x Hin). apply names_In. now exists (S dx).
    + apply labelAt_In in H. destruct H as [E H]. injection E as ->.
      exists cur. split; [now apply setParents_get_in |].
      split; [apply in_app_iff; now left | now apply Hn].
  - intros k H. rewrite names_app, names_labelAt. apply in_app_iff.
    destruct (setParents_has H) as [H' | H']; [now right | left].
    now apply (pt_keys T).
  - rewrite setParents_size; [| assumption |].
    + rewrite length_app. unfold labelAt. rewrite length_map.
      pose proof (pt_size T). lia.
    + intros w Hw. destruct (JsMap.has w parent) eqn:E; [| reflexivity].
      exfalso. apply (Hout w Hw). now apply (pt_keys T).
Qed.

(** Following the parents from a name seen at distance [d] prepends a chain
    of [d] names that begins at the start. *)
Lemma reconstruct_chain (parent : JsMap.t string) (L : list (string * nat)) :
  tree parent L -> (forall x, In (x, 0) L -> x = start) ->
  forall d x fuel rest,
    In (x, d) L -> d <= fuel ->
    exists p,
      reconstruct fuel parent x (x :: rest) = Some (p ++ x :: rest)
      /\ List.length p = d
      /\ hd_error (p ++ [x]) = Some start
      /\ (forall rest', chain g (x :: rest') -> chain g (p ++ x :: rest')).
Proof.
  intros T Hz. induction d as [| d IH]; intros x fuel rest Hx Hfuel.
  - apply Hz in Hx. subst x. exists []. simpl.
    destruct fuel; simpl; rewrite (pt_start T); tauto.
  - destruct (pt_parent T Hx) as [u [H1 [H2 H3]]].
    destruct fuel as [| fuel]; [lia |]. simpl. rewrite H1.
    destruct (IH u fuel (x :: rest) H2) as [p [E [Hlen [Hhd Hch]]]]; [lia |].
    exists (p ++ [u]). rewrite <- !app_assoc. simpl.
    split; [assumption |]. split; [rewrite length_app; simpl; lia |].
    split.
    + destruct p; simpl in *; assumption.
    + intros rest' C. rewrite <- app_assoc. apply Hch.
      change (linked g u x /\ chain g (x :: rest')).
      split; [now apply neighbors_linked | assumption].
Qed.

Variable t : string.

(** With a counter above the number of names still to dequeue, the loop
    returns: a shortest chain to the target when the target is reached, and
    [null] when no chain reaches it. *)
Lemma findPathLoop_returns (fuel : nat) (P Q : list (string * nat))
    (parent : JsMap.t string) :
  inv P Q -> tree parent (P ++ Q) -> ~ In t (names (P ++ Q)) ->
  List.length Q + unseen (adjacencyNames g) (names (P ++ Q)) <= fuel ->
  exists r,
    findPathLoop g t fuel (names (P ++ Q)) parent (names Q) = Some r
    /\ match r with
       | Some p => connects g start t p
                   /\ forall q, connects g start t q -> hops p <= hops q
       | None => forall q, ~ connects g start t q
       end.
Proof.
  revert P Q parent. induction fuel as [| fuel IH]; intros P Q parent I T Ht Hfuel.
  - destruct Q as [| [u d] Q]; [| simpl in Hfuel; lia].
    exists None. split; [reflexivity |]. intros q Hq.
    assert (W : walk (neighbors g) start t (hops q)) by (apply walk_connects; now exists q).
    destruct (frontier I W) as [[d [H _]] | [[y [dy [[] _]]] | [d' [_ H]]]];
      [| discriminate].
    apply Ht. apply names_In. now exists d.
  - destruct Q as [| [u d] Q].
    { exists None. split; [reflexivity |]. intros q Hq.
      assert (W : walk (neighbors g) start t (hops q))
        by (apply walk_connects; now exists q).
      destruct (frontier I W) as [[d [H _]] | [[y [dy [[] _]]] | [d' [_ H]]]];
        [| discriminate].
      apply Ht. apply names_In. now exists d. }
    set (L := P ++ (u, d) :: Q) in *.
    assert (Hu : In (u, d) L) by (unfold L; apply in_app_iff; right; now left).
    assert (Hs : In start (names L)).
    { destruct (bi_start I) as [rest E]. fold L in E. rewrite E. now left. }
    set (new := fresh (names L) (neighbors g u)).
    assert (NDnew : NoDup new) by (apply NoDup_filter, neighbors_NoDup).
    change (names ((u, d) :: Q)) with (u :: names Q). cbn [findPathLoop].
    rewrite scanNeighbors_shape by apply neighbors_NoDup. fold new.
    destruct (upTo t new) as [pre |] eqn:Eup.
    + destruct (upTo_Some Eup) as [pre0 [post [Epre Enew]]].
      assert (Hpre : forall w, In w pre -> In w new).
      { intros w Hw. rewrite Enew. rewrite Epre in Hw. apply in_app_iff in Hw.
        apply in_app_iff. destruct Hw as [Hw | [<- | []]]; [now left | right; now left]. }
      assert (NDpre : NoDup pre).
      { rewrite Epre. rewrite Enew in NDnew.
        apply NoDup_remove in NDnew. destruct NDnew as [ND1 ND2].
        apply NoDup_app_remove_r in ND1.
        apply NoDup_app; [assumption | constructor; [tauto | constructor] |].
        intros a Ha [<- | []]. apply ND2. apply in_app_iff. now left. }
      assert (T' : tree (setParents u pre parent) (L ++ labelAt (S d) pre)).
      { apply parentTree_extend; try assumption.
        - intros w Hw. apply Hpre in Hw. apply fresh_In in Hw. tauto.
        - intros w Hw. apply Hpre in Hw. apply fresh_In in Hw. tauto. }
      assert (Htl : In (t, S d) (L ++ labelAt (S d) pre)).
      { apply in_app_iff. right. apply labelAt_In. split; [reflexivity |].
        rewrite Epre. apply in_app_iff. right. now left. }
      destruct (@reconstruct_chain _ _ T') with (d := S d) (x := t)
        (fuel := JsMap.size (setParents u pre parent)) (rest := @nil string)
        as [p [Ep [Hlen [Hhd Hch]]]].
      * intros x Hx. apply in_app_iff in Hx. destruct Hx as [Hx | Hx].
        -- now apply (bi_zero I).
        -- apply labelAt_In in Hx. destruct Hx; discriminate.
      * assumption.
      * pose proof (pt_size T') as Hsz. rewrite length_app in Hsz.
        unfold labelAt in Hsz. rewrite length_map in Hsz.
        pose proof (bi_small I Hu) as Hsm. fold L in Hsm.
        assert (1 <= List.length pre).
        { rewrite Epre, length_app. simpl. lia. }
        lia.
      * rewrite Ep. exists (Some (p ++ [t])). split; [reflexivity |]. split.
        -- split; [apply Hch; simpl; trivial | split; [assumption | apply last_last]].
        -- intros q Hq. unfold hops at 1. rewrite length_app. simpl.
           assert (W : walk (neighbors g) start t (hops q))
             by (apply walk_connects; now exists q).
           destruct (frontier I W) as [[dx [H _]] | [[y [dy [Hy Hlt]]] | [d' [_ H]]]];
             [| | discriminate].
           ++ exfalso. apply Ht. apply names_In. now exists dx.
           ++ destruct Hy as [E | Hy].
              ** injection E as <- <-. lia.
              ** assert (Hlev : levels d Q) by (apply (bi_queue I (u:=u)); reflexivity).
                 apply (levels_bounds Hlev) in Hy. lia.
    + apply upTo_None in Eup.
      assert (En : names L ++ new
                   = names ((P ++ [(u, d)]) ++ Q ++ labelAt (S d) new)).
      { unfold L. rewrite !names_app, names_labelAt, <- !app_assoc. reflexivity. }
      assert (Eq' : names Q ++ new = names (Q ++ labelAt (S d) new)).
      { now rewrite names_app, names_labelAt. }
      rewrite En, Eq'. apply IH.
      * apply bfsInv_expand; [apply neighbors_NoDup | tauto | assumption | reflexivity].
      * assert (EL : (P ++ [(u, d)]) ++ Q ++ labelAt (S d) new
                     = L ++ labelAt (S d) new).
        { unfold L. rewrite <- !app_assoc. reflexivity. }
        rewrite EL. apply parentTree_extend; try assumption.
        -- intros w Hw. apply fresh_In in Hw. tauto.
        -- intros w Hw. apply fresh_In in Hw. tauto.
      * rewrite <- En. intro H. apply in_app_iff in H. tauto.
      * rewrite <- En, length_app. unfold labelAt. rewrite length_map.
        assert (Hf : unseen (adjacencyNames g) (names L ++ new) + List.length new
                     <= unseen (adjacencyNames g) (names L)).
        { apply unseen_fresh; [| assumption |].
          - intros w Hw. apply fresh_In in Hw.
            apply (@neighbors_in_adjacencyNames g u w). tauto.
          - intros w Hw. apply fresh_In in Hw. tauto. }
        simpl in Hfuel. lia.
Qed.

End FindPath.

Lemma findPath_same (g : Graph) (a : string) : findPath g a a = Some [a].
Proof. unfold findPath. now rewrite streq_refl. Qed.

(** The [null] of [findPath] for a name that is not a node. *)
Lemma findPath_unknown (g : Graph) (a b : string) :
  a <> b ->
  JsMap.has a (nodes g) = false \/ JsMap.has b (nodes g) = false ->
  findPath g a b = None.
Proof.
  intros N H. unfold findPath. rewrite (streq_neq N).
  destruct H as [H | H]; rewrite H; simpl; [reflexivity |].
  now destruct (JsMap.has a (nodes g)).
Qed.

Lemma findPath_traversal (g : Graph) (a b : string) :
  a <> b ->
  exists r,
    findPathLoop g b (traversalFuel g) (JsSet.add a JsSet.empty) JsMap.empty [a]
    = Some r
    /\ match r with
       | Some p => connects g a b p /\ forall q, connects g a b q -> hops p <= hops q
       | None => forall q, ~ connects g a b q
       end.
Proof.
  intro N.
  apply (@findPathLoop_returns g a b (traversalFuel g) [] [(a, 0)] JsMap.empty).
  - apply bfsInv_init.
  - constructor; simpl.
    + reflexivity.
    + intros x d [E | []]. discriminate.
    + discriminate.
    + reflexivity.
  - simpl. intros [E | []]. congruence.
  - unfold traversalFuel. simpl.
    pose proof (unseen_le (adjacencyNames g) [a]). lia.
Qed.

(** C3.  [findPath(a, a)] is [[a]] whether or not [a] is a node.  For
    distinct nodes [a] and [b] the loop of [findPath] ends before its counter;
    a returned sequence is a chain of forward or reverse edges from [a] to
    [b] whose number of hops is the shortest distance between them in the
    undirected view; and the result is [null] exactly when no chain connects
    [a] and [b]. *)
Theorem findPath_spec (g : Graph) (a b : string) :
  findPath g a a = Some [a]
  /\ (a <> b ->
      JsMap.has a (nodes g) = true -> JsMap.has b (nodes g) = true ->
      (exists r,
         findPathLoop g b (traversalFuel g) (JsSet.add a JsSet.empty)
           JsMap.empty [a] = Some r
         /\ findPath g a b = r)
      /\ (forall p, findPath g a b = Some p ->
            connects g a b p /\ shortestDistance g a b (hops p))
      /\ (findPath g a b = None <-> forall q, ~ connects g a b q)).
Proof.
  split; [apply findPath_same |]. intros N Ha Hb.
  destruct (findPath_traversal g N) as [r [E Hr]].
  assert (Ef : findPath g a b = r).
  { unfold findPath. rewrite (streq_neq N), Ha, Hb. cbn [negb orb]. now rewrite E. }
  split; [now exists r |]. rewrite Ef. split.
  - intros p ->. destruct Hr as [C Hmin]. split; [assumption |].
    split; [now exists p | assumption].
  - split.
    + intros ->. assumption.
    + intro Hno. destruct r as [p |]; [| reflexivity].
      destruct Hr as [C _]. now destruct (Hno p).
Qed.

Lemma findPath_spec_witness :
  findPath scenarioGraph "B" "C" = Some ["B"; "A"; "C"]%string
  /\ connects scenarioGraph "B" "C" ["B"; "A"; "C"]%string
  /\ shortestDistance scenarioGraph "B" "C" 2.
Proof.
  destruct (findPath_spec scenarioGraph "B" "C") as [_ H].
  destruct H as [_ [H _]]; [discriminate | reflexivity | reflexivity |].
  split; [reflexivity |]. apply (H ["B"; "A"; "C"]%string). reflexivity.
Defined.

(* ================================================================== *)
(** * [getStats] and [getClusters] on folders *)
(* ================================================================== *)

Lemma truthy_nonempty (s : string) : Js.truthy s = true <-> s <> EmptyString.
Proof.
  unfold Js.truthy. destruct (String.eqb_spec s EmptyString); simpl;
    split; congruence.
Qed.

Lemma tally_folderSet (g : Graph) (l : list (string * GraphNode)) (acc : Tally) :
  folderSet (fold_left (tally g) l acc) = fold_left addFolder l (folderSet acc).
Proof.
  revert acc. induction l as [| e l IH]; intro acc; simpl; [reflexivity |].
  now rewrite IH.
Qed.

Lemma addFolder_fold (l : list (string * GraphNode)) (s : JsSet.t) :
  NoDup s ->
  NoDup (fold_left addFolder l s)
  /\ forall f, In f (fold_left addFolder l s) <->
       In f s \/ In f (filter Js.truthy (map (fun e => folder (snd e)) l)).
Proof.
  revert s. induction l as [| e l IH]; intros s ND; simpl.
  - split; [assumption | tauto].
  - unfold addFolder at 2 4. destruct (Js.truthy (folder (snd e))) eqn:E.
    + destruct (IH (JsSet.add (folder (snd e)) s) (set_add_NoDup _ ND)) as [H1 H2].
      split; [assumption |]. intro f. rewrite H2, set_add_In. simpl.
      intuition congruence.
    + destruct (IH s ND) as [H1 H2]. split; [assumption |]. exact H2.
Qed.

Lemma sortBy_In (A : Type) (before : A -> A -> bool) (l : list A) (x : A) :
  In x (sortBy before l) <-> In x l.
Proof.
  assert (Hins : forall y l', In x (insertBy before y l') <-> x = y \/ In x l').
  { intros y l'. induction l' as [| z l' IH]; simpl; [intuition congruence |].
    destruct (before z y); simpl; [rewrite IH |]; intuition congruence. }
  induction l as [| y l IH]; simpl; [tauto |].
  rewrite Hins, IH. intuition congruence.
Qed.

Lemma pushTo_keeps (key key' : string) (note x : Note) (groups : JsMap.t (list Note))
    (notes : list Note) :
  JsMap.get key groups = Some notes -> In x notes ->
  exists notes', JsMap.get key (pushTo key' note groups) = Some notes' /\ In x notes'.
Proof.
  intros H Hx. unfold pushTo. destruct (String.eqb_spec key' key) as [-> | N].
  - rewrite H, map_get_set_eq. exists (notes ++ [note]).
    split; [reflexivity | apply in_app_iff; now left].
  - destruct (JsMap.get key' groups); rewrite map_get_set_neq by assumption;
      now exists notes.
Qed.

Lemma pushTo_has (key : string) (note : Note) (groups : JsMap.t (list Note)) :
  exists notes, JsMap.get key (pushTo key note groups) = Some notes /\ In note notes.
Proof.
  unfold pushTo. destruct (JsMap.get key groups) as [notes |];
    rewrite map_get_set_eq; eexists; split; try reflexivity.
  - apply in_app_iff. right. now left.
  - now left.
Qed.

Lemma byFolder_keeps (l : list (string * GraphNode)) (groups : JsMap.t (list Note))
    (key : string) (x : Note) (notes : list Note) :
  JsMap.get key groups = Some notes -> In x notes ->
  exists notes',
    JsMap.get key (fold_left (addToClusters ByFolder) l groups) = Some notes'
    /\ In x notes'.
Proof.
  revert groups notes. induction l as [| e l IH]; intros groups notes H Hx; simpl.
  - now exists notes.
  - destruct (@pushTo_keeps key (folderLabel e) (noteOf e) x groups notes H Hx)
      as [notes1 [H1 Hx1]].
    apply (IH _ _ H1 Hx1).
Qed.

(** Grouping by folder puts every node in the bucket of its label. *)
Lemma byFolder_places (l : list (string * GraphNode)) (groups : JsMap.t (list Note))
    (e : string * GraphNode) :
  In e l ->
  exists notes,
    JsMap.get (folderLabel e) (fold_left (addToClusters ByFolder) l groups)
    = Some notes
    /\ In (noteOf e) notes.
Proof.
  revert groups. induction l as [| e0 l IH]; intros groups Hin; [destruct Hin |].
  destruct Hin as [-> | H]; simpl.
  - destruct (pushTo_has (folderLabel e) (noteOf e) groups) as [notes [H1 H2]].
    apply (byFolder_keeps l H1 H2).
  - now apply IH.
Qed.

Lemma addToClusters_root (e : string * GraphNode) (acc : list Note) :
  folder (snd e) = EmptyString ->
  addToClusters ByFolder [(rootLabel, acc)] e = [(rootLabel, acc ++ [noteOf e])].
Proof. intro H. unfold addToClusters. rewrite H. reflexivity. Qed.

Lemma byFolder_all_root (l : list (string * GraphNode)) (acc : list Note) :
  (forall e, In e l -> folder (snd e) = EmptyString) ->
  fold_left (addToClusters ByFolder) l [(rootLabel, acc)]
  = [(rootLabel, acc ++ map noteOf l)].
Proof.
  revert acc. induction l as [| e l IH]; intros acc H.
  - simpl. now rewrite app_nil_r.
  - cbn [fold_left map]. rewrite addToClusters_root by (apply H; now left).
    rewrite IH by (intros; apply H; now right).
    now rewrite <- app_assoc.
Qed.

Lemma no_folder_counted (l : list (string * GraphNode)) :
  (forall k n, In (k, n) l -> folder n = EmptyString) ->
  filter Js.truthy (map (fun e => folder (snd e)) l) = [].
Proof.
  induction l as [| [k n] l IH]; intro H; [reflexivity |]. simpl.
  rewrite (H k n (or_introl eq_refl)). simpl. apply IH.
  intros k' n' H'. apply (H k' n'). now right.
Qed.

(** C10.  [getStats().folders] is the number of distinct non-empty folder
    labels of the nodes, so a node whose folder is the empty string adds
    nothing to it, while [getClusters("folder")] puts every such node in the
    bucket [(root)]; a graph with at least one note and all its notes at the
    root has a folder count of 0 and exactly one bucket, [(root)], holding all
    the notes. *)
Theorem getStats_folders_skip_root
    (number : Type) (roundedRatio : nat -> nat -> number) (zero : number)
    (toISOString : Z -> string) (g : Graph) :
  folders (getStats roundedRatio zero toISOString g)
  = List.length (countedFolders g)
  /\ ~ In EmptyString (countedFolders g)
  /\ (forall k n, In (k, n) (nodes g) -> folder n = EmptyString ->
        exists notes,
          In (rootLabel, notes) (getClusters g ByFolder)
          /\ In (mkNote k (path n)) notes)
  /\ (nodes g <> [] ->
      (forall k n, In (k, n) (nodes g) -> folder n = EmptyString) ->
      folders (getStats roundedRatio zero toISOString g) = 0
      /\ getClusters g ByFolder = [(rootLabel, map noteOf (nodes g))]).
Proof.
  assert (Hf : folders (getStats roundedRatio zero toISOString g)
               = List.length (countedFolders g)).
  { unfold getStats. simpl. rewrite tally_folderSet. simpl.
    destruct (@addFolder_fold (nodes g) [] (NoDup_nil _)) as [ND Hin].
    unfold JsSet.size, countedFolders. apply Nat.le_antisymm.
    - apply NoDup_incl_length; [assumption |]. intros f H.
      apply nodup_In. apply Hin in H. simpl in H. tauto.
    - apply NoDup_incl_length; [apply NoDup_nodup |]. intros f H.
      apply nodup_In in H. apply Hin. now right. }
  split; [assumption |]. split; [| split].
  - unfold countedFolders. rewrite nodup_In, filter_In. intros [_ H]. discriminate.
  - intros k n Hin Hroot.
    destruct (@byFolder_places (nodes g) JsMap.empty (k, n) Hin) as [notes [H1 H2]].
    exists notes. split; [| exact H2]. unfold getClusters. apply sortBy_In.
    apply map_get_In. unfold folderLabel in H1. simpl in H1.
    now rewrite Hroot in H1.
  - intros Hne Hall. split.
    + rewrite Hf. unfold countedFolders.
      now rewrite (no_folder_counted Hall).
    + unfold getClusters. destruct (nodes g) as [| [k n] l]; [congruence |].
      cbn [fold_left].
      assert (E : addToClusters ByFolder JsMap.empty (k, n)
                  = [(rootLabel, [] ++ [noteOf (k, n)])]).
      { unfold addToClusters. simpl. rewrite (Hall k n (or_introl eq_refl)).
        reflexivity. }
      rewrite E, byFolder_all_root; [reflexivity |].
      intros [k' n'] H. apply (Hall k' n'). now right.
Qed.

Lemma getStats_folders_skip_root_witness :
  folders (getStats (fun links notes => (links, notes)) (0, 0)
             (fun _ => EmptyString) scenarioGraph) = 0
  /\ getClusters scenarioGraph ByFolder
     = [(rootLabel, map noteOf (nodes scenarioGraph))].
Proof.
  destruct (getStats_folders_skip_root (fun links notes => (links, notes)) (0, 0)
              (fun _ => EmptyString) scenarioGraph) as [_ [_ [_ H]]].
  apply H.
  - discriminate.
  - intros k n [E | [E | [E | []]]]; injection E as <- <-; reflexivity.
Defined.

(* ================================================================== *)
(** * Name not found and no path *)
(* ================================================================== *)

(** C6, as stated, fails.  [findPath] answers [null] both when a name is
    not a node and when two nodes are not connected; and the tool
    [graph_find_path], which tells these two cases apart for other names,
    replies "not found" for the node whose name is the empty string even
    though it is a node and only the path is missing. *)
Lemma not_found_and_no_path_conflated :
  (JsMap.has "A"%string (nodes islandGraph) = true
   /\ JsMap.has "B"%string (nodes islandGraph) = true
   /\ JsMap.has "Z"%string (nodes islandGraph) = false
   /\ (forall q, ~ connects islandGraph "A" "B" q)
   /\ findPath islandGraph "A" "Z" = None
   /\ findPath islandGraph "A" "B" = None)
  /\ (JsMap.has EmptyString (nodes namelessGraph) = true
      /\ JsMap.has "B"%string (nodes namelessGraph) = true
      /\ JsMap.has "Z"%string (nodes namelessGraph) = false
      /\ (forall q, ~ connects namelessGraph EmptyString "B" q)
      /\ Tools.find_path namelessGraph EmptyString "B"
         = Tools.NoteNotFound EmptyString
      /\ Tools.find_path namelessGraph "Z" "B" = Tools.NoteNotFound "Z").
Proof.
  split.
  - split; [reflexivity |]. split; [reflexivity |]. split; [reflexivity |].
    split; [| split; reflexivity].
    destruct (@findPath_traversal islandGraph "A" "B") as [r [E Hr]];
      [discriminate |].
    vm_compute in E. injection E as <-. exact Hr.
  - split; [reflexivity |]. split; [reflexivity |]. split; [reflexivity |].
    split; [| split; reflexivity].
    destruct (@findPath_traversal namelessGraph EmptyString "B") as [r [E Hr]];
      [discriminate |].
    vm_compute in E. injection E as <-. exact Hr.
Qed.

Lemma find_none_iff (A : Type) (f : A -> bool) (l : list A) :
  (forall x, In x l -> f x = false) -> find f l = None.
Proof.
  intro H. destruct (find f l) as [x |] eqn:E; [| reflexivity].
  apply find_some in E. destruct E as [E1 E2]. rewrite (H x E1) in E2. discriminate.
Qed.

(** A name that matches no node name, even without regard to case, does
    not resolve. *)
Lemma resolve_unmatched (g : Graph) (given : string) :
  unmatched g given -> Tools.resolve g given = None.
Proof.
  intro H. unfold Tools.resolve.
  destruct (JsMap.has given (nodes g)) eqn:E.
  - now destruct (H given E).
  - rewrite find_none_iff; [reflexivity |].
    intros k Hk. apply map_has_keys in Hk. apply streq_neq. now apply H.
Qed.

Lemma resolve_known (g : Graph) (given : string) :
  JsMap.has given (nodes g) = true -> Tools.resolve g given = Some given.
Proof. intro H. unfold Tools.resolve. now rewrite H. Qed.

Lemma toLowerCase_empty (s : string) :
  Js.toLowerCase s = EmptyString -> s = EmptyString.
Proof.
  unfold Js.toLowerCase, Js.str, Js.chars. destruct s; [reflexivity | discriminate].
Qed.

(** A resolved name is a node name that the given name matches. *)
Lemma resolve_Some (g : Graph) (given k : string) :
  Tools.resolve g given = Some k -> matches g given k.
Proof.
  unfold Tools.resolve, matches. destruct (JsMap.has given (nodes g)) eqn:E.
  - intro H. injection H as <-. now split.
  - destruct (find _ _) as [k' |] eqn:F; [| discriminate].
    destruct (Js.truthy k'); [| discriminate]. intro H. injection H as <-.
    apply find_some in F. destruct F as [F1 F2].
    split; [now apply map_has_keys | now apply String.eqb_eq].
Qed.

(** The tests [!resolvedFrom] and [!resolvedTo] on a name that is not
    empty: they succeed exactly when the name matches no node name. *)
Lemma isFalsy_resolve (g : Graph) (given : string) :
  given <> EmptyString ->
  Tools.isFalsy (Tools.resolve g given) = true -> unmatched g given.
Proof.
  intros Hne. unfold Tools.resolve, Tools.isFalsy.
  destruct (JsMap.has given (nodes g)) eqn:E.
  - apply truthy_nonempty in Hne. rewrite Hne. discriminate.
  - destruct (find _ _) as [k' |] eqn:F.
    + apply find_some in F. destruct F as [_ F]. apply String.eqb_eq in F.
      destruct (Js.truthy k') eqn:T; [rewrite T; discriminate |].
      assert (k' = EmptyString).
      { destruct (string_dec k' EmptyString) as [-> | N]; [reflexivity |].
        apply truthy_nonempty in N. congruence. }
      subst k'. symmetry in F. apply toLowerCase_empty in F. contradiction.
    + intros _ k Hk Hlow. apply map_has_keys in Hk.
      apply (find_none _ _ F) in Hk. rewrite Hlow, streq_refl in Hk. discriminate.
Qed.

Lemma resolve_matched (g : Graph) (given k : string) :
  given <> EmptyString -> matches g given k ->
  exists k', Tools.resolve g given = Some k'
             /\ Tools.isFalsy (Tools.resolve g given) = false.
Proof.
  intros Hne [Hk Hlow].
  destruct (Tools.isFalsy (Tools.resolve g given)) eqn:F.
  - apply (isFalsy_resolve Hne) in F. now destruct (F k Hk).
  - destruct (Tools.resolve g given) as [k' |]; [now exists k' | discriminate].
Qed.

(** [null] between two nodes means that no chain connects them. *)
Lemma findPath_None (g : Graph) (a b : string) :
  JsMap.has a (nodes g) = true -> JsMap.has b (nodes g) = true ->
  findPath g a b = None <-> forall q, ~ connects g a b q.
Proof.
  intros Ka Kb. destruct (string_dec a b) as [<- | Hab].
  - rewrite findPath_same. split; [discriminate |].
    intro H. destruct (H [a]). repeat split; constructor.
  - destruct (findPath_traversal g Hab) as [r [E Hr]].
    unfold findPath. rewrite (streq_neq Hab), Ka, Kb. cbn [negb orb].
    rewrite E. destruct r as [p |].
    + split; [discriminate |]. destruct Hr as [C _]. intro H. now destruct (H p).
    + split; [intros _; exact Hr | reflexivity].
Qed.

(** C6, amended.  [findPath] gives the same [null] when one of two distinct
    names is not a node and when both are nodes that no chain connects; the
    tool [graph_find_path] tells the two cases apart.  For distinct
    non-empty names [a] and [b]: when [a] matches no node name, even without
    regard to case, the tool replies that the note [a] is not found; when
    [a] matches one and [b] matches none, that the note [b] is not found;
    when both are nodes and no chain connects them, that no path is found
    between [a] and [b].  Conversely a reply "not found" names [a] or [b],
    which then matches no node name, and a reply "no path" names two nodes
    that [a] and [b] match and that no chain connects; and the texts of the
    two replies always differ. *)
Theorem find_path_tool_distinguishes (g : Graph) (a b : string) :
  a <> b -> a <> EmptyString -> b <> EmptyString ->
  (JsMap.has a (nodes g) = false \/ JsMap.has b (nodes g) = false ->
   findPath g a b = None)
  /\ (JsMap.has a (nodes g) = true -> JsMap.has b (nodes g) = true ->
      (forall q, ~ connects g a b q) -> findPath g a b = None)
  /\ (unmatched g a -> Tools.find_path g a b = Tools.NoteNotFound a)
  /\ (forall k, matches g a k -> unmatched g b ->
        Tools.find_path g a b = Tools.NoteNotFound b)
  /\ (JsMap.has a (nodes g) = true -> JsMap.has b (nodes g) = true ->
      (forall q, ~ connects g a b q) ->
      Tools.find_path g a b = Tools.NoPathFound a b)
  /\ (forall x, Tools.find_path g a b = Tools.NoteNotFound x ->
        (x = a /\ unmatched g a) \/ (x = b /\ unmatched g b))
  /\ (forall x y, Tools.find_path g a b = Tools.NoPathFound x y ->
        matches g a x /\ matches g b y /\ forall q, ~ connects g x y q)
  /\ (forall given x y,
        Tools.failureText (Tools.NoteNotFound given)
        <> Tools.failureText (Tools.NoPathFound x y)).
Proof.
  intros Hab Ha Hb.
  split; [| split; [| split; [| split; [| split; [| split; [| split]]]]]].
  - now apply findPath_unknown.
  - intros Ka Kb Hno. now apply findPath_None.
  - intro H. unfold Tools.find_path. now rewrite (resolve_unmatched H).
  - intros k Hk H. unfold Tools.find_path.
    destruct (resolve_matched Ha Hk) as [k' [_ F]].
    now rewrite F, (resolve_unmatched H).
  - intros Ka Kb Hno. unfold Tools.find_path.
    rewrite (resolve_known Ka), (resolve_known Kb).
    unfold Tools.isFalsy, Tools.nonNull.
    apply truthy_nonempty in Ha, Hb. rewrite Ha, Hb.
    now rewrite (proj2 (findPath_None Ka Kb) Hno).
  - intros x. unfold Tools.find_path.
    destruct (Tools.isFalsy (Tools.resolve g a)) eqn:Fa.
    + intro E. injection E as <-. left. split; [reflexivity |].
      now apply isFalsy_resolve.
    + destruct (Tools.isFalsy (Tools.resolve g b)) eqn:Fb.
      * intro E. injection E as <-. right. split; [reflexivity |].
        now apply isFalsy_resolve.
      * destruct (findPath g _ _); discriminate.
  - intros x y. unfold Tools.find_path.
    destruct (Tools.isFalsy (Tools.resolve g a)) eqn:Fa; [discriminate |].
    destruct (Tools.isFalsy (Tools.resolve g b)) eqn:Fb; [discriminate |].
    destruct (Tools.resolve g a) as [x' |] eqn:Ra; [| discriminate].
    destruct (Tools.resolve g b) as [y' |] eqn:Rb; [| discriminate].
    cbn [Tools.nonNull].
    destruct (findPath g x' y') as [p |] eqn:Ef; [discriminate |].
    intro E. injection E as <- <-.
    apply resolve_Some in Ra, Rb. split; [exact Ra | split; [exact Rb |]].
    destruct Ra as [Kx _], Rb as [Ky _]. now apply (findPath_None Kx Ky).
  - intros given x y. simpl. intro E. injection E as E. discriminate E.
Qed.

Lemma find_path_tool_distinguishes_witness :
  Tools.find_path islandGraph "Z" "A" = Tools.NoteNotFound "Z"
  /\ Tools.find_path islandGraph "a" "Z" = Tools.NoteNotFound "Z"
  /\ Tools.find_path islandGraph "A" "B" = Tools.NoPathFound "A" "B"
  /\ findPath islandGraph "A" "Z" = None
  /\ findPath islandGraph "A" "B" = None.
Proof.
  assert (HZ : unmatched islandGraph "Z").
  { intros k Hk. apply map_has_keys in Hk.
    destruct Hk as [<- | [<- | []]]; discriminate. }
  assert (HAB : forall q, ~ connects islandGraph "A" "B" q).
  { destruct (@findPath_traversal islandGraph "A" "B") as [r [E Hr]]; [discriminate |].
    vm_compute in E. injection E as <-. exact Hr. }
  split; [| split; [| split; [| split]]].
  - destruct (@find_path_tool_distinguishes islandGraph "Z" "A")
      as [_ [_ [H _]]]; try discriminate.
    now apply H.
  - destruct (@find_path_tool_distinguishes islandGraph "a" "Z")
      as [_ [_ [_ [H _]]]]; try discriminate.
    apply (H "A"%string); [split; reflexivity | exact HZ].
  - destruct (@find_path_tool_distinguishes islandGraph "A" "B")
      as [_ [_ [_ [_ [H _]]]]]; try discriminate.
    apply H; try reflexivity. exact HAB.
  - destruct (@find_path_tool_distinguishes islandGraph "A" "Z")
      as [H _]; try discriminate.
    apply H. now right.
  - destruct (@find_path_tool_distinguishes islandGraph "A" "B")
      as [_ [H _]]; try discriminate.
    apply H; try reflexivity. exact HAB.
Defined.

(** The tool takes a node whose name is the empty string for a name that is
    not found: the empty string is falsy. *)
Lemma find_path_tool_empty_name (g : Graph) (b : string) :
  Tools.find_path g EmptyString b = Tools.NoteNotFound EmptyString.
Proof.
  unfold Tools.find_path.
  destruct (Tools.resolve g EmptyString) as [r |] eqn:E; [| reflexivity].
  assert (r = EmptyString).
  { unfold Tools.resolve in E.
    destruct (JsMap.has EmptyString (nodes g)); [congruence |].
    destruct (find _ _) as [k |] eqn:F; [| discriminate].
    destruct (Js.truthy k) eqn:T; [| discriminate].
    injection E as <-. apply find_some in F. destruct F as [_ F].
    apply String.eqb_eq in F. change (Js.toLowerCase EmptyString) with EmptyString in F.
    unfold Js.toLowerCase, Js.str, Js.chars in F.
    destruct k; [reflexivity | discriminate F]. }
  subst r. reflexivity.
Qed.

(* ================================================================== *)
(** * [parseWikilinks] *)
(* ================================================================== *)

(** ** The matcher on the classes of the expression *)

Lemma span_le (p : ascii -> bool) (l : list ascii) : span p l <= List.length l.
Proof. induction l as [| c l IH]; simpl; [lia |]. destruct (p c); simpl; lia. Qed.

Lemma span_inside (p : ascii -> bool) (l : list ascii) (k : nat) :
  k < span p l -> exists c more, skipn k l = c :: more /\ p c = true.
Proof.
  revert k. induction l as [| c l IH]; intros k H; simpl in H; [lia |].
  destruct (p c) eqn:E; [| lia]. destruct k as [| k].
  - now exists c, l.
  - simpl. apply IH. lia.
Qed.

Lemma span_firstn (p : ascii -> bool) (l : list ascii) :
  Forall (fun c => p c = true) (firstn (span p l) l).
Proof.
  induction l as [| c l IH]; simpl; [constructor |].
  destruct (p c) eqn:E; simpl; [now constructor | constructor].
Qed.

Lemma span_stop (p : ascii -> bool) (l more : list ascii) (c : ascii) :
  skipn (span p l) l = c :: more -> p c = false.
Proof.
  induction l as [| a l IH]; simpl; [discriminate |].
  destruct (p a) eqn:E; simpl; [exact IH |]. intro H. injection H as <- _. exact E.
Qed.

Lemma span_app (p : ascii -> bool) (l1 l2 : list ascii) :
  Forall (fun c => p c = true) l1 ->
  match l2 with c :: _ => p c = false | [] => True end ->
  span p (l1 ++ l2) = List.length l1.
Proof.
  intros H1 H2. induction H1 as [| c l1 Hc H1 IH]; simpl.
  - destruct l2 as [| c l2]; simpl; [reflexivity | now rewrite H2].
  - now rewrite Hc, IH.
Qed.

Lemma advance_0 (x : Regex.pos) : advance 0 x = x.
Proof. now destruct x. Qed.

Lemma advance_S (k : nat) (bef rest : list ascii) (a : ascii)
    (cap : option (list ascii)) :
  advance (S k) (Regex.Pos bef (a :: rest) cap)
  = advance k (Regex.Pos (a :: bef) rest cap).
Proof. unfold advance. simpl. now rewrite <- app_assoc. Qed.

Lemma countdown_shift (A : Type) (f : nat -> A) (m : nat) :
  map f (countdown (S m)) = map (fun k => f (S k)) (countdown m) ++ [f 0].
Proof.
  induction m as [| m IH]; [reflexivity |].
  change (countdown (S (S m))) with (S (S m) :: countdown (S m)).
  cbn [map]. rewrite IH. reflexivity.
Qed.

Lemma run_class_cons (p : ascii -> bool) (bef rest : list ascii) (a : ascii)
    (cap : option (list ascii)) :
  Regex.run (Regex.Cls p) (Regex.Pos bef (a :: rest) cap)
  = if p a then [Regex.Pos (a :: bef) rest cap] else [].
Proof. reflexivity. Qed.

Lemma run_class_nil (p : ascii -> bool) (bef : list ascii)
    (cap : option (list ascii)) :
  Regex.run (Regex.Cls p) (Regex.Pos bef [] cap) = [].
Proof. reflexivity. Qed.

(** A greedy star of a class gives up the code units of the longest run one
    by one. *)
Lemma run_star_class (p : ascii -> bool) (n : nat) (x : Regex.pos) :
  Regex.remaining x <= n ->
  Regex.starLoop true (Regex.run (Regex.Cls p)) n x
  = map (fun k => advance k x) (countdown (span p (Regex.after x))).
Proof.
  revert x. induction n as [| n IH]; intros [bef aft cap] H;
    unfold Regex.remaining in H; simpl in H.
  - destruct aft; [| simpl in H; lia]. reflexivity.
  - cbn [Regex.starLoop].
    destruct aft as [| a rest]; [now rewrite run_class_nil |].
    rewrite run_class_cons. cbn [Regex.after span].
    destruct (p a) eqn:E; [| reflexivity].
    cbn [filter]. unfold Regex.remaining at 1 2. cbn [Regex.after].
    assert (El : (List.length rest <? List.length (a :: rest)) = true)
      by (apply Nat.ltb_lt; simpl; lia).
    rewrite El. cbn [flat_map]. rewrite app_nil_r.
    rewrite IH by (unfold Regex.remaining; simpl in *; lia).
    cbn [Regex.after]. rewrite countdown_shift, advance_0.
    f_equal. apply map_ext. intro k. now rewrite advance_S.
Qed.

Lemma run_plus_class (p : ascii -> bool) (x : Regex.pos) :
  Regex.run (Regex.plus (Regex.Cls p)) x
  = map (fun k => advance k x) (countdown1 (span p (Regex.after x))).
Proof.
  destruct x as [bef aft cap]. unfold Regex.plus.
  change (Regex.run (Regex.Seq (Regex.Cls p) (Regex.Star true (Regex.Cls p)))
            (Regex.Pos bef aft cap))
    with (flat_map (fun y => Regex.starLoop true (Regex.run (Regex.Cls p))
                               (Regex.remaining y) y)
                   (Regex.run (Regex.Cls p) (Regex.Pos bef aft cap))).
  destruct aft as [| a rest]; [now rewrite run_class_nil |].
  rewrite run_class_cons. cbn [Regex.after span].
  destruct (p a) eqn:E; [| reflexivity].
  cbn [flat_map]. rewrite app_nil_r, run_star_class by lia.
  cbn [Regex.after countdown1]. rewrite map_map.
  apply map_ext. intro k. now rewrite advance_S.
Qed.

(** ** The pieces of the expression *)

Lemma wikilinkRegex_pieces :
  wikilinkRegex
  = Regex.Seq (Regex.lit "[[") (Regex.Seq targetGroup closingPart).
Proof. reflexivity. Qed.

Lemma run_lit2 (c : ascii) (x : Regex.pos) :
  yields (Regex.run (Regex.Seq (Regex.Chr c) (Regex.Chr c)) x)
         (after2 c (Regex.after x)) (Regex.captured x).
Proof.
  destruct x as [bef aft cap]. destruct aft as [| c1 [| c2 rest]]; simpl.
  - reflexivity.
  - unfold Regex.step1. simpl. now destruct (Ascii.eqb c c1).
  - unfold Regex.step1. simpl. destruct (Ascii.eqb c c1); simpl; [| reflexivity].
    destruct (Ascii.eqb c c2); simpl; [| reflexivity].
    eexists. split; [reflexivity |]. now split.
Qed.

Lemma flat_map_countdown_nil (A : Type) (f : nat -> list A) (m : nat) :
  (forall k, k <= m -> f k = []) -> flat_map f (countdown m) = [].
Proof.
  induction m as [| m IH]; intro H; simpl.
  - rewrite (H 0) by lia. reflexivity.
  - rewrite (H (S m)) by lia. simpl. apply IH. intros k Hk. apply H. lia.
Qed.

(** When all shorter attempts fail, what comes after a greedy run is what
    comes after the longest run. *)
Lemma flat_map_countdown1 (A : Type) (f : nat -> list A) (m : nat) :
  (forall k, 1 <= k -> k < m -> f k = []) ->
  flat_map f (countdown1 m) = match m with 0 => [] | S _ => f m end.
Proof.
  destruct m as [| m]; intro H; [reflexivity |].
  unfold countdown1. rewrite flat_map_concat_map, map_map, <- flat_map_concat_map.
  destruct m as [| m]; simpl; [now rewrite app_nil_r |].
  rewrite (@flat_map_countdown_nil _ (fun k => f (S k)) m).
  - now rewrite app_nil_r.
  - intros k Hk. apply H; lia.
Qed.

Lemma pipeOrHash_cases (c : ascii) :
  isPipeOrHash c = true -> c = "|"%char \/ c = "#"%char.
Proof.
  unfold isPipeOrHash. rewrite orb_true_iff.
  intros [H | H]; apply Ascii.eqb_eq in H; tauto.
Qed.

Lemma after2_Some (c : ascii) (l rest : list ascii) :
  after2 c l = Some rest <-> l = c :: c :: rest.
Proof.
  destruct l as [| c1 [| c2 l]]; simpl; try (split; discriminate).
  destruct (Ascii.eqb_spec c c1) as [<- | N1];
    destruct (Ascii.eqb_spec c c2) as [<- | N2]; simpl;
    split; intro H; try discriminate; try congruence.
Qed.

Lemma run_closingPart (y : Regex.pos) :
  yields (Regex.run closingPart y) (closing (Regex.after y)) (Regex.captured y).
Proof.
  destruct y as [bef aft cap]. unfold closingPart, Regex.opt.
  change (Regex.lit "]]") with (Regex.Seq (Regex.Chr "]") (Regex.Chr "]")).
  set (close := Regex.Seq (Regex.Chr "]") (Regex.Chr "]")).
  set (label := Regex.plus (Regex.Cls notCloseBracket)).
  change (Regex.run _ (Regex.Pos bef aft cap))
    with (flat_map (Regex.run close)
            (flat_map (Regex.run label)
               (Regex.run (Regex.Cls isPipeOrHash) (Regex.Pos bef aft cap))
             ++ [Regex.Pos bef aft cap])).
  rewrite flat_map_app. cbn [flat_map]. rewrite app_nil_r.
  pose proof (run_lit2 "]" (Regex.Pos bef aft cap)) as Hy. fold close in Hy.
  cbn [Regex.after Regex.captured] in Hy.
  destruct aft as [| c more].
  - rewrite run_class_nil. exact Hy.
  - rewrite run_class_cons. cbn [Regex.after Regex.captured closing].
    destruct (isPipeOrHash c) eqn:E; [| exact Hy].
    assert (Hc : after2 "]" (c :: more) = None).
    { destruct (after2 "]" (c :: more)) as [r |] eqn:F; [| reflexivity].
      apply after2_Some in F. injection F as Ec _. subst c.
      destruct (pipeOrHash_cases E); discriminate. }
    rewrite Hc in Hy. unfold yields in Hy. rewrite Hy, app_nil_r.
    cbn [flat_map]. rewrite app_nil_r. unfold label.
    rewrite run_plus_class. cbn [Regex.after].
    rewrite flat_map_concat_map, map_map, <- flat_map_concat_map.
    rewrite flat_map_countdown1.
    + destruct (span notCloseBracket more) as [| m]; [reflexivity |].
      apply (run_lit2 "]" (advance (S m) (Regex.Pos (c :: bef) more cap))).
    + intros k Hk1 Hk2. destruct (span_inside Hk2) as [c' [more' [Es Hc']]].
      pose proof (run_lit2 "]" (advance k (Regex.Pos (c :: bef) more cap))) as Hk.
      fold close in Hk. cbn [advance Regex.after Regex.captured] in Hk.
      rewrite Es in Hk.
      assert (Hn : after2 "]" (c' :: more') = None).
      { destruct (after2 "]" (c' :: more')) as [r |] eqn:F; [| reflexivity].
        apply after2_Some in F. injection F as Ec _. subst c'.
        discriminate Hc'. }
      rewrite Hn in Hk. exact Hk.
Qed.

Lemma run_targetGroup (x : Regex.pos) :
  Regex.run targetGroup x
  = map (fun k => Regex.setCaptured x (advance k x))
        (countdown1 (span notTargetDelim (Regex.after x))).
Proof.
  unfold targetGroup.
  change (Regex.run (Regex.Grp ?r) x)
    with (map (Regex.setCaptured x) (Regex.run r x)).
  now rewrite run_plus_class, map_map.
Qed.

Lemma captured_advance (x : Regex.pos) (k : nat) :
  k <= List.length (Regex.after x) ->
  Regex.captured (Regex.setCaptured x (advance k x))
  = Some (firstn k (Regex.after x)).
Proof.
  intro H. unfold Regex.setCaptured, Regex.between, Regex.remaining, advance.
  simpl. rewrite length_skipn. do 2 f_equal. lia.
Qed.

(** The expression matches at a position exactly the wikilink the text
    begins with there, in one way only. *)
Lemma run_wikilinkRegex (x : Regex.pos) :
  match linkPrefix (Regex.after x) with
  | Some (target, rest) =>
      exists z, Regex.run wikilinkRegex x = [z] /\ Regex.after z = rest
                /\ Regex.captured z = Some target
  | None => Regex.run wikilinkRegex x = []
  end.
Proof.
  rewrite wikilinkRegex_pieces.
  change (Regex.lit "[[") with (Regex.Seq (Regex.Chr "[") (Regex.Chr "[")).
  change (Regex.run (Regex.Seq ?a (Regex.Seq targetGroup closingPart)) x)
    with (flat_map (fun x1 => flat_map (Regex.run closingPart)
                                 (Regex.run targetGroup x1))
                   (Regex.run a x)).
  pose proof (run_lit2 "[" x) as Ho. unfold linkPrefix.
  destruct (after2 "[" (Regex.after x)) as [body |]; unfold yields in Ho.
  - destruct Ho as [x1 [-> [Ea Ec]]]. cbn [flat_map]. rewrite app_nil_r.
    rewrite run_targetGroup, Ea.
    rewrite flat_map_concat_map, map_map, <- flat_map_concat_map.
    rewrite flat_map_countdown1.
    + destruct (span notTargetDelim body) as [| n] eqn:En; [reflexivity |].
      pose proof (run_closingPart (Regex.setCaptured x1 (advance (S n) x1))) as Hc.
      rewrite captured_advance in Hc
        by (rewrite Ea, <- En; apply span_le).
      cbn [Regex.setCaptured advance Regex.after] in Hc. rewrite Ea in Hc.
      destruct (closing (skipn (S n) body)) as [rest |]; exact Hc.
    + intros k Hk1 Hk2. destruct (span_inside Hk2) as [c [more [Es Hc]]].
      pose proof (run_closingPart (Regex.setCaptured x1 (advance k x1))) as Hk.
      cbn [Regex.setCaptured advance Regex.after] in Hk. rewrite Ea, Es in Hk.
      assert (Hn : closing (c :: more) = None).
      { unfold closing. unfold notTargetDelim in Hc.
        apply negb_true_iff in Hc. apply orb_false_iff in Hc.
        destruct Hc as [Hc1 Hc2]. apply orb_false_iff in Hc1.
        destruct Hc1 as [Hc0 Hc1]. unfold isPipeOrHash. rewrite Hc1, Hc2.
        cbn [orb]. unfold after2.
        destruct more as [| c2 more]; [reflexivity |].
        rewrite (Ascii.eqb_sym "]" c), Hc0. reflexivity. }
      rewrite Hn in Hk. exact Hk.
  - rewrite Ho. reflexivity.
Qed.

Lemma firstn_length_app (l1 l2 : list ascii) : firstn (List.length l1) (l1 ++ l2) = l1.
Proof. induction l1 as [| c l1 IH]; simpl; [now destruct l2 | now rewrite IH]. Qed.

Lemma skipn_length_app (l1 l2 : list ascii) : skipn (List.length l1) (l1 ++ l2) = l2.
Proof. induction l1 as [| c l1 IH]; simpl; [reflexivity | exact IH]. Qed.

Lemma after2_same (c : ascii) (body : list ascii) :
  after2 c (c :: c :: body) = Some body.
Proof. unfold after2. now rewrite Ascii.eqb_refl. Qed.

Lemma linkPrefix_complete (l target rest : list ascii) :
  linkAt l target rest -> linkPrefix l = Some (target, rest).
Proof.
  intro H.
  destruct H as [target rest [Hne Hall]
                | target label rest sep [Hne Hall] Hsep [Lne Lall]].
  - unfold linkPrefix.
    change (Js.chars "[[" ++ target ++ Js.chars "]]" ++ rest)
      with ("["%char :: "["%char :: target ++ "]"%char :: "]"%char :: rest).
    rewrite after2_same, span_app by (assumption || reflexivity).
    destruct target as [| c target]; [congruence |].
    cbn [List.length].
    change (S (List.length target)) with (List.length (c :: target)).
    rewrite skipn_length_app, firstn_length_app. reflexivity.
  - unfold linkPrefix.
    change (Js.chars "[[" ++ target ++ sep :: label ++ Js.chars "]]" ++ rest)
      with ("["%char :: "["%char
            :: target ++ sep :: label ++ "]"%char :: "]"%char :: rest).
    rewrite after2_same.
    rewrite span_app; [| assumption | now destruct Hsep as [-> | ->]].
    destruct target as [| c target]; [congruence |].
    cbn [List.length].
    change (S (List.length target)) with (List.length (c :: target)).
    rewrite skipn_length_app, firstn_length_app. unfold closing.
    assert (Es : isPipeOrHash sep = true) by now destruct Hsep as [-> | ->].
    rewrite Es, span_app by (assumption || reflexivity).
    destruct label as [| c' label]; [congruence |].
    cbn [List.length].
    change (S (List.length label)) with (List.length (c' :: label)).
    rewrite skipn_length_app, after2_same. reflexivity.
Qed.

Lemma firstn_span_nonempty (p : ascii -> bool) (l : list ascii) (n : nat) :
  span p l = S n -> firstn (S n) l <> [].
Proof. destruct l; simpl; [discriminate | discriminate]. Qed.

Lemma linkPrefix_sound (l target rest : list ascii) :
  linkPrefix l = Some (target, rest) -> linkAt l target rest.
Proof.
  unfold linkPrefix. destruct (after2 "[" l) as [body |] eqn:Eo; [| discriminate].
  apply after2_Some in Eo. subst l.
  destruct (span notTargetDelim body) as [| n] eqn:En; [discriminate |].
  destruct (closing (skipn (S n) body)) as [rest' |] eqn:Ec; [| discriminate].
  intro H. injection H as <- <-.
  assert (Ht : isTarget (firstn (S n) body)).
  { split; [now apply (firstn_span_nonempty En) |]. rewrite <- En. apply span_firstn. }
  assert (Eb : body = firstn (S n) body ++ skipn (S n) body)
    by (symmetry; apply firstn_skipn).
  unfold closing in Ec. destruct (skipn (S n) body) as [| c more] eqn:Es; [discriminate |].
  destruct (isPipeOrHash c) eqn:Ep.
  - destruct (span notCloseBracket more) as [| m] eqn:Em; [discriminate |].
    apply after2_Some in Ec.
    assert (Hl : isLabel (firstn (S m) more)).
    { split; [now apply (firstn_span_nonempty Em) |]. rewrite <- Em. apply span_firstn. }
    assert (Emore : more = firstn (S m) more ++ skipn (S m) more)
      by (symmetry; apply firstn_skipn).
    rewrite Ec in Emore. rewrite Emore in Eb. rewrite Eb at 1.
    apply (link_labelled (target := firstn (S n) body)
             (label := firstn (S m) more) rest' (sep := c));
      [assumption | now apply pipeOrHash_cases | assumption].
  - apply after2_Some in Ec. rewrite Ec in Eb. rewrite Eb at 1.
    now apply (link_plain (target := firstn (S n) body) rest').
Qed.

Lemma linkAt_shorter (l target rest : list ascii) :
  linkAt l target rest -> List.length rest < List.length l.
Proof.
  intros [t r _ | t lab r sep _ _ _]; simpl; rewrite ?length_app; simpl;
    rewrite ?length_app; simpl; lia.
Qed.

Lemma linkAt_deterministic (l t1 r1 t2 r2 : list ascii) :
  linkAt l t1 r1 -> linkAt l t2 r2 -> t1 = t2 /\ r1 = r2.
Proof.
  intros H1 H2. apply linkPrefix_complete in H1, H2.
  rewrite H1 in H2. injection H2 as <- <-. now split.
Qed.

(** A wikilink has no closing bracket between its opening and its closing
    brackets. *)
Lemma linkAt_inside (l target rest : list ascii) :
  linkAt l target rest ->
  exists body, l = Js.chars "[[" ++ body ++ Js.chars "]]" ++ rest
               /\ ~ In "]"%char body.
Proof.
  assert (Hin : forall p (t : list ascii),
            Forall (fun c => p c = true) t -> p "]"%char = false -> ~ In "]"%char t).
  { intros p t Hall Hp H. rewrite Forall_forall in Hall.
    rewrite (Hall _ H) in Hp. discriminate. }
  intros [t r [_ Hall] | t lab r sep [_ Hall] Hsep [_ Lall]].
  - exists t. split; [reflexivity | now apply (Hin notTargetDelim)].
  - exists (t ++ sep :: lab). split; [now rewrite <- app_assoc |].
    intro H. apply in_app_iff in H. destruct H as [H | [H | H]].
    + now apply (Hin notTargetDelim t).
    + destruct Hsep; subst; discriminate.
    + now apply (Hin notCloseBracket lab).
Qed.

(** ** The scan *)

Lemma search_wikilink (aft bef : list ascii) :
  match Regex.search wikilinkRegex bef aft with
  | Some m =>
      Regex.remaining (snd m) < Regex.remaining (fst m)
      /\ Regex.remaining (fst m) <= List.length aft
      /\ forall targets,
           scans (Regex.after (snd m)) targets ->
           scans aft (targetOf m :: targets)
  | None => scans aft []
  end.
Proof.
  revert bef. induction aft as [| c aft IH]; intro bef.
  - cbn [Regex.search].
    pose proof (run_wikilinkRegex (Regex.Pos bef [] None)) as H.
    cbn [Regex.after] in H. change (linkPrefix []) with (@None (list ascii * list ascii)) in H.
    rewrite H. constructor.
  - cbn [Regex.search].
    pose proof (run_wikilinkRegex (Regex.Pos bef (c :: aft) None)) as H.
    cbn [Regex.after] in H.
    destruct (linkPrefix (c :: aft)) as [[target rest] |] eqn:E.
    + destruct H as [z [-> [Ez Ec]]]. apply linkPrefix_sound in E.
      cbn [fst snd]. unfold Regex.remaining. cbn [Regex.after]. rewrite Ez.
      split; [apply (linkAt_shorter E) |]. split; [lia |].
      intros targets Hs. unfold targetOf, Regex.group1. cbn [snd]. rewrite Ec.
      now apply scans_link with rest.
    + rewrite H. specialize (IH (c :: bef)).
      assert (Hno : forall target rest, ~ linkAt (c :: aft) target rest).
      { intros target rest Hl. apply linkPrefix_complete in Hl. congruence. }
      destruct (Regex.search wikilinkRegex (c :: bef) aft) as [m |].
      * destruct IH as [H1 [H2 H3]]. split; [assumption |].
        split; [simpl; lia |]. intros targets Hs. apply scans_skip; auto.
      * now apply scans_skip.
Qed.

Lemma matchesFrom_scans (fuel : nat) (aft bef : list ascii) :
  List.length aft < fuel ->
  scans aft (map targetOf (Regex.matchesFrom wikilinkRegex fuel bef aft)).
Proof.
  revert aft bef. induction fuel as [| fuel IH]; intros aft bef H; [lia |].
  cbn [Regex.matchesFrom]. pose proof (search_wikilink aft bef) as Hs.
  destruct (Regex.search wikilinkRegex bef aft) as [[x y] |]; [| exact Hs].
  cbn [fst snd] in Hs. destruct Hs as [H1 [H2 H3]].
  apply Nat.ltb_lt in H1. rewrite H1. cbn [map]. apply H3. apply IH.
  apply Nat.ltb_lt in H1. unfold Regex.remaining in *. lia.
Qed.

Lemma scans_functional (text : list ascii) (t1 t2 : list string) :
  scans text t1 -> scans text t2 -> t1 = t2.
Proof.
  intro H1. revert t2.
  induction H1 as [| text target rest targets Hl Hs IH | c text targets Hno Hs IH];
    intros t2 H2.
  - inversion H2 as [| ? ? ? ? Hl' | ]; subst; [reflexivity |].
    apply linkAt_shorter in Hl'. simpl in Hl'. lia.
  - inversion H2 as [| ? target' rest' targets' Hl' Hs' | c' ? ? Hno' Hs']; subst.
    + apply linkAt_shorter in Hl. simpl in Hl. lia.
    + destruct (linkAt_deterministic Hl Hl') as [<- <-]. f_equal. now apply IH.
    + now destruct (Hno' target rest).
  - inversion H2 as [| ? target' rest' targets' Hl' Hs' | c' ? ? Hno' Hs']; subst.
    + now destruct (Hno target' rest').
    + now apply IH.
Qed.

(** What a wikilink at the head of a text is followed by is the end of the
    text. *)
Lemma linkAt_suffix (text target rest : list ascii) :
  linkAt text target rest -> exists w, text = w ++ rest.
Proof.
  intros [tg r _ | tg lb r sep _ _ _].
  - exists (Js.chars "[[" ++ tg ++ Js.chars "]]"). now rewrite <- !app_assoc.
  - exists (Js.chars "[[" ++ tg ++ sep :: lb ++ Js.chars "]]").
    rewrite <- !app_assoc. cbn [app]. now rewrite <- !app_assoc.
Qed.

(** Every target of a scan is the one of a wikilink somewhere in the text. *)
Lemma scans_occurrences (text : list ascii) (targets : list string) :
  scans text targets ->
  forall t, In t targets ->
    exists pre link target rest,
      text = pre ++ link /\ linkAt link target rest
      /\ t = Js.trim (Js.str target).
Proof.
  induction 1 as [| text target rest targets Hl Hs IH | c text targets Hno Hs IH];
    intros t Ht.
  - destruct Ht.
  - destruct Ht as [<- | Ht].
    + now exists [], text, target, rest.
    + destruct (IH t Ht) as [pre [link [tg [r [E [H1 H2]]]]]].
      destruct (linkAt_suffix Hl) as [w Ew].
      exists (w ++ pre), link, tg, r. rewrite <- app_assoc, <- E. tauto.
  - destruct (IH t Ht) as [pre [link [tg [r [E [H1 H2]]]]]].
    exists (c :: pre), link, tg, r. rewrite E. tauto.
Qed.

(** C9, as stated, fails: a wikilink that begins inside an earlier match is
    not returned.  The text [[[a[[b]]] holds the wikilink [[[b]]], of the
    target [b], but the search finds [[[a[[b]]] first, whose target
    [a[[b] has no closing bracket, pipe or hash, and resumes after it. *)
Lemma overlapped_wikilink_not_returned :
  Js.chars "[[a[[b]]" = Js.chars "[[a" ++ Js.chars "[[b]]"
  /\ linkAt (Js.chars "[[b]]") (Js.chars "b") []
  /\ linkAt (Js.chars "[[a[[b]]") (Js.chars "a[[b") []
  /\ parseWikilinks "[[a[[b]]" = ["a[[b"%string].
Proof.
  split; [reflexivity |]. split; [| split; [| reflexivity]].
  - apply (@link_plain (Js.chars "b") []). split; [discriminate | repeat constructor].
  - apply (@link_plain (Js.chars "a[[b") []).
    split; [discriminate | repeat constructor].
Qed.

(** C9, amended.  For every text, [parseWikilinks] returns, in order of
    occurrence, exactly the trimmed targets of the wikilinks of the three
    forms met when the text is gone through from left to right, each search
    resuming after the last link found (a wikilink that begins inside an
    earlier one is passed over): [[Target]], [[Target|Display]] and
    [[Target#Section]], where the target is a non-empty run without closing
    bracket, pipe and hash and the display text or section anchor, which is
    dropped, is a non-empty run without closing bracket.  Every target
    returned is the one of a wikilink of the text, and no match holds a
    closing bracket before its closing pair, so none spans one. *)
Theorem parseWikilinks_scans (content : string) :
  scans (Js.chars content) (parseWikilinks content)
  /\ (forall targets, scans (Js.chars content) targets ->
                      targets = parseWikilinks content)
  /\ (forall t, In t (parseWikilinks content) ->
        exists pre link target rest,
          Js.chars content = pre ++ link /\ linkAt link target rest
          /\ t = Js.trim (Js.str target))
  /\ (forall text target rest,
        linkAt text target rest ->
        exists body, text = Js.chars "[[" ++ body ++ Js.chars "]]" ++ rest
                     /\ ~ In "]"%char body).
Proof.
  assert (H : scans (Js.chars content) (parseWikilinks content)).
  { unfold parseWikilinks, Regex.matchAll. apply matchesFrom_scans. lia. }
  split; [exact H |]. split; [| split].
  - intros targets Hs. apply (scans_functional Hs H).
  - apply (scans_occurrences H).
  - apply linkAt_inside.
Qed.

Lemma parseWikilinks_scans_witness :
  parseWikilinks "[[B]] [[ C |see]] [[D#top]]" = ["B"; "C"; "D"]%string.
Proof.
  destruct (parseWikilinks_scans "[[B]] [[ C |see]] [[D#top]]") as [_ [H _]].
  symmetry. apply H.
  apply (@scans_link _ (Js.chars "B") (Js.chars " [[ C |see]] [[D#top]]")).
  { apply (@link_plain (Js.chars "B")). split; [discriminate |].
    repeat constructor. }
  apply scans_skip.
  { intros t r Hl. apply linkPrefix_complete in Hl. discriminate Hl. }
  apply (@scans_link _ (Js.chars " C ") (Js.chars " [[D#top]]")).
  { apply (@link_labelled (Js.chars " C ") (Js.chars "see") _ "|").
    - split; [discriminate | repeat constructor].
    - now left.
    - split; [discriminate | repeat constructor]. }
  apply scans_skip.
  { intros t r Hl. apply linkPrefix_complete in Hl. discriminate Hl. }
  apply (@scans_link _ (Js.chars "D") []).
  { apply (@link_labelled (Js.chars "D") (Js.chars "top") [] "#").
    - split; [discriminate | repeat constructor].
    - now right.
    - split; [discriminate | repeat constructor]. }
  constructor.
Defined.

(* ================================================================== *)
(** * Paths, names and folders *)
(* ================================================================== *)

Lemma chars_str (l : list ascii) : Js.chars (Js.str l) = l.
Proof. apply list_ascii_of_string_of_list_ascii. Qed.

Lemma str_chars (s : string) : Js.str (Js.chars s) = s.
Proof. apply string_of_list_ascii_of_string. Qed.

Lemma chars_app (s1 s2 : string) :
  Js.chars (s1 ++ s2) = Js.chars s1 ++ Js.chars s2.
Proof. induction s1 as [| c s1 IH]; simpl; [reflexivity | now rewrite IH]. Qed.

Lemma str_app (l1 l2 : list ascii) :
  Js.str (l1 ++ l2) = (Js.str l1 ++ Js.str l2)%string.
Proof. induction l1 as [| c l1 IH]; simpl; [reflexivity | now rewrite IH]. Qed.

Lemma splitChars_nonempty (sep : ascii) (l : list ascii) :
  Js.splitChars sep l <> [].
Proof.
  destruct l as [| c l]; simpl; [discriminate |].
  destruct (Ascii.eqb c sep); [discriminate |].
  destruct (Js.splitChars sep l); discriminate.
Qed.

(** A text without the separator is one segment. *)
Lemma splitChars_one (sep : ascii) (l : list ascii) :
  existsb (Ascii.eqb sep) l = false -> Js.splitChars sep l = [l].
Proof.
  induction l as [| c l IH]; simpl; [reflexivity |].
  rewrite orb_false_iff. intros [H1 H2]. rewrite Ascii.eqb_sym, H1, (IH H2).
  reflexivity.
Qed.

(** The segments on both sides of a separator. *)
Lemma splitChars_app (sep : ascii) (l1 l2 : list ascii) :
  Js.splitChars sep (l1 ++ sep :: l2)
  = Js.splitChars sep l1 ++ Js.splitChars sep l2.
Proof.
  induction l1 as [| c l1 IH]; simpl.
  - now rewrite Ascii.eqb_refl.
  - destruct (Ascii.eqb c sep); [now rewrite IH |]. rewrite IH.
    pose proof (@splitChars_nonempty sep l1) as Hn.
    destruct (Js.splitChars sep l1) as [| seg segs]; [congruence | reflexivity].
Qed.

Lemma concat_cons (sep x : string) (l : list string) :
  l <> [] -> String.concat sep (x :: l) = (x ++ sep ++ String.concat sep l)%string.
Proof. destruct l; [congruence | reflexivity]. Qed.

(** Joining the segments with the separator gives the text back. *)
Lemma join_split (sep : ascii) (l : list ascii) :
  Js.join (String sep EmptyString) (map Js.str (Js.splitChars sep l)) = Js.str l.
Proof.
  unfold Js.join. induction l as [| c l IH]; [reflexivity |].
  cbn [Js.splitChars]. pose proof (@splitChars_nonempty sep l) as Hn.
  destruct (Ascii.eqb_spec c sep) as [-> | N].
  - cbn [map]. rewrite concat_cons, IH; [reflexivity |].
    destruct (Js.splitChars sep l); [congruence | discriminate].
  - destruct (Js.splitChars sep l) as [| seg segs]; [congruence |].
    cbn [map] in *. destruct segs as [| seg2 segs].
    + cbn [map String.concat] in *.
      change (Js.str (c :: l)) with (String c (Js.str l)). now rewrite <- IH.
    + rewrite concat_cons in * by discriminate.
      change (Js.str (c :: l)) with (String c (Js.str l)). now rewrite <- IH.
Qed.

Lemma search_unfold (r : Regex.t) (bef aft : list ascii) :
  Regex.search r bef aft
  = match Regex.run r (Regex.Pos bef aft None) with
    | y :: _ => Some (Regex.Pos bef aft None, y)
    | [] =>
        match aft with
        | [] => None
        | c :: aft' => Regex.search r (c :: bef) aft'
        end
    end.
Proof. destruct aft; reflexivity. Qed.

(** The leftmost match: the first position at which the expression
    matches. *)
Lemma search_first (r : Regex.t) (l1 l2 bef : list ascii) (y : Regex.pos)
    (ys : list Regex.pos) :
  (forall k, k < List.length l1 ->
     Regex.run r (Regex.Pos (rev (firstn k l1) ++ bef) (skipn k l1 ++ l2) None) = []) ->
  Regex.run r (Regex.Pos (rev l1 ++ bef) l2 None) = y :: ys ->
  Regex.search r bef (l1 ++ l2) = Some (Regex.Pos (rev l1 ++ bef) l2 None, y).
Proof.
  revert bef. induction l1 as [| c l1 IH]; intros bef Hmiss Hhit.
  - rewrite search_unfold. simpl in *. now rewrite Hhit.
  - cbn [app]. rewrite search_unfold.
    pose proof (Hmiss 0 ltac:(simpl; lia)) as H0. simpl in H0. rewrite H0.
    cbn [rev] in Hhit. rewrite <- app_assoc in Hhit.
    cbn [rev]. rewrite <- app_assoc. apply IH; [| exact Hhit].
    intros k Hk. specialize (Hmiss (S k)). cbn [firstn skipn rev] in Hmiss.
    rewrite <- app_assoc in Hmiss. apply Hmiss. simpl. lia.
Qed.

Lemma search_nowhere (r : Regex.t) (l bef : list ascii) :
  (forall k, k <= List.length l ->
     Regex.run r (Regex.Pos (rev (firstn k l) ++ bef) (skipn k l) None) = []) ->
  Regex.search r bef l = None.
Proof.
  revert bef. induction l as [| c l IH]; intros bef Hmiss.
  - rewrite search_unfold.
    pose proof (Hmiss 0 ltac:(simpl; lia)) as H0. simpl in H0. now rewrite H0.
  - rewrite search_unfold.
    pose proof (Hmiss 0 ltac:(simpl; lia)) as H0. simpl in H0. rewrite H0.
    apply IH. intros k Hk. specialize (Hmiss (S k)). cbn [firstn skipn rev] in Hmiss.
    rewrite <- app_assoc in Hmiss. apply Hmiss. simpl. lia.
Qed.

(** The expression for the extension matches only at the last three code
    units, and only when they are the extension. *)
Lemma run_mdSuffix (x : Regex.pos) :
  Regex.run mdSuffix x
  = if list_eq_dec ascii_dec (Regex.after x) (Js.chars ".md")
    then [Regex.Pos (rev (Js.chars ".md") ++ Regex.before x) [] (Regex.captured x)]
    else [].
Proof.
  destruct x as [bef aft cap]. cbn [Regex.after Regex.before Regex.captured].
  destruct (list_eq_dec ascii_dec aft (Js.chars ".md")) as [-> | N]; [reflexivity |].
  unfold mdSuffix, Regex.lit. cbn [Js.chars list_ascii_of_string map Regex.seqs].
  cbn [Regex.run]. unfold Regex.step1 at 3. cbn [Regex.after].
  destruct aft as [| a1 aft]; [reflexivity |].
  destruct (Ascii.eqb_spec "."%char a1) as [<- | N1]; [| reflexivity].
  cbn [flat_map]. rewrite app_nil_r. unfold Regex.step1 at 2. cbn [Regex.after].
  destruct aft as [| a2 aft]; [reflexivity |].
  destruct (Ascii.eqb_spec "m"%char a2) as [<- | N2]; [| reflexivity].
  cbn [flat_map]. rewrite app_nil_r. unfold Regex.step1. cbn [Regex.after].
  destruct aft as [| a3 aft]; [reflexivity |].
  destruct (Ascii.eqb_spec "d"%char a3) as [<- | N3]; [| reflexivity].
  cbn [flat_map]. rewrite app_nil_r. unfold Regex.atLineEnd. cbn [Regex.after].
  destruct aft as [| a4 aft]; [now destruct N | reflexivity].
Qed.

(** Removing the extension from a text that ends with it. *)
Lemma removeFirst_mdSuffix (b : list ascii) :
  Regex.removeFirst mdSuffix (Js.str (b ++ Js.chars ".md")) = Js.str b.
Proof.
  unfold Regex.removeFirst, Regex.exec. rewrite chars_str.
  rewrite (@search_first mdSuffix b (Js.chars ".md") []
             (Regex.Pos (rev (Js.chars ".md") ++ rev b ++ []) [] None) []).
  - cbn [Regex.cut]. unfold Regex.remaining. cbn [Regex.after].
    rewrite length_app. replace (List.length b + List.length (Js.chars ".md") - List.length (Js.chars ".md")) with (List.length b + 0) by lia.
    rewrite firstn_app_2. simpl. now rewrite !app_nil_r.
  - intros k Hk. rewrite run_mdSuffix. cbn [Regex.after].
    destruct (list_eq_dec ascii_dec (skipn k b ++ Js.chars ".md") (Js.chars ".md"))
      as [E | N]; [| reflexivity].
    apply (f_equal (@List.length ascii)) in E. rewrite length_app, length_skipn in E.
    lia.
  - rewrite run_mdSuffix. cbn [Regex.after Regex.before Regex.captured].
    destruct (list_eq_dec ascii_dec (Js.chars ".md") (Js.chars ".md")); [reflexivity | congruence].
Qed.

Lemma last_snoc (A : Type) (l : list A) (x d : A) : last (l ++ [x]) d = x.
Proof. apply last_last. Qed.

(** The two parts of a path made of a folder, a slash, a name without
    slash and the extension. *)
Lemma parts_in_folder (dir base : list ascii) :
  existsb (Ascii.eqb "/") base = false ->
  nameFromPath (Js.str (dir ++ "/"%char :: base ++ Js.chars ".md")) = Js.str base
  /\ folderFromPath (Js.str (dir ++ "/"%char :: base ++ Js.chars ".md")) = Js.str dir.
Proof.
  intro Hb.
  assert (Hseg : Js.split "/" (Js.str (dir ++ "/"%char :: base ++ Js.chars ".md"))
                 = map Js.str (Js.splitChars "/" dir)
                   ++ [Js.str (base ++ Js.chars ".md")]).
  { unfold Js.split. rewrite chars_str, splitChars_app, map_app.
    rewrite (@splitChars_one "/" (base ++ Js.chars ".md")); [reflexivity |].
    rewrite existsb_app, Hb. reflexivity. }
  split.
  - unfold nameFromPath. rewrite Hseg, last_snoc.
    assert (Ht : Js.truthy (Js.str (base ++ Js.chars ".md")) = true).
    { rewrite str_app. destruct (Js.str base); reflexivity. }
    unfold Js.orElse. rewrite Ht. apply removeFirst_mdSuffix.
  - unfold folderFromPath. rewrite Hseg, length_app, removelast_last.
    pose proof (@splitChars_nonempty "/" dir) as Hn.
    destruct (Js.splitChars "/" dir) as [| seg segs] eqn:E; [congruence |].
    assert (El : (1 <? List.length (map Js.str (seg :: segs)) + List.length [Js.str (base ++ Js.chars ".md")]) = true)
      by (apply Nat.ltb_lt; simpl; lia).
    rewrite El, <- E. apply join_split.
Qed.

(** The two parts of a path without folder. *)
Lemma parts_at_root (base : list ascii) :
  existsb (Ascii.eqb "/") base = false ->
  nameFromPath (Js.str (base ++ Js.chars ".md")) = Js.str base
  /\ folderFromPath (Js.str (base ++ Js.chars ".md")) = EmptyString.
Proof.
  intro Hb.
  assert (Hseg : Js.split "/" (Js.str (base ++ Js.chars ".md"))
                 = [Js.str (base ++ Js.chars ".md")]).
  { unfold Js.split. rewrite chars_str.
    rewrite (@splitChars_one "/" (base ++ Js.chars ".md")); [reflexivity |].
    rewrite existsb_app, Hb. reflexivity. }
  split.
  - unfold nameFromPath. rewrite Hseg. cbn [last].
    assert (Ht : Js.truthy (Js.str (base ++ Js.chars ".md")) = true).
    { rewrite str_app. destruct (Js.str base); reflexivity. }
    unfold Js.orElse. rewrite Ht. apply removeFirst_mdSuffix.
  - unfold folderFromPath. rewrite Hseg. reflexivity.
Qed.

Lemma hasPrefix_spec (p l : list ascii) :
  Js.hasPrefix p l = true <-> exists rest, l = p ++ rest.
Proof.
  revert l. induction p as [| c p IH]; intro l; simpl.
  - split; [intros _; now exists l | reflexivity].
  - destruct l as [| d l].
    + split; [discriminate | intros [rest H]; discriminate].
    + rewrite andb_true_iff, IH. split.
      * intros [E [rest ->]]. apply Ascii.eqb_eq in E. subst d. now exists rest.
      * intros [rest H]. injection H as -> ->. split; [apply Ascii.eqb_refl | now exists rest].
Qed.

Lemma endsWith_spec (s suffix : string) :
  Js.endsWith s suffix = true <->
  exists pre, Js.chars s = pre ++ Js.chars suffix.
Proof.
  unfold Js.endsWith. rewrite hasPrefix_spec. split.
  - intros [rest H]. exists (rev rest).
    apply (f_equal (@rev ascii)) in H. rewrite rev_involutive in H.
    now rewrite H, rev_app_distr, rev_involutive.
  - intros [pre H]. exists (rev pre). now rewrite H, rev_app_distr.
Qed.

(** A text has no slash, or a last slash. *)
Lemma last_separator (sep : ascii) (l : list ascii) :
  existsb (Ascii.eqb sep) l = false
  \/ exists l1 l2, l = l1 ++ sep :: l2 /\ existsb (Ascii.eqb sep) l2 = false.
Proof.
  induction l as [| c l IH]; [now left |].
  destruct IH as [H | [l1 [l2 [-> H]]]].
  - simpl. destruct (Ascii.eqb_spec sep c) as [<- | N].
    + right. now exists [], l.
    + now left.
  - right. now exists (c :: l1), l2.
Qed.

(** X1.  For a path made of a folder, a slash, a base name without
    slash and the extension [.md], [nameFromPath] gives the base name and
    [folderFromPath] the folder, which may hold slashes or be empty; for a
    path without slash the name is the base name and the folder is the empty
    string. *)
Theorem parts_of_note_path (dir base : string) :
  Js.includes base "/" = false ->
  nameFromPath (dir ++ "/" ++ base ++ ".md") = base
  /\ folderFromPath (dir ++ "/" ++ base ++ ".md") = dir
  /\ nameFromPath (base ++ ".md") = base
  /\ folderFromPath (base ++ ".md") = EmptyString.
Proof.
  intro Hb. unfold Js.includes in Hb.
  destruct (parts_in_folder (Js.chars dir) Hb) as [H1 H2].
  destruct (parts_at_root Hb) as [H3 H4].
  assert (E1 : Js.str (Js.chars dir ++ "/"%char :: Js.chars base ++ Js.chars ".md")
               = (dir ++ "/" ++ base ++ ".md")%string).
  { rewrite str_app, str_chars. f_equal. simpl. f_equal.
    now rewrite str_app, str_chars. }
  assert (E2 : Js.str (Js.chars base ++ Js.chars ".md") = (base ++ ".md")%string).
  { now rewrite str_app, str_chars. }
  rewrite E1 in H1, H2. rewrite E2 in H3, H4. rewrite str_chars in H1, H3.
  rewrite str_chars in H2. tauto.
Qed.

Lemma parts_of_note_path_witness :
  nameFromPath "Projects/2024/Plan.md" = "Plan"%string
  /\ folderFromPath "Projects/2024/Plan.md" = "Projects/2024"%string.
Proof.
  destruct (@parts_of_note_path "Projects/2024" "Plan") as [H1 [H2 _]];
    [reflexivity |].
  split; [exact H1 | exact H2].
Defined.

(** X2.  Every path that ends with [.md], as [listAllNotes] returns
    them, is put together again from its parts: the name has no slash; a path
    with a slash is its folder, a slash, its name and [.md]; a path without
    slash has the empty folder and is its name and [.md]. *)
Theorem note_path_of_parts (p : string) :
  Js.endsWith p ".md" = true ->
  Js.includes (nameFromPath p) "/" = false
  /\ (Js.includes p "/" = true ->
      p = (folderFromPath p ++ "/" ++ nameFromPath p ++ ".md")%string)
  /\ (Js.includes p "/" = false ->
      folderFromPath p = EmptyString /\ p = (nameFromPath p ++ ".md")%string).
Proof.
  intro H. apply endsWith_spec in H. destruct H as [pre Hp].
  assert (Ep : p = Js.str (pre ++ Js.chars ".md")) by now rewrite <- Hp, str_chars.
  destruct (last_separator "/" pre) as [Hn | [dir [base [-> Hn]]]].
  - destruct (parts_at_root Hn) as [H1 H2]. rewrite <- Ep in H1, H2.
    rewrite H1, H2. unfold Js.includes. rewrite chars_str, Hp, existsb_app, Hn.
    split; [reflexivity |]. split; [discriminate |]. intros _.
    split; [reflexivity |]. now rewrite Ep, str_app.
  - rewrite <- app_assoc in Ep. cbn [app] in Ep.
    destruct (parts_in_folder dir Hn) as [H1 H2]. rewrite <- Ep in H1, H2.
    rewrite H1, H2. unfold Js.includes. rewrite chars_str.
    split; [exact Hn |]. split.
    + intros _. rewrite Ep at 1. rewrite str_app. f_equal. simpl. f_equal.
      now rewrite str_app.
    + rewrite Hp, <- app_assoc, existsb_app. simpl.
      rewrite orb_true_r. discriminate.
Qed.

Lemma note_path_of_parts_witness :
  "a/b/c.md"%string
  = (folderFromPath "a/b/c.md" ++ "/" ++ nameFromPath "a/b/c.md" ++ ".md")%string.
Proof.
  destruct (@note_path_of_parts "a/b/c.md") as [_ [H _]]; [reflexivity |].
  apply H. reflexivity.
Defined.

(* ================================================================== *)
(** * [parseTags] *)
(* ================================================================== *)

(** ** What a search and a loop over the matches return *)

Lemma search_Some (r : Regex.t) (aft bef : list ascii) (x y : Regex.pos) :
  Regex.search r bef aft = Some (x, y) ->
  exists l1 l2 ys,
    aft = l1 ++ l2
    /\ x = Regex.Pos (rev l1 ++ bef) l2 None
    /\ Regex.run r x = y :: ys
    /\ forall k, k < List.length l1 ->
         Regex.run r (Regex.Pos (rev (firstn k l1) ++ bef) (skipn k l1 ++ l2) None) = [].
Proof.
  revert bef. induction aft as [| c aft IH]; intros bef H; rewrite search_unfold in H.
  - destruct (Regex.run r (Regex.Pos bef [] None)) as [| z zs] eqn:E; [discriminate |].
    injection H as <- <-. exists [], [], zs. simpl.
    split; [reflexivity |]. split; [reflexivity |]. split; [exact E |]. intros k Hk. lia.
  - destruct (Regex.run r (Regex.Pos bef (c :: aft) None)) as [| z zs] eqn:E.
    + apply IH in H. destruct H as [l1 [l2 [ys [-> [-> [Hr Hm]]]]]].
      exists (c :: l1), l2, ys. cbn [rev]. rewrite <- app_assoc.
      split; [reflexivity |]. split; [reflexivity |]. split; [exact Hr |].
      intros [| k] Hk; [exact E |]. cbn [firstn skipn rev]. rewrite <- app_assoc.
      apply Hm. simpl in Hk. lia.
    + injection H as <- <-. exists [], (c :: aft), zs. simpl.
      split; [reflexivity |]. split; [reflexivity |]. split; [exact E |]. intros k Hk. lia.
Qed.

Lemma extends_refl (x : Regex.pos) : extends x x.
Proof. now exists []. Qed.

Lemma extends_trans (x y z : Regex.pos) : extends x y -> extends y z -> extends x z.
Proof.
  intros [w1 [A1 B1]] [w2 [A2 B2]]. exists (w1 ++ w2).
  rewrite A1, A2, B2, B1, rev_app_distr, <- !app_assoc. now split.
Qed.

Lemma step1_extends (p : ascii -> bool) (x y : Regex.pos) :
  In y (Regex.step1 p x) -> extends x y.
Proof.
  unfold Regex.step1. destruct x as [bef [| a rest] cap]; [intros [] |].
  cbn [Regex.after Regex.before Regex.captured]. destruct (p a); [| intros []].
  intros [<- | []]. now exists [a].
Qed.

Lemma starLoop_extends (g : bool) (body : Regex.pos -> list Regex.pos) :
  (forall x y, In y (body x) -> extends x y) ->
  forall n x y, In y (Regex.starLoop g body n x) -> extends x y.
Proof.
  intros Hb. induction n as [| n IH]; intros x y H.
  - destruct H as [<- | []]. apply extends_refl.
  - cbn [Regex.starLoop] in H.
    assert (Hmore : In y (flat_map (Regex.starLoop g body n)
                            (filter (fun z => Regex.remaining z <? Regex.remaining x)
                                    (body x))) -> extends x y).
    { intro Hin. apply in_flat_map in Hin. destruct Hin as [z [Hz Hy]].
      apply filter_In in Hz. destruct Hz as [Hz _].
      apply (extends_trans (Hb _ _ Hz) (IH _ _ Hy)). }
    destruct g.
    + apply in_app_iff in H. destruct H as [H | [<- | []]]; [auto | apply extends_refl].
    + destruct H as [<- | H]; [apply extends_refl | auto].
Qed.

Lemma run_extends (r : Regex.t) (x y : Regex.pos) :
  In y (Regex.run r x) -> extends x y.
Proof.
  revert x y. induction r as [| c | p | m | m | r1 IH1 r2 IH2 | r1 IH1 r2 IH2
                              | g r IH | r IH]; intros x y H; cbn [Regex.run] in H.
  - destruct H as [<- | []]. apply extends_refl.
  - apply (step1_extends H).
  - apply (step1_extends H).
  - destruct (Regex.atLineStart m x); [| destruct H]. destruct H as [<- | []].
    apply extends_refl.
  - destruct (Regex.atLineEnd m x); [| destruct H]. destruct H as [<- | []].
    apply extends_refl.
  - apply in_flat_map in H. destruct H as [z [Hz Hy]].
    apply (extends_trans (IH1 _ _ Hz) (IH2 _ _ Hy)).
  - apply in_app_iff in H. destruct H as [H | H]; auto.
  - apply (starLoop_extends IH H).
  - apply in_map_iff in H. destruct H as [z [<- Hz]]. apply IH in Hz.
    destruct Hz as [w [A B]]. now exists w.
Qed.

(** Every match of a loop over the matches is the result of a search in the
    rest of the text. *)
Lemma matchesFrom_In (r : Regex.t) (fuel : nat) (bef aft : list ascii)
    (m : Regex.found) :
  In m (Regex.matchesFrom r fuel bef aft) ->
  exists bef' aft', Regex.search r bef' aft' = Some m.
Proof.
  revert bef aft. induction fuel as [| fuel IH]; intros bef aft H; [destruct H |].
  cbn [Regex.matchesFrom] in H.
  destruct (Regex.search r bef aft) as [[x y] |] eqn:E; [| destruct H].
  destruct H as [<- | H]; [now exists bef, aft |].
  destruct (Regex.remaining y <? Regex.remaining x); [now apply IH in H |].
  destruct (Regex.after y) as [| c rest]; [destruct H | now apply IH in H].
Qed.

(** ** The expression of the inline tags *)

Lemma tagChar_not_space (c : ascii) :
  isTagChar c = true -> Js.isWhiteSpace c = false.
Proof. destruct c as [[] [] [] [] [] [] [] []]; vm_compute; congruence. Qed.

Lemma letter_tagChar (c : ascii) : isLetter c = true -> isTagChar c = true.
Proof. unfold isTagChar. now intros ->. Qed.

Lemma hash_not_space (c : ascii) :
  Ascii.eqb "#" c = true -> Js.isWhiteSpace c = false.
Proof. intro H. apply Ascii.eqb_eq in H. now subst c. Qed.

Lemma inlineTagRegex_pieces :
  inlineTagRegex
  = Regex.Seq (Regex.Alt (Regex.Bol false) (Regex.Cls Js.isWhiteSpace)) hashTag.
Proof. reflexivity. Qed.

Lemma countdown_head (n : nat) : exists l, countdown n = n :: l.
Proof. destruct n; eexists; reflexivity. Qed.

Lemma run_seq (r1 r2 : Regex.t) (x : Regex.pos) :
  Regex.run (Regex.Seq r1 r2) x = flat_map (Regex.run r2) (Regex.run r1 x).
Proof. reflexivity. Qed.

Lemma run_alt (r1 r2 : Regex.t) (x : Regex.pos) :
  Regex.run (Regex.Alt r1 r2) x = Regex.run r1 x ++ Regex.run r2 x.
Proof. reflexivity. Qed.

Lemma run_grp (r : Regex.t) (x : Regex.pos) :
  Regex.run (Regex.Grp r) x = map (Regex.setCaptured x) (Regex.run r x).
Proof. reflexivity. Qed.

Lemma run_star (g : bool) (r : Regex.t) (x : Regex.pos) :
  Regex.run (Regex.Star g r) x
  = Regex.starLoop g (Regex.run r) (Regex.remaining x) x.
Proof. reflexivity. Qed.

Lemma run_chr_cons (c a : ascii) (bef rest : list ascii) (cap : option (list ascii)) :
  Regex.run (Regex.Chr c) (Regex.Pos bef (a :: rest) cap)
  = if Ascii.eqb c a then [Regex.Pos (a :: bef) rest cap] else [].
Proof. reflexivity. Qed.

Lemma run_chr_nil (c : ascii) (bef : list ascii) (cap : option (list ascii)) :
  Regex.run (Regex.Chr c) (Regex.Pos bef [] cap) = [].
Proof. reflexivity. Qed.

Lemma run_hashTag (z : Regex.pos) :
  match tagAfterHash (Regex.after z) with
  | Some (t, rest) =>
      exists y ys, Regex.run hashTag z = y :: ys
                   /\ Regex.after y = rest /\ Regex.captured y = Some t
  | None => Regex.run hashTag z = []
  end.
Proof.
  destruct z as [bef aft cap]. unfold hashTag. rewrite run_seq.
  cbn [Regex.after].
  destruct aft as [| h aft]; [now rewrite run_chr_nil |].
  rewrite run_chr_cons. cbn [tagAfterHash].
  destruct (Ascii.eqb "#" h) eqn:Eh; [| destruct aft; reflexivity].
  cbn [flat_map]. rewrite app_nil_r, run_grp, run_seq.
  destruct aft as [| c more]; [now rewrite run_class_nil |].
  rewrite run_class_cons. cbn [andb].
  destruct (isLetter c) eqn:Ec; [| reflexivity].
  cbn [flat_map]. rewrite app_nil_r, run_star.
  rewrite run_star_class by (unfold Regex.remaining; simpl; lia).
  cbn [Regex.after]. destruct (countdown_head (span isTagChar more)) as [l ->].
  cbn [map]. eexists. eexists. split; [reflexivity |].
  unfold Regex.setCaptured, advance, Regex.between, Regex.remaining.
  cbn [Regex.after Regex.before Regex.captured]. split; [reflexivity |].
  f_equal. rewrite length_skipn.
  pose proof (span_le isTagChar more) as Hs.
  replace (List.length (c :: more) - (List.length more - span isTagChar more))
    with (S (span isTagChar more)) by (cbn [List.length]; lia).
  reflexivity.
Qed.

Lemma atLineStart_isNil (x : Regex.pos) :
  Regex.atLineStart false x = isNil (Regex.before x).
Proof. unfold Regex.atLineStart. now destruct (Regex.before x). Qed.

(** The matches of the expression at a position. *)
Lemma run_inlineTagRegex (x : Regex.pos) :
  match tagPrefix (isNil (Regex.before x)) (Regex.after x) with
  | Some (t, rest) =>
      exists y ys, Regex.run inlineTagRegex x = y :: ys
                   /\ Regex.after y = rest /\ Regex.captured y = Some t
  | None => Regex.run inlineTagRegex x = []
  end.
Proof.
  rewrite inlineTagRegex_pieces, run_seq, run_alt.
  change (Regex.run (Regex.Bol false) x)
    with (if Regex.atLineStart false x then [x] else []).
  change (Regex.run (Regex.Cls Js.isWhiteSpace) x)
    with (Regex.step1 Js.isWhiteSpace x).
  rewrite flat_map_app, atLineStart_isNil. unfold tagPrefix.
  assert (Hws : match (match Regex.after x with
                       | w :: l' => if Js.isWhiteSpace w then tagAfterHash l' else None
                       | [] => None
                       end) with
                | Some (t, rest) =>
                    exists y ys,
                      flat_map (Regex.run hashTag) (Regex.step1 Js.isWhiteSpace x) = y :: ys
                      /\ Regex.after y = rest /\ Regex.captured y = Some t
                | None =>
                    flat_map (Regex.run hashTag) (Regex.step1 Js.isWhiteSpace x) = []
                end).
  { unfold Regex.step1. destruct (Regex.after x) as [| w l']; [reflexivity |].
    destruct (Js.isWhiteSpace w); [| reflexivity].
    cbn [flat_map]. rewrite app_nil_r.
    pose proof (run_hashTag (Regex.Pos (w :: Regex.before x) l' (Regex.captured x))) as H.
    cbn [Regex.after] in H. exact H. }
  destruct (isNil (Regex.before x)).
  - cbn [flat_map]. rewrite app_nil_r. pose proof (run_hashTag x) as H.
    destruct (tagAfterHash (Regex.after x)) as [[t rest] |].
    + destruct H as [y [ys [E [H1 H2]]]]. rewrite E. cbn [app].
      exists y. eexists. split; [reflexivity | now split].
    + rewrite H. exact Hws.
  - exact Hws.
Qed.

(** What a tag at the head of a text is made of. *)
Lemma tagAfterHash_Some (l t rest : list ascii) :
  tagAfterHash l = Some (t, rest) ->
  l = "#"%char :: t ++ rest /\ isTagName t
  /\ match rest with [] => True | a :: _ => isTagChar a = false end.
Proof.
  destruct l as [| h [| c more]]; try discriminate. cbn [tagAfterHash].
  destruct (Ascii.eqb_spec "#" h) as [<- | N]; [| discriminate].
  destruct (isLetter c) eqn:Ec; [| discriminate]. cbn [andb].
  intro H. injection H as <- <-. split; [| split].
  - cbn [app]. now rewrite firstn_skipn.
  - exists c, (firstn (span isTagChar more) more).
    split; [reflexivity |]. split; [exact Ec | apply span_firstn].
  - destruct (skipn (span isTagChar more) more) as [| a l] eqn:E; [exact I |].
    apply (span_stop E).
Qed.

Lemma tagAfterHash_complete (t post : list ascii) :
  isTagName t ->
  match post with [] => True | a :: _ => isTagChar a = false end ->
  tagAfterHash ("#"%char :: t ++ post) = Some (t, post).
Proof.
  intros [c [rest [-> [Hc Hrest]]]] Hpost. cbn [app tagAfterHash].
  change (Ascii.eqb "#" "#") with true. rewrite Hc. cbn [andb].
  rewrite (span_app Hrest Hpost), firstn_length_app, skipn_length_app.
  reflexivity.
Qed.

Lemma tagPrefix_Some (b : bool) (l t rest : list ascii) :
  tagPrefix b l = Some (t, rest) ->
  isTagName t
  /\ match rest with [] => True | a :: _ => isTagChar a = false end
  /\ ((b = true /\ l = "#"%char :: t ++ rest)
      \/ exists w, Js.isWhiteSpace w = true /\ l = w :: "#"%char :: t ++ rest).
Proof.
  unfold tagPrefix. intro H.
  destruct (if b then tagAfterHash l else None) as [[t' rest'] |] eqn:E.
  - injection H as <- <-. destruct b; [| discriminate].
    apply tagAfterHash_Some in E. destruct E as [E1 [E2 E3]]. tauto.
  - destruct l as [| w l']; [discriminate |].
    destruct (Js.isWhiteSpace w) eqn:Ew; [| discriminate].
    apply tagAfterHash_Some in H. destruct H as [E1 [E2 E3]].
    split; [assumption |]. split; [assumption |]. right. exists w. now rewrite E1.
Qed.

(** A tag that starts inside another match of the expression starts after
    it: no code unit of a match but its first is a white space. *)
Lemma tagPrefix_apart (b : bool) (l t rest t' rest' : list ascii) (j : nat) :
  tagPrefix b l = Some (t, rest) ->
  0 < j -> tagPrefix false (skipn j l) = Some (t', rest') ->
  List.length l - List.length rest <= j.
Proof.
  intros H Hj H'.
  apply tagPrefix_Some in H. destruct H as [[c [r [-> [Hc Hr]]]] [_ H]].
  apply tagPrefix_Some in H'. destruct H' as [_ [_ [[H' _] | [w [Hw H']]]]];
    [discriminate |].
  assert (Hns : forall k a, nth_error ("#"%char :: (c :: r) ++ rest) k = Some a ->
                            k < S (S (List.length r)) -> Js.isWhiteSpace a = false).
  { intros [| [| k]] a Hk Hlt; simpl in Hk.
    - injection Hk as <-. reflexivity.
    - injection Hk as <-. now apply tagChar_not_space, letter_tagChar.
    - rewrite nth_error_app1 in Hk by lia. apply nth_error_In in Hk.
      rewrite Forall_forall in Hr. now apply tagChar_not_space, Hr. }
  assert (Hw' : nth_error l j = Some w).
  { rewrite <- (firstn_skipn j l) at 1.
    destruct (Nat.le_gt_cases (List.length l) j) as [Hge | Hlt].
    - rewrite skipn_all2 in H' by assumption. discriminate.
    - rewrite nth_error_app2 by (rewrite length_firstn; lia).
      rewrite length_firstn, Nat.min_l by lia. rewrite Nat.sub_diag, H'. reflexivity. }
  destruct H as [[_ ->] | [w0 [_ ->]]].
  - destruct (Nat.le_gt_cases (List.length ("#"%char :: (c :: r) ++ rest) - List.length rest) j)
      as [Hok | Hbad]; [exact Hok |].
    cbn [List.length] in Hbad. rewrite length_app in Hbad. cbn [List.length] in Hbad.
    rewrite (Hns j w Hw') in Hw; [discriminate | lia].
  - destruct (Nat.le_gt_cases (List.length (w0 :: "#"%char :: (c :: r) ++ rest) - List.length rest) j)
      as [Hok | Hbad]; [exact Hok |].
    cbn [List.length] in Hbad. rewrite length_app in Hbad. cbn [List.length] in Hbad.
    destruct j as [| j]; [lia |]. simpl in Hw'.
    rewrite (Hns j w Hw') in Hw; [discriminate | lia].
Qed.

Lemma search_None (r : Regex.t) (aft bef : list ascii) (k : nat) :
  Regex.search r bef aft = None -> k <= List.length aft ->
  Regex.run r (Regex.Pos (rev (firstn k aft) ++ bef) (skipn k aft) None) = [].
Proof.
  revert bef k. induction aft as [| c aft IH]; intros bef k H Hk;
    rewrite search_unfold in H.
  - destruct (Regex.run r (Regex.Pos bef [] None)) eqn:E; [| discriminate].
    destruct k; [exact E | simpl in Hk; lia].
  - destruct (Regex.run r (Regex.Pos bef (c :: aft) None)) eqn:E; [| discriminate].
    destruct k as [| k]; [exact E |].
    cbn [firstn skipn rev]. rewrite <- app_assoc. apply IH; [exact H |].
    simpl in Hk. lia.
Qed.

Lemma isNil_before (bef aft : list ascii) (k : nat) :
  k <= List.length aft ->
  isNil (rev (firstn k aft) ++ bef) = isNil bef && (k =? 0).
Proof.
  intro Hk. destruct k as [| k]; [simpl; now rewrite andb_true_r |].
  destruct aft as [| a aft]; [simpl in Hk; lia |].
  cbn [firstn rev]. rewrite andb_false_r.
  destruct (rev (firstn k aft)); reflexivity.
Qed.

(** The expression at the position [k] of a text. *)
Lemma inlineTag_at (bef aft : list ascii) (k : nat) :
  k <= List.length aft ->
  match tagPrefix (isNil bef && (k =? 0)) (skipn k aft) with
  | Some (t, rest) =>
      exists y ys,
        Regex.run inlineTagRegex
          (Regex.Pos (rev (firstn k aft) ++ bef) (skipn k aft) None) = y :: ys
        /\ Regex.after y = rest /\ Regex.captured y = Some t
  | None =>
      Regex.run inlineTagRegex
        (Regex.Pos (rev (firstn k aft) ++ bef) (skipn k aft) None) = []
  end.
Proof.
  intro Hk. rewrite <- (isNil_before bef Hk).
  apply (run_inlineTagRegex
           (Regex.Pos (rev (firstn k aft) ++ bef) (skipn k aft) None)).
Qed.

Lemma tagPrefix_nil (b : bool) : tagPrefix b [] = None.
Proof. now destruct b. Qed.

Lemma tagPrefix_shorter (b : bool) (l t rest : list ascii) :
  tagPrefix b l = Some (t, rest) ->
  exists w, l = w ++ rest /\ List.length rest < List.length l.
Proof.
  intro H. apply tagPrefix_Some in H.
  destruct H as [_ [_ [[_ ->] | [w [_ ->]]]]].
  - exists ("#"%char :: t). split; [reflexivity |]. simpl. rewrite length_app. lia.
  - exists (w :: "#"%char :: t). split; [reflexivity |]. simpl. rewrite length_app. lia.
Qed.

(** The groups of the matches the loop finds are the tags at the positions
    of the text. *)
Lemma inline_matches (fuel : nat) (bef aft t : list ascii) :
  List.length aft < fuel ->
  In t (map Regex.group1 (Regex.matchesFrom inlineTagRegex fuel bef aft)) <->
  exists o rest, tagPrefix (isNil bef && (o =? 0)) (skipn o aft) = Some (t, rest).
Proof.
  revert bef aft. induction fuel as [| fuel IH]; intros bef aft Hfuel; [lia |].
  cbn [Regex.matchesFrom].
  destruct (Regex.search inlineTagRegex bef aft) as [[x y] |] eqn:E.
  - apply search_Some in E. destruct E as [l1 [l2 [ys [-> [-> [Hrun Hmiss]]]]]].
    pose proof (@inlineTag_at bef (l1 ++ l2) (List.length l1)) as Hat.
    rewrite firstn_length_app, skipn_length_app in Hat.
    rewrite length_app in Hat. specialize (Hat ltac:(lia)).
    destruct (tagPrefix (isNil bef && (List.length l1 =? 0)) l2)
      as [[t0 rest0] |] eqn:E0; [| congruence].
    destruct Hat as [y' [ys' [Hrun' [Hafter Hcap]]]].
    assert (Ey : y' = y) by congruence. subst y'.
    destruct (tagPrefix_shorter E0) as [w [El2 Hlen]].
    assert (Hrem : (Regex.remaining y <? Regex.remaining (Regex.Pos (rev l1 ++ bef) l2 None)) = true).
    { apply Nat.ltb_lt. unfold Regex.remaining. cbn [Regex.after]. now rewrite Hafter. }
    rewrite Hrem. cbn [map]. rewrite Hafter.
    assert (Hbef : isNil (Regex.before y) = false).
    { assert (Hin : In y (Regex.run inlineTagRegex (Regex.Pos (rev l1 ++ bef) l2 None)))
        by (rewrite Hrun; now left).
      apply run_extends in Hin. destruct Hin as [w' [A B]].
      cbn [Regex.after Regex.before] in A, B. rewrite B.
      destruct w' as [| a w']; [| simpl; now destruct (rev w')].
      simpl in A. rewrite Hafter in A. rewrite A in Hlen. lia. }
    assert (Hg : Regex.group1 (Regex.Pos (rev l1 ++ bef) l2 None, y) = t0).
    { unfold Regex.group1. cbn [snd]. now rewrite Hcap. }
    rewrite Hg.
    specialize (IH (Regex.before y) rest0 ltac:(rewrite length_app in Hfuel; lia)).
    rewrite Hbef in IH. cbn [andb] in IH.
    assert (Hw : List.length w = List.length l2 - List.length rest0).
    { rewrite El2, length_app. lia. }
    split.
    + intros [<- | H].
      * exists (List.length l1), rest0. now rewrite skipn_length_app.
      * apply IH in H. destruct H as [o' [rest H]].
        exists (List.length l1 + (List.length w + o')), rest.
        rewrite skipn_app.
        rewrite skipn_all2 by lia.
        replace (List.length l1 + (List.length w + o') - List.length l1)
          with (List.length w + o') by lia.
        cbn [app]. rewrite El2, skipn_app, skipn_all2 by lia.
        replace (List.length w + o' - List.length w) with o' by lia.
        cbn [app].
        assert (Ez : (List.length l1 + (List.length w + o') =? 0) = false).
        { apply Nat.eqb_neq. rewrite Hw. lia. }
        rewrite Ez, andb_false_r. exact H.
    + intros [o [rest H]].
      destruct (Nat.lt_trichotomy o (List.length l1)) as [Hlt | [-> | Hgt]].
      * pose proof (@inlineTag_at bef (l1 ++ l2) o) as Hat'.
        rewrite length_app in Hat'. specialize (Hat' ltac:(lia)).
        rewrite H in Hat'. destruct Hat' as [z [zs [Hz _]]].
        rewrite firstn_app, skipn_app in Hz.
        replace (o - List.length l1) with 0 in Hz by lia.
        cbn [firstn skipn] in Hz. rewrite app_nil_r in Hz.
        rewrite (Hmiss o Hlt) in Hz. discriminate.
      * rewrite skipn_length_app in H. left. congruence.
      * right. apply IH.
        rewrite skipn_app, skipn_all2 in H by lia. cbn [app] in H.
        assert (Ez : (o =? 0) = false) by (apply Nat.eqb_neq; lia).
        rewrite Ez, andb_false_r in H.
        pose proof (@tagPrefix_apart _ _ _ _ _ _ (o - List.length l1) E0
                      ltac:(lia) H) as Hap.
        exists (o - List.length l1 - List.length w), rest.
        rewrite El2, skipn_app in H.
        rewrite skipn_all2 in H by lia. cbn [app] in H.
        rewrite Hw. rewrite Hw in H. exact H.
  - cbn [map]. split; [intros [] |]. intros [o [rest H]].
    destruct (Nat.le_gt_cases o (List.length aft)) as [Hle | Hgt].
    + pose proof (@inlineTag_at bef aft o Hle) as Hat. rewrite H in Hat.
      destruct Hat as [z [zs [Hz _]]].
      rewrite (search_None E Hle) in Hz. discriminate.
    + rewrite skipn_all2, tagPrefix_nil in H by lia. discriminate.
Qed.

(** The tags at the positions of a text are the inline tags in it. *)
Lemma tagPrefix_inlineTagIn (text t : list ascii) :
  (exists o rest, tagPrefix (o =? 0) (skipn o text) = Some (t, rest))
  <-> inlineTagIn text t.
Proof.
  split.
  - intros [o [rest H]]. pose proof (tagPrefix_Some H) as [Ht [Hmax Hshape]].
    split; [assumption |].
    destruct Hshape as [[Ho E] | [w [Hw E]]].
    + apply Nat.eqb_eq in Ho. subst o. simpl in E.
      exists [], rest. split; [exact E |]. split; [now left | exact Hmax].
    + exists (firstn o text ++ [w]), rest. split; [| split].
      * rewrite <- app_assoc. cbn [app]. rewrite <- E. now rewrite firstn_skipn.
      * right. now exists (firstn o text), w.
      * exact Hmax.
  - intros [Ht [pre [post [E [Hpre Hmax]]]]].
    destruct Hpre as [-> | [pre' [w [-> Hw]]]].
    + exists 0, post. simpl in E. subst text. cbn [skipn Nat.eqb].
      unfold tagPrefix. now rewrite (tagAfterHash_complete Ht Hmax).
    + exists (List.length pre'), post. subst text.
      rewrite <- app_assoc. cbn [app]. rewrite skipn_length_app.
      unfold tagPrefix.
      assert (E1 : tagAfterHash (w :: "#"%char :: t ++ post) = None).
      { cbn [tagAfterHash].
        destruct (Ascii.eqb "#" w) eqn:Eh; [| reflexivity].
        apply hash_not_space in Eh. congruence. }
      rewrite E1, Hw, (tagAfterHash_complete Ht Hmax).
      now destruct (List.length pre' =? 0).
Qed.

(** ** The front matter *)

Lemma run_frontmatter_inside (x : Regex.pos) :
  Regex.before x <> [] -> Regex.run frontmatterRegex x = [].
Proof.
  intro H. unfold frontmatterRegex. cbn [Regex.seqs]. rewrite run_seq.
  change (Regex.run (Regex.Bol false) x)
    with (if Regex.atLineStart false x then [x] else []).
  rewrite atLineStart_isNil. destruct (Regex.before x); [congruence | reflexivity].
Qed.

Lemma run_seq_assoc (r1 r2 r3 : Regex.t) (x : Regex.pos) :
  Regex.run (Regex.Seq (Regex.Seq r1 r2) r3) x
  = Regex.run (Regex.Seq r1 (Regex.Seq r2 r3)) x.
Proof.
  rewrite !run_seq. induction (Regex.run r1 x) as [| z l IH]; [reflexivity |].
  cbn [flat_map]. rewrite flat_map_app, IH. now rewrite run_seq.
Qed.

Lemma run_seq_chr (c : ascii) (r : Regex.t) (bef aft : list ascii)
    (cap : option (list ascii)) :
  Regex.run (Regex.Seq (Regex.Chr c) r) (Regex.Pos bef aft cap)
  = match aft with
    | a :: rest =>
        if Ascii.eqb c a then Regex.run r (Regex.Pos (a :: bef) rest cap) else []
    | [] => []
    end.
Proof.
  rewrite run_seq. destruct aft as [| a rest]; [reflexivity |].
  rewrite run_chr_cons. destruct (Ascii.eqb c a); [| reflexivity].
  cbn [flat_map]. apply app_nil_r.
Qed.

Lemma run_frontmatter_unopened (x : Regex.pos) :
  Js.hasPrefix (Js.chars frontMatterOpening) (Regex.after x) = false ->
  Regex.run frontmatterRegex x = [].
Proof.
  destruct x as [bef aft cap]. cbn [Regex.after]. intro H.
  unfold frontmatterRegex. cbn [Regex.seqs]. rewrite run_seq.
  change (Regex.run (Regex.Bol false) (Regex.Pos bef aft cap))
    with (if Regex.atLineStart false (Regex.Pos bef aft cap)
          then [Regex.Pos bef aft cap] else []).
  destruct (Regex.atLineStart false (Regex.Pos bef aft cap)); [| reflexivity].
  cbn [flat_map]. rewrite app_nil_r.
  change (Regex.lit "---")
    with (Regex.Seq (Regex.Chr "-") (Regex.Seq (Regex.Chr "-") (Regex.Chr "-"))).
  rewrite run_seq_assoc, run_seq_chr.
  unfold frontMatterOpening in H. cbn [Js.chars list_ascii_of_string] in H.
  destruct aft as [| a1 aft]; [reflexivity |]. cbn [Js.hasPrefix] in H.
  destruct (Ascii.eqb "-" a1); [| reflexivity]. cbn [andb] in H.
  rewrite run_seq_assoc, run_seq_chr.
  destruct aft as [| a2 aft]; [reflexivity |]. cbn [Js.hasPrefix] in H.
  destruct (Ascii.eqb "-" a2); [| reflexivity]. cbn [andb] in H.
  rewrite run_seq_chr.
  destruct aft as [| a3 aft]; [reflexivity |]. cbn [Js.hasPrefix] in H.
  destruct (Ascii.eqb "-" a3); [| reflexivity]. cbn [andb] in H.
  rewrite run_seq_chr.
  destruct aft as [| a4 aft]; [reflexivity |]. cbn [Js.hasPrefix] in H.
  destruct (Ascii.eqb "010" a4); [discriminate | reflexivity].
Qed.

(** A text that does not begin with the opening line has no front matter. *)
Lemma no_frontmatter (content : string) :
  Js.startsWith content frontMatterOpening = false ->
  Regex.exec frontmatterRegex content = None.
Proof.
  intro H. unfold Regex.exec. apply search_nowhere. intros k Hk.
  destruct k as [| k].
  - apply run_frontmatter_unopened. exact H.
  - apply run_frontmatter_inside. cbn [Regex.before].
    destruct (Js.chars content) as [| a l]; [simpl in Hk; lia |].
    cbn [firstn rev]. rewrite app_nil_r. now destruct (rev (firstn k l)).
Qed.

Lemma fold_add_ofList (A : Type) (f : A -> string) (l : list A) (s : JsSet.t) :
  fold_left (fun tags m => JsSet.add (f m) tags) l s
  = fold_left (fun tags x => JsSet.add x tags) (map f l) s.
Proof. revert s. induction l as [| a l IH]; intro s; simpl; [reflexivity | apply IH]. Qed.

(** Without front matter the tags are the groups of the matches of the
    inline expression. *)
Lemma parseTags_inline_only (content : string) :
  Regex.exec frontmatterRegex content = None ->
  parseTags content
  = JsSet.ofList (map (fun m => Js.str (Regex.group1 m))
                      (Regex.matchAll inlineTagRegex content)).
Proof.
  intro H. unfold parseTags. rewrite H. unfold JsSet.ofList. apply fold_add_ofList.
Qed.

Lemma str_inj (l1 l2 : list ascii) : Js.str l1 = Js.str l2 -> l1 = l2.
Proof.
  intro H. apply (f_equal Js.chars) in H. now rewrite !chars_str in H.
Qed.

(** X4.  For a content that does not begin with the opening line
    of a front matter, the tags of [parseTags] are exactly the inline tags
    of the content: the names made of a letter and then letters, digits,
    [_], [/] and [-], taken as long as possible, after a hash that is at the
    start of the content or follows a white space. *)
Theorem parseTags_inline_tags (content t : string) :
  Js.startsWith content frontMatterOpening = false ->
  In t (parseTags content) <-> inlineTagIn (Js.chars content) (Js.chars t).
Proof.
  intro H. rewrite (parseTags_inline_only (no_frontmatter H)), set_ofList_In.
  rewrite <- tagPrefix_inlineTagIn.
  unfold Regex.matchAll.
  pose proof (@inline_matches (S (List.length (Js.chars content))) []
                (Js.chars content) (Js.chars t) ltac:(lia)) as Hm.
  cbn [isNil andb] in Hm. rewrite <- Hm. rewrite !in_map_iff. split.
  - intros [m [E Hin]]. exists m. split; [| exact Hin].
    rewrite <- E. now rewrite chars_str.
  - intros [m [E Hin]]. exists m. split; [| exact Hin].
    rewrite E. apply str_chars.
Qed.

Lemma parseTags_inline_tags_witness :
  In "idea"%string (parseTags "see #idea-1 and #idea.")
  <-> inlineTagIn (Js.chars "see #idea-1 and #idea.") (Js.chars "idea").
Proof.
  apply (@parseTags_inline_tags "see #idea-1 and #idea." "idea"). reflexivity.
Defined.

(** ** Distinct, non-empty tags *)

Lemma addCleaned_proper (tags : JsSet.t) (cleaned : string) :
  properTags tags -> properTags (addCleaned tags cleaned).
Proof.
  intros [ND Hne]. unfold addCleaned.
  destruct (Js.truthy cleaned) eqn:T; [| now split].
  split; [now apply set_add_NoDup |]. intro H. apply set_add_In in H.
  destruct H as [H | H]; [| contradiction]. subst cleaned. discriminate T.
Qed.

Lemma fold_addCleaned_proper (A : Type) (f : A -> string) (l : list A)
    (tags : JsSet.t) :
  properTags tags ->
  properTags (fold_left (fun tags x => addCleaned tags (f x)) l tags).
Proof.
  revert tags. induction l as [| a l IH]; intros tags H; simpl; [exact H |].
  apply IH. now apply addCleaned_proper.
Qed.

(** The group of a match of the inline expression is a tag name. *)
Lemma inline_group_name (s : string) (m : Regex.found) :
  In m (Regex.matchAll inlineTagRegex s) -> isTagName (Regex.group1 m).
Proof.
  intro H. apply matchesFrom_In in H. destruct H as [bef [aft H]].
  destruct m as [x y]. apply search_Some in H.
  destruct H as [l1 [l2 [ys [_ [-> [Hrun _]]]]]].
  pose proof (run_inlineTagRegex (Regex.Pos (rev l1 ++ bef) l2 None)) as Hat.
  destruct (tagPrefix _ _) as [[t rest] |] eqn:E; [| congruence].
  destruct Hat as [y' [ys' [Hrun' [_ Hcap]]]].
  assert (y' = y) by congruence. subst y'.
  unfold Regex.group1. cbn [snd]. rewrite Hcap.
  apply (tagPrefix_Some E).
Qed.

Lemma fold_inline_proper (s : string) (ms : list Regex.found) (tags : JsSet.t) :
  (forall m, In m ms -> In m (Regex.matchAll inlineTagRegex s)) ->
  properTags tags ->
  properTags (fold_left (fun tags m => JsSet.add (Js.str (Regex.group1 m)) tags)
                        ms tags).
Proof.
  revert tags. induction ms as [| m ms IH]; intros tags Hms H; simpl; [exact H |].
  apply IH; [intros m' Hm'; apply Hms; now right |].
  destruct H as [ND Hne]. split; [now apply set_add_NoDup |].
  intro Hin. apply set_add_In in Hin. destruct Hin as [Hin | Hin]; [| contradiction].
  destruct (inline_group_name (Hms m (or_introl eq_refl))) as [c [rest [E _]]].
  rewrite E in Hin. discriminate.
Qed.

(** X3.  [parseTags] returns no tag twice and never the empty
    string. *)
Theorem parseTags_proper (content : string) :
  NoDup (parseTags content) /\ ~ In EmptyString (parseTags content).
Proof.
  unfold parseTags. apply (@fold_inline_proper _ _ _ (fun m H => H)).
  destruct (Regex.exec frontmatterRegex content) as [m |]; [| split; [constructor | intros []]].
  destruct (Regex.exec yamlListRegex _) as [yamlListMatch |];
    destruct (Regex.exec tagsLineRegex _) as [tagsLineMatch |];
    repeat apply fold_addCleaned_proper; split; try constructor; intros [].
Qed.

(* ================================================================== *)
(** * Sorting *)
(* ================================================================== *)

Lemma insertBy_perm (A : Type) (before : A -> A -> bool) (x : A) (l : list A) :
  Permutation (insertBy before x l) (x :: l).
Proof.
  induction l as [| y l IH]; simpl; [reflexivity |].
  destruct (before y x); [| reflexivity].
  rewrite IH. apply perm_swap.
Qed.

Lemma sortBy_perm (A : Type) (before : A -> A -> bool) (l : list A) :
  Permutation (sortBy before l) l.
Proof.
  induction l as [| x l IH]; simpl; [reflexivity |].
  unfold sortBy in IH. rewrite insertBy_perm. now constructor.
Qed.

Section Sorting.

Variable A : Type.
Variable before : A -> A -> bool.
Variable le : A -> A -> Prop.
Hypothesis le_trans : forall a b c, le a b -> le b c -> le a c.
Hypothesis before_le : forall a b, before a b = true -> le a b.
Hypothesis not_before_le : forall a b, before a b = false -> le b a.

Lemma insertBy_sorted (x : A) (l : list A) :
  StronglySorted le l -> StronglySorted le (insertBy before x l).
Proof.
  induction 1 as [| y l Hs IH Hy]; simpl; [repeat constructor |].
  destruct (before y x) eqn:E.
  - constructor; [exact IH |].
    apply Forall_forall. intros z Hz.
    apply (Permutation_in _ (insertBy_perm before x l)) in Hz.
    destruct Hz as [<- | Hz]; [now apply before_le |].
    rewrite Forall_forall in Hy. now apply Hy.
  - constructor; [now constructor |].
    constructor; [now apply not_before_le |].
    apply Forall_forall. intros z Hz. rewrite Forall_forall in Hy.
    apply (le_trans (not_before_le E)). now apply Hy.
Qed.

Lemma sortBy_sorted (l : list A) : StronglySorted le (sortBy before l).
Proof.
  induction l as [| x l IH]; simpl; [constructor |].
  now apply insertBy_sorted.
Qed.

End Sorting.

(** Sorted by a key, largest first. *)
Lemma sortBy_descending (A : Type) (key : A -> nat) (l : list A) :
  StronglySorted (fun a b => key b <= key a)
                 (sortBy (fun a b => key b <? key a) l).
Proof.
  apply sortBy_sorted.
  - intros a b c H1 H2. lia.
  - intros a b H. apply Nat.ltb_lt in H. lia.
  - intros a b H. apply Nat.ltb_ge in H. lia.
Qed.

(** Sorted by a key, smallest first. *)
Lemma sortBy_ascending (A : Type) (key : A -> nat) (l : list A) :
  StronglySorted (fun a b => key a <= key b)
                 (sortBy (fun a b => key a <? key b) l).
Proof.
  apply sortBy_sorted.
  - intros a b c H1 H2. lia.
  - intros a b H. apply Nat.ltb_lt in H. lia.
  - intros a b H. apply Nat.ltb_ge in H. lia.
Qed.

Lemma StronglySorted_app (A : Type) (R : A -> A -> Prop) (l1 l2 : list A) :
  StronglySorted R (l1 ++ l2) ->
  StronglySorted R l1 /\ forall a b, In a l1 -> In b l2 -> R a b.
Proof.
  induction l1 as [| x l1 IH]; simpl; intro H.
  - split; [constructor | intros a b []].
  - inversion H as [| ? ? Hs Hx]; subst. destruct (IH Hs) as [H1 H2].
    rewrite Forall_forall in Hx. split.
    + constructor; [exact H1 |]. apply Forall_forall. intros z Hz.
      apply Hx. apply in_app_iff. now left.
    + intros a b [<- | Ha] Hb; [| now apply H2].
      apply Hx. apply in_app_iff. now right.
Qed.

(* ================================================================== *)
(** * [getHubs] *)
(* ================================================================== *)

Lemma In_firstn (A : Type) (n : nat) (l : list A) (x : A) :
  In x (firstn n l) -> In x l.
Proof.
  intro H. rewrite <- (firstn_skipn n l). apply in_app_iff. now left.
Qed.

(** X13.  [getHubs(topN)], for every number [topN], returns the first
    hubs of the nodes in the order of their totals, largest first: for a
    [topN] above -1 as many as the integer part of [topN] and at most all
    (so the smaller of [topN] and the number of nodes for a natural
    number, and none below 1), for a [topN] of -1 or less all but the last
    [floor (- topN)], all for [Infinity] and none for [-Infinity] and
    [NaN].  Each is the hub of a node with [total = outgoing + incoming],
    and no hub left out has a larger total than one returned. *)
Theorem getHubs_top (g : Graph) (topN : Js.number) :
  List.length (getHubs g topN)
  = match topN with
    | Js.Finite q =>
        if Qle_bool q (-1 # 1)
        then JsMap.size (nodes g) - Z.to_nat (Qfloor (- q))
        else Nat.min (Z.to_nat (Qfloor q)) (JsMap.size (nodes g))
    | Js.PlusInfinity => JsMap.size (nodes g)
    | Js.MinusInfinity => 0
    | Js.NaN => 0
    end
  /\ (forall k : nat, topN = Js.ofNat k ->
        List.length (getHubs g topN) = Nat.min k (JsMap.size (nodes g)))
  /\ StronglySorted (fun a b => total b <= total a) (getHubs g topN)
  /\ (forall h, In h (getHubs g topN) ->
        total h = outgoing h + incoming h
        /\ exists e, In e (nodes g) /\ h = hubOf g e)
  /\ exists rest,
       Permutation (map (hubOf g) (nodes g)) (getHubs g topN ++ rest)
       /\ forall h h', In h (getHubs g topN) -> In h' rest -> total h' <= total h.
Proof.
  unfold getHubs.
  set (sorted := sortBy (fun a b => total b <? total a) (map (hubOf g) (nodes g))).
  assert (Hp : Permutation sorted (map (hubOf g) (nodes g))) by apply sortBy_perm.
  assert (Hs : StronglySorted (fun a b => total b <= total a) sorted)
    by apply sortBy_descending.
  assert (Hn : List.length sorted = JsMap.size (nodes g)).
  { rewrite (Permutation_length Hp), length_map. reflexivity. }
  assert (Hcount : sliceCount topN (List.length sorted) <= List.length sorted).
  { unfold sliceCount. destruct topN as [q | | |]; [| lia | lia | lia].
    destruct (Qle_bool q (-1 # 1)); lia. }
  split; [| split].
  - rewrite sliceTo_firstn, length_firstn, Hn.
    rewrite Hn in Hcount. rewrite Nat.min_l by exact Hcount. reflexivity.
  - intros k ->. rewrite sliceTo_ofNat, length_firstn, Hn. reflexivity.
  - rewrite sliceTo_firstn. set (k := sliceCount topN (List.length sorted)).
    rewrite <- (firstn_skipn k sorted) in Hs.
    apply StronglySorted_app in Hs. destruct Hs as [Hs1 Hs2].
    split; [exact Hs1 | split].
    + intros h Hh. apply In_firstn in Hh.
      apply (Permutation_in _ Hp) in Hh. apply in_map_iff in Hh.
      destruct Hh as [e [<- He]]. split; [reflexivity | now exists e].
    + exists (skipn k sorted). split; [| exact Hs2].
      rewrite firstn_skipn. now symmetry.
Qed.

(* ================================================================== *)
(** * [getClusters] *)
(* ================================================================== *)

Lemma addToClusters_labelled (by_ : ClusterBy) (groups : JsMap.t (list Note))
    (e : string * GraphNode) :
  addToClusters by_ groups e = fold_left pushPair (labelled by_ [e]) groups.
Proof.
  unfold labelled. cbn [flat_map]. rewrite app_nil_r. unfold addToClusters.
  destruct by_; cbn [clusterLabels]; [reflexivity |].
  destruct (tags (snd e)) as [| t ts]; [reflexivity |].
  generalize (t :: ts). intro l. revert groups.
  induction l as [| c l IH]; intro groups; [reflexivity |].
  cbn [map fold_left]. apply IH.
Qed.

Lemma labelled_app (by_ : ClusterBy) (l1 l2 : list (string * GraphNode)) :
  labelled by_ (l1 ++ l2) = labelled by_ l1 ++ labelled by_ l2.
Proof. unfold labelled. apply flat_map_app. Qed.

Lemma fold_addToClusters (by_ : ClusterBy) (l : list (string * GraphNode))
    (groups : JsMap.t (list Note)) :
  fold_left (addToClusters by_) l groups
  = fold_left pushPair (labelled by_ l) groups.
Proof.
  revert groups. induction l as [| e l IH]; intro groups; [reflexivity |].
  cbn [fold_left]. rewrite IH, addToClusters_labelled.
  change (e :: l) with ([e] ++ l). now rewrite labelled_app, fold_left_app.
Qed.

Lemma withLabel_cons (c : string) (p : string * Note) (pairs : list (string * Note)) :
  withLabel c (p :: pairs)
  = (if String.eqb c (fst p) then [snd p] else []) ++ withLabel c pairs.
Proof. unfold withLabel. simpl. now destruct (String.eqb c (fst p)). Qed.

(** What the groups hold after a run of the loop. *)
Lemma pushPairs_spec (pairs : list (string * Note)) (groups : JsMap.t (list Note)) :
  NoDup (JsMap.keys groups) ->
  NoDup (JsMap.keys (fold_left pushPair pairs groups))
  /\ forall c,
       JsMap.get c (fold_left pushPair pairs groups)
       = match JsMap.get c groups with
         | Some old => Some (old ++ withLabel c pairs)
         | None =>
             match withLabel c pairs with
             | [] => None
             | notes => Some notes
             end
         end.
Proof.
  revert groups. induction pairs as [| [c0 n0] pairs IH]; intros groups ND.
  - split; [exact ND |]. intro c. cbn [fold_left]. unfold withLabel. simpl.
    destruct (JsMap.get c groups); [now rewrite app_nil_r | reflexivity].
  - cbn [fold_left].
    assert (ND1 : NoDup (JsMap.keys (pushPair groups (c0, n0)))).
    { unfold pushPair, pushTo. cbn [fst snd].
      destruct (JsMap.get c0 groups); now apply map_keys_set_NoDup. }
    destruct (IH _ ND1) as [H1 H2]. split; [exact H1 |].
    intro c. rewrite H2, withLabel_cons. cbn [fst snd].
    unfold pushPair, pushTo. cbn [fst snd].
    destruct (String.eqb_spec c c0) as [-> | N].
    + destruct (JsMap.get c0 groups) as [old |] eqn:G.
      * rewrite map_get_set_eq. now rewrite <- app_assoc.
      * rewrite map_get_set_eq. reflexivity.
    + destruct (JsMap.get c0 groups) as [old0 |] eqn:G;
        rewrite map_get_set_neq by congruence; reflexivity.
Qed.

(** The clusters before they are sorted. *)
Lemma clusters_unsorted (by_ : ClusterBy) (l : list (string * GraphNode)) :
  NoDup (JsMap.keys (fold_left (addToClusters by_) l JsMap.empty))
  /\ forall c notes,
       In (c, notes) (fold_left (addToClusters by_) l JsMap.empty) <->
       notes <> [] /\ notes = withLabel c (labelled by_ l).
Proof.
  rewrite fold_addToClusters.
  destruct (@pushPairs_spec (labelled by_ l) JsMap.empty (NoDup_nil _)) as [ND H].
  split; [exact ND |]. intros c notes. split.
  - intro Hin. apply (map_In_get ND) in Hin. rewrite H in Hin. cbn [JsMap.get] in Hin.
    destruct (withLabel c (labelled by_ l)); [discriminate |].
    injection Hin as <-. split; [discriminate | reflexivity].
  - intros [Hne ->]. apply map_get_In. rewrite H. cbn [JsMap.get].
    destruct (withLabel c (labelled by_ l)); [congruence | reflexivity].
Qed.

Lemma getClusters_sorted (g : Graph) (by_ : ClusterBy) :
  (forall c notes, In (c, notes) (getClusters g by_) <->
     notes <> [] /\ notes = withLabel c (labelled by_ (nodes g)))
  /\ NoDup (map fst (getClusters g by_))
  /\ StronglySorted (fun a b => List.length (snd b) <= List.length (snd a))
                    (getClusters g by_).
Proof.
  unfold getClusters.
  destruct (clusters_unsorted by_ (nodes g)) as [ND H].
  pose proof (sortBy_perm (fun a b : string * list Note =>
                             List.length (snd b) <? List.length (snd a))
                (fold_left (addToClusters by_) (nodes g) JsMap.empty)) as Hp.
  split; [| split].
  - intros c notes. rewrite <- H. split; apply Permutation_in;
      [exact Hp | now symmetry].
  - apply (Permutation_NoDup (l := JsMap.keys
             (fold_left (addToClusters by_) (nodes g) JsMap.empty)));
      [| exact ND].
    apply Permutation_map. now symmetry.
  - apply (@sortBy_descending _ (fun a : string * list Note => List.length (snd a))).
Qed.

Lemma withLabel_folder (c : string) (l : list (string * GraphNode)) :
  withLabel c (labelled ByFolder l)
  = map noteOf (filter (fun e => String.eqb c (folderLabel e)) l).
Proof.
  induction l as [| e l IH]; [reflexivity |].
  change (e :: l) with ([e] ++ l). rewrite labelled_app.
  unfold withLabel in *. rewrite filter_app, map_app, IH.
  simpl. now destruct (String.eqb c (folderLabel e)).
Qed.

Lemma filter_eqb_NoDup (c : string) (l : list string) :
  NoDup l -> filter (String.eqb c) l = if existsb (String.eqb c) l then [c] else [].
Proof.
  induction 1 as [| x l Hx ND IH]; [reflexivity |]. simpl.
  destruct (String.eqb_spec c x) as [<- | N]; simpl; [| exact IH].
  rewrite IH. destruct (existsb (String.eqb c) l) eqn:E; [| reflexivity].
  apply existsb_exists in E. destruct E as [y [Hy E]].
  apply String.eqb_eq in E. subst y. contradiction.
Qed.

Lemma filter_label (c : string) (n : Note) (l : list string) :
  filter (fun p : string * Note => String.eqb c (fst p)) (map (fun c0 => (c0, n)) l)
  = map (fun c0 => (c0, n)) (filter (String.eqb c) l).
Proof.
  induction l as [| a l IH]; [reflexivity |].
  simpl. destruct (String.eqb c a); simpl; now rewrite IH.
Qed.

Lemma withLabel_tag (c : string) (l : list (string * GraphNode)) :
  (forall k n, In (k, n) l -> NoDup (tags n)) ->
  withLabel c (labelled ByTag l)
  = map noteOf (filter (fun e => existsb (String.eqb c) (clusterLabels ByTag e)) l).
Proof.
  induction l as [| e l IH]; intro H; [reflexivity |].
  assert (ND : NoDup (clusterLabels ByTag e)).
  { cbn [clusterLabels]. destruct e as [k n]. cbn [snd].
    pose proof (H k n (or_introl eq_refl)) as Hn.
    destruct (tags n); [repeat constructor; intros [] | exact Hn]. }
  assert (IH' := IH (fun k n Hin => H k n (or_intror Hin))).
  change (e :: l) with ([e] ++ l) at 1. rewrite labelled_app.
  unfold withLabel in *. rewrite filter_app, map_app, IH'.
  unfold labelled. cbn [flat_map]. rewrite app_nil_r.
  rewrite filter_label, (filter_eqb_NoDup c ND). cbn [filter].
  destruct (existsb (String.eqb c) (clusterLabels ByTag e)); reflexivity.
Qed.

(** X15.  [getClusters("folder")] has one cluster for each folder
    label of a node ([(root)] for the empty folder): a cluster holds the
    notes of the nodes with its label, in the order of the nodes, and is not
    empty; no label comes twice; and the clusters are in the order of their
    sizes, largest first. *)
Theorem getClusters_by_folder (g : Graph) :
  (forall c notes, In (c, notes) (getClusters g ByFolder) <->
     notes <> []
     /\ notes = map noteOf (filter (fun e => String.eqb c (folderLabel e)) (nodes g)))
  /\ NoDup (map fst (getClusters g ByFolder))
  /\ StronglySorted (fun a b => List.length (snd b) <= List.length (snd a))
                    (getClusters g ByFolder).
Proof.
  destruct (getClusters_sorted g ByFolder) as [H1 [H2 H3]].
  split; [| split; assumption].
  intros c notes. rewrite H1. now rewrite withLabel_folder.
Qed.

(** X16.  [getClusters("tag")], when no node has a tag twice: a
    cluster holds the notes of the nodes with its tag ([(untagged)] being
    the tag of the nodes without tag), in the order of the nodes, so that a
    note is in the cluster of each of its tags; no cluster is empty, no label
    comes twice, and the clusters are in the order of their sizes, largest
    first. *)
Theorem getClusters_by_tag (g : Graph) :
  (forall k n, In (k, n) (nodes g) -> NoDup (tags n)) ->
  (forall c notes, In (c, notes) (getClusters g ByTag) <->
     notes <> []
     /\ notes = map noteOf
                  (filter (fun e => existsb (String.eqb c) (clusterLabels ByTag e))
                          (nodes g)))
  /\ NoDup (map fst (getClusters g ByTag))
  /\ StronglySorted (fun a b => List.length (snd b) <= List.length (snd a))
                    (getClusters g ByTag).
Proof.
  intro Htags. destruct (getClusters_sorted g ByTag) as [H1 [H2 H3]].
  split; [| split; assumption].
  intros c notes. rewrite H1. now rewrite (withLabel_tag c Htags).
Qed.

Lemma getClusters_by_tag_witness :
  In ("x"%string, [mkNote "A" "A.md"]) (getClusters scenarioGraph ByTag).
Proof.
  destruct (@getClusters_by_tag scenarioGraph) as [H _].
  - intros k n [E | [E | [E | []]]]; injection E as <- <-; vm_compute;
      repeat constructor; simpl; tauto.
  - apply H. split; [discriminate | reflexivity].
Defined.

(* ================================================================== *)
(** * Chains *)
(* ================================================================== *)

Lemma chain_nonempty (g : Graph) (p : list string) : chain g p -> p <> [].
Proof. destruct p; [intros [] | discriminate]. Qed.

Lemma last_app_cons (A : Type) (l1 l2 : list A) (x d : A) :
  last (l1 ++ x :: l2) d = last (x :: l2) d.
Proof.
  induction l1 as [| y l1 IH]; [reflexivity |].
  cbn [app]. rewrite <- IH. destruct (l1 ++ x :: l2) eqn:E; [| reflexivity].
  now destruct l1.
Qed.

(** A chain through [x] is a chain up to [x] and a chain from [x]. *)
Lemma chain_app (g : Graph) (l1 l2 : list string) (x : string) :
  chain g (l1 ++ x :: l2) <-> chain g (l1 ++ [x]) /\ chain g (x :: l2).
Proof.
  induction l1 as [| y l1 IH].
  - simpl. tauto.
  - destruct l1 as [| z l1].
    + cbn [app chain]. tauto.
    + change (chain g ((y :: z :: l1) ++ x :: l2))
        with (linked g y z /\ chain g ((z :: l1) ++ x :: l2)).
      change (chain g ((y :: z :: l1) ++ [x]))
        with (linked g y z /\ chain g ((z :: l1) ++ [x])).
      rewrite IH. tauto.
Qed.

(** The last hop of a chain between two different names. *)
Lemma connects_last_hop (g : Graph) (p : list string) (a b : string) :
  connects g a b p -> a <> b -> exists u, linked g u b.
Proof.
  revert a. induction p as [| x p IH]; intros a [C [Hh Hl]] N; [destruct C |].
  simpl in Hh. injection Hh as ->.
  destruct p as [| y p]; [simpl in Hl; congruence |].
  destruct C as [L C]. destruct (string_dec y b) as [-> | Ny].
  - now exists a.
  - apply (IH y); [| exact Ny]. split; [exact C |]. split; [reflexivity |].
    change (last (a :: y :: p) a) with (last (y :: p) a) in Hl.
    rewrite <- Hl. apply last_default. discriminate.
Qed.

Lemma hd_error_rev (A : Type) (l : list A) (d : A) :
  l <> [] -> hd_error (rev l) = Some (last l d).
Proof.
  induction l as [| x l IH] using rev_ind; [congruence |]. intros _.
  now rewrite rev_app_distr, last_last.
Qed.

Lemma last_rev (A : Type) (l : list A) (x d : A) :
  hd_error l = Some x -> last (rev l) d = x.
Proof.
  destruct l as [| y l]; [discriminate |]. intro H. injection H as ->.
  cbn [rev]. apply last_last.
Qed.

(** In a symmetric view a chain can be walked backwards. *)
Lemma chain_rev (g : Graph) (p : list string) :
  (forall x y, linked g x y -> linked g y x) -> chain g p -> chain g (rev p).
Proof.
  intro Hsym. induction p as [| x p IH]; [intros [] |].
  destruct p as [| y p]; [intros _; exact I |].
  intros [L C]. change (rev (x :: y :: p)) with (rev (y :: p) ++ [x]).
  apply chain_snoc.
  - cbn [rev]. now destruct (rev p).
  - split; [now apply IH |]. cbn [rev]. rewrite last_last. now apply Hsym.
Qed.

Lemma connects_rev (g : Graph) (p : list string) (a b : string) :
  (forall x y, linked g x y -> linked g y x) ->
  connects g a b p -> connects g b a (rev p) /\ hops (rev p) = hops p.
Proof.
  intros Hsym [C [Hh Hl]]. pose proof (chain_nonempty C) as Hn. split.
  - split; [now apply chain_rev |]. split.
    + rewrite (hd_error_rev a Hn). now rewrite Hl.
    + now apply last_rev.
  - unfold hops. now rewrite length_rev.
Qed.

Lemma NoDup_no_repeat (l : list string) :
  (forall l1 x l2, l = l1 ++ x :: l2 -> ~ In x l2) -> NoDup l.
Proof.
  induction l as [| y l IH]; intro H; constructor.
  - apply (H [] y l eq_refl).
  - apply IH. intros l1 x l2 ->. apply (H (y :: l1) x l2 eq_refl).
Qed.

(** A chain with the fewest hops goes through no name twice. *)
Lemma shortest_chain_simple (g : Graph) (a b : string) (p : list string) :
  connects g a b p -> (forall q, connects g a b q -> hops p <= hops q) ->
  NoDup p.
Proof.
  intros [C [Hh Hl]] Hmin. apply NoDup_no_repeat. intros l1 x l2 -> Hin.
  apply in_split in Hin. destruct Hin as [l3 [l4 ->]].
  assert (Hq : connects g a b (l1 ++ x :: l4)).
  { split; [| split].
    - apply chain_app in C. destruct C as [C1 C2].
      apply chain_app. split; [exact C1 |].
      change (x :: l3 ++ x :: l4) with ((x :: l3) ++ x :: l4) in C2.
      apply chain_app in C2. tauto.
    - destruct l1; exact Hh.
    - rewrite last_app_cons in *.
      change (x :: l3 ++ x :: l4) with ((x :: l3) ++ x :: l4) in Hl.
      now rewrite last_app_cons in Hl. }
  apply Hmin in Hq. unfold hops in Hq. rewrite !length_app in Hq.
  cbn [List.length] in Hq. rewrite length_app in Hq. cbn [List.length] in Hq. lia.
Qed.

(** ** Snapshots *)

Lemma builtFrom_linked_known (v : Vault) (paths : list string) (g : Graph)
    (x y : string) :
  builtFrom v paths g -> linked g x y ->
  JsMap.has x (nodes g) = true /\ JsMap.has y (nodes g) = true.
Proof.
  intros B [H | H].
  - apply (builtFrom_source_known B H).
  - apply (bf_reverse B) in H. apply (builtFrom_source_known B) in H. tauto.
Qed.

Lemma chain_known (v : Vault) (paths : list string) (g : Graph) (p : list string) :
  builtFrom v paths g -> chain g p -> 2 <= List.length p ->
  forall x, In x p -> JsMap.has x (nodes g) = true.
Proof.
  intro B. induction p as [| y p IH]; [intros [] |].
  destruct p as [| z p]; [simpl; lia |].
  intros [L C] _ x Hx. destruct (builtFrom_linked_known B L) as [Hy Hz].
  destruct Hx as [<- | Hx]; [exact Hy |].
  destruct p as [| w p].
  - destruct Hx as [<- | []]. exact Hz.
  - apply IH; [exact C | simpl; lia | exact Hx].
Qed.

(* ================================================================== *)
(** * More about [findPath] and [queryRelated] *)
(* ================================================================== *)

Lemma findPath_nodes (g : Graph) (a b : string) (p : list string) :
  findPath g a b = Some p -> a <> b ->
  JsMap.has a (nodes g) = true /\ JsMap.has b (nodes g) = true.
Proof.
  intros H N. unfold findPath in H. rewrite (streq_neq N) in H.
  destruct (JsMap.has a (nodes g)); [| discriminate].
  destruct (JsMap.has b (nodes g)); [tauto | discriminate].
Qed.

(** What [findPath] returns for two different nodes. *)
Lemma findPath_between (g : Graph) (a b : string) :
  a <> b -> JsMap.has a (nodes g) = true -> JsMap.has b (nodes g) = true ->
  match findPath g a b with
  | Some p => connects g a b p /\ forall q, connects g a b q -> hops p <= hops q
  | None => forall q, ~ connects g a b q
  end.
Proof.
  intros N Ha Hb. destruct (findPath_traversal g N) as [r [E Hr]].
  unfold findPath. rewrite (streq_neq N), Ha, Hb. cbn [negb orb].
  now rewrite E.
Qed.

(** X11.  In a snapshot, a path [findPath] returns between two
    different names goes through no name twice, and only through nodes. *)
Theorem findPath_simple (v : Vault) (now : Z) (graph g : Graph)
    (a b : string) (p : list string) :
  fst (buildGraph v now graph) = Ok g ->
  findPath g a b = Some p -> a <> b ->
  NoDup p /\ forall x, In x p -> JsMap.has x (nodes g) = true.
Proof.
  intros Hg H N. destruct (buildGraph_inv Hg) as [paths [_ [B _]]].
  destruct (findPath_nodes H N) as [Ha Hb].
  pose proof (findPath_between N Ha Hb) as Hp. rewrite H in Hp.
  destruct Hp as [C Hmin]. split; [apply (shortest_chain_simple C Hmin) |].
  destruct C as [C [Hh Hl]]. apply (chain_known B C).
  destruct p as [| x [| y p]]; [destruct C | | simpl; lia].
  simpl in Hh, Hl. congruence.
Qed.

Lemma findPath_simple_witness :
  NoDup ["B"; "A"; "C"]%string
  /\ forall x, In x ["B"; "A"; "C"]%string -> JsMap.has x (nodes scenarioGraph) = true.
Proof.
  apply (@findPath_simple scenarioVault 0 emptyGraph scenarioGraph "B" "C").
  - reflexivity.
  - reflexivity.
  - discriminate.
Defined.

(** X12.  In a snapshot [findPath] is symmetric: between [a] and [b]
    it returns a path in both directions, with the same number of hops, or
    [null] in both. *)
Theorem findPath_symmetric (v : Vault) (now : Z) (graph g : Graph) (a b : string) :
  fst (buildGraph v now graph) = Ok g ->
  match findPath g a b, findPath g b a with
  | Some p, Some q => hops p = hops q
  | None, None => True
  | _, _ => False
  end.
Proof.
  intro Hg. destruct (buildGraph_inv Hg) as [paths [_ [B _]]].
  assert (Hsym : forall x y, linked g x y -> linked g y x)
    by (intros x y; apply (builtFrom_linked_sym B)).
  destruct (string_dec a b) as [-> | N].
  - now rewrite findPath_same.
  - assert (N' : b <> a) by congruence.
    destruct (JsMap.has a (nodes g)) eqn:Ha; [destruct (JsMap.has b (nodes g)) eqn:Hb |].
    + pose proof (findPath_between N Ha Hb) as H1.
      pose proof (findPath_between N' Hb Ha) as H2.
      destruct (findPath g a b) as [p |], (findPath g b a) as [q |].
      * destruct H1 as [C1 M1], H2 as [C2 M2].
        destruct (connects_rev Hsym C1) as [R1 E1].
        destruct (connects_rev Hsym C2) as [R2 E2].
        apply M2 in R1. apply M1 in R2. lia.
      * destruct H1 as [C1 _]. destruct (connects_rev Hsym C1) as [R1 _].
        now apply H2 in R1.
      * destruct H2 as [C2 _]. destruct (connects_rev Hsym C2) as [R2 _].
        now apply H1 in R2.
      * exact I.
    + rewrite (@findPath_unknown g a b N (or_intror Hb)).
      now rewrite (@findPath_unknown g b a N' (or_introl Hb)).
    + rewrite (@findPath_unknown g a b N (or_introl Ha)).
      now rewrite (@findPath_unknown g b a N' (or_intror Ha)).
Qed.

Lemma findPath_symmetric_witness :
  match findPath scenarioGraph "B" "C", findPath scenarioGraph "C" "B" with
  | Some p, Some q => hops p = hops q
  | None, None => True
  | _, _ => False
  end.
Proof.
  apply (@findPath_symmetric scenarioVault 0 emptyGraph scenarioGraph "B" "C").
  reflexivity.
Defined.

(** X10.  [queryRelated] and [findPath] agree.  From a node [a],
    every result of [queryRelated] is at the distance that is the number of
    hops of the path [findPath] returns to it; and every name to which
    [findPath] returns a path of at least one and at most [depth] hops is a
    result of [queryRelated], at that distance. *)
Theorem related_distance_is_path_length (g : Graph) (a : string) (depth : Js.number) :
  JsMap.has a (nodes g) = true ->
  (forall r, In r (queryRelated g a depth) ->
     exists p, findPath g a (rel_name r) = Some p /\ hops p = rel_distance r)
  /\ (forall b p, findPath g a b = Some p -> 1 <= hops p ->
        Js.leb (Js.ofNat (hops p)) depth = true ->
        exists r, In r (queryRelated g a depth)
                  /\ rel_name r = b /\ rel_distance r = hops p).
Proof.
  intro Ha. destruct (queryRelated_traversal g a depth) as [Pf [_ [E I]]].
  rewrite E. pose proof (bi_nodup I) as ND. rewrite app_nil_r in ND.
  assert (Hstart : In (a, 0) Pf).
  { destruct (bi_start I) as [rest Hr]. rewrite app_nil_r in Hr. rewrite Hr. now left. }
  split.
  - intros r Hr. apply resultsOf_In in Hr. destruct Hr as [node [H1 [H2 [H3 _]]]].
    assert (H1' : In (rel_name r, rel_distance r) (Pf ++ [])) by now rewrite app_nil_r.
    assert (N : a <> rel_name r).
    { intro Ea. rewrite <- Ea in H1. pose proof (names_functional ND H1 Hstart). lia. }
    assert (Hb : JsMap.has (rel_name r) (nodes g) = true)
      by (apply map_has_get; now exists node).
    pose proof (bi_walk I H1') as W.
    pose proof (findPath_between N Ha Hb) as Hp.
    destruct (proj1 (walk_connects g a (rel_name r) (rel_distance r)) W)
      as [q [Cq Eq_]].
    destruct (findPath g a (rel_name r)) as [p |]; [| now destruct (Hp q)].
    exists p. split; [reflexivity |]. destruct Hp as [Cp Mp].
    apply Mp in Cq.
    assert (Wp : walk (neighbors g) a (rel_name r) (hops p))
      by (apply walk_connects; now exists p).
    pose proof (bi_min I H1' Wp). lia.
  - intros b p Hp H1 Hd.
    assert (N : a <> b).
    { intros <-. rewrite findPath_same in Hp. injection Hp as <-.
      unfold hops in H1. simpl in H1. lia. }
    destruct (findPath_nodes Hp N) as [_ Hb].
    pose proof (findPath_between N Ha Hb) as Hq. rewrite Hp in Hq.
    destruct Hq as [C Hmin].
    assert (W : walk (neighbors g) a b (hops p)) by (apply walk_connects; now exists p).
    apply map_has_get in Hb. destruct Hb as [node Hnode].
    exists (mkRelated b (path node) (hops p)). split; [| now split].
    apply resultsOf_In. exists node. cbn [rel_name rel_distance rel_path].
    split; [| split; [lia | split; [assumption | reflexivity]]].
    destruct (frontier I W)
      as [[dx [Hx1 Hx2]] | [[y [dy [[] _]]] | [d' [Hd1 Hd2]]]].
    + pose proof (bi_walk I Hx1) as Wx. apply walk_connects in Wx.
      destruct Wx as [q [Hq Ehops]]. apply Hmin in Hq.
      assert (Ed : dx = hops p) by lia. rewrite Ed, app_nil_r in Hx1. exact Hx1.
    + unfold withinDepth in Hd2. destruct (hops p) as [| k]; [lia |].
      apply leb_ofNat_ltb in Hd.
      rewrite (@ltb_ofNat_le d' k depth) in Hd2; [discriminate | lia | exact Hd].
Qed.

Lemma related_distance_is_path_length_witness :
  exists p, findPath scenarioGraph "B" "C" = Some p /\ hops p = 2.
Proof.
  destruct (@related_distance_is_path_length scenarioGraph "B" (Js.ofNat 2) eq_refl)
    as [H _].
  apply (H (mkRelated "C" "C.md" 2)). vm_compute. tauto.
Defined.

(* ================================================================== *)
(** * [getOrphans] *)
(* ================================================================== *)

Lemma degree_zero (m : JsMap.t JsSet.t) (k : string) :
  degree m k = 0 -> adjacent m k = [].
Proof.
  unfold degree, adjacent. destruct (JsMap.get k m) as [s |]; [| reflexivity].
  unfold JsSet.size. now destruct s.
Qed.

(** An orphan is a node without neighbours. *)
Lemma orphan_alone (g : Graph) (o : Note) :
  In o (getOrphans g) ->
  JsMap.has (note_name o) (nodes g) = true /\ neighbors g (note_name o) = [].
Proof.
  unfold getOrphans. rewrite in_map_iff. intros [[k n] [<- H]].
  apply filter_In in H. destruct H as [Hin Ho]. cbn [noteOf note_name fst].
  split.
  - apply map_has_keys. apply in_map_iff. now exists (k, n).
  - unfold isOrphan in Ho. cbn [fst] in Ho. apply andb_true_iff in Ho.
    destruct Ho as [H1 H2]. apply Nat.eqb_eq in H1, H2.
    unfold neighbors. now rewrite (degree_zero H1), (degree_zero H2).
Qed.

Lemma queryRelated_alone (g : Graph) (k : string) (depth : Js.number) :
  neighbors g k = [] -> queryRelated g k depth = [].
Proof.
  intro H. unfold queryRelated, traversalFuel. cbn [queryRelatedLoop].
  rewrite H.
  destruct (Js.ltb (Js.ofNat 0) depth); simpl;
    destruct (List.length (adjacencyNames g)); reflexivity.
Qed.

Lemma findPath_alone (g : Graph) (k b : string) :
  neighbors g k = [] -> b <> k -> findPath g k b = None.
Proof.
  intros H N. unfold findPath.
  rewrite (streq_neq (not_eq_sym N)).
  destruct (negb (JsMap.has k (nodes g)) || negb (JsMap.has b (nodes g)));
    [reflexivity |].
  unfold traversalFuel. cbn [findPathLoop]. rewrite H. cbn [scanNeighbors].
  destruct (List.length (adjacencyNames g)); reflexivity.
Qed.

(** X14.  In a snapshot an orphan of [getOrphans] is a node that the
    traversals neither leave nor reach: [queryRelated] from it is empty at
    every depth, [findPath] between it and any other name is [null] in both
    directions, and no result of [queryRelated] holds it. *)
Theorem orphans_are_isolated (v : Vault) (now : Z) (graph g : Graph) (o : Note) :
  fst (buildGraph v now graph) = Ok g ->
  In o (getOrphans g) ->
  JsMap.has (note_name o) (nodes g) = true
  /\ (forall depth, queryRelated g (note_name o) depth = [])
  /\ (forall b, b <> note_name o ->
        findPath g (note_name o) b = None /\ findPath g b (note_name o) = None)
  /\ (forall start depth,
        ~ In (note_name o) (map rel_name (queryRelated g start depth))).
Proof.
  intros Hg Ho. destruct (buildGraph_inv Hg) as [paths [_ [B _]]].
  destruct (orphan_alone Ho) as [Hk Hn].
  assert (Hno : forall u, ~ linked g u (note_name o)).
  { intros u L. apply (builtFrom_linked_sym B) in L.
    apply neighbors_linked in L. rewrite Hn in L. destruct L. }
  split; [exact Hk |]. split; [intro depth; now apply queryRelated_alone |].
  split.
  - intros b N. split; [now apply findPath_alone |].
    destruct (JsMap.has b (nodes g)) eqn:Hb.
    + pose proof (findPath_between N Hb Hk) as H.
      destruct (findPath g b (note_name o)) as [p |]; [| reflexivity].
      destruct H as [C _]. destruct (connects_last_hop C N) as [u L].
      now destruct (Hno u).
    + apply findPath_unknown; [exact N | now left].
  - intros start depth Hin.
    destruct (queryRelated_traversal g start depth) as [Pf [_ [E I]]].
    rewrite E in Hin. apply in_map_iff in Hin. destruct Hin as [r [Er Hr]].
    apply resultsOf_In in Hr. destruct Hr as [node [H1 [H2 _]]].
    assert (H1' : In (rel_name r, rel_distance r) (Pf ++ [])) by now rewrite app_nil_r.
    pose proof (bi_walk I H1') as W. rewrite Er in W.
    inversion W as [E0 E1 | u w d Wu Hw E0 E1]; [lia |].
    apply neighbors_linked in Hw. now destruct (Hno u).
Qed.

Lemma orphans_are_isolated_witness :
  queryRelated islandGraph "A" (Js.ofNat 3) = []
  /\ findPath islandGraph "A" "B" = None /\ findPath islandGraph "B" "A" = None.
Proof.
  destruct (@orphans_are_isolated islandVault 0 emptyGraph islandGraph
              (mkNote "A" "A.md")) as [_ [H1 [H2 _]]].
  - reflexivity.
  - vm_compute. tauto.
  - split; [apply H1 |]. apply (H2 "B"%string). discriminate.
Defined.

(* ================================================================== *)
(** * The order of the results of [queryRelated] *)
(* ================================================================== *)

Lemma StronglySorted_snoc (A : Type) (R : A -> A -> Prop) (l : list A) (y : A) :
  StronglySorted R l -> (forall x, In x l -> R x y) -> StronglySorted R (l ++ [y]).
Proof.
  induction 1 as [| x l Hs IH Hx]; intro H; simpl.
  - repeat constructor.
  - constructor.
    + apply IH. intros z Hz. apply H. now right.
    + apply Forall_app. split; [exact Hx |]. constructor; [| constructor].
      apply H. now left.
Qed.

Lemma enqueueNeighbors_queue (ns : list string) (dist : nat) (visited : JsSet.t)
    (queue : list (string * nat)) :
  exists ws,
    snd (enqueueNeighbors ns dist visited queue)
    = queue ++ map (fun w => (w, S dist)) ws.
Proof.
  revert visited queue. induction ns as [| n ns IH]; intros visited queue.
  - exists []. simpl. now rewrite app_nil_r.
  - cbn [enqueueNeighbors]. destruct (negb (JsSet.has n visited)); [| apply IH].
    destruct (IH (JsSet.add n visited) (queue ++ [(n, dist + 1)])) as [ws E].
    exists (n :: ws). rewrite E, <- app_assoc. cbn [app map].
    now rewrite Nat.add_1_r.
Qed.

Lemma window_tail (d : nat) (ds : list nat) : window (d :: ds) -> window ds.
Proof.
  intros [Hs Hb]. inversion Hs as [| ? ? Hs' Hd]; subst. split; [exact Hs' |].
  intros d' rest -> e He. rewrite Forall_forall in Hd.
  pose proof (Hd d' (or_introl eq_refl)). pose proof (Hb d _ eq_refl e (or_intror He)).
  lia.
Qed.

Lemma window_bounds (d : nat) (ds : list nat) (e : nat) :
  window (d :: ds) -> In e ds -> d <= e /\ e <= S d.
Proof.
  intros [Hs Hb] He. inversion Hs as [| ? ? Hs' Hd]; subst.
  rewrite Forall_forall in Hd. split; [now apply Hd | now apply (Hb d ds eq_refl)].
Qed.

Lemma window_push (A : Type) (d : nat) (ds : list nat) (ws : list A) :
  window (d :: ds) -> window (ds ++ map (fun _ => S d) ws).
Proof.
  intro H. pose proof (window_tail H) as [Hs Hb]. split.
  - clear Hb. induction Hs as [| x l Hs IH Hx].
    + simpl. induction ws as [| w ws IHw]; simpl; constructor; [exact IHw |].
      apply Forall_forall. intros e He. apply in_map_iff in He.
      destruct He as [_ [<- _]]. lia.
    + simpl. constructor.
      * apply IH. destruct H as [H1 H2]. split.
        -- inversion H1 as [| ? ? H3 H4]; subst. inversion H3; subst.
           constructor; [assumption |]. inversion H4; subst. assumption.
        -- intros d' rest E e He. injection E as <- <-.
           apply (H2 d _ eq_refl). now right.
      * apply Forall_app. split; [exact Hx |].
        apply Forall_forall. intros e He. apply in_map_iff in He.
        destruct He as [_ [<- _]].
        pose proof (@window_bounds d (x :: l) x H (or_introl eq_refl)). lia.
  - intros d' rest E e He. destruct ds as [| d2 ds].
    + destruct ws as [| w ws]; [discriminate |]. cbn [app map] in E.
      injection E as <- <-. apply in_map_iff in He. destruct He as [_ [<- _]]. lia.
    + cbn [app] in E. injection E as <- <-.
      pose proof (@window_bounds d (d2 :: ds) d2 H (or_introl eq_refl)) as B2.
      apply in_app_iff in He. destruct He as [He | He].
      * pose proof (@window_bounds d (d2 :: ds) e H (or_intror He)). lia.
      * apply in_map_iff in He. destruct He as [_ [<- _]]. lia.
Qed.

(** The loop reports the names in the order of their distances. *)
Lemma queryRelatedLoop_ordered (g : Graph) (depth : Js.number) (fuel : nat)
    (visited : JsSet.t) (queue : list (string * nat))
    (results res : list Related) :
  queryRelatedLoop g depth fuel visited queue results = Some res ->
  StronglySorted (fun r1 r2 => rel_distance r1 <= rel_distance r2) results ->
  (forall r e, In r results -> In e (map snd queue) -> rel_distance r <= e) ->
  window (map snd queue) ->
  StronglySorted (fun r1 r2 => rel_distance r1 <= rel_distance r2) res.
Proof.
  revert visited queue results.
  induction fuel as [| fuel IH]; intros visited queue results H Hs Hrq Hq.
  - destruct queue as [| [u d] queue]; [| discriminate]. injection H as <-. exact Hs.
  - destruct queue as [| [u d] queue]; [injection H as <-; exact Hs |].
    cbn [queryRelatedLoop] in H. cbn [map snd] in Hrq, Hq.
    set (results' := if 0 <? d
                     then match JsMap.get u (nodes g) with
                          | Some node => results ++ [mkRelated u (path node) d]
                          | None => results
                          end
                     else results) in H.
    assert (Hs' : StronglySorted (fun r1 r2 => rel_distance r1 <= rel_distance r2)
                    results').
    { subst results'. destruct (0 <? d); [| exact Hs].
      destruct (JsMap.get u (nodes g)); [| exact Hs].
      apply StronglySorted_snoc; [exact Hs |]. intros r Hr.
      apply (Hrq r d Hr). now left. }
    assert (Hd' : forall r, In r results' -> rel_distance r <= d).
    { intros r Hr.
      assert (Hin : In r results \/ rel_distance r = d).
      { subst results'. destruct (0 <? d); [| now left].
        destruct (JsMap.get u (nodes g)); [| now left].
        apply in_app_iff in Hr. destruct Hr as [Hr | [<- | []]]; [now left | now right]. }
      destruct Hin as [Hin | ->]; [| lia]. apply (Hrq r d Hin). now left. }
    destruct (Js.ltb (Js.ofNat d) depth).
    + destruct (enqueueNeighbors_queue (neighbors g u) d visited queue) as [ws E].
      destruct (enqueueNeighbors (neighbors g u) d visited queue) as [visited' queue''].
      cbn [snd] in E. subst queue''.
      assert (Em : map snd (queue ++ map (fun w => (w, S d)) ws)
                   = map snd queue ++ map (fun _ => S d) ws).
      { rewrite map_app, map_map. reflexivity. }
      apply (IH _ _ _ H Hs').
      * intros r e Hr He. apply Hd' in Hr. rewrite Em in He. apply in_app_iff in He.
        destruct He as [He | He].
        -- pose proof (window_bounds Hq He). lia.
        -- apply in_map_iff in He. destruct He as [_ [<- _]]. lia.
      * rewrite Em. now apply window_push.
    + apply (IH _ _ _ H Hs').
      * intros r e Hr He. apply Hd' in Hr. pose proof (window_bounds Hq He). lia.
      * apply (window_tail Hq).
Qed.

Lemma queryRelated_sorted (g : Graph) (start : string) (depth : Js.number) :
  StronglySorted (fun r1 r2 => rel_distance r1 <= rel_distance r2)
                 (queryRelated g start depth).
Proof.
  destruct (queryRelated_traversal g start depth) as [Pf [E [-> _]]].
  apply (queryRelatedLoop_ordered E).
  - constructor.
  - intros r e [].
  - split; [repeat constructor |]. intros d rest H e He.
    injection H as <- <-. destruct He.
Qed.

(** X9.  [queryRelated] lists its results in the order of their
    distances, nearest first. *)
Theorem queryRelated_ordered (g : Graph) (start : string) (depth : Js.number) :
  StronglySorted (fun r1 r2 => rel_distance r1 <= rel_distance r2)
                 (queryRelated g start depth).
Proof. apply queryRelated_sorted. Qed.

(* ================================================================== *)
(** * The tools *)
(* ================================================================== *)

(** ** Name resolution *)

Lemma find_Some_iff (A : Type) (f : A -> bool) (l : list A) (x : A) :
  find f l = Some x <->
  exists l1 l2, l = l1 ++ x :: l2 /\ f x = true /\ forall y, In y l1 -> f y = false.
Proof.
  induction l as [| a l IH]; simpl.
  - split; [discriminate |]. intros [l1 [l2 [H _]]]. now destruct l1.
  - destruct (f a) eqn:E.
    + split.
      * intro H. injection H as <-. exists [], l. split; [reflexivity |].
        split; [exact E | intros y []].
      * intros [[| b l1] [l2 [H [Hx Hl]]]].
        -- simpl in H. congruence.
        -- simpl in H. injection H as <- _. rewrite (Hl a (or_introl eq_refl)) in E.
           discriminate.
    + rewrite IH. split.
      * intros [l1 [l2 [-> [Hx Hl]]]]. exists (a :: l1), l2. split; [reflexivity |].
        split; [exact Hx |]. intros y [<- | Hy]; [exact E | now apply Hl].
      * intros [[| b l1] [l2 [H [Hx Hl]]]].
        -- simpl in H. injection H as <- _. congruence.
        -- simpl in H. injection H as <- ->. exists l1, l2. split; [reflexivity |].
           split; [exact Hx |]. intros y Hy. apply Hl. now right.
Qed.

(** X17.  The name resolution of [graph_find_path]: a name that is a
    node key resolves to itself; any other name resolves to the first key of
    the graph, in insertion order, that equals it without regard to case,
    provided that key is not the empty string; and nothing else resolves. *)
Theorem resolve_spec (g : Graph) (given k : string) :
  Tools.resolve g given = Some k <->
  (JsMap.has given (nodes g) = true /\ k = given)
  \/ (JsMap.has given (nodes g) = false /\ k <> EmptyString
      /\ exists l1 l2,
           JsMap.keys (nodes g) = l1 ++ k :: l2
           /\ Js.toLowerCase k = Js.toLowerCase given
           /\ forall k', In k' l1 -> Js.toLowerCase k' <> Js.toLowerCase given).
Proof.
  unfold Tools.resolve. destruct (JsMap.has given (nodes g)) eqn:H.
  - split.
    + intro E. injection E as <-. left. now split.
    + intros [[_ ->] | [D _]]; [reflexivity | discriminate].
  - set (same := fun k0 => String.eqb (Js.toLowerCase k0) (Js.toLowerCase given)).
    split.
    + intro E. right. split; [reflexivity |].
      destruct (find same (JsMap.keys (nodes g))) as [m |] eqn:F; [| discriminate].
      destruct (Js.truthy m) eqn:T; [| discriminate]. injection E as <-.
      apply truthy_nonempty in T. split; [exact T |].
      apply find_Some_iff in F. destruct F as [l1 [l2 [E [Hm Hl]]]].
      exists l1, l2. split; [exact E |]. split; [now apply String.eqb_eq |].
      intros k' Hk'. apply String.eqb_neq. now apply Hl.
    + intros [[D _] | [_ [Hk [l1 [l2 [E [Hm Hl]]]]]]]; [discriminate |].
      assert (F : find same (JsMap.keys (nodes g)) = Some k).
      { apply find_Some_iff. exists l1, l2. split; [exact E |].
        split; [now apply String.eqb_eq |].
        intros y Hy. apply String.eqb_neq. now apply Hl. }
      rewrite F. apply truthy_nonempty in Hk. now rewrite Hk.
Qed.

(** ** The groups of [graph_query_related] *)

Lemma pushGroup_fresh (d : nat) (r : Related) (grouped : list (nat * list Related)) :
  (forall e, In e grouped -> fst e <> d) ->
  Tools.pushGroup d r grouped = grouped ++ [(d, [r])].
Proof.
  induction grouped as [| [d' rs] grouped IH]; intro H; [reflexivity |].
  cbn [Tools.pushGroup].
  destruct (Nat.eqb_spec d d') as [-> | N].
  - now destruct (H (d', rs) (or_introl eq_refl)).
  - cbn [app]. rewrite IH; [reflexivity |]. intros e He. apply H. now right.
Qed.

Lemma pushGroup_last (d : nat) (r : Related) (rs : list Related)
    (grouped : list (nat * list Related)) :
  (forall e, In e grouped -> fst e <> d) ->
  Tools.pushGroup d r (grouped ++ [(d, rs)]) = grouped ++ [(d, rs ++ [r])].
Proof.
  induction grouped as [| [d' rs'] grouped IH]; intro H.
  - cbn [app Tools.pushGroup]. now rewrite Nat.eqb_refl.
  - cbn [app Tools.pushGroup].
    destruct (Nat.eqb_spec d d') as [-> | N].
    + now destruct (H (d', rs') (or_introl eq_refl)).
    + rewrite IH; [reflexivity |]. intros e He. apply H. now right.
Qed.

Lemma groupByDistance_snoc (l : list Related) (r : Related) :
  Tools.groupByDistance (l ++ [r])
  = Tools.pushGroup (rel_distance r) r (Tools.groupByDistance l).
Proof. unfold Tools.groupByDistance. now rewrite fold_left_app. Qed.

(** The groups of a list in the order of its distances are its runs. *)
Lemma groupByDistance_runs (l : list Related) :
  StronglySorted (fun r1 r2 => rel_distance r1 <= rel_distance r2) l ->
  List.concat (map snd (Tools.groupByDistance l)) = l
  /\ StronglySorted (fun a b => fst a < fst b) (Tools.groupByDistance l)
  /\ forall d rs, In (d, rs) (Tools.groupByDistance l) ->
       rs <> [] /\ forall r, In r rs -> rel_distance r = d.
Proof.
  induction l as [| r l IH] using rev_ind; intro Hs.
  - split; [reflexivity |]. split; [constructor | intros d rs []].
  - apply StronglySorted_app in Hs. destruct Hs as [Hs Hle].
    destruct (IH Hs) as [H1 [H2 H3]]. rewrite groupByDistance_snoc.
    assert (Hkeys : forall e, In e (Tools.groupByDistance l) ->
                              fst e <= rel_distance r).
    { intros [d rs] He. destruct (H3 d rs He) as [Hne Hd].
      destruct rs as [| r0 rs]; [congruence |].
      rewrite <- (Hd r0 (or_introl eq_refl)).
      apply Hle; [| now left]. rewrite <- H1. apply in_concat.
      exists (r0 :: rs). split; [| now left].
      apply in_map_iff. now exists (d, r0 :: rs). }
    destruct (Tools.groupByDistance l) as [| [d0 rs0] G0 _] using rev_ind.
    + cbn [Tools.pushGroup]. split; [simpl in *; now rewrite <- H1 |].
      split; [repeat constructor |].
      intros d rs [E | []]. injection E as <- <-.
      split; [discriminate |]. now intros r' [<- | []].
    + apply StronglySorted_app in H2. destruct H2 as [H2 Hlt].
      rewrite map_app, concat_app in H1. cbn [map List.concat] in H1.
      rewrite app_nil_r in H1.
      assert (Hd0 : d0 <= rel_distance r).
      { apply (Hkeys (d0, rs0)). apply in_app_iff. right. now left. }
      destruct (Nat.eq_dec d0 (rel_distance r)) as [E0 | N0].
      * rewrite <- E0. rewrite pushGroup_last.
        -- split; [| split].
           ++ rewrite map_app, concat_app. cbn [map List.concat].
              now rewrite app_nil_r, <- H1, <- app_assoc.
           ++ apply StronglySorted_snoc; [exact H2 |]. intros x Hx.
              apply (Hlt x (d0, rs0) Hx). now left.
           ++ intros d rs Hin. apply in_app_iff in Hin.
              destruct Hin as [Hin | [E | []]].
              ** apply H3. apply in_app_iff. now left.
              ** injection E as <- <-. split; [now destruct rs0 |].
                 intros r' Hr'. apply in_app_iff in Hr'.
                 destruct Hr' as [Hr' | [<- | []]]; [| now symmetry].
                 apply (H3 d0 rs0); [| exact Hr']. apply in_app_iff. right. now left.
        -- intros e He. pose proof (Hlt e (d0, rs0) He (or_introl eq_refl)) as Hl.
           cbn [fst] in Hl. lia.
      * rewrite pushGroup_fresh.
        -- split; [| split].
           ++ rewrite !map_app, !concat_app. cbn [map List.concat].
              now rewrite !app_nil_r, <- H1.
           ++ apply StronglySorted_snoc.
              ** apply StronglySorted_snoc; [exact H2 |]. intros x Hx.
                 apply (Hlt x (d0, rs0) Hx). now left.
              ** intros x Hx. apply Hkeys in Hx as Hx'. cbn [fst].
                 apply in_app_iff in Hx. destruct Hx as [Hx | [<- | []]].
                 --- pose proof (Hlt x (d0, rs0) Hx (or_introl eq_refl)) as Hl.
                     cbn [fst] in Hl. lia.
                 --- cbn [fst]. lia.
           ++ intros d rs Hin. apply in_app_iff in Hin.
              destruct Hin as [Hin | [E | []]]; [now apply H3 |].
              injection E as <- <-. split; [discriminate |]. now intros r' [<- | []].
        -- intros e He. apply Hkeys in He as He'.
           apply in_app_iff in He. destruct He as [He | [<- | []]].
           ++ pose proof (Hlt e (d0, rs0) He (or_introl eq_refl)) as Hl.
              cbn [fst] in Hl. lia.
           ++ cbn [fst]. lia.
Qed.

(** Sorting a list that is in order leaves it as it is. *)
Lemma sortBy_in_order (A : Type) (key : A -> nat) (l : list A) :
  StronglySorted (fun a b => key a < key b) l ->
  sortBy (fun a b => key a <? key b) l = l.
Proof.
  induction 1 as [| x l Hs IH Hx]; [reflexivity |].
  cbn [sortBy fold_right]. unfold sortBy in IH. rewrite IH.
  destruct l as [| y l]; [reflexivity |]. cbn [insertBy].
  inversion Hx as [| ? ? Hy _]; subst.
  assert (E : (key y <? key x) = false) by (apply Nat.ltb_ge; lia).
  now rewrite E.
Qed.

(** The two tools resolve a name in the same way. *)
Lemma query_related_resolves (g : Graph) (note : string) (depth : Js.number) :
  Tools.query_related g note depth
  = match Tools.resolve g note with
    | None =>
        Tools.RelatedNotFound note (firstn 20 (JsMap.keys (nodes g)))
                              (20 <? JsMap.size (nodes g))
    | Some note' =>
        if List.length (queryRelated g note' depth) =? 0
        then Tools.NoRelated depth note'
        else Tools.RelatedNotes note' depth
               (sortBy (fun a b => fst a <? fst b)
                       (Tools.groupByDistance (queryRelated g note' depth)))
    end.
Proof.
  unfold Tools.query_related, Tools.resolve.
  destruct (JsMap.has note (nodes g)); cbn [negb]; [reflexivity |].
  destruct (find _ (JsMap.keys (nodes g))) as [m |]; [| reflexivity].
  now destruct (Js.truthy m).
Qed.

(** X18.  The tool [graph_query_related] resolves the name as
    [graph_find_path] does.  Its reply is the not-found reply when the name
    does not resolve, the nothing-related reply when [queryRelated] of the
    resolved name is empty, and otherwise groups that are the results of
    [queryRelated] cut into runs of equal distance: the distances of the
    groups increase strictly, no group is empty, and the groups one after the
    other are the results in their order. *)
Theorem query_related_reply (g : Graph) (note : string) (depth : Js.number) :
  (Tools.resolve g note = None ->
   Tools.query_related g note depth
   = Tools.RelatedNotFound note (firstn 20 (JsMap.keys (nodes g)))
                           (20 <? JsMap.size (nodes g)))
  /\ (forall k, Tools.resolve g note = Some k ->
        (queryRelated g k depth = [] ->
         Tools.query_related g note depth = Tools.NoRelated depth k)
        /\ (queryRelated g k depth <> [] ->
            exists groups,
              Tools.query_related g note depth = Tools.RelatedNotes k depth groups
              /\ List.concat (map snd groups) = queryRelated g k depth
              /\ StronglySorted (fun a b => fst a < fst b) groups
              /\ forall d rs, In (d, rs) groups ->
                   rs <> [] /\ forall r, In r rs -> rel_distance r = d)).
Proof.
  rewrite query_related_resolves. split; [now intros -> |].
  intros k ->. split.
  - now intros ->.
  - intro Hne. destruct (queryRelated g k depth) as [| r0 l] eqn:E; [congruence |].
    cbn [List.length Nat.eqb]. rewrite <- E.
    destruct (groupByDistance_runs (queryRelated_sorted g k depth)) as [H1 [H2 H3]].
    exists (Tools.groupByDistance (queryRelated g k depth)).
    rewrite (@sortBy_in_order _ (fun a : nat * list Related => fst a) _ H2).
    split; [reflexivity |]. split; [exact H1 |]. split; assumption.
Qed.

Lemma query_related_reply_witness :
  Tools.query_related scenarioGraph "b" (Js.ofNat 2)
  = Tools.RelatedNotes "B" (Js.ofNat 2)
      [(1, [mkRelated "A" "A.md" 1]); (2, [mkRelated "C" "C.md" 2])].
Proof.
  destruct (@query_related_reply scenarioGraph "b" (Js.ofNat 2)) as [_ H].
  destruct (H "B"%string eq_refl) as [_ H2].
  destruct H2 as [groups [E _]]; [discriminate |].
  rewrite E. vm_compute in E. injection E as <-. reflexivity.
Defined.

(* ================================================================== *)
(** * The nodes of a snapshot and their number *)
(* ================================================================== *)

Lemma map_keys_set (V : Type) (k : string) (v : V) (m : JsMap.t V) :
  JsMap.keys (JsMap.set k v m) = JsSet.add k (JsMap.keys m).
Proof.
  induction m as [| [k' v'] m IH]; [reflexivity |].
  cbn [JsMap.set]. unfold JsSet.add, JsSet.has in *. cbn [JsMap.keys map fst existsb].
  destruct (String.eqb k k') eqn:E.
  - apply String.eqb_eq in E. subst k'. reflexivity.
  - cbn [orb JsMap.keys map fst]. fold (JsMap.keys m). fold (JsMap.keys (JsMap.set k v m)).
    rewrite IH. now destruct (existsb (String.eqb k) (JsMap.keys m)).
Qed.

Lemma ofList_snoc (l : list string) (x : string) :
  JsSet.ofList (l ++ [x]) = JsSet.add x (JsSet.ofList l).
Proof. unfold JsSet.ofList. now rewrite fold_left_app. Qed.

(** The names of the nodes, in the order in which the listing meets them
    first. *)
Lemma buildNodes_keys (noteContents : JsMap.t string) (paths : list string) :
  JsMap.keys (newNodes (buildNodes noteContents paths))
  = JsSet.ofList (map nameFromPath paths).
Proof.
  induction paths as [| p paths IH] using rev_ind; [reflexivity |].
  rewrite buildNodes_snoc, map_app. cbn [map]. rewrite ofList_snoc.
  cbn [addNode newNodes]. now rewrite map_keys_set, IH.
Qed.

Lemma ofList_length (l : list string) :
  JsSet.size (JsSet.ofList l) <= List.length l
  /\ (JsSet.size (JsSet.ofList l) = List.length l <-> NoDup l).
Proof.
  unfold JsSet.size.
  assert (Hincl : incl (JsSet.ofList l) l) by (intros x Hx; now apply set_ofList_In).
  assert (Hincl' : incl l (JsSet.ofList l)) by (intros x Hx; now apply set_ofList_In).
  pose proof (set_ofList_NoDup l) as ND.
  split; [now apply NoDup_incl_length |]. split.
  - intro E. apply (NoDup_incl_NoDup ND); [lia | exact Hincl].
  - intro NDl. apply Permutation_length. apply NoDup_Permutation; try assumption.
    intro x. apply set_ofList_In.
Qed.

(** X7.  The node names of a snapshot are the names of the listed
    paths in the order in which the listing meets them first; [totalNotes] is
    their number, at most the number of listed paths and equal to it exactly
    when no two listed paths have the same name. *)
Theorem snapshot_node_order
    (v : Vault) (now : Z) (graph g : Graph) (paths : list string) :
  listAllNotes v = Ok paths ->
  fst (buildGraph v now graph) = Ok g ->
  JsMap.keys (nodes g) = JsSet.ofList (map nameFromPath paths)
  /\ (forall (number : Type) (roundedRatio : nat -> nat -> number) (zero : number)
             (toISOString : Z -> string),
        totalNotes (getStats roundedRatio zero toISOString g)
        = JsSet.size (JsSet.ofList (map nameFromPath paths)))
  /\ JsMap.size (nodes g) <= List.length paths
  /\ (JsMap.size (nodes g) = List.length paths <-> NoDup (map nameFromPath paths)).
Proof.
  intros HL Hg. destruct (buildGraph_inv Hg) as [paths' [HL' [B _]]].
  assert (paths' = paths) by congruence. subst paths'.
  assert (K : JsMap.keys (nodes g) = JsSet.ofList (map nameFromPath paths)).
  { rewrite (bf_nodes B). apply buildNodes_keys. }
  assert (S : JsMap.size (nodes g)
              = JsSet.size (JsSet.ofList (map nameFromPath paths))).
  { unfold JsMap.size, JsSet.size. rewrite <- K. unfold JsMap.keys.
    now rewrite length_map. }
  destruct (ofList_length (map nameFromPath paths)) as [H1 H2].
  rewrite length_map in H1, H2.
  split; [exact K |]. split; [intros; exact S |]. rewrite S. now split.
Qed.

Lemma snapshot_node_order_witness :
  JsMap.keys (nodes scenarioGraph) = ["A"; "B"; "C"]%string
  /\ JsMap.size (nodes scenarioGraph) = 3.
Proof.
  destruct (@snapshot_node_order scenarioVault 0 emptyGraph scenarioGraph
              ["A.md"; "B.md"; "C.md"]%string eq_refl eq_refl) as [H1 [_ [_ H2]]].
  split; [exact H1 |]. apply H2. vm_compute.
  repeat constructor; simpl; intuition discriminate.
Defined.

(* ================================================================== *)
(** * Links out and links in *)
(* ================================================================== *)

Lemma degree_length (m : JsMap.t JsSet.t) (k : string) :
  degree m k = List.length (adjacent m k).
Proof. unfold degree, adjacent. now destruct (JsMap.get k m). Qed.

Lemma list_sum_perm (l l' : list nat) :
  Permutation l l' -> list_sum l = list_sum l'.
Proof. induction 1; simpl; lia. Qed.

Lemma length_flat_map_pairs (A B C : Type) (f : A -> list B) (p : A -> B -> C)
    (l : list A) :
  List.length (flat_map (fun a => map (p a) (f a)) l)
  = list_sum (map (fun a => List.length (f a)) l).
Proof.
  induction l as [| a l IH]; [reflexivity |].
  cbn [flat_map map list_sum]. now rewrite length_app, length_map, IH.
Qed.

Lemma NoDup_map_inj (A B : Type) (f : A -> B) (l : list A) :
  (forall a a', f a = f a' -> a = a') -> NoDup l -> NoDup (map f l).
Proof.
  intros Hinj ND. induction ND as [| a l Ha ND IH]; simpl; constructor; [| exact IH].
  intro H. apply in_map_iff in H. destruct H as [a' [E Ha']].
  apply Hinj in E. now subst a'.
Qed.

Lemma NoDup_flat_map_pairs (A B C : Type) (f : A -> list B) (p : A -> B -> C)
    (l : list A) :
  (forall a b a' b', p a b = p a' b' -> a = a' /\ b = b') ->
  NoDup l -> (forall a, In a l -> NoDup (f a)) ->
  NoDup (flat_map (fun a => map (p a) (f a)) l).
Proof.
  intros Hinj ND Hf. induction ND as [| a l Ha ND IH]; [constructor |].
  cbn [flat_map]. apply NoDup_app.
  - apply NoDup_map_inj; [| apply Hf; now left].
    intros b b' E. now apply Hinj in E.
  - apply IH. intros a' Ha'. apply Hf. now right.
  - intros c Hc Hc'. apply in_map_iff in Hc. destruct Hc as [b [<- Hb]].
    apply in_flat_map in Hc'. destruct Hc' as [a' [Ha' Hc']].
    apply in_map_iff in Hc'. destruct Hc' as [b' [E Hb']].
    apply Hinj in E. destruct E as [-> _]. contradiction.
Qed.

Lemma tally_links (g : Graph) (l : list (string * GraphNode))
    (acc : Tally) :
  links (fold_left (tally g) l acc)
  = links acc + list_sum (map (fun e => degree (edges g) (fst e)) l).
Proof.
  revert acc. induction l as [| e l IH]; intro acc; simpl; [lia |].
  rewrite IH. simpl. lia.
Qed.

Lemma adjacent_NoDup (m : JsMap.t JsSet.t) (k : string) :
  (forall k' s, JsMap.get k' m = Some s -> NoDup s) -> NoDup (adjacent m k).
Proof.
  intro H. unfold adjacent. destruct (JsMap.get k m) as [s |] eqn:E;
    [apply (H k s E) | constructor].
Qed.

(** In a snapshot the forward sets and the reverse sets hold the same links. *)
Lemma snapshot_links (v : Vault) (paths : list string) (g : Graph) :
  builtFrom v paths g -> Permutation (forwardLinks g) (reverseLinks g).
Proof.
  intro B. apply NoDup_Permutation.
  - apply NoDup_flat_map_pairs.
    + intros a b a' b' E. now injection E.
    + apply (bf_nodes_keys B).
    + intros a _. apply adjacent_NoDup. apply (bf_edges_sets B).
  - apply NoDup_flat_map_pairs.
    + intros a b a' b' E. now injection E.
    + apply (bf_nodes_keys B).
    + intros a _. apply adjacent_NoDup. apply (bf_reverse_sets B).
  - intros [s t]. unfold forwardLinks, reverseLinks. rewrite !in_flat_map. split.
    + intros [s' [Hs Hin]]. apply in_map_iff in Hin. destruct Hin as [t' [E Ht]].
      injection E as -> ->. exists t. split.
      * apply map_has_keys. apply (builtFrom_source_known B Ht).
      * apply in_map_iff. exists s. split; [reflexivity |]. now apply (bf_reverse B).
    + intros [t' [Ht Hin]]. apply in_map_iff in Hin. destruct Hin as [s' [E Hs]].
      injection E as -> ->. apply (bf_reverse B) in Hs. exists s. split.
      * apply map_has_keys. apply (builtFrom_source_known B Hs).
      * apply in_map_iff. now exists t.
Qed.

Lemma sum_over_keys (V : Type) (f : string -> nat) (m : JsMap.t V) :
  list_sum (map (fun e => f (fst e)) m) = list_sum (map f (JsMap.keys m)).
Proof. unfold JsMap.keys. now rewrite map_map. Qed.

Lemma degrees_balance (v : Vault) (paths : list string) (g : Graph) :
  builtFrom v paths g ->
  list_sum (map (fun e => degree (edges g) (fst e)) (nodes g))
  = list_sum (map (fun e => degree (reverseEdges g) (fst e)) (nodes g)).
Proof.
  intro B.
  rewrite (@sum_over_keys _ (degree (edges g))),
          (@sum_over_keys _ (degree (reverseEdges g))).
  pose proof (Permutation_length (snapshot_links B)) as H.
  unfold forwardLinks, reverseLinks in H.
  rewrite (@length_flat_map_pairs _ _ _ (adjacent (edges g)) (fun s t => (s, t))) in H.
  rewrite (@length_flat_map_pairs _ _ _ (adjacent (reverseEdges g))
             (fun t s => (s, t))) in H.
  rewrite (map_ext (degree (edges g))
             (fun a => List.length (adjacent (edges g) a)))
    by (intro k; apply degree_length).
  rewrite (map_ext (degree (reverseEdges g))
             (fun a => List.length (adjacent (reverseEdges g) a)))
    by (intro k; apply degree_length).
  exact H.
Qed.

Lemma list_sum_cons (a : nat) (l : list nat) : list_sum (a :: l) = a + list_sum l.
Proof. reflexivity. Qed.

Lemma hub_sums (g : Graph) (l : list (string * GraphNode)) :
  list_sum (map (fun e => total (hubOf g e)) l)
  = list_sum (map (fun e => outgoing (hubOf g e)) l)
    + list_sum (map (fun e => incoming (hubOf g e)) l).
Proof.
  induction l as [| e l IH]; [reflexivity |].
  cbn [map]. rewrite !list_sum_cons, IH. unfold hubOf.
  cbn [total outgoing incoming]. lia.
Qed.

(** X8.  In a snapshot the links counted out are the links counted
    in: [getStats().totalLinks] is the sum of the [outgoing] counts of all
    the hubs and also the sum of their [incoming] counts, and their [total]s
    add up to twice [totalLinks]. *)
Theorem links_out_equal_links_in
    (number : Type) (roundedRatio : nat -> nat -> number) (zero : number)
    (toISOString : Z -> string)
    (v : Vault) (now : Z) (graph g : Graph) :
  fst (buildGraph v now graph) = Ok g ->
  let stats := getStats roundedRatio zero toISOString g in
  let hubs := getHubs g (Js.ofNat (JsMap.size (nodes g))) in
  totalLinks stats = list_sum (map outgoing hubs)
  /\ totalLinks stats = list_sum (map incoming hubs)
  /\ list_sum (map total hubs) = 2 * totalLinks stats.
Proof.
  intros Hg stats hubs. destruct (buildGraph_inv Hg) as [paths [_ [B _]]].
  assert (Hp : Permutation hubs (map (hubOf g) (nodes g))).
  { subst hubs. unfold getHubs. rewrite sliceTo_ofNat, firstn_all2; [apply sortBy_perm |].
    rewrite (Permutation_length (sortBy_perm _ _)), length_map. unfold JsMap.size. lia. }
  assert (Ht : totalLinks stats
               = list_sum (map (fun e => degree (edges g) (fst e)) (nodes g))).
  { subst stats. unfold getStats. cbn [totalLinks]. now rewrite tally_links. }
  assert (Ho : list_sum (map outgoing hubs)
               = list_sum (map (fun e => degree (edges g) (fst e)) (nodes g))).
  { rewrite (list_sum_perm (Permutation_map outgoing Hp)), map_map. reflexivity. }
  assert (Hi : list_sum (map incoming hubs)
               = list_sum (map (fun e => degree (reverseEdges g) (fst e)) (nodes g))).
  { rewrite (list_sum_perm (Permutation_map incoming Hp)), map_map. reflexivity. }
  assert (Hs : list_sum (map total hubs)
               = list_sum (map outgoing hubs) + list_sum (map incoming hubs)).
  { rewrite (list_sum_perm (Permutation_map total Hp)),
            (list_sum_perm (Permutation_map outgoing Hp)),
            (list_sum_perm (Permutation_map incoming Hp)), !map_map.
    apply hub_sums. }
  pose proof (degrees_balance B) as Hb.
  split; [lia |]. split; lia.
Qed.

Lemma links_out_equal_links_in_witness :
  totalLinks (getStats (fun links notes => (links, notes)) (0, 0)
                (fun _ => EmptyString) scenarioGraph)
  = list_sum (map incoming (getHubs scenarioGraph (Js.ofNat 3))).
Proof.
  destruct (@links_out_equal_links_in _ (fun links notes => (links, notes)) (0, 0)
              (fun _ => EmptyString) scenarioVault 0 emptyGraph scenarioGraph eq_refl)
    as [_ [H _]].
  exact H.
Defined.

(* ================================================================== *)
(** * The listing of the vault *)
(* ================================================================== *)

Section Listing.

Variable files : string -> Result (list string).

Local Abbreviation S_ := (subdirs files).
Local Abbreviation M_ := (notesIn files).
Local Abbreviation L_ := (levelOrder files).

Lemma visit_fold (entries : list Api.VaultFile) (notes queue : list string) :
  fold_left Api.visit entries (notes, queue)
  = (notes ++ map Api.path
              (filter (fun e => negb (Api.isDirectory e)
                                && Js.endsWith (Api.path e) ".md") entries),
     queue ++ map Api.path (filter Api.isDirectory entries)).
Proof.
  revert notes queue. induction entries as [| e entries IH]; intros notes queue.
  - simpl. now rewrite !app_nil_r.
  - cbn [fold_left filter]. unfold Api.visit at 2. cbn [fst snd].
    destruct (Api.isDirectory e); cbn [negb andb].
    + rewrite IH. cbn [map]. now rewrite <- app_assoc.
    + destruct (Js.endsWith (Api.path e) ".md").
      * rewrite IH. cbn [map]. now rewrite <- app_assoc.
      * apply IH.
Qed.

(** One turn of the loop on a directory whose listing succeeds. *)
Lemma listAllNotesLoop_step (fuel : nat) (dir : string) (queue notes fs : list string) :
  files dir = Ok fs ->
  Api.listAllNotesLoop files (S fuel) (dir :: queue) notes
  = Api.listAllNotesLoop files fuel (queue ++ S_ dir) (notes ++ M_ dir).
Proof.
  intro H. cbn [Api.listAllNotesLoop]. unfold subdirs, notesIn, entriesOf.
  unfold Api.listDir. rewrite H. cbn [bind]. now rewrite visit_fold.
Qed.

Lemma listAllNotesLoop_throw (fuel : nat) (dir : string) (queue notes : list string)
    (e : Exn) :
  files dir = Throw e ->
  Api.listAllNotesLoop files (S fuel) (dir :: queue) notes = Some (Throw e).
Proof.
  intro H. cbn [Api.listAllNotesLoop]. unfold Api.listDir. now rewrite H.
Qed.

Lemma level_app (n : nat) (A B : list string) :
  level files n (A ++ B) = level files n A ++ level files n B.
Proof.
  revert A B. induction n as [| n IH]; intros A B; [reflexivity |].
  cbn [level]. now rewrite flat_map_app, IH.
Qed.

Lemma level_nil (n : nat) : level files n [] = [].
Proof. induction n as [| n IH]; [reflexivity | exact IH]. Qed.

Lemma levelOrder_nil (n : nat) : L_ n [] = [].
Proof. induction n as [| n IH]; [reflexivity | exact IH]. Qed.

Lemma level_subdirs (n : nat) (A : list string) :
  level files n (flat_map S_ A) = flat_map S_ (level files n A).
Proof.
  revert A. induction n as [| n IH]; intro A; [reflexivity |].
  cbn [level]. now rewrite IH.
Qed.

(** Moving the directories [A] from the head of the queue to the level
    below, behind [B]: the same directories in the same order, and one more
    level of those below [A]. *)
Lemma levelOrder_shift (n : nat) (A B : list string) :
  L_ n (A ++ B) ++ level files n A = A ++ L_ n (B ++ flat_map S_ A).
Proof.
  revert A B. induction n as [| n IH]; intros A B.
  - simpl. now rewrite app_nil_r.
  - cbn [levelOrder level]. rewrite !flat_map_app, <- !app_assoc.
    f_equal. f_equal. rewrite <- IH. reflexivity.
Qed.

(** The loop on a queue, when the listings of the first [n] levels succeed
    and there is nothing below them. *)
Lemma listAllNotesLoop_levels (n fuel : nat) (queue notes : list string) :
  level files n queue = [] ->
  (forall d, In d (L_ n queue) -> exists fs, files d = Ok fs) ->
  List.length (L_ n queue) <= fuel ->
  Api.listAllNotesLoop files fuel queue notes
  = Some (Ok (notes ++ flat_map M_ (L_ n queue))).
Proof.
  revert queue notes. induction fuel as [| fuel IH]; intros queue notes Hlevel Hok Hfuel.
  - destruct queue as [| d queue].
    + rewrite levelOrder_nil. simpl. now rewrite app_nil_r.
    + destruct n as [| n]; [discriminate |]. cbn [levelOrder app List.length] in Hfuel. lia.
  - destruct queue as [| d queue].
    + rewrite levelOrder_nil. simpl. now rewrite app_nil_r.
    + destruct n as [| n]; [discriminate |].
      pose proof (@levelOrder_shift (S n) [d] queue) as Hshift.
      change ([d] ++ queue) with (d :: queue) in Hshift.
      rewrite <- (app_nil_r (d :: queue)) in Hlevel at 1.
      change ((d :: queue) ++ []) with ([d] ++ queue ++ []) in Hlevel.
      rewrite app_nil_r, level_app in Hlevel.
      apply app_eq_nil in Hlevel. destruct Hlevel as [Hd Hq].
      rewrite Hd, app_nil_r in Hshift. cbn [flat_map] in Hshift.
      rewrite app_nil_r in Hshift. cbn [app] in Hshift.
      destruct (Hok d) as [fs Hfs]; [rewrite Hshift; now left |].
      rewrite (listAllNotesLoop_step fuel queue notes Hfs).
      rewrite (IH (queue ++ S_ d) (notes ++ M_ d)).
      * rewrite Hshift. cbn [flat_map]. now rewrite <- app_assoc.
      * rewrite level_app, Hq. cbn [app].
        assert (E : S_ d = flat_map S_ [d]) by (simpl; now rewrite app_nil_r).
        rewrite E, level_subdirs, Hd. reflexivity.
      * intros d' Hd'. apply Hok. rewrite Hshift. now right.
      * rewrite Hshift in Hfuel. cbn [List.length] in Hfuel. lia.
Qed.

(** The loop on a queue, when a listing fails after those of the
    directories [l1] succeeded. *)
Lemma listAllNotesLoop_fails (n : nat) (l1 : list string) :
  forall (fuel : nat) (queue notes l2 : list string) (d : string) (e : Exn),
    L_ n queue = l1 ++ d :: l2 ->
    (forall d', In d' l1 -> exists fs, files d' = Ok fs) ->
    files d = Throw e ->
    List.length l1 < fuel ->
    Api.listAllNotesLoop files fuel queue notes = Some (Throw e).
Proof.
  induction l1 as [| d0 l1 IH]; intros fuel queue notes l2 d e HL Hok Hd Hfuel.
  - destruct fuel as [| fuel]; [simpl in Hfuel; lia |].
    destruct n as [| n]; [discriminate |].
    destruct queue as [| d' queue].
    + rewrite levelOrder_nil in HL. discriminate.
    + cbn [levelOrder app] in HL. injection HL as -> _.
      now apply listAllNotesLoop_throw.
  - destruct fuel as [| fuel]; [simpl in Hfuel; lia |].
    destruct n as [| n]; [discriminate |].
    destruct queue as [| d' queue].
    + rewrite levelOrder_nil in HL. discriminate.
    + pose proof (@levelOrder_shift (S n) [d'] queue) as Hshift.
      change ([d'] ++ queue) with (d' :: queue) in Hshift.
      rewrite HL in Hshift. cbn [flat_map app] in Hshift.
      rewrite app_nil_r in Hshift. injection Hshift as Ed Hrest. subst d'.
      destruct (Hok d0 (or_introl eq_refl)) as [fs Hfs].
      rewrite (listAllNotesLoop_step fuel queue notes Hfs).
      apply (IH fuel _ _ (l2 ++ level files (S n) [d0]) d e).
      * change (L_ (S n) (queue ++ S_ d0))
          with ((queue ++ S_ d0) ++ L_ n (flat_map S_ (queue ++ S_ d0))).
        rewrite <- Hrest, <- app_assoc. reflexivity.
      * intros d' Hd'. apply Hok. now right.
      * exact Hd.
      * simpl in Hfuel. lia.
Qed.

(** What the loop returns is made of the notes it had and of listed names
    that end with the extension. *)
Lemma listAllNotesLoop_notes (fuel : nat) (queue notes res : list string) :
  Api.listAllNotesLoop files fuel queue notes = Some (Ok res) ->
  forall p, In p res ->
    In p notes
    \/ (Js.endsWith p ".md" = true
        /\ exists d fs f,
             files d = Ok fs /\ In f fs /\ Js.endsWith f "/" = false
             /\ p = (Api.prefixOf d ++ f)%string).
Proof.
  revert queue notes. induction fuel as [| fuel IH]; intros queue notes H p Hp.
  - destruct queue; [| discriminate]. injection H as <-. now left.
  - destruct queue as [| d queue]; [injection H as <-; now left |].
    destruct (files d) as [fs |] eqn:Hfs.
    + rewrite (listAllNotesLoop_step fuel queue notes Hfs) in H.
      destruct (IH _ _ H p Hp) as [Hin | Hnew]; [| now right].
      apply in_app_iff in Hin. destruct Hin as [Hin | Hin]; [now left |]. right.
      unfold notesIn, entriesOf, Api.listDir in Hin. rewrite Hfs in Hin. cbn [bind] in Hin.
      apply in_map_iff in Hin. destruct Hin as [e [<- He]].
      apply filter_In in He. destruct He as [He Hmd].
      apply andb_true_iff in Hmd. destruct Hmd as [Hdir Hmd].
      split; [exact Hmd |].
      apply in_map_iff in He. destruct He as [f [<- Hf]].
      unfold Api.entryOf in *. cbn [Api.path Api.isDirectory] in *.
      destruct (Js.endsWith f "/") eqn:Ef; [discriminate |].
      exists d, fs, f. now repeat split.
    + rewrite (listAllNotesLoop_throw fuel queue notes Hfs) in H. discriminate.
Qed.

End Listing.

(** X20.  Every path [listAllNotes] returns ends with [.md] and is
    the prefix of a listed directory followed by a name of its listing that
    has no final slash. *)
Theorem listAllNotes_only_notes
    (files : string -> Result (list string)) (fuel : nat) (notes : list string) :
  Api.listAllNotes files fuel = Some (Ok notes) ->
  forall p, In p notes ->
    Js.endsWith p ".md" = true
    /\ exists d fs f,
         files d = Ok fs /\ In f fs /\ Js.endsWith f "/" = false
         /\ p = (Api.prefixOf d ++ f)%string.
Proof.
  intros H p Hp. destruct (listAllNotesLoop_notes H Hp) as [[] | Hnew]. exact Hnew.
Qed.

(** X21.  [listAllNotes] goes through the directories level by
    level.  When the listings of the first [n] levels succeed and nothing is
    below them it returns, given a counter of at least their number, the
    notes of these directories in that order; when the listing of a directory
    fails and those of the directories before it in that order succeed, it
    throws the error of that listing. *)
Theorem listAllNotes_level_order
    (files : string -> Result (list string)) (n fuel : nat) :
  (level files n [EmptyString] = [] ->
   (forall d, In d (levelOrder files n [EmptyString]) -> exists fs, files d = Ok fs) ->
   List.length (levelOrder files n [EmptyString]) <= fuel ->
   Api.listAllNotes files fuel
   = Some (Ok (flat_map (notesIn files) (levelOrder files n [EmptyString]))))
  /\ (forall l1 l2 d e,
        levelOrder files n [EmptyString] = l1 ++ d :: l2 ->
        (forall d', In d' l1 -> exists fs, files d' = Ok fs) ->
        files d = Throw e ->
        List.length l1 < fuel ->
        Api.listAllNotes files fuel = Some (Throw e)).
Proof.
  split.
  - intros H1 H2 H3. unfold Api.listAllNotes.
    now rewrite (@listAllNotesLoop_levels files n fuel [EmptyString] [] H1 H2 H3).
  - intros l1 l2 d e H1 H2 H3 H4. unfold Api.listAllNotes.
    apply (@listAllNotesLoop_fails files n l1 fuel [EmptyString] [] l2 d e H1 H2 H3 H4).
Qed.

Lemma listAllNotes_only_notes_witness :
  Js.endsWith "Projects/Plan.md" ".md" = true
  /\ exists d fs f,
       exampleServer d = Ok fs /\ In f fs /\ Js.endsWith f "/" = false
       /\ "Projects/Plan.md"%string = (Api.prefixOf d ++ f)%string.
Proof.
  apply (@listAllNotes_only_notes exampleServer 5
           ["Inbox.md"; "Projects/Plan.md"; "Projects/Archive/Old.md"]%string).
  - reflexivity.
  - simpl. tauto.
Defined.

Lemma listAllNotes_level_order_witness :
  Api.listAllNotes exampleServer 3
  = Some (Ok (flat_map (notesIn exampleServer)
                       (levelOrder exampleServer 3 [EmptyString]))).
Proof.
  destruct (@listAllNotes_level_order exampleServer 3 3) as [H _].
  apply H.
  - reflexivity.
  - intros d [<- | [<- | [<- | []]]]; eexists; reflexivity.
  - vm_compute. lia.
Defined.

(** ** The paths of the entries *)

Lemma endsWith_snoc (s : string) (c : ascii) :
  Js.endsWith (s ++ String c EmptyString) (String c EmptyString) = true.
Proof.
  unfold Js.endsWith. rewrite chars_app. cbn [Js.chars list_ascii_of_string rev app].
  rewrite rev_app_distr. simpl. now rewrite Ascii.eqb_refl.
Qed.

Lemma dropLast_snoc (s : string) (c : ascii) :
  Js.dropLast (s ++ String c EmptyString) = s.
Proof.
  unfold Js.dropLast. rewrite chars_app. cbn [Js.chars list_ascii_of_string].
  now rewrite removelast_last, str_chars.
Qed.

Lemma endsWith_app (p s : string) (c : ascii) :
  s <> EmptyString ->
  Js.endsWith (p ++ s) (String c EmptyString) = Js.endsWith s (String c EmptyString).
Proof.
  intro H. unfold Js.endsWith. rewrite chars_app, rev_app_distr.
  cbn [Js.chars list_ascii_of_string rev app].
  destruct (rev (Js.chars s)) as [| a l] eqn:E; [| reflexivity].
  apply (f_equal (@rev ascii)) in E. rewrite rev_involutive in E. simpl in E.
  apply (f_equal Js.str) in E. rewrite str_chars in E. now destruct H.
Qed.

Lemma truthy_app (p s : string) : s <> EmptyString -> Js.truthy (p ++ s) = true.
Proof.
  intro H. apply truthy_nonempty. intro E. destruct p; simpl in E; [| discriminate].
  contradiction.
Qed.

Lemma append_assoc (a b c : string) : ((a ++ b) ++ c = a ++ b ++ c)%string.
Proof. induction a as [| x a IH]; simpl; [reflexivity | now rewrite IH]. Qed.

(** X19.  [listDir] of a directory whose request succeeds: a listed
    name without final slash is a file whose path is the prefix of the
    directory and the name; a listed name [sub/] is a directory whose path is
    the prefix and [sub], and when [sub] is not empty and has no final slash
    the prefix of that directory is the prefix, [sub] and a slash. *)
Theorem listDir_paths (files : string -> Result (list string))
    (dirPath : string) (fs : list string) :
  files dirPath = Ok fs ->
  exists entries,
    Api.listDir files dirPath = Ok entries
    /\ (forall f, In f fs -> Js.endsWith f "/" = false ->
          In (Api.mkVaultFile (Api.prefixOf dirPath ++ f) false) entries)
    /\ (forall sub, In (sub ++ "/")%string fs ->
          In (Api.mkVaultFile (Api.prefixOf dirPath ++ sub) true) entries
          /\ (sub <> EmptyString -> Js.endsWith sub "/" = false ->
              Api.prefixOf (Api.prefixOf dirPath ++ sub)
              = (Api.prefixOf dirPath ++ sub ++ "/")%string)).
Proof.
  intro H. unfold Api.listDir. rewrite H. cbn [bind].
  eexists. split; [reflexivity |]. split.
  - intros f Hf Hd. apply in_map_iff. exists f. split; [| exact Hf].
    unfold Api.entryOf. now rewrite Hd.
  - intros sub Hs. split.
    + apply in_map_iff. exists (sub ++ "/")%string. split; [| exact Hs].
      unfold Api.entryOf. now rewrite endsWith_snoc, dropLast_snoc.
    + intros Hne Hslash. unfold Api.prefixOf at 1.
      rewrite (truthy_app _ Hne), (endsWith_app _ _ Hne), Hslash.
      apply append_assoc.
Qed.

Lemma listDir_paths_witness :
  exists entries,
    Api.listDir exampleServer "Projects" = Ok entries
    /\ In (Api.mkVaultFile "Projects/Plan.md" false) entries
    /\ In (Api.mkVaultFile "Projects/Archive" true) entries
    /\ Api.prefixOf "Projects/Archive" = "Projects/Archive/"%string.
Proof.
  destruct (@listDir_paths exampleServer "Projects" ["Plan.md"; "Archive/"]%string
              eq_refl) as [entries [E [H1 H2]]].
  exists entries. split; [exact E |]. split.
  - apply (H1 "Plan.md"%string); [simpl; tauto | reflexivity].
  - destruct (H2 "Archive"%string) as [H3 H4]; [simpl; tauto |].
    split; [exact H3 |]. apply H4; [discriminate | reflexivity].
Defined.

(** ** A root that lists itself *)

Lemma listAllNotesLoop_root_again (files : string -> Result (list string))
    (fs : list string) :
  files EmptyString = Ok fs -> In "/"%string fs ->
  forall fuel queue notes res,
    In EmptyString queue ->
    Api.listAllNotesLoop files fuel queue notes <> Some (Ok res).
Proof.
  intros Hroot Hin. induction fuel as [| fuel IH]; intros queue notes res Hq.
  - destruct queue; [destruct Hq | discriminate].
  - destruct queue as [| d queue]; [destruct Hq |].
    destruct (files d) as [fs' |] eqn:Hd.
    + rewrite (listAllNotesLoop_step fuel queue notes Hd). apply IH.
      apply in_app_iff. destruct Hq as [-> | Hq]; [right | now left].
      unfold subdirs, entriesOf, Api.listDir. rewrite Hd. cbn [bind].
      assert (fs' = fs) by congruence. subst fs'.
      apply in_map_iff. exists (Api.entryOf (Api.prefixOf EmptyString) "/").
      split; [reflexivity |]. apply filter_In. split; [| reflexivity].
      apply in_map_iff. now exists "/"%string.
    + rewrite (listAllNotesLoop_throw fuel queue notes Hd). discriminate.
Qed.

(** X22.  When the listing of the root holds the name [/], the root
    is queued again each time it is listed: [listAllNotes] returns no result,
    whatever the counter. *)
Theorem listAllNotes_root_lists_itself
    (files : string -> Result (list string)) (fs : list string) :
  files EmptyString = Ok fs -> In "/"%string fs ->
  forall fuel notes, Api.listAllNotes files fuel <> Some (Ok notes).
Proof.
  intros Hroot Hin fuel notes. unfold Api.listAllNotes.
  apply (listAllNotesLoop_root_again Hroot Hin). now left.
Qed.

Lemma listAllNotes_root_lists_itself_witness :
  match Api.listAllNotes (fun _ => Ok ["a.md"; "/"]%string) 50 with
  | Some (Ok _) => False
  | _ => True
  end.
Proof.
  destruct (Api.listAllNotes (fun _ => Ok ["a.md"; "/"]%string) 50)
    as [[notes | e] |] eqn:E; [| exact I | exact I].
  apply (@listAllNotes_root_lists_itself (fun _ => Ok ["a.md"; "/"]%string)
           ["a.md"; "/"]%string eq_refl (or_intror (or_introl eq_refl)) 50 notes E).
Defined.

(* ================================================================== *)
(** * The refresh interval *)
(* ================================================================== *)

Lemma run_eol (m : bool) (y : Regex.pos) :
  Regex.run (Regex.Eol m) y = if Regex.atLineEnd m y then [y] else [].
Proof. reflexivity. Qed.

Lemma run_bol (m : bool) (y : Regex.pos) :
  Regex.run (Regex.Bol m) y = if Regex.atLineStart m y then [y] else [].
Proof. reflexivity. Qed.

(** The unit and the end of the text. *)
Lemma run_unit_end (z : Regex.pos) :
  Regex.run (Regex.Seq unitGroup (Regex.Eol false)) z
  = match unitOf (Regex.after z) with
    | Some u => [Regex.Pos (rev u ++ Regex.before z) [] (Some u)]
    | None => []
    end.
Proof.
  destruct z as [bef l cap]. cbn [Regex.after Regex.before].
  rewrite run_seq. unfold unitGroup. rewrite run_grp, !run_alt.
  change (Regex.lit "ms") with (Regex.Seq (Regex.Chr "m") (Regex.Chr "s")).
  change (Regex.lit "s") with (Regex.Chr "s").
  change (Regex.lit "m") with (Regex.Chr "m").
  change (Regex.lit "h") with (Regex.Chr "h").
  rewrite run_seq_chr.
  destruct l as [| a1 l]; [reflexivity |].
  rewrite !run_chr_cons.
  destruct l as [| a2 l].
  - rewrite run_chr_nil. cbn [unitOf].
    destruct (Ascii.eqb_spec "s" a1) as [<- | Ns]; [reflexivity |].
    destruct (Ascii.eqb_spec "m" a1) as [<- | Nm]; [reflexivity |].
    destruct (Ascii.eqb_spec "h" a1) as [<- | Nh]; [reflexivity |].
    reflexivity.
  - rewrite run_chr_cons. cbn [unitOf].
    destruct l as [| a3 l].
    + destruct (Ascii.eqb_spec "m" a1) as [<- | Nm].
      * destruct (Ascii.eqb_spec "s" a2) as [<- | Ns]; reflexivity.
      * destruct (Ascii.eqb_spec "s" a1) as [<- | Ns]; [reflexivity |].
        destruct (Ascii.eqb_spec "h" a1) as [<- | Nh]; reflexivity.
    + destruct (Ascii.eqb_spec "m" a1) as [<- | Nm].
      * destruct (Ascii.eqb_spec "s" a2) as [<- | Ns]; reflexivity.
      * destruct (Ascii.eqb_spec "s" a1) as [<- | Ns]; [reflexivity |].
        destruct (Ascii.eqb_spec "h" a1) as [<- | Nh]; reflexivity.
Qed.

Lemma digit_not_unit (c : ascii) :
  Main.isDigit c = true ->
  Ascii.eqb "s" c = false /\ Ascii.eqb "m" c = false /\ Ascii.eqb "h" c = false.
Proof. destruct c as [[] [] [] [] [] [] [] []]; vm_compute; intuition congruence. Qed.

Lemma unitOf_digit (c : ascii) (more : list ascii) :
  Main.isDigit c = true -> unitOf (c :: more) = None.
Proof.
  intro H. destruct (digit_not_unit H) as [H1 [H2 H3]].
  destruct more as [| a2 [| a3 more]]; cbn [unitOf]; rewrite ?H1, ?H2, ?H3; reflexivity.
Qed.

Lemma unitOf_Some (l u : list ascii) :
  unitOf l = Some u -> u = l /\ In (Js.str l) intervalUnits.
Proof.
  destruct l as [| a1 [| a2 [| a3 l]]]; cbn [unitOf]; try discriminate.
  - destruct (Ascii.eqb_spec "s" a1) as [<- | Ns];
      [intro H; injection H as <-; split; [reflexivity | simpl; tauto] |].
    destruct (Ascii.eqb_spec "m" a1) as [<- | Nm];
      [intro H; injection H as <-; split; [reflexivity | simpl; tauto] |].
    destruct (Ascii.eqb_spec "h" a1) as [<- | Nh];
      [intro H; injection H as <-; split; [reflexivity | simpl; tauto] |].
    discriminate.
  - destruct (Ascii.eqb_spec "m" a1) as [<- | Nm]; [| discriminate].
    destruct (Ascii.eqb_spec "s" a2) as [<- | Ns]; [| discriminate].
    intro H. injection H as <-. split; [reflexivity | simpl; tauto].
Qed.

Lemma unit_not_digit (u : string) :
  In u intervalUnits ->
  unitOf (Js.chars u) = Some (Js.chars u)
  /\ match Js.chars u with c :: _ => Main.isDigit c = false | [] => True end.
Proof.
  intros [<- | [<- | [<- | [<- | []]]]]; split; reflexivity.
Qed.

Lemma flat_map_map (A B C : Type) (f : B -> list C) (g : A -> B) (l : list A) :
  flat_map f (map g l) = flat_map (fun a => f (g a)) l.
Proof. induction l as [| a l IH]; simpl; [reflexivity | now rewrite IH]. Qed.

(** The expression at the start of a text: the longest run of digits, then a
    unit that ends the text. *)
Lemma run_intervalRegex (aft : list ascii) :
  Regex.run Main.intervalRegex (Regex.Pos [] aft None)
  = match span Main.isDigit aft with
    | 0 => []
    | S k =>
        match unitOf (skipn (S k) aft) with
        | Some u => [Regex.Pos (rev u ++ rev (firstn (S k) aft)) [] (Some u)]
        | None => []
        end
    end.
Proof.
  unfold Main.intervalRegex. cbn [Regex.seqs]. fold unitGroup.
  rewrite run_seq, run_bol. cbn [Regex.atLineStart Regex.before flat_map].
  rewrite app_nil_r, run_seq, run_grp, run_plus_class, map_map, flat_map_map.
  cbn [Regex.after]. rewrite flat_map_countdown1.
  - destruct (span Main.isDigit aft) as [| k] eqn:Es; [reflexivity |].
    rewrite run_unit_end. unfold Regex.setCaptured, advance.
    cbn [Regex.after Regex.before]. now rewrite app_nil_r.
  - intros k Hk1 Hk2. rewrite run_unit_end. unfold Regex.setCaptured, advance.
    cbn [Regex.after Regex.before].
    destruct (span_inside Hk2) as [c [more [E Hc]]]. rewrite E.
    now rewrite (unitOf_digit more Hc).
Qed.

Lemma run_interval_inside (x : Regex.pos) :
  Regex.before x <> [] -> Regex.run Main.intervalRegex x = [].
Proof.
  intro H. unfold Main.intervalRegex. cbn [Regex.seqs]. rewrite run_seq, run_bol.
  rewrite atLineStart_isNil. destruct (Regex.before x); [congruence | reflexivity].
Qed.

Lemma exec_intervalRegex (v : string) :
  Regex.exec Main.intervalRegex v
  = match Regex.run Main.intervalRegex (Regex.Pos [] (Js.chars v) None) with
    | y :: _ => Some (Regex.Pos [] (Js.chars v) None, y)
    | [] => None
    end.
Proof.
  unfold Regex.exec. rewrite search_unfold.
  destruct (Regex.run Main.intervalRegex (Regex.Pos [] (Js.chars v) None));
    [| reflexivity].
  destruct (Js.chars v) as [| c aft]; [reflexivity |].
  apply search_nowhere. intros k Hk. apply run_interval_inside.
  cbn [Regex.before]. now destruct (rev (firstn k aft)).
Qed.

Section IntervalFacts.

Variable number : Type.
Variable constant : nat -> number.
Variable parseInt10 : string -> number.
Variable times : number -> number -> number.

Local Abbreviation parse := (Main.parseInterval constant parseInt10 times).
Local Abbreviation default := (Main.fiveMinutes constant times).

(** A text that is digits and a unit. *)
Lemma parseInterval_unit (ds u : string) :
  isDigits (Js.chars ds) -> In u intervalUnits ->
  parse (Some (ds ++ u)%string)
  = let num := parseInt10 ds in
    if String.eqb u "ms" then num
    else if String.eqb u "s" then times num (constant 1000)
    else if String.eqb u "m" then times (times num (constant 60)) (constant 1000)
    else if String.eqb u "h"
         then times (times (times num (constant 60)) (constant 60)) (constant 1000)
    else default.
Proof.
  intros [Hne Hd] Hu. destruct (unit_not_digit Hu) as [Hunit Hhead].
  unfold Main.parseInterval.
  assert (Ht : Js.truthy (ds ++ u) = true).
  { apply truthy_nonempty. intro E. apply (f_equal Js.chars) in E.
    rewrite chars_app in E. apply app_eq_nil in E. now destruct E. }
  rewrite Ht. cbn [negb]. rewrite exec_intervalRegex, run_intervalRegex, chars_app.
  assert (Hs : span Main.isDigit (Js.chars ds ++ Js.chars u)
               = List.length (Js.chars ds)).
  { apply span_app; [exact Hd |]. destruct (Js.chars u); [exact I | exact Hhead]. }
  rewrite Hs. destruct (List.length (Js.chars ds)) as [| k] eqn:El;
    [destruct (Js.chars ds); [congruence | discriminate] |].
  rewrite <- El, skipn_length_app, Hunit, firstn_length_app.
  unfold Regex.group1, Regex.matched, Regex.between, Regex.remaining.
  cbn [fst snd Regex.after Regex.captured List.length].
  rewrite Nat.sub_0_r, firstn_all, length_app, Nat.add_sub, firstn_length_app.
  now rewrite !str_chars.
Qed.

(** A text the expression matches is digits and a unit. *)
Lemma exec_interval_shape (v : string) (m : Regex.found) :
  Regex.exec Main.intervalRegex v = Some m ->
  exists ds u, isDigits (Js.chars ds) /\ In u intervalUnits /\ v = (ds ++ u)%string.
Proof.
  rewrite exec_intervalRegex, run_intervalRegex. intro H.
  destruct (span Main.isDigit (Js.chars v)) as [| k] eqn:Es; [discriminate |].
  destruct (unitOf (skipn (S k) (Js.chars v))) as [u |] eqn:Eu; [| discriminate].
  apply unitOf_Some in Eu. destruct Eu as [-> Hu].
  exists (Js.str (firstn (S k) (Js.chars v))), (Js.str (skipn (S k) (Js.chars v))).
  split; [| split; [exact Hu |]].
  - rewrite chars_str. split.
    + destruct (Js.chars v); [discriminate | discriminate].
    + rewrite <- Es. apply span_firstn.
  - now rewrite <- str_app, firstn_skipn, str_chars.
Qed.

End IntervalFacts.

(** X23.  [parseInterval]: a missing value gives five minutes; a run
    of digits followed by [ms], [s], [m] or [h] gives the number of the
    digits, times 1000 for [s], times 60 and 1000 for [m], times 60, 60 and
    1000 for [h]; every other text (empty, signed, with a fraction, a space
    or another unit) gives five minutes. *)
Theorem parseInterval_spec
    (number : Type) (constant : nat -> number) (parseInt10 : string -> number)
    (times : number -> number -> number) :
  let parse := Main.parseInterval constant parseInt10 times in
  let default := Main.fiveMinutes constant times in
  parse None = default
  /\ (forall ds, isDigits (Js.chars ds) ->
        parse (Some (ds ++ "ms")%string) = parseInt10 ds
        /\ parse (Some (ds ++ "s")%string) = times (parseInt10 ds) (constant 1000)
        /\ parse (Some (ds ++ "m")%string)
           = times (times (parseInt10 ds) (constant 60)) (constant 1000)
        /\ parse (Some (ds ++ "h")%string)
           = times (times (times (parseInt10 ds) (constant 60)) (constant 60))
                   (constant 1000))
  /\ (forall v,
        (forall ds u, isDigits (Js.chars ds) -> In u intervalUnits ->
                      v <> (ds ++ u)%string) ->
        parse (Some v) = default).
Proof.
  intros parse default. split; [reflexivity |]. split.
  - intros ds Hd. subst parse. repeat split.
    + now rewrite (@parseInterval_unit _ constant parseInt10 times ds "ms" Hd)
        by (simpl; tauto).
    + now rewrite (@parseInterval_unit _ constant parseInt10 times ds "s" Hd)
        by (simpl; tauto).
    + now rewrite (@parseInterval_unit _ constant parseInt10 times ds "m" Hd)
        by (simpl; tauto).
    + now rewrite (@parseInterval_unit _ constant parseInt10 times ds "h" Hd)
        by (simpl; tauto).
  - intros v Hv. subst parse default. unfold Main.parseInterval.
    destruct (negb (Js.truthy v)); [reflexivity |].
    destruct (Regex.exec Main.intervalRegex v) as [m |] eqn:E; [| reflexivity].
    apply exec_interval_shape in E. destruct E as [ds [u [Hd [Hu E]]]].
    now destruct (Hv ds u Hd Hu).
Qed.

Lemma parseInterval_spec_witness :
  Main.parseInterval Z.of_nat
    (fun s => if String.eqb s "30" then 30%Z else 0%Z) Z.mul
    (Some "30s"%string) = 30000%Z
  /\ Main.parseInterval Z.of_nat
       (fun s => if String.eqb s "30" then 30%Z else 0%Z) Z.mul
       (Some "soon"%string) = 300000%Z.
Proof.
  destruct (@parseInterval_spec Z Z.of_nat
              (fun s => if String.eqb s "30" then 30%Z else 0%Z) Z.mul)
    as [_ [H1 H2]].
  split.
  - destruct (H1 "30"%string) as [_ [H _]].
    + split; [discriminate | repeat constructor].
    + exact H.
  - apply H2. intros ds u [Hne Hd] _ E.
    destruct ds as [| c ds]; [now destruct Hne |].
    simpl in E. injection E as <- _. inversion Hd as [| ? ? Hc _]. discriminate Hc.
Defined.

(* ================================================================== *)
(** * The graph the tools read *)
(* ================================================================== *)

Lemma tryBuild_fails (graph : Graph) (v : Vault) (now : Z) (e : Exn) :
  listAllNotes v = Throw e -> Main.tryBuild graph (v, now) = graph.
Proof.
  intro H. unfold Main.tryBuild. cbn [fst snd].
  now rewrite (buildGraph_throw now graph H).
Qed.

Lemma tryBuild_succeeds (graph : Graph) (v : Vault) (now : Z) (paths : list string) :
  listAllNotes v = Ok paths ->
  snapshot v now = Ok (Main.tryBuild graph (v, now))
  /\ builtFrom v paths (Main.tryBuild graph (v, now)).
Proof.
  intro H. destruct (buildGraph_ok now graph H) as [g [E [_ B]]].
  unfold Main.tryBuild. cbn [fst snd]. rewrite E. cbn [snd].
  split; [| exact B]. unfold buildGraph in E.
  destruct (snapshot v now) as [g' | e]; [| discriminate]. now injection E as ->.
Qed.

Lemma fold_tryBuild_fail (attempts : list (Vault * Z)) (graph : Graph) :
  (forall a, In a attempts -> exists e, listAllNotes (fst a) = Throw e) ->
  fold_left Main.tryBuild attempts graph = graph.
Proof.
  revert graph. induction attempts as [| [v now] attempts IH]; intros graph H;
    [reflexivity |].
  cbn [fold_left]. destruct (H (v, now) (or_introl eq_refl)) as [e He].
  cbn [fst] in He. rewrite (tryBuild_fails graph now He).
  apply IH. intros a Ha. apply H. now right.
Qed.

(** X24.  The graph the tools read after any sequence of builds
    whose errors are caught: the initial empty graph when every listing
    failed, otherwise the snapshot of the last build whose listing succeeded;
    in every case a graph whose adjacency maps have the keys of its nodes and
    whose adjacency sets hold only nodes. *)
Theorem published_is_last_snapshot (attempts : list (Vault * Z)) :
  ((forall a, In a attempts -> exists e, listAllNotes (fst a) = Throw e) ->
   Main.published attempts = emptyGraph)
  /\ (forall l1 l2 v now paths,
        attempts = l1 ++ (v, now) :: l2 ->
        listAllNotes v = Ok paths ->
        (forall a, In a l2 -> exists e, listAllNotes (fst a) = Throw e) ->
        snapshot v now = Ok (Main.published attempts)
        /\ builtFrom v paths (Main.published attempts))
  /\ sameKeys (Main.published attempts)
  /\ (forall k s x,
        In (k, s) (edges (Main.published attempts))
        \/ In (k, s) (reverseEdges (Main.published attempts)) ->
        In x s -> JsMap.has x (nodes (Main.published attempts)) = true).
Proof.
  assert (Hlast : forall l1 l2 v now paths,
            attempts = l1 ++ (v, now) :: l2 ->
            listAllNotes v = Ok paths ->
            (forall a, In a l2 -> exists e, listAllNotes (fst a) = Throw e) ->
            snapshot v now = Ok (Main.published attempts)
            /\ builtFrom v paths (Main.published attempts)).
  { intros l1 l2 v now paths -> HL Hl2. unfold Main.published.
    rewrite fold_left_app. cbn [fold_left]. rewrite (@fold_tryBuild_fail l2 _ Hl2).
    now apply tryBuild_succeeds. }
  split; [intro H; now apply (@fold_tryBuild_fail attempts emptyGraph) |]. split; [exact Hlast |].
  assert (Hcases : (forall a, In a attempts -> exists e, listAllNotes (fst a) = Throw e)
                   \/ exists l1 l2 v now paths,
                        attempts = l1 ++ (v, now) :: l2
                        /\ listAllNotes v = Ok paths
                        /\ forall a, In a l2 -> exists e, listAllNotes (fst a) = Throw e).
  { clear Hlast. induction attempts as [| [v now] attempts IH]; [left; intros a [] |].
    destruct IH as [Hall | [l1 [l2 [v' [now' [paths [-> [HL Hl2]]]]]]]].
    - destruct (listAllNotes v) as [paths | e] eqn:HL.
      + right. exists [], attempts, v, now, paths. now repeat split.
      + left. intros a [<- | Ha]; [now exists e | now apply Hall].
    - right. exists ((v, now) :: l1), l2, v', now', paths. now repeat split. }
  destruct Hcases as [Hall | [l1 [l2 [v [now [paths [E [HL Hl2]]]]]]]].
  - rewrite (@fold_tryBuild_fail attempts emptyGraph Hall : Main.published attempts = emptyGraph).
    split; [split; reflexivity |]. intros k s x [[] | []].
  - destruct (Hlast l1 l2 v now paths E HL Hl2) as [_ B].
    split; [apply (builtFrom_sameKeys B) |]. intros k s x. apply (builtFrom_closed B).
Qed.

Lemma published_is_last_snapshot_witness :
  Main.published [(scenarioVault, 0%Z); (mkVault (Throw (RequestFailed "down")) (fun _ => Ok EmptyString), 5%Z)]
  = scenarioGraph.
Proof.
  destruct (@published_is_last_snapshot
              [(scenarioVault, 0%Z);
               (mkVault (Throw (RequestFailed "down")) (fun _ => Ok EmptyString), 5%Z)])
    as [_ [H _]].
  destruct (H [] [(mkVault (Throw (RequestFailed "down")) (fun _ => Ok EmptyString), 5%Z)]
              scenarioVault 0%Z ["A.md"; "B.md"; "C.md"]%string eq_refl eq_refl)
    as [E _].
  - intros a [<- | []]. now exists (RequestFailed "down").
  - unfold scenarioGraph. now rewrite E.
Defined.

(* ================================================================== *)
(** * The targets of links *)
(* ================================================================== *)

Lemma trimStart_suffix (l : list ascii) :
  exists pre, l = pre ++ Js.trimStart l.
Proof.
  induction l as [| c l IH]; [now exists [] |]. cbn [Js.trimStart].
  destruct (Js.isWhiteSpace c); [| now exists []].
  destruct IH as [pre E]. exists (c :: pre). cbn [app]. now rewrite <- E.
Qed.

Lemma trimStart_head (l : list ascii) :
  match Js.trimStart l with
  | c :: _ => Js.isWhiteSpace c = false
  | [] => True
  end.
Proof.
  induction l as [| c l IH]; [exact I |]. cbn [Js.trimStart].
  destruct (Js.isWhiteSpace c) eqn:E; [exact IH | exact E].
Qed.

Lemma trimStart_fixed (l : list ascii) :
  match l with c :: _ => Js.isWhiteSpace c = false | [] => True end ->
  Js.trimStart l = l.
Proof. destruct l as [| c l]; [reflexivity |]. cbn [Js.trimStart]. now intros ->. Qed.

Lemma trimStart_idem (l : list ascii) : Js.trimStart (Js.trimStart l) = Js.trimStart l.
Proof. apply trimStart_fixed, trimStart_head. Qed.

Lemma trimEnd_idem (l : list ascii) : Js.trimEnd (Js.trimEnd l) = Js.trimEnd l.
Proof. unfold Js.trimEnd. now rewrite rev_involutive, trimStart_idem. Qed.

Lemma trimEnd_prefix (l : list ascii) : exists post, l = Js.trimEnd l ++ post.
Proof.
  unfold Js.trimEnd. destruct (trimStart_suffix (rev l)) as [pre E].
  exists (rev pre). apply (f_equal (@rev ascii)) in E.
  now rewrite rev_involutive, rev_app_distr in E.
Qed.

(** Removing the white space at the end of a text that does not begin with
    white space leaves a text that does not begin with white space. *)
Lemma trimEnd_head (l : list ascii) :
  match l with c :: _ => Js.isWhiteSpace c = false | [] => True end ->
  match Js.trimEnd l with c :: _ => Js.isWhiteSpace c = false | [] => True end.
Proof.
  intro H. destruct (trimEnd_prefix l) as [post E].
  destruct (Js.trimEnd l) as [| c m] eqn:Et; [exact I |].
  rewrite E in H. exact H.
Qed.

Lemma trim_chars (s : string) :
  Js.chars (Js.trim s) = Js.trimEnd (Js.trimStart (Js.chars s)).
Proof. unfold Js.trim. apply chars_str. Qed.

Lemma trim_idem (s : string) : Js.trim (Js.trim s) = Js.trim s.
Proof.
  unfold Js.trim at 1. rewrite trim_chars.
  rewrite (trimStart_fixed (trimEnd_head (trimStart_head (Js.chars s)))).
  now rewrite trimEnd_idem.
Qed.

Lemma trim_Forall (P : ascii -> Prop) (s : string) :
  Forall P (Js.chars s) -> Forall P (Js.chars (Js.trim s)).
Proof.
  intro H. rewrite trim_chars.
  destruct (trimStart_suffix (Js.chars s)) as [pre E]. rewrite E in H.
  apply Forall_app in H. destruct H as [_ H].
  destruct (trimEnd_prefix (Js.trimStart (Js.chars s))) as [post E'].
  rewrite E' in H. apply Forall_app in H. tauto.
Qed.

Lemma linkAt_target (text target rest : list ascii) :
  linkAt text target rest -> isTarget target.
Proof. now destruct 1. Qed.

Lemma scans_linkable (text : list ascii) (targets : list string) :
  scans text targets -> forall t, In t targets -> linkable t.
Proof.
  induction 1 as [| text target rest targets HL Hs IH | c text targets Hno Hs IH];
    intros t Ht.
  - destruct Ht.
  - destruct Ht as [<- | Ht]; [| now apply IH].
    apply linkAt_target in HL. destruct HL as [_ HF]. split.
    + apply trim_Forall. now rewrite chars_str.
    + apply trim_idem.
  - now apply IH.
Qed.

Lemma parseWikilinks_linkable (content t : string) :
  In t (parseWikilinks content) -> linkable t.
Proof.
  apply (@scans_linkable (Js.chars content)).
  unfold parseWikilinks, Regex.matchAll. apply matchesFrom_scans. lia.
Qed.

(** X5.  Every target [parseWikilinks] returns is without closing
    bracket, pipe and hash and without white space at its ends; so in a
    snapshot a forward set holds only such names, and a node whose name is
    not one (that of a file [C#.md], say) has no incoming link. *)
Theorem only_plain_names_are_linked :
  (forall content t, In t (parseWikilinks content) -> linkable t)
  /\ (forall v now graph g,
        fst (buildGraph v now graph) = Ok g ->
        (forall s t, In t (adjacent (edges g) s) -> linkable t)
        /\ (forall k, ~ linkable k ->
              adjacent (reverseEdges g) k = []
              /\ degree (reverseEdges g) k = 0)).
Proof.
  split; [apply parseWikilinks_linkable |].
  intros v now graph g Hg. destruct (buildGraph_inv Hg) as [paths [_ [B _]]].
  assert (Hfwd : forall s t, In t (adjacent (edges g) s) -> linkable t).
  { intros s t Ht. apply (bf_forward B) in Ht.
    destruct Ht as [[p [c [_ [_ [_ Hin]]]]] _]. apply (parseWikilinks_linkable Hin). }
  split; [exact Hfwd |]. intros k Hk.
  assert (Hrev : adjacent (reverseEdges g) k = []).
  { destruct (adjacent (reverseEdges g) k) as [| s l] eqn:E; [reflexivity |].
    destruct Hk. apply (Hfwd s). apply (bf_reverse B). rewrite E. now left. }
  split; [exact Hrev |]. now rewrite degree_length, Hrev.
Qed.

Lemma only_plain_names_are_linked_witness :
  JsMap.has "C#"%string (nodes sharpGraph) = true
  /\ parseWikilinks "[[C#]] [[C#|see]]" = ["C"%string]
  /\ adjacent (reverseEdges sharpGraph) "C#" = [].
Proof.
  destruct only_plain_names_are_linked as [_ H].
  destruct (H sharpVault 0%Z emptyGraph sharpGraph eq_refl) as [_ H2].
  split; [reflexivity |]. split; [reflexivity |].
  apply (H2 "C#"%string). intros [HF _]. vm_compute in HF.
  inversion HF as [| ? ? _ HF']. inversion HF' as [| ? ? Hc _]. discriminate Hc.
Defined.

(* ================================================================== *)
(** * The contents read in batches *)
(* ================================================================== *)

Lemma storeResults_keys (v : Vault) (l : list string) (nc : JsMap.t string) :
  JsMap.keys (storeResults v nc l)
  = fold_left (fun s x => JsSet.add x s) (filter (readable v) l) (JsMap.keys nc).
Proof.
  revert nc. induction l as [| p l IH]; intro nc; [reflexivity |].
  unfold storeResults in *. cbn [fold_left filter]. unfold readable at 1.
  destruct (readNote v p) as [c | e]; [| apply IH].
  cbn [fold_left]. now rewrite IH, map_keys_set.
Qed.

(** X6.  The batches of [buildGraph] lose no path: the contents map
    has an entry for a path exactly when the path is listed and its read
    succeeded, with the content read; its keys are the listed paths whose
    read succeeds, in the order in which the listing meets them first; and
    it has at most as many entries as the listing has paths. *)
Theorem readAll_keeps_every_read (v : Vault) (paths : list string) :
  (forall p c, JsMap.get p (readAll v paths) = Some c <->
               In p paths /\ readNote v p = Ok c)
  /\ JsMap.keys (readAll v paths) = JsSet.ofList (filter (readable v) paths)
  /\ JsMap.size (readAll v paths) <= List.length paths.
Proof.
  assert (K : JsMap.keys (readAll v paths)
              = JsSet.ofList (filter (readable v) paths)).
  { rewrite readAll_storeResults. apply storeResults_keys. }
  split; [intros p c; apply readAll_get |]. split; [exact K |].
  unfold JsMap.size. rewrite <- (length_map fst). fold (JsMap.keys (readAll v paths)).
  rewrite K. destruct (ofList_length (filter (readable v) paths)) as [H _].
  unfold JsSet.size in H. pose proof (filter_length_le (readable v) paths). lia.
Qed.

(* ================================================================== *)
(** * The scenario of the specification, and a few texts *)
(* ================================================================== *)

Example scenario_nodes :
  JsMap.keys (nodes scenarioGraph) = ["A"; "B"; "C"]%string.
Proof. reflexivity. Qed.

Example scenario_edges :
  edges scenarioGraph
  = [("A", ["B"; "C"]); ("B", ["A"]); ("C", [])]%string
  /\ reverseEdges scenarioGraph
     = [("A", ["B"]); ("B", ["A"]); ("C", ["A"])]%string.
Proof. split; reflexivity. Qed.

Example scenario_related :
  queryRelated scenarioGraph "A" (Js.ofNat 1)
  = [mkRelated "B" "B.md" 1; mkRelated "C" "C.md" 1].
Proof. reflexivity. Qed.

Example scenario_path :
  findPath scenarioGraph "B" "C" = Some ["B"; "A"; "C"]%string.
Proof. reflexivity. Qed.

Example scenario_orphans : getOrphans scenarioGraph = [].
Proof. reflexivity. Qed.

Example scenario_hubs :
  getHubs scenarioGraph (Js.ofNat 1) = [mkHub "A" "A.md" 2 1 3].
Proof. reflexivity. Qed.

(** [slice] with an end that is negative or has a fraction. *)
Example scenario_hubs_slice :
  List.length (getHubs scenarioGraph (Js.ofZ (-1))) = 2
  /\ List.length (getHubs scenarioGraph (Js.Finite (5 # 2))) = 2
  /\ getHubs scenarioGraph (Js.Finite (-1 # 2)) = [].
Proof. repeat split; reflexivity. Qed.

Example scenario_tags :
  getClusters scenarioGraph ByTag
  = [ (untaggedLabel, [mkNote "B" "B.md"; mkNote "C" "C.md"]);
      ("x"%string, [mkNote "A" "A.md"]) ].
Proof. reflexivity. Qed.

Example names_and_folders :
  nameFromPath "Infrastructure/Obsidian Stack - Reference.md"
  = "Obsidian Stack - Reference"%string
  /\ folderFromPath "Infrastructure/Obsidian Stack - Reference.md"
     = "Infrastructure"%string
  /\ folderFromPath "a/b/c.md" = "a/b"%string
  /\ folderFromPath "c.md" = EmptyString.
Proof. repeat split; reflexivity. Qed.

(** A pipe or a hash ends the target; a closing bracket alone inside the
    brackets, or a pipe without a display text after it, leaves no match; a
    target of white space is trimmed to the empty string. *)
Example wikilink_texts :
  parseWikilinks "[[ B |shown]] [[C#part]] [[D#part|shown]]"
  = ["B"; "C"; "D"]%string
  /\ parseWikilinks "[[A]B]] [[E|]] [[|x]]" = []
  /\ parseWikilinks "[[ ]] [[a[[b]]" = [EmptyString; "a[[b"%string].
Proof. repeat split; reflexivity. Qed.
